(** * Structure estimators of the Bayesian-network classifier

    A shallow embedding of [estimators.py]: the tree-augmented search
    ([TreeAugmentedNaiveBayesSearch]) and the constraint-based search
    ([BNAugmentedNaiveBayesSearch]) together with the conditional
    mutual-information scorer they share.

    Conventions of the embedding.
    - A column of the data frame is a list of integer-coded values; a data
      frame is an ordered list of named columns carrying the default
      positional index.
    - Scores are rationals.  Every finite float is a rational and the
      program only adds, multiplies, divides and compares scores; rounding
      of the arithmetic is not modelled.
    - [mutual_info_score] belongs to scikit-learn, not to this program: it
      is a parameter of the development (a [Section] variable).
    - The graph operations of networkx are modelled by their documented
      behaviour, iteration orders included.
    - Raised exceptions are values of [outcome]; loops that the program
      writes as [while True] take a fuel argument and answer [Timeout] when
      it runs out. *)

From Stdlib Require Import List Bool Arith ZArith QArith Lia String Permutation.
From Stdlib Require Import Sorted.
From Stdlib Require Import Qfield.
Import ListNotations.

Open Scope Z_scope.
Open Scope Q_scope.
Open Scope list_scope.

(** ** Outcomes of a call *)

Inductive error : Type :=
| ValueError        (* builtin; also raised by scikit-learn and pgmpy *)
| IndexError        (* builtin: pop from an empty list, column 0 of nothing *)
| KeyError          (* pandas: no such column *)
| IndexingError     (* pandas: unalignable boolean indexer *)
| NetworkXError     (* networkx: node or edge not in the graph *)
| NodeNotFound.     (* networkx: source or target of a path query missing *)

Inductive outcome (A : Type) : Type :=
| Ret (a : A)
| Raise (e : error)
| Timeout.

Arguments Ret {A} a.
Arguments Raise {A} e.
Arguments Timeout {A}.

Definition bind {A B : Type} (m : outcome A) (k : A -> outcome B) : outcome B :=
  match m with
  | Ret a => k a
  | Raise e => Raise e
  | Timeout => Timeout
  end.

Notation "x <- m ;; k" := (bind m (fun x => k))
  (at level 61, m at next level, right associativity).
Notation "' p <- m ;; k" := (bind m (fun p => k))
  (at level 61, p pattern, m at next level, right associativity).

Definition returns {A : Type} (m : outcome A) : Prop := exists a, m = Ret a.

(** A [while True] loop: [step] runs the body once from the state at the
    loop head and either leaves the loop with a result ([inl]) or reaches
    the loop head again ([inr]). *)
Fixpoint while_true {S R : Type} (step : S -> outcome (R + S)) (fuel : nat)
                    (s : S) : outcome R :=
  match fuel with
  | O => Timeout
  | S f =>
      r <- step s ;;
      match r with
      | inl result => Ret result
      | inr s' => while_true step f s'
      end
  end.

(** ** Columns and data frames *)

Definition node := string.
Definition column := list Z.
Definition frame := list (node * column).

Definition node_eqb : node -> node -> bool := String.eqb.

Definition node_dec : forall a b : node, {a = b} + {a <> b} := string_dec.

Definition mem (n : node) (l : list node) : bool := existsb (node_eqb n) l.

Definition frame_columns (df : frame) : list node := map fst df.

(** [df[name]]: the column called [name]. *)
Fixpoint get_column (df : frame) (name : node) : outcome column :=
  match df with
  | [] => Raise KeyError
  | (n, c) :: rest => if node_eqb n name then Ret c else get_column rest name
  end.

(** [df[names]]: the columns called [names], in that order, repeats kept. *)
Fixpoint get_columns (df : frame) (names : list node) : outcome (list column) :=
  match names with
  | [] => Ret []
  | n :: rest =>
      c <- get_column df n ;;
      cs <- get_columns df rest ;;
      Ret (c :: cs)
  end.

(** [cond == i] *)
Definition eq_mask (cond : column) (i : Z) : list bool :=
  map (fun x => Z.eqb x i) cond.

(** [np.sum(mask)] *)
Definition mask_sum (mask : list bool) : nat :=
  List.length (filter (fun b => b) mask).

(** The rows of [xi] that the mask keeps. *)
Fixpoint select (xi : column) (mask : list bool) : column :=
  match xi, mask with
  | x :: xs, b :: bs => if b then x :: select xs bs else select xs bs
  | _, _ => []
  end.

(** [xi[mask]] for a boolean series: pandas aligns the mask on the index of
    [xi]; a mask that does not cover that index is refused, the surplus of
    a longer mask is dropped. *)
Definition bool_index (xi : column) (mask : list bool) : outcome column :=
  if (List.length mask <? List.length xi)%nat then Raise IndexingError
  else Ret (select xi mask).

(** [cond.unique()]: the observed values, in order of first appearance. *)
Fixpoint unique_from (seen : list Z) (cond : column) : list Z :=
  match cond with
  | [] => []
  | x :: rest =>
      if existsb (Z.eqb x) seen then unique_from seen rest
      else x :: unique_from (x :: seen) rest
  end.

Definition unique (cond : column) : list Z := unique_from [] cond.

(** [count / len] as a score. *)
Definition ratio (count len : nat) : Q :=
  inject_Z (Z.of_nat count) / inject_Z (Z.of_nat len).

Definition Qsum (l : list Q) : Q := fold_right Qplus 0 l.

(** ** The scorer *)

Section Scorer.

(** scikit-learn's [mutual_info_score] on two label arrays of one length. *)
Variable mutual_info_score : column -> column -> Q.

(** The call as the program makes it: scikit-learn refuses label arrays
    of different lengths. *)
Definition sk_mutual_info_score (xi xj : column) : outcome Q :=
  if (List.length xi =? List.length xj)%nat
  then Ret (mutual_info_score xi xj)
  else Raise ValueError.

(** The inner loop of [conditional_mutual_info_score]:
    [for i in unique_condition_values]. *)
Fixpoint cmi_values (xi xj cond : column) (values : list Z) (acc : Q)
  : outcome Q :=
  match values with
  | [] => Ret acc
  | i :: rest =>
      let condition_proba :=
        ratio (mask_sum (eq_mask cond i)) (List.length cond) in
      xs <- bool_index xi (eq_mask cond i) ;;
      ys <- bool_index xj (eq_mask cond i) ;;
      m <- sk_mutual_info_score xs ys ;;
      cmi_values xi xj cond rest (acc + m * condition_proba)
  end.

(** The outer loop: [for _, cond in conditions.iteritems()]. *)
Fixpoint cmi_columns (xi xj : column) (conditions : list column) (acc : Q)
  : outcome Q :=
  match conditions with
  | [] => Ret acc
  | cond :: rest =>
      acc' <- cmi_values xi xj cond (unique cond) acc ;;
      cmi_columns xi xj rest acc'
  end.

Definition conditional_mutual_info_score
  (xi xj : column) (c : list column) : outcome Q :=
  if (List.length c =? 0)%nat then sk_mutual_info_score xi xj
  else cmi_columns xi xj c 0.

(** *** The scorer as the specification words it *)

(** The rows of [x] at which the conditioning column holds [i]. *)
Definition rows_where (x c : column) (i : Z) : column :=
  map fst (filter (fun p => Z.eqb (snd p) i) (combine x c)).

(** Empirical probability that the conditioning column holds [i]. *)
Definition empirical_probability (c : column) (i : Z) : Q :=
  ratio (count_occ Z.eq_dec c i) (List.length c).

(** The values some row of [c] holds. *)
Definition observed_values (c : column) : list Z := nodup Z.eq_dec c.

(** What one observed value of a conditioning column contributes. *)
Definition value_term (x y c : column) (i : Z) : Q :=
  empirical_probability c i
  * mutual_info_score (rows_where x c i) (rows_where y c i).

(** The contribution of one conditioning column, taken on its own. *)
Definition column_term (x y c : column) : Q :=
  Qsum (map (value_term x y c) (observed_values c)).

Definition cmi_spec (x y : column) (cs : list column) : Q :=
  match cs with
  | [] => mutual_info_score x y
  | _ => Qsum (map (column_term x y) cs)
  end.

End Scorer.

(** ** Comparing scores *)

Definition Qltb (a b : Q) : bool := negb (Qle_bool b a).

(** ** The undirected working graph

    A networkx [Graph] keeps, for every node, its neighbours in the order
    in which the edges touching the node were added.  The embedding keeps
    the nodes in insertion order and the edges in insertion order; the
    neighbour lists and the order of [graph.edges] are read off these. *)

Definition attr := option Q.                 (* the [weight] of an edge, if set *)
Definition edge := (node * node * attr)%type.

Record Graph : Type := mkGraph {
  g_nodes : list node;
  g_edges : list edge
}.

Definition empty_graph : Graph := mkGraph [] [].

(** Does the stored edge [e] join [u] and [v] (in either direction)? *)
Definition joins (u v : node) (e : edge) : bool :=
  let '(a, b, _) := e in
  (node_eqb a u && node_eqb b v) || (node_eqb a v && node_eqb b u).

Definition has_edge (g : Graph) (u v : node) : bool :=
  existsb (joins u v) (g_edges g).

Definition add_node (g : Graph) (n : node) : Graph :=
  if mem n (g_nodes g) then g else mkGraph (g_nodes g ++ [n]) (g_edges g).

Definition add_nodes_from (g : Graph) (ns : list node) : Graph :=
  fold_left add_node ns g.

(** [attrs.update(...)]: a given weight replaces the stored one. *)
Definition update_attr (old new : attr) : attr :=
  match new with
  | Some w => Some w
  | None => old
  end.

(** [graph.add_edge(u, v)] and [graph.add_edge(u, v, weight=w)]: both ends
    become nodes; an edge already there keeps its place. *)
Definition add_edge (g : Graph) (u v : node) (w : attr) : Graph :=
  let g1 := add_node (add_node g u) v in
  if has_edge g1 u v
  then mkGraph (g_nodes g1)
         (map (fun e => if joins u v e
                        then (fst (fst e), snd (fst e), update_attr (snd e) w)
                        else e)
              (g_edges g1))
  else mkGraph (g_nodes g1) (g_edges g1 ++ [(u, v, w)]).

Definition remove_edge (g : Graph) (u v : node) : outcome Graph :=
  if has_edge g u v
  then Ret (mkGraph (g_nodes g)
              (filter (fun e => negb (joins u v e)) (g_edges g)))
  else Raise NetworkXError.

(** The neighbours of [n], in adjacency order. *)
Fixpoint adj_of (es : list edge) (n : node) : list node :=
  match es with
  | [] => []
  | (a, b, _) :: rest =>
      if node_eqb a n then b :: adj_of rest n
      else if node_eqb b n then a :: adj_of rest n
      else adj_of rest n
  end.

Definition adj (g : Graph) (n : node) : list node := adj_of (g_edges g) n.

(** [nx.neighbors(graph, n)] *)
Definition neighbors (g : Graph) (n : node) : outcome (list node) :=
  if mem n (g_nodes g) then Ret (adj g n) else Raise NetworkXError.

(** [len(graph.edges)] and [len(graph.nodes)] *)
Definition number_of_edges (g : Graph) : nat := List.length (g_edges g).
Definition number_of_nodes (g : Graph) : nat := List.length (g_nodes g).

(** [list(graph.edges)]: every node in turn reports the neighbours that
    have not reported yet. *)
Fixpoint edges_from (g : Graph) (seen todo : list node) : list (node * node) :=
  match todo with
  | [] => []
  | n :: rest =>
      map (fun nbr => (n, nbr)) (filter (fun nbr => negb (mem nbr seen)) (adj g n))
      ++ edges_from g (n :: seen) rest
  end.

Definition edges_view (g : Graph) : list (node * node) :=
  edges_from g [] (g_nodes g).

(** *** Paths *)

(** Search for a path from [u] to [target] through nodes not yet visited;
    [next] lists the nodes one step away. *)
Fixpoint reach (fuel : nat) (next : node -> list node) (target : node)
                (visited : list node) (u : node) : bool :=
  node_eqb u target ||
  match fuel with
  | O => false
  | S f =>
      existsb (fun w => negb (mem w visited) && reach f next target (w :: visited) w)
              (next u)
  end.

Definition connected (g : Graph) (s t : node) : bool :=
  reach (number_of_nodes g) (adj g) t [s] s.

(** [nx.has_path(graph, s, t)] *)
Definition has_path (g : Graph) (s t : node) : outcome bool :=
  if mem s (g_nodes g) && mem t (g_nodes g)
  then Ret (connected g s t)
  else Raise NodeNotFound.

(** The simple paths from the current node [u] to [target], depth first in
    adjacency order; [visited] is the path so far, last node first. *)
Fixpoint simple_paths (fuel : nat) (g : Graph) (target : node)
                       (visited : list node) (u : node) : list (list node) :=
  match fuel with
  | O => []
  | S f =>
      flat_map (fun child =>
                  if mem child visited then []
                  else if node_eqb child target then [rev (child :: visited)]
                  else simple_paths f g target (child :: visited) child)
               (adj g u)
  end.

(** [list(nx.all_simple_paths(graph, source=s, target=t))] *)
Definition all_simple_paths (g : Graph) (s t : node) : outcome (list (list node)) :=
  if mem s (g_nodes g) && mem t (g_nodes g)
  then Ret (if node_eqb s t then []
            else simple_paths (number_of_nodes g) g t [s] s)
  else Raise NodeNotFound.

(** [path[1:-1]] *)
Definition inner (path : list node) : list node := removelast (tl path).

(** ** Candidate edges *)

Definition candidate := (node * node * Q)%type.

Definition score_of (t : candidate) : Q := snd t.

(** [L.sort(key=lambda tup: tup[2], reverse=True)]: a stable sort, larger
    scores first, equal scores in their original order. *)
Fixpoint insert_desc (x : candidate) (l : list candidate) : list candidate :=
  match l with
  | [] => [x]
  | y :: rest =>
      if Qltb (score_of x) (score_of y) then y :: insert_desc x rest
      else x :: y :: rest
  end.

Definition sort_desc (l : list candidate) : list candidate :=
  fold_right insert_desc [] l.

(** [L.pop(i)] for [0 <= i < len(L)]: the list without its [i]-th entry. *)
Fixpoint remove_nth {A : Type} (i : nat) (l : list A) : list A :=
  match i, l with
  | _, [] => []
  | O, _ :: rest => rest
  | S k, x :: rest => x :: remove_nth k rest
  end.

(** The variables of the drafting scan at a loop head:
    [graph], [L], [i], [lenght]. *)
Definition scan_state := (Graph * list candidate * Z * Z)%type.

Definition scan_graph (s : scan_state) : Graph := fst (fst (fst s)).
Definition scan_list (s : scan_state) : list candidate := snd (fst (fst s)).

(** [self.data.loc[:, self.data.columns != self.class_node]] *)
Definition features (data : frame) (class_node : node) : frame :=
  filter (fun p => negb (node_eqb (fst p) class_node)) data.

(** ** Directed graphs and the traversal trees *)

Record DiGraph : Type := mkDiGraph {
  d_nodes : list node;
  d_edges : list (node * node)
}.

Definition arc_eqb (e1 e2 : node * node) : bool :=
  node_eqb (fst e1) (fst e2) && node_eqb (snd e1) (snd e2).

Definition d_add_node (d : DiGraph) (n : node) : DiGraph :=
  if mem n (d_nodes d) then d else mkDiGraph (d_nodes d ++ [n]) (d_edges d).

Definition d_add_edge (d : DiGraph) (u v : node) : DiGraph :=
  let d1 := d_add_node (d_add_node d u) v in
  if existsb (arc_eqb (u, v)) (d_edges d1) then d1
  else mkDiGraph (d_nodes d1) (d_edges d1 ++ [(u, v)]).

Definition d_add_edges_from (d : DiGraph) (es : list (node * node)) : DiGraph :=
  fold_left (fun d e => d_add_edge d (fst e) (snd e)) es d.

(** The heads of the arcs of [es] that leave [u]. *)
Definition arcs_next (es : list (node * node)) (u : node) : list node :=
  map snd (filter (fun e => node_eqb (fst e) u) es).

Definition successors (d : DiGraph) (u : node) : list node :=
  arcs_next (d_edges d) u.

Definition predecessors (d : DiGraph) (v : node) : list node :=
  map fst (filter (fun e => node_eqb (snd e) v) (d_edges d)).

Definition out_degree (d : DiGraph) (u : node) : nat := List.length (successors d u).
Definition in_degree (d : DiGraph) (v : node) : nat := List.length (predecessors d v).

(** The loop shared by [nx.dfs_edges] and [nx.bfs_edges].  The work list
    holds the discovered nodes with the neighbours each has still to look
    at.  The head of the list looks at its next neighbour; a neighbour seen
    for the first time gives a tree edge and joins the work list, at the
    front for a depth-first search, at the back for a breadth-first one. *)
Fixpoint traverse (depth_first : bool) (fuel : nat) (g : Graph)
                  (work : list (node * list node)) (visited : list node)
                  (tree : list (node * node)) : outcome (list (node * node)) :=
  match work with
  | [] => Ret tree
  | (parent, children) :: waiting =>
      match fuel with
      | O => Timeout
      | S f =>
          match children with
          | [] => traverse depth_first f g waiting visited tree
          | child :: others =>
              if mem child visited
              then traverse depth_first f g ((parent, others) :: waiting) visited tree
              else
                let work' :=
                  if depth_first
                  then (child, adj g child) :: (parent, others) :: waiting
                  else ((parent, others) :: waiting) ++ [(child, adj g child)] in
                traverse depth_first f g work' (child :: visited)
                         (tree ++ [(parent, child)])
          end
      end
  end.

(** Steps the traversal can take at most. *)
Definition traverse_fuel (g : Graph) : nat :=
  2 * number_of_edges g + 2 * number_of_nodes g + 1.

Definition search_tree (depth_first : bool) (g : Graph) (source : node)
  : outcome DiGraph :=
  if mem source (g_nodes g)
  then
    tree <- traverse depth_first (traverse_fuel g) g
                     [(source, adj g source)] [source] [] ;;
    Ret (d_add_edges_from (d_add_node (mkDiGraph [] []) source) tree)
  else Raise NetworkXError.

(** [nx.dfs_tree(graph, source)] and [nx.bfs_tree(graph, source)] *)
Definition dfs_tree : Graph -> node -> outcome DiGraph := search_tree true.
Definition bfs_tree : Graph -> node -> outcome DiGraph := search_tree false.

(** pgmpy's [DAG(digraph)] refuses a graph with a directed cycle. *)
Definition has_cycle (d : DiGraph) : bool :=
  existsb (fun e => reach (List.length (d_nodes d)) (successors d) (fst e)
                          [snd e] (snd e))
          (d_edges d).

Definition DAG (d : DiGraph) : outcome DiGraph :=
  if has_cycle d then Raise ValueError else Ret d.

(** [for node in df_features.columns: digraph.add_edge(class_node, node)] *)
Definition attach_class (d : DiGraph) (class_node : node) (cols : list node)
  : DiGraph :=
  fold_left (fun d n => d_add_edge d class_node n) cols d.

(** [df_features.columns[0]] *)
Definition first_column (df : frame) : outcome node :=
  match df with
  | [] => Raise IndexError
  | (n, _) :: _ => Ret n
  end.

(** The variables of the loop of [try_to_separate_a] at a loop head:
    [c], [v], [skip_step], [n2_used]. *)
Definition separate_a_state := (list node * Q * bool * bool)%type.

(** [np.argmin(values)]: the first position holding the least value. *)
Fixpoint argmin_from (best : Q) (best_i i : nat) (l : list Q) : nat :=
  match l with
  | [] => best_i
  | x :: rest =>
      if Qltb x best then argmin_from x i (S i) rest
      else argmin_from best best_i (S i) rest
  end.

Definition argmin (l : list Q) : outcome nat :=
  match l with
  | [] => Raise ValueError
  | x :: rest => Ret (argmin_from x 0 1 rest)
  end.

(** [[n for n in c if n != node]] *)
Definition without (c : list node) (n : node) : list node :=
  filter (fun m => negb (node_eqb m n)) c.

(** [c_prime.remove(i)]: the first occurrence goes. *)
Fixpoint remove_first (n : node) (l : list node) : list node :=
  match l with
  | [] => []
  | m :: rest => if node_eqb m n then rest else m :: remove_first n rest
  end.

(** [node in n1_neighbors] where [n1_neighbors] is a list of neighbour
    lists: the test compares a column name with each list, and a string is
    never equal to a list. *)
Definition str_eq_list (n : node) (l : list node) : bool := false.

Definition mem_in_lists (n : node) (ls : list (list node)) : bool :=
  existsb (str_eq_list n) ls.

(** The loop over the inner nodes of the simple paths that fills [n1] and
    [n2] in [try_to_separate_a], [try_to_separate_b]. *)
Definition on_paths (paths : list (list node)) (keep1 keep2 : node -> bool)
  : list node * list node :=
  fold_left
    (fun acc path =>
       fold_left
         (fun '(n1, n2) nd =>
            let n1 := if keep1 nd then n1 ++ [nd] else n1 in
            let n2 := if keep2 nd then n2 ++ [nd] else n2 in
            (n1, n2))
         (inner path) acc)
    paths ([], []).

(** [[list(nx.neighbors(graph, n)) for n in ns]] *)
Fixpoint neighbor_lists (g : Graph) (ns : list node) : outcome (list (list node)) :=
  match ns with
  | [] => Ret []
  | n :: rest =>
      l <- neighbors g n ;;
      ls <- neighbor_lists g rest ;;
      Ret (l :: ls)
  end.

(** ** The constraint-based search *)

Section BNAugmentedNaiveBayesSearch.

Variable mutual_info_score : column -> column -> Q.

(** The fields of the estimator object. *)
Variable data : frame.
Variable class_node : node.
Variable epsilon : Q.

(** [self.conditional_mutual_info_score(self.data[node1],
      self.data[node2], self.data[c])] *)
Definition score_given (node1 node2 : node) (c : list node) : outcome Q :=
  xi <- get_column data node1 ;;
  xj <- get_column data node2 ;;
  cs <- get_columns data c ;;
  conditional_mutual_info_score mutual_info_score xi xj cs.

(** *** Drafting *)

(** The inner loop [for j in range(i + 1, total_cols)].  The columns of
    one data frame have one length, so the scorer is called directly. *)
Fixpoint pairs_with (from_node : node) (xi : column) (later : frame)
  : list candidate :=
  match later with
  | [] => []
  | (to_node, xj) :: rest =>
      let mi := mutual_info_score xi xj in
      if Qltb epsilon mi
      then (from_node, to_node, mi) :: pairs_with from_node xi rest
      else pairs_with from_node xi rest
  end.

(** The outer loop [for i in range(total_cols)]. *)
Fixpoint candidate_pairs (cols : frame) : list candidate :=
  match cols with
  | [] => []
  | (from_node, xi) :: later =>
      pairs_with from_node xi later ++ candidate_pairs later
  end.

(** One pass through the body of the [while i < lenght] scan: [None]
    when the loop is left (its test fails or it reaches [break]), else
    the state at the next loop head. *)
Definition scan_step (s : scan_state) : outcome (option scan_state) :=
  let '(graph, L, i, lenght) := s in
  if (i <? lenght)%Z then
    match nth_error L (Z.to_nat i) with
    | None => Raise IndexError
    | Some (from_node, to_node, mi) =>
        if (Z.of_nat (number_of_edges graph) - 1
            =? Z.of_nat (number_of_nodes graph))%Z
        then Ret None
        else
          p <- has_path graph from_node to_node ;;
          if negb p
          then Ret (Some (add_edge graph from_node to_node (Some mi),
                          remove_nth (Z.to_nat i) L,
                          (i - 1 + 1)%Z, (lenght - 1)%Z))
          else Ret (Some (graph, L, (i + 1)%Z, lenght))
    end
  else Ret None.

(** The scan: the loop body repeated until the loop is left. *)
Fixpoint draft_scan (fuel : nat) (s : scan_state)
  : outcome (Graph * list candidate) :=
  next <- scan_step s ;;
  match next with
  | None => Ret (scan_graph s, scan_list s)
  | Some s' =>
      match fuel with
      | O => Timeout
      | S f => draft_scan f s'
      end
  end.

(** The loop heads the scan passes after [s]. *)
Inductive scan_reaches (s : scan_state) : scan_state -> Prop :=
| reaches_here : scan_reaches s s
| reaches_later (s' s'' : scan_state) :
    scan_reaches s s' -> scan_step s' = Ret (Some s'') -> scan_reaches s s''.

Definition draft : outcome (Graph * list candidate) :=
  let df_features := features data class_node in
  let graph := add_nodes_from empty_graph (frame_columns df_features) in
  let L := sort_desc (candidate_pairs df_features) in
  match L with
  | [] => Raise IndexError
  | (from_node, to_node, mi) :: L =>
      let graph := add_edge graph from_node to_node (Some mi) in
      match L with
      | [] => Raise IndexError
      | (from_node, to_node, mi) :: L =>
          let graph := add_edge graph from_node to_node (Some mi) in
          draft_scan (List.length L)
                     (graph, L, 0%Z, Z.of_nat (List.length L))
      end
  end.

(** *** The separation tests *)

(** The candidate conditioning sets of the shrink step of
    [try_to_separate_a] and their scores: [for node in graph.nodes]. *)
Fixpoint shrink_candidates (node1 node2 : node) (c : list node)
                           (nodes : list node)
  : outcome (list Q * list (list node)) :=
  match nodes with
  | [] => Ret ([], [])
  | nd :: rest =>
      let ci := without c nd in
      vi <- score_given node1 node2 ci ;;
      '(values, conditions) <- shrink_candidates node1 node2 c rest ;;
      Ret (vi :: values, ci :: conditions)
  end.

(** The body of the [while True] loop of [try_to_separate_a], from the
    variables [c], [v], [skip_step], [n2_used] at the loop head.  [v] is
    unbound until the first pass has set it; the first pass never reads
    it. *)
Definition separate_a_step (graph : Graph) (node1 node2 : node)
                           (n2 : list node) (s : separate_a_state)
  : outcome (bool + separate_a_state) :=
  let '(c, v, skip_step, n2_used) := s in
  scored <- (if negb skip_step
             then v' <- score_given node1 node2 c ;;
                  Ret (v', Qltb v' epsilon)
             else Ret (v, false)) ;;
  let '(v, separated) := scored in
  if separated then Ret (inl true)
  else if (List.length c =? 1)%nat then
    if negb n2_used
    then Ret (inr (n2, v, false, true))
    else Ret (inl false)
  else
    '(values, conditions) <-
       shrink_candidates node1 node2 c (g_nodes graph) ;;
    min_index <- argmin values ;;
    let vm := nth min_index values 0 in
    let cm := nth min_index conditions [] in
    if Qltb vm epsilon then Ret (inl true)
    else if Qltb v vm then
      if negb n2_used
      then Ret (inr (n2, v, false, true))
      else Ret (inl false)
    else Ret (inr (cm, vm, true, n2_used)).

(** The lists [n1] and [n2] of [try_to_separate_a], the shorter first. *)
Definition separate_a_start (graph : Graph) (node1 node2 : node)
  : outcome (list node * list node) :=
  node1_neighbors <- neighbors graph node1 ;;
  node2_neighbors <- neighbors graph node2 ;;
  paths <- all_simple_paths graph node1 node2 ;;
  let '(n1, n2) :=
    on_paths paths (fun nd => mem nd node1_neighbors)
                   (fun nd => mem nd node2_neighbors) in
  Ret (if (List.length n2 <? List.length n1)%nat then (n2, n1) else (n1, n2)).

Definition try_to_separate_a (fuel : nat) (graph : Graph) (node1 node2 : node)
  : outcome bool :=
  '(n1, n2) <- separate_a_start graph node1 node2 ;;
  while_true (separate_a_step graph node1 node2 n2) fuel
             (n1, 0, false, false).

(** The [for i in c] loop of [try_to_separate_b]: [None] when some single
    removal already separates the pair, else the shrunken [c_prime]. *)
Fixpoint drop_members (node1 node2 : node) (c : list node) (v : Q)
                      (todo c_prime : list node)
  : outcome (option (list node)) :=
  match todo with
  | [] => Ret (Some c_prime)
  | i :: rest =>
      let ci := without c i in
      vi <- score_given node1 node2 ci ;;
      if Qltb vi epsilon then Ret None
      else if Qle_bool vi (v + epsilon) && mem i c_prime
      then drop_members node1 node2 c v rest (remove_first i c_prime)
      else drop_members node1 node2 c v rest c_prime
  end.

(** The body of the [while True] loop of [try_to_separate_b], from the
    conditioning set [c] at the loop head. *)
Definition separate_b_step (node1 node2 : node) (c : list node)
  : outcome (bool + list node) :=
  v <- score_given node1 node2 c ;;
  if Qltb v epsilon then Ret (inl true)
  else
    dropped <- drop_members node1 node2 c v c c ;;
    match dropped with
    | None => Ret (inl true)
    | Some c_prime =>
        if (List.length c_prime <? List.length c)%nat
        then Ret (inr c_prime)
        else Ret (inl false)
    end.

(** The sets [n1], [n1_prime], [n2], [n2_prime] of [try_to_separate_b]. *)
Definition separate_b_sets (graph : Graph) (node1 node2 : node)
  : outcome ((list node * list node) * (list node * list node)) :=
  node1_neighbors <- neighbors graph node1 ;;
  node2_neighbors <- neighbors graph node2 ;;
  paths <- all_simple_paths graph node1 node2 ;;
  let '(n1, n2) :=
    on_paths paths (fun nd => mem nd node1_neighbors)
                   (fun nd => mem nd node2_neighbors) in
  n1_neighbors <- neighbor_lists graph n1 ;;
  let n1_prime :=
    fst (on_paths paths
           (fun nd => mem_in_lists nd n1_neighbors && negb (mem nd n1))
           (fun _ => false)) in
  n2_neighbors <- neighbor_lists graph n2 ;;
  let n2_prime :=
    fst (on_paths paths
           (fun nd => mem_in_lists nd n2_neighbors && negb (mem nd n2))
           (fun _ => false)) in
  Ret ((n1, n1_prime), (n2, n2_prime)).

(** The conditioning set [try_to_separate_b] starts from. *)
Definition separate_b_start (graph : Graph) (node1 node2 : node)
  : outcome (list node) :=
  '((n1, n1_prime), (n2, n2_prime)) <- separate_b_sets graph node1 node2 ;;
  if (List.length n1 + List.length n1_prime
      <? List.length n2 + List.length n2_prime)%nat
  then Ret (n1 ++ n1_prime)
  else Ret (n2 ++ n2_prime).

Definition try_to_separate_b (fuel : nat) (graph : Graph) (node1 node2 : node)
  : outcome bool :=
  c <- separate_b_start graph node1 node2 ;;
  while_true (separate_b_step node1 node2) fuel c.

(** *** Thickening and thinning *)

Fixpoint thicken (fuel : nat) (graph : Graph) (L : list candidate)
  : outcome Graph :=
  match L with
  | [] => Ret graph
  | (from_node, to_node, mi) :: rest =>
      separated <- try_to_separate_a fuel graph from_node to_node ;;
      if negb separated
      then thicken fuel (add_edge graph from_node to_node (Some mi)) rest
      else thicken fuel graph rest
  end.

(** One thinning pass over [edges = list(graph.edges)]. *)
Fixpoint thin (separate : Graph -> node -> node -> outcome bool)
              (graph : Graph) (edges : list (node * node)) : outcome Graph :=
  match edges with
  | [] => Ret graph
  | (from_node, to_node) :: rest =>
      graph <- remove_edge graph from_node to_node ;;
      p <- has_path graph from_node to_node ;;
      keep <- (if p
               then separated <- separate graph from_node to_node ;;
                    Ret (negb separated)
               else Ret false) ;;
      if keep
      then thin separate (add_edge graph from_node to_node None) rest
      else thin separate graph rest
  end.

(** Drafting, thickening and the two thinning passes. *)
Definition skeleton (fuel : nat) : outcome Graph :=
  '(graph, L) <- draft ;;
  graph <- thicken fuel graph L ;;
  graph <- thin (try_to_separate_a fuel) graph (edges_view graph) ;;
  thin (try_to_separate_b fuel) graph (edges_view graph).

(** The directed result built from the final skeleton. *)
Definition orient (graph : Graph) : outcome DiGraph :=
  let df_features := features data class_node in
  root <- first_column df_features ;;
  digraph <- dfs_tree graph root ;;
  DAG (attach_class digraph class_node (frame_columns df_features)).

Definition estimate (fuel : nat) : outcome DiGraph :=
  if negb (mem class_node (frame_columns data)) then Raise ValueError
  else
    graph <- skeleton fuel ;;
    orient graph.

End BNAugmentedNaiveBayesSearch.

(** ** Orienting one pair

    [orient_edge] is kept in the class although [estimate] no longer calls
    it. *)

Section EdgeOrientation.

Variable mutual_info_score : column -> column -> Q.

(** The fields of the estimator object. *)
Variable data : frame.
Variable class_node : node.
Variable epsilon : Q.

(** The lists [n1], [n1_prime], [n2], [n2_prime] of [orient_edge]: [n1]
    and [n2] are filled only for a pair that is not an edge and has a
    common neighbour. *)
Definition orient_sets (graph : Graph) (s1 s2 : node)
  : outcome ((list node * list node) * (list node * list node)) :=
  s1_neighbors <- neighbors graph s1 ;;
  s2_neighbors <- neighbors graph s2 ;;
  let inter :=
    nodup node_dec (filter (fun n => mem n s2_neighbors) s1_neighbors) in
  paths <- all_simple_paths graph s1 s2 ;;
  let '(n1, n2) :=
    if negb (has_edge graph s1 s2) && (0 <? List.length inter)%nat
    then on_paths paths (fun nd => mem nd s1_neighbors)
                        (fun nd => mem nd s2_neighbors)
    else ([], []) in
  n1_neighbors <- neighbor_lists graph n1 ;;
  n2_neighbors <- neighbor_lists graph n2 ;;
  let '(n1_prime, n2_prime) :=
    on_paths paths
             (fun nd => negb (mem nd n1) && mem_in_lists nd n1_neighbors)
             (fun nd => negb (mem nd n2) && mem_in_lists nd n2_neighbors) in
  Ret ((n1, n1_prime), (n2, n2_prime)).

(** The conditioning set [orient_edge] starts from. *)
Definition orient_start (graph : Graph) (s1 s2 : node) : outcome (list node) :=
  '((n1, n1_prime), (n2, n2_prime)) <- orient_sets graph s1 s2 ;;
  if (List.length n1 + List.length n1_prime
      <? List.length n2 + List.length n2_prime)%nat
  then Ret (n1 ++ n1_prime)
  else Ret (n2 ++ n2_prime).

(** The [for i in c] loop of [orient_edge]: [inl] when the function
    returns from inside the loop, else [c_prime] and the arcs so far. *)
Fixpoint orient_members (s1 s2 : node) (c : list node) (v : Q)
                        (todo c_prime : list node)
                        (oriented_edges : list (node * node))
  : outcome (list (node * node) + (list node * list (node * node))) :=
  match todo with
  | [] => Ret (inr (c_prime, oriented_edges))
  | i :: rest =>
      let ci := without c i in
      vi <- score_given mutual_info_score data s1 s2 ci ;;
      if Qle_bool vi (v + epsilon)
      then orient_members s1 s2 c v rest (without c_prime i)
                          (oriented_edges ++ [(s1, i); (s2, i)])
      else if Qle_bool vi epsilon then Ret (inl oriented_edges)
      else orient_members s1 s2 c v rest c_prime oriented_edges
  end.

(** The body of the [while True] loop of [orient_edge], from [c] and
    [oriented_edges] at the loop head. *)
Definition orient_edge_step (s1 s2 : node)
                            (s : list node * list (node * node))
  : outcome (list (node * node) + (list node * list (node * node))) :=
  let '(c, oriented_edges) := s in
  v <- score_given mutual_info_score data s1 s2 c ;;
  if Qltb v epsilon then Ret (inl oriented_edges)
  else
    r <- orient_members s1 s2 c v c c oriented_edges ;;
    match r with
    | inl result => Ret (inl result)
    | inr (c_prime, oriented_edges) =>
        if (List.length c_prime <? List.length c)%nat
        then Ret (inr (c_prime, oriented_edges))
        else Ret (inl oriented_edges)
    end.

Definition orient_edge (fuel : nat) (graph : Graph) (s1 s2 : node)
  : outcome (list (node * node)) :=
  c <- orient_start graph s1 s2 ;;
  while_true (orient_edge_step s1 s2) fuel (c, []).

End EdgeOrientation.

(** ** The tree-augmented search *)

(** The attributes of the edge joining [u] and [v]. *)
Definition edge_attr (g : Graph) (u v : node) : attr :=
  match find (joins u v) (g_edges g) with
  | Some e => snd e
  | None => None
  end.

(** [d.get("weight", 1)] *)
Definition weight_of (a : attr) : Q :=
  match a with
  | Some w => w
  | None => 1
  end.

(** [nx.maximum_spanning_tree(graph)], Kruskal's algorithm: the edges in
    the order of [graph.edges], sorted stably with the heavier first; an
    edge is taken when its ends lie in two different subtrees. *)
Definition kruskal_take (g tree : Graph) (e : candidate) : Graph :=
  let '(u, v, _) := e in
  if connected tree u v then tree
  else add_edge tree u v (edge_attr g u v).

Definition maximum_spanning_tree (g : Graph) : Graph :=
  let edges :=
    sort_desc (map (fun e => (fst e, snd e,
                              weight_of (edge_attr g (fst e) (snd e))))
                   (edges_view g)) in
  fold_left (kruskal_take g) edges (mkGraph (g_nodes g) []).

(** [if self.root_node:] holds of a name that is given and not empty. *)
Definition truthy (root_node : option node) : bool :=
  match root_node with
  | Some r => negb (node_eqb r EmptyString)
  | None => false
  end.

Module TreeAugmentedNaiveBayesSearch.

Section Estimator.

Variable mutual_info_score : column -> column -> Q.

(** The fields of the estimator object. *)
Variable data : frame.
Variable class_node : node.
Variable root_node : option node.

(** The inner loop [for j in range(i + 1, total_cols)].  The columns of
    one data frame have one length, so the scorer is called directly. *)
Fixpoint join_later (graph : Graph) (from_node : node) (xi : column)
                    (later : frame) : Graph :=
  match later with
  | [] => graph
  | (to_node, xj) :: rest =>
      let graph := add_node graph to_node in
      let mi := mutual_info_score xi xj in
      join_later (add_edge graph from_node to_node (Some mi))
                 from_node xi rest
  end.

(** The outer loop [for i in range(total_cols)]. *)
Fixpoint join_all (graph : Graph) (cols : frame) : Graph :=
  match cols with
  | [] => graph
  | (from_node, xi) :: later =>
      join_all (join_later (add_node graph from_node) from_node xi later)
               later
  end.

Definition estimate : outcome DiGraph :=
  if negb (mem class_node (frame_columns data)) then Raise ValueError
  else if match root_node with
          | Some r => negb (mem r (frame_columns data))
          | None => false
          end
  then Raise ValueError
  else
    let df_features := features data class_node in
    let graph := join_all empty_graph df_features in
    let tree := maximum_spanning_tree graph in
    digraph <- (if truthy root_node
                then match root_node with
                     | Some r => bfs_tree tree r
                     | None => Raise ValueError
                     end
                else root <- first_column df_features ;;
                     bfs_tree tree root) ;;
    DAG (attach_class digraph class_node (frame_columns df_features)).

End Estimator.

End TreeAugmentedNaiveBayesSearch.

(** The weight the tree search gives a pair of feature columns: the
    [weight] of their edge in the complete graph it builds. *)
Definition pair_weight (mutual_info_score : column -> column -> Q)
                       (df_features : frame) (a b : node) : Q :=
  weight_of (edge_attr (TreeAugmentedNaiveBayesSearch.join_all
                          mutual_info_score empty_graph df_features) a b).

(** The edges weighing [w] or more. *)
Definition heavier (w : Q) (es : list edge) : list edge :=
  filter (fun e => Qle_bool w (weight_of (snd e))) es.

(** ** Trees as graphs without cycles *)

(** The nodes one arc of [es] away from [u], in either direction. *)
Definition either_way (es : list (node * node)) (u : node) : list node :=
  arcs_next es u ++ map fst (filter (fun e => node_eqb (snd e) u) es).

(** Two nodes joined by an arc of [es], in either direction. *)
Definition linked (es : list (node * node)) (u v : node) : Prop :=
  In (u, v) es \/ In (v, u) es.

(** Each node of [l] is linked to the next. *)
Fixpoint linked_path (es : list (node * node)) (l : list node) : Prop :=
  match l with
  | u :: (v :: _) as rest => linked es u v /\ linked_path es rest
  | _ => True
  end.

(** A cycle of the undirected graph under the arcs [es]: three or more
    distinct nodes, each linked to the next and the last to the first. *)
Definition cycle (es : list (node * node)) (l : list node) : Prop :=
  (3 <= List.length l)%nat /\ NoDup l /\ linked_path es l
  /\ linked es (last l EmptyString) (hd EmptyString l).

(** ** Connectivity *)

(** [conn next u v]: some walk along [next] leads from [u] to [v]. *)
Inductive conn (next : node -> list node) : node -> node -> Prop :=
| conn_refl (u : node) : conn next u u
| conn_step (u w v : node) : In w (next u) -> conn next w v -> conn next u v.

(** [chain next u p]: the nodes of [p] follow one another along [next],
    starting after [u]. *)
Fixpoint chain (next : node -> list node) (u : node) (p : list node) : Prop :=
  match p with
  | [] => True
  | w :: rest => In w (next u) /\ chain next w rest
  end.

(** The number of classes of the relation [R] among the nodes [l]: a node
    counts when no later node is related to it. *)
Fixpoint n_comp (R : node -> node -> bool) (l : list node) : nat :=
  match l with
  | [] => O
  | x :: rest => (if existsb (R x) rest then 0 else 1) + n_comp R rest
  end.

(** The number of connected components of a graph. *)
Definition components (g : Graph) : nat := n_comp (connected g) (g_nodes g).

(** Every node is listed once and every edge joins two nodes. *)
Definition well_formed (g : Graph) : Prop :=
  NoDup (g_nodes g) /\
  forall a b w, In (a, b, w) (g_edges g) -> In a (g_nodes g) /\ In b (g_nodes g).

(** A graph without cycles: every edge joined two components. *)
Definition forest (g : Graph) : Prop :=
  well_formed g /\
  (components g + number_of_edges g = number_of_nodes g)%nat.

(** All nodes of the graph are joined by paths. *)
Definition spanning_connected (g : Graph) : Prop :=
  forall u v, In u (g_nodes g) -> In v (g_nodes g) -> connected g u v = true.

(** ** Auxiliary readings of the traversal *)

(** A tree grown from [root] by hanging one new node at a time under a
    node already in the tree. *)
Inductive grown (root : node) : list (node * node) -> Prop :=
| grown_nil : grown root []
| grown_snoc (tree : list (node * node)) (p c : node) :
    grown root tree ->
    In p (root :: map snd tree) ->
    ~ In c (root :: map snd tree) ->
    grown root (tree ++ [(p, c)]).

(** What holds of the work list, the visited nodes and the tree edges at
    every pass of the traversal. *)
Definition traverse_invariant (g : Graph) (root : node)
  (work : list (node * list node)) (visited : list node)
  (tree : list (node * node)) : Prop :=
  visited = rev (map snd tree) ++ [root]
  /\ grown root tree
  /\ (forall p c, In (p, c) tree -> In c (adj g p))
  /\ (forall p ch, In (p, ch) work -> In p visited /\ incl ch (adj g p))
  /\ (forall v w, In v visited -> In w (adj g v) ->
                  In w visited \/ exists ch, In (v, ch) work /\ In w ch).

(** The work list of a depth-first search is a branch of the tree: every
    node waiting in it leads down the tree to the nodes before it. *)
Fixpoint branch (tree : list (node * node)) (work : list (node * list node))
  : Prop :=
  match work with
  | [] => True
  | (p, _) :: waiting =>
      (forall w ch, In (w, ch) waiting -> conn (arcs_next tree) w p)
      /\ branch tree waiting
  end.

(** The neighbours a node of the work list has looked at already are
    visited. *)
Definition looked_at (g : Graph) (work : list (node * list node))
                     (visited : list node) : Prop :=
  forall p ch, In (p, ch) work ->
               exists seen, adj g p = seen ++ ch /\ incl seen visited.

(** No edge of the graph runs across the tree: an edge between two nodes
    of the tree joins a node and one below it. *)
Definition no_cross_edge (g : Graph) (root : node)
                         (tree : list (node * node)) : Prop :=
  forall u v, In u (root :: map snd tree) -> In v (root :: map snd tree) ->
              In v (adj g u) ->
              conn (arcs_next tree) u v \/ conn (arcs_next tree) v u.

(** The neighbours are taken in their order: when the arc [(p, c)] joined
    the tree, the neighbours of [p] before [c] were in the tree. *)
Definition in_neighbour_order (g : Graph) (root : node)
                              (tree : list (node * node)) : Prop :=
  forall t1 p c t2,
    tree = t1 ++ (p, c) :: t2 ->
    exists l1 l2, adj g p = l1 ++ c :: l2 /\ incl l1 (root :: map snd t1).

(** The work still to do: the neighbours waiting in the work list and the
    nodes not yet visited. *)
Definition work_weight (work : list (node * list node)) : nat :=
  fold_right (fun e n => (1 + List.length (snd e) + n)%nat) O work.

Definition unvisited_weight (g : Graph) (ns visited : list node) : nat :=
  fold_right (fun v n => ((if mem v visited then 0
                           else 2 + List.length (adj g v)) + n)%nat) O ns.

(** The first position of [x] in [l] (the length of [l] when absent). *)
Fixpoint index_of (x : node) (l : list node) : nat :=
  match l with
  | [] => O
  | y :: rest => if node_eqb y x then O else S (index_of x rest)
  end.

(** The sum of the degrees of the nodes [ns]. *)
Definition degree_sum (es : list edge) (ns : list node) : nat :=
  fold_right (fun v n => (List.length (adj_of es v) + n)%nat) O ns.

(** The arcs of a directed graph that join two feature columns. *)
Definition feature_edges (d : DiGraph) (class_node : node)
  : list (node * node) :=
  filter (fun e => negb (node_eqb (fst e) class_node)
                   && negb (node_eqb (snd e) class_node))
         (d_edges d).

(** ** Auxiliary readings of the drafting stage *)

(** All positions [i < j] of a list, as the double loop visits them. *)
Fixpoint all_pairs {A : Type} (l : list A) : list (A * A) :=
  match l with
  | [] => []
  | x :: rest => map (pair x) rest ++ all_pairs rest
  end.

(** The pairs of feature columns whose mutual information exceeds the
    threshold. *)
Definition dependent_pairs (mutual_info_score : column -> column -> Q)
                           (epsilon : Q) (df : frame)
  : list ((node * column) * (node * column)) :=
  filter (fun p => Qltb epsilon (mutual_info_score (snd (fst p)) (snd (snd p))))
         (all_pairs df).

(** The candidate a pair of columns gives. *)
Definition as_candidate (mutual_info_score : column -> column -> Q)
  (p : (node * column) * (node * column)) : candidate :=
  (fst (fst p), fst (snd p), mutual_info_score (snd (fst p)) (snd (snd p))).

(** Larger scores first. *)
Definition sorted_desc (l : list candidate) : Prop :=
  StronglySorted (fun x y => score_of y <= score_of x) l.

(** The candidates scoring above a threshold. *)
Definition above (threshold : Q) (c : candidate) : bool :=
  Qltb threshold (score_of c).

(** Both ends of a candidate are among the nodes [ns]. *)
Definition endpoints_in (ns : list node) (c : candidate) : Prop :=
  In (fst (fst c)) ns /\ In (snd (fst c)) ns.

(** What holds at every loop head of the drafting scan: the graph is a
    forest over the feature columns, the candidates join its nodes, and
    the index stays within the list. *)
Definition scan_invariant (s : scan_state) : Prop :=
  let '(graph, L, i, lenght) := s in
  forest graph /\ g_nodes graph <> []
  /\ Forall (endpoints_in (g_nodes graph)) L
  /\ (0 <= i <= lenght)%Z /\ lenght = Z.of_nat (List.length L).

(** The pair [u], [v] is one of the candidates, in either order. *)
Definition proposed (cands : list candidate) (u v : node) : Prop :=
  exists m, In (u, v, m) cands \/ In (v, u, m) cands.

(** ** Auxiliary readings of the whole search *)

(** An outcome that is no raised error. *)
Definition quiet {A : Type} (m : outcome A) : Prop := forall e, m <> Raise e.

(** Every column of the table has the same number of rows, as the columns
    of a data frame have. *)
Definition rectangular (df : frame) : Prop :=
  forall n1 c1 n2 c2,
    In (n1, c1) df -> In (n2, c2) df -> List.length c1 = List.length c2.

(** No edge twice and no loop: the neighbours of a node are distinct and
    the node is not one of them. *)
Definition simple (g : Graph) : Prop :=
  forall u, NoDup (adj g u) /\ ~ In u (adj g u).

(** No pair twice in the list, in either order. *)
Definition pairs_apart (es : list (node * node)) : Prop :=
  NoDup es /\ forall u v, In (u, v) es -> ~ In (v, u) es.

(** Did the scan reach its [break]? *)
Definition scan_break (graph : Graph) : bool :=
  (Z.of_nat (number_of_edges graph) - 1 =? Z.of_nat (number_of_nodes graph))%Z.

(** The scan of the drafting stage as a recursion on the candidates it has
    still to look at; [kept] are the candidates it has passed over. *)
Fixpoint scan_rest (graph : Graph) (kept rest : list candidate)
  : outcome (Graph * list candidate) :=
  match rest with
  | [] => Ret (graph, kept)
  | (from_node, to_node, mi) :: later =>
      if scan_break graph then Ret (graph, kept ++ rest)
      else
        p <- has_path graph from_node to_node ;;
        if negb p
        then scan_rest (add_edge graph from_node to_node (Some mi)) kept later
        else scan_rest graph (kept ++ [(from_node, to_node, mi)]) later
  end.

(** ** A sample scorer

    The worked examples need scores.  [sample_score] is the empirical
    mutual information (natural logarithm) with the logarithm cut after
    twelve terms of its series in [(r - 1) / (r + 1)]; it is exact on
    independent columns (score 0) and within a thousandth on the tables
    used below, whose decisions all have a wide margin. *)

Fixpoint odd_series (z2 : Q) (j terms : nat) : Q :=
  match terms with
  | O => 0
  | S t => Qred ((1 # Pos.of_nat (2 * j + 1)) + z2 * odd_series z2 (S j) t)
  end.

Definition ln_series (r : Q) : Q :=
  let z := Qred ((r - 1) / (r + 1)) in
  Qred (2 * z * odd_series (Qred (z * z)) 0 12).

Definition count_pair (x y : column) (a b : Z) : nat :=
  List.length (filter (fun p => Z.eqb (fst p) a && Z.eqb (snd p) b) (combine x y)).

Definition pair_dec (p q : Z * Z) : {p = q} + {p <> q}.
Proof. decide equality; apply Z.eq_dec. Defined.

Definition sample_score (x y : column) : Q :=
  let n := List.length x in
  Qred (Qsum (map (fun p =>
                     let nab := count_pair x y (fst p) (snd p) in
                     ratio nab n
                     * ln_series (ratio (nab * n)
                                        (count_occ Z.eq_dec x (fst p)
                                         * count_occ Z.eq_dec y (snd p))))
                  (nodup pair_dec (combine x y)))).

(** ** Sample tables *)

Open Scope string_scope.

(** Two independent bits [B], [C] and their pair [A]. *)
Definition bits_table : frame :=
  [ ("A", [0; 1; 2; 3]%Z);
    ("B", [0; 0; 1; 1]%Z);
    ("C", [0; 1; 0; 1]%Z);
    ("Class", [0; 0; 1; 1]%Z) ].

(** Four dependent features. *)
Definition four_table : frame :=
  [ ("A", [0; 1; 0; 2; 2; 0]%Z);
    ("B", [1; 1; 0; 0; 1; 0]%Z);
    ("C", [2; 2; 1; 1; 1; 0]%Z);
    ("D", [2; 2; 2; 2; 1; 0]%Z);
    ("Class", [0; 0; 1; 1; 0; 1]%Z) ].

(** Its first three features. *)
Definition three_table : frame :=
  [ ("A", [0; 1; 0; 2; 2; 0]%Z);
    ("B", [1; 1; 0; 0; 1; 0]%Z);
    ("C", [2; 2; 1; 1; 1; 0]%Z);
    ("Class", [0; 0; 1; 1; 0; 1]%Z) ].

(** Two features only. *)
Definition two_table : frame :=
  [ ("A", [0; 1; 0; 1]%Z);
    ("B", [0; 1; 0; 1]%Z);
    ("Class", [0; 0; 1; 1]%Z) ].

(** The path [A - B - C - D] and the same with the chord [B - D]. *)
Definition path_graph : Graph :=
  mkGraph ["A"; "B"; "C"; "D"]
          [("A", "B", None); ("B", "C", None); ("C", "D", None)].

(** The square [A - B - D - C - A]. *)
Definition square_graph : Graph :=
  mkGraph ["A"; "B"; "C"; "D"]
          [("A", "B", None); ("A", "C", None); ("B", "D", None);
           ("C", "D", None)].

Definition default_epsilon : Q := 3 # 1000.

Close Scope string_scope.

(** * Theorems *)

(** ** Sums of scores *)

Lemma Qsum_app (l1 l2 : list Q) : Qsum (l1 ++ l2) == Qsum l1 + Qsum l2.
Proof.
  induction l1 as [|x l1 IH]; simpl.
  - ring.
  - rewrite IH. ring.
Qed.

Lemma Qsum_perm (l1 l2 : list Q) : Permutation l1 l2 -> Qsum l1 == Qsum l2.
Proof.
  induction 1; simpl.
  - reflexivity.
  - rewrite IHPermutation. reflexivity.
  - ring.
  - etransitivity; eassumption.
Qed.

Lemma Qsum_map_ext {A : Type} (f g : A -> Q) (l : list A) :
  (forall a, In a l -> f a == g a) -> Qsum (map f l) == Qsum (map g l).
Proof.
  induction l as [|a l IH]; simpl; intros H.
  - reflexivity.
  - rewrite (H a) by auto. rewrite IH by auto. reflexivity.
Qed.

(** ** Masks and value lists *)

Lemma select_rows_where (x c : column) (i : Z) :
  select x (eq_mask c i) = rows_where x c i.
Proof.
  unfold rows_where, eq_mask.
  revert c; induction x as [|a x IH]; intros [|b c]; simpl; auto.
  destruct (Z.eqb b i); simpl; rewrite IH; reflexivity.
Qed.

Lemma select_length (x y : column) (m : list bool) :
  List.length x = List.length y ->
  List.length (select x m) = List.length (select y m).
Proof.
  revert y m; induction x as [|a x IH]; intros [|b y] [|k m] H;
    simpl in *; try discriminate; auto.
  destruct k; simpl; auto.
Qed.

Lemma mask_sum_count (c : column) (i : Z) :
  mask_sum (eq_mask c i) = count_occ Z.eq_dec c i.
Proof.
  unfold mask_sum, eq_mask.
  induction c as [|a c IH]; simpl; auto.
  destruct (Z.eq_dec a i) as [->|Hne].
  - rewrite Z.eqb_refl. simpl. now rewrite IH.
  - apply Z.eqb_neq in Hne. rewrite Hne. exact IH.
Qed.

Lemma existsb_Zeqb (x : Z) (l : list Z) :
  existsb (Z.eqb x) l = true <-> In x l.
Proof.
  rewrite existsb_exists. split.
  - intros [y [Hy He]]. apply Z.eqb_eq in He. now subst.
  - intros H. exists x. split; auto. apply Z.eqb_refl.
Qed.

Lemma unique_from_In (seen : list Z) (c : column) (x : Z) :
  In x (unique_from seen c) <-> In x c /\ ~ In x seen.
Proof.
  revert seen; induction c as [|a c IH]; intros seen; simpl.
  - tauto.
  - destruct (existsb (Z.eqb a) seen) eqn:E.
    + apply existsb_Zeqb in E. rewrite IH. split.
      * intros [H1 H2]; auto.
      * intros [[->|H1] H2]; [contradiction|auto].
    + assert (Hn : ~ In a seen).
      { intros H. apply existsb_Zeqb in H. congruence. }
      simpl. rewrite IH. simpl. split.
      * intros [->|[H1 H2]]; auto.
      * intros [[->|H1] H2]; auto.
        destruct (Z.eq_dec a x); auto. right. split; auto. intros [?|?]; auto.
Qed.

Lemma unique_from_NoDup (seen : list Z) (c : column) :
  NoDup (unique_from seen c).
Proof.
  revert seen; induction c as [|a c IH]; intros seen; simpl.
  - constructor.
  - destruct (existsb (Z.eqb a) seen); auto.
    constructor; auto.
    rewrite unique_from_In. simpl. tauto.
Qed.

Lemma unique_observed (c : column) :
  Permutation (unique c) (observed_values c).
Proof.
  apply NoDup_Permutation.
  - apply unique_from_NoDup.
  - apply NoDup_nodup.
  - intros x. unfold unique, observed_values.
    rewrite unique_from_In, nodup_In. simpl. tauto.
Qed.

(** ** Names, membership, comparisons *)

Lemma node_eqb_eq (a b : node) : node_eqb a b = true <-> a = b.
Proof. apply String.eqb_eq. Qed.

Lemma node_eqb_refl (a : node) : node_eqb a a = true.
Proof. apply String.eqb_refl. Qed.

Lemma node_eqb_neq (a b : node) : node_eqb a b = false <-> a <> b.
Proof. apply String.eqb_neq. Qed.

Lemma node_eqb_sym (a b : node) : node_eqb a b = node_eqb b a.
Proof. apply String.eqb_sym. Qed.

Lemma mem_In (n : node) (l : list node) : mem n l = true <-> In n l.
Proof.
  unfold mem. rewrite existsb_exists. split.
  - intros [x [Hx He]]. apply node_eqb_eq in He. now subst.
  - intros H. exists n. split; auto. apply node_eqb_refl.
Qed.

Lemma mem_not_In (n : node) (l : list node) : mem n l = false <-> ~ In n l.
Proof.
  rewrite <- mem_In. destruct (mem n l); split; intros; congruence.
Qed.

Lemma Qltb_lt (a b : Q) : Qltb a b = true <-> a < b.
Proof.
  unfold Qltb. rewrite negb_true_iff. split.
  - intros H. apply Qnot_le_lt. intros Hle.
    apply Qle_bool_iff in Hle. congruence.
  - intros H. destruct (Qle_bool b a) eqn:E; auto.
    apply Qle_bool_iff in E. exfalso. eapply Qlt_not_le; eauto.
Qed.

Lemma Qltb_ge (a b : Q) : Qltb a b = false <-> b <= a.
Proof.
  unfold Qltb. rewrite negb_false_iff. apply Qle_bool_iff.
Qed.

Lemma Qltb_irrefl (a : Q) : Qltb a a = false.
Proof. apply Qltb_ge. apply Qle_refl. Qed.

(** ** The scorer computes the per-column sum *)

Section ScorerFacts.

Variable mutual_info_score : column -> column -> Q.

Let cmi := conditional_mutual_info_score mutual_info_score.

Lemma cmi_values_sum (x y c : column) (values : list Z) (acc : Q) :
  List.length x = List.length y ->
  (List.length x <= List.length c)%nat ->
  exists q, cmi_values mutual_info_score x y c values acc = Ret q
            /\ q == acc + Qsum (map (value_term mutual_info_score x y c) values).
Proof.
  intros Hxy Hc. revert acc.
  induction values as [|i values IH]; intros acc; simpl.
  - exists acc. split; auto. ring.
  - unfold bool_index.
    assert (Hm : List.length (eq_mask c i) = List.length c)
      by (unfold eq_mask; apply length_map).
    rewrite Hm.
    replace (List.length c <? List.length x)%nat with false
      by (symmetry; apply Nat.ltb_ge; lia).
    replace (List.length c <? List.length y)%nat with false
      by (symmetry; apply Nat.ltb_ge; lia).
    simpl. unfold sk_mutual_info_score.
    rewrite (select_length x y (eq_mask c i) Hxy), Nat.eqb_refl. simpl.
    destruct (IH (acc + mutual_info_score (select x (eq_mask c i))
                                           (select y (eq_mask c i))
                       * ratio (mask_sum (eq_mask c i)) (List.length c)))
      as [q [Hq Hs]].
    exists q. split; auto. rewrite Hs.
    rewrite !select_rows_where, mask_sum_count.
    change (value_term mutual_info_score x y c i)
      with (ratio (count_occ Z.eq_dec c i) (List.length c)
            * mutual_info_score (rows_where x c i) (rows_where y c i)).
    ring.
Qed.

Lemma cmi_columns_sum (x y : column) (cs : list column) (acc : Q) :
  List.length x = List.length y ->
  Forall (fun c => (List.length x <= List.length c)%nat) cs ->
  exists q, cmi_columns mutual_info_score x y cs acc = Ret q
            /\ q == acc + Qsum (map (column_term mutual_info_score x y) cs).
Proof.
  intros Hxy Hcs. revert acc.
  induction Hcs as [|c cs Hc Hcs IH]; intros acc; simpl.
  - exists acc. split; auto. ring.
  - destruct (cmi_values_sum x y c (unique c) acc Hxy Hc) as [q1 [E1 S1]].
    rewrite E1. simpl.
    destruct (IH q1) as [q [E S]].
    exists q. split; auto. rewrite S, S1.
    unfold column_term.
    rewrite (Qsum_perm _ _ (Permutation_map (value_term mutual_info_score x y c) (unique_observed c))).
    ring.
Qed.

(** C1. With no conditioning column the scorer returns the mutual
    information of the two columns; with one or more it returns the sum,
    over every conditioning column taken on its own and every value that
    column holds, of the empirical probability of the value times the
    mutual information of the two columns on the rows holding it.  The
    sum runs over all columns and is not averaged. *)
Theorem conditional_mutual_info_score_spec (x y : column) (cs : list column) :
  List.length x = List.length y ->
  Forall (fun c => List.length c = List.length x) cs ->
  exists q, cmi x y cs = Ret q /\ q == cmi_spec mutual_info_score x y cs.
Proof.
  intros Hxy Hcs. unfold cmi, conditional_mutual_info_score.
  destruct cs as [|c cs]; simpl.
  - unfold sk_mutual_info_score. rewrite Hxy, Nat.eqb_refl.
    exists (mutual_info_score x y). split; reflexivity.
  - assert (Hle : Forall (fun c => (List.length x <= List.length c)%nat) (c :: cs)).
    { eapply Forall_impl; [|exact Hcs]. simpl. intros; lia. }
    destruct (cmi_columns_sum x y (c :: cs) 0 Hxy Hle) as [q [E S]].
    simpl in E. exists q. split; auto.
    rewrite S. simpl. ring.
Qed.

End ScorerFacts.

(** ** Drafting: the candidate list *)

Lemma insert_desc_length (x : candidate) (l : list candidate) :
  List.length (insert_desc x l) = S (List.length l).
Proof.
  induction l as [|y l IH]; simpl; auto.
  destruct (Qltb (score_of x) (score_of y)); simpl; auto.
Qed.

Lemma sort_desc_length (l : list candidate) :
  List.length (sort_desc l) = List.length l.
Proof.
  induction l as [|x l IH]; simpl; auto.
  rewrite insert_desc_length. now rewrite IH.
Qed.

Section DraftFacts.

Variable mutual_info_score : column -> column -> Q.

Lemma pairs_with_dependent (epsilon : Q) (n : node) (xi : column) (later : frame) :
  pairs_with mutual_info_score epsilon n xi later
  = map (as_candidate mutual_info_score)
        (filter (fun p => Qltb epsilon
                            (mutual_info_score (snd (fst p)) (snd (snd p))))
                (map (pair (n, xi)) later)).
Proof.
  induction later as [|[m xj] later IH]; simpl; auto.
  destruct (Qltb epsilon (mutual_info_score xi xj)); simpl; rewrite IH; auto.
Qed.

Lemma candidate_pairs_dependent (epsilon : Q) (df : frame) :
  candidate_pairs mutual_info_score epsilon df
  = map (as_candidate mutual_info_score)
        (dependent_pairs mutual_info_score epsilon df).
Proof.
  unfold dependent_pairs.
  induction df as [|[n xi] df IH]; simpl; auto.
  rewrite filter_app, map_app, <- IH, pairs_with_dependent. reflexivity.
Qed.

(** C10. With the class column present, a table in which fewer than two
    pairs of feature columns have mutual information above the threshold
    makes [estimate] raise [IndexError]: the candidate list is popped
    while it is empty. *)
Theorem estimate_pops_empty_list
  (data : frame) (class_node : node) (epsilon : Q) (fuel : nat) :
  In class_node (frame_columns data) ->
  (List.length (dependent_pairs mutual_info_score epsilon
                  (features data class_node)) < 2)%nat ->
  estimate mutual_info_score data class_node epsilon fuel = Raise IndexError.
Proof.
  intros Hclass Hfew. unfold estimate.
  apply mem_In in Hclass. rewrite Hclass. simpl.
  unfold skeleton, draft.
  remember (sort_desc (candidate_pairs mutual_info_score epsilon
                         (features data class_node))) as L eqn:HL.
  assert (Hlen : (List.length L < 2)%nat).
  { rewrite HL, sort_desc_length, candidate_pairs_dependent, length_map.
    exact Hfew. }
  destruct L as [|[[a b] m] [|[[a' b'] m'] L]]; simpl in *; try reflexivity.
  lia.
Qed.

End DraftFacts.

(** ** Drafting: the scan *)

Lemma remove_nth_app {A : Type} (kept : list A) (x : A) (later : list A) :
  remove_nth (List.length kept) (kept ++ x :: later) = kept ++ later.
Proof.
  induction kept as [|k kept IH]; simpl; auto. now rewrite IH.
Qed.

Lemma nth_error_middle {A : Type} (kept : list A) (x : A) (later : list A) :
  nth_error (kept ++ x :: later) (List.length kept) = Some x.
Proof.
  induction kept as [|k kept IH]; simpl; auto.
Qed.

Section ScanFacts.

Variable mutual_info_score : column -> column -> Q.
Variable data : frame.
Variable class_node : node.
Variable epsilon : Q.

(** The indexed loop looks at the candidates one after the other. *)
Lemma draft_scan_rest_gen (rest : list candidate) :
  forall (fuel : nat) (graph : Graph) (kept L : list candidate) (i n : Z),
    (List.length rest <= fuel)%nat ->
    L = kept ++ rest ->
    i = Z.of_nat (List.length kept) ->
    n = Z.of_nat (List.length kept + List.length rest) ->
    draft_scan fuel (graph, L, i, n) = scan_rest graph kept rest.
Proof.
  induction rest as [|[[a b] m] later IH];
    intros fuel graph kept L i n Hfuel HL Hi Hn.
  - rewrite Nat.add_0_r in Hn. rewrite app_nil_r in HL. subst.
    destruct fuel; simpl; rewrite Z.ltb_irrefl; reflexivity.
  - destruct fuel as [|fuel]; [simpl in Hfuel; lia|].
    simpl in Hfuel, Hn.
    cbn [draft_scan scan_rest scan_step].
    replace (i <? n)%Z with true by (symmetry; apply Z.ltb_lt; lia).
    rewrite Hi at 1. rewrite Nat2Z.id, HL, nth_error_middle.
    fold (scan_break graph).
    destruct (scan_break graph); [reflexivity|].
    destruct (has_path graph a b) as [p|e|]; simpl; try reflexivity.
    destruct p; simpl.
    + apply IH.
      * lia.
      * rewrite <- app_assoc. reflexivity.
      * rewrite length_app. simpl. lia.
      * rewrite length_app. simpl. lia.
    + apply IH.
      * lia.
      * rewrite Hi, Nat2Z.id. apply remove_nth_app.
      * lia.
      * lia.
Qed.

Lemma draft_scan_rest (L : list candidate) (graph : Graph) :
  draft_scan (List.length L) (graph, L, 0%Z, Z.of_nat (List.length L))
  = scan_rest graph [] L.
Proof.
  apply draft_scan_rest_gen; auto.
Qed.

(** The drafting stage in terms of the sorted candidate list. *)
Lemma draft_unfold :
  draft mutual_info_score data class_node epsilon
  = match sort_desc (candidate_pairs mutual_info_score epsilon
                       (features data class_node)) with
    | (a1, b1, m1) :: (a2, b2, m2) :: L =>
        scan_rest
          (add_edge
             (add_edge (add_nodes_from empty_graph
                          (frame_columns (features data class_node)))
                       a1 b1 (Some m1))
             a2 b2 (Some m2))
          [] L
    | _ => Raise IndexError
    end.
Proof.
  unfold draft.
  destruct (sort_desc _) as [|[[a1 b1] m1] [|[[a2 b2] m2] L]]; auto.
  apply draft_scan_rest.
Qed.

End ScanFacts.

(** ** Reachability *)

Section Reach.

Variable next : node -> list node.

Lemma conn_trans (u v w : node) :
  conn next u v -> conn next v w -> conn next u w.
Proof.
  induction 1; intros; auto. econstructor; eauto.
Qed.

Lemma conn_edge (u v : node) : In v (next u) -> conn next u v.
Proof. intros. econstructor; eauto. constructor. Qed.

Lemma reach_sound (fuel : nat) :
  forall target visited u,
    reach fuel next target visited u = true -> conn next u target.
Proof.
  induction fuel as [|fuel IH]; intros target visited u H; simpl in H.
  - rewrite orb_false_r in H. apply node_eqb_eq in H. subst. constructor.
  - apply orb_true_iff in H. destruct H as [H|H].
    + apply node_eqb_eq in H. subst. constructor.
    + apply existsb_exists in H. destruct H as [w [Hw H]].
      apply andb_true_iff in H. destruct H as [_ H].
      econstructor; eauto.
Qed.

Lemma chain_app (u : node) (l1 : list node) (x : node) (l2 : list node) :
  chain next u (l1 ++ x :: l2) -> chain next x l2.
Proof.
  revert u; induction l1 as [|y l1 IH]; intros u H; simpl in H.
  - tauto.
  - destruct H as [_ H]. eauto.
Qed.

Lemma last_cons (l : list node) (x d : node) : last (x :: l) d = last l x.
Proof.
  revert x d; induction l as [|y l IH]; intros x d; auto.
  change (last (x :: y :: l) d) with (last (y :: l) d).
  rewrite (IH y d), (IH y x). reflexivity.
Qed.

Lemma last_app_cons (l1 : list node) (x : node) (l2 : list node) (d : node) :
  last (l1 ++ x :: l2) d = last l2 x.
Proof.
  revert d; induction l1 as [|y l1 IH]; intros d.
  - apply last_cons.
  - change ((y :: l1) ++ x :: l2) with (y :: (l1 ++ x :: l2)).
    rewrite last_cons. apply IH.
Qed.

(** Every walk can be cut down to one that repeats no node. *)
Lemma conn_simple (u v : node) :
  conn next u v ->
  exists p, chain next u p /\ last p u = v /\ NoDup (u :: p).
Proof.
  induction 1 as [u|u w v Hw Hc [p [Hp [Hl Hn]]]].
  - exists []. simpl. repeat split; auto. constructor; auto. constructor.
  - destruct (in_dec node_dec u (w :: p)) as [Hin|Hout].
    + destruct (@in_split node u (w :: p) Hin) as [l1 [l2 E]].
      exists l2. repeat split.
      * apply (chain_app u l1 u l2). rewrite <- E. simpl. auto.
      * rewrite <- Hl.
        destruct l1 as [|y l1]; simpl in E.
        -- injection E as -> ->. reflexivity.
        -- injection E as -> ->. symmetry. apply last_app_cons.
      * rewrite E in Hn. apply NoDup_app_remove_l in Hn. exact Hn.
    + exists (w :: p). repeat split; simpl; auto.
      * rewrite <- Hl. apply last_cons.
      * constructor; auto.
Qed.

Lemma reach_complete (p : list node) :
  forall fuel target visited u,
    chain next u p -> last p u = target -> NoDup p ->
    (forall x, In x p -> ~ In x visited) ->
    (List.length p <= fuel)%nat ->
    reach fuel next target visited u = true.
Proof.
  induction p as [|w p IH]; intros fuel target visited u Hc Hl Hn Hv Hf.
  - simpl in Hl. subst. destruct fuel; simpl; rewrite node_eqb_refl; auto.
  - destruct fuel as [|fuel]; [simpl in Hf; lia|].
    simpl. apply orb_true_iff. right.
    apply existsb_exists. exists w. destruct Hc as [Hw Hc].
    split; auto. apply andb_true_iff. split.
    + apply negb_true_iff. apply mem_not_In. apply Hv. left; auto.
    + inversion Hn; subst. apply IH; auto.
      * rewrite <- (last_cons p w u). reflexivity.
      * intros x Hx [E|Hin].
        -- subst. contradiction.
        -- apply (Hv x); auto. right; auto.
      * simpl in Hf. lia.
Qed.

(** The search decides reachability among the nodes [universe]. *)
Lemma reach_conn (universe : list node) (s t : node) :
  (forall u w, In w (next u) -> In w universe) ->
  In s universe ->
  (reach (List.length universe) next t [s] s = true <-> conn next s t).
Proof.
  intros Hclosed Hs. split.
  - apply reach_sound.
  - intros H. apply conn_simple in H. destruct H as [p [Hc [Hl Hn]]].
    apply reach_complete with (p := p); auto.
    + inversion Hn; auto.
    + intros x Hx [E|[]]. subst. inversion Hn; contradiction.
    + assert (Hincl : incl (s :: p) universe).
      { assert (Hp : forall q u, chain next u q -> incl q universe).
        { induction q as [|y q IHq]; intros u0 Hq y0 Hy0.
          - destruct Hy0.
          - destruct Hq as [Hy Hq]. destruct Hy0 as [<-|Hy0].
            + eapply Hclosed; eauto.
            + eapply IHq; eauto. }
        intros x [<-|Hx]; auto. eapply Hp; eauto. }
      pose proof (NoDup_incl_length Hn Hincl) as Hlen. simpl in Hlen. lia.
Qed.

End Reach.

(** ** Counting components *)

Lemma existsb_orb {A : Type} (f g : A -> bool) (l : list A) :
  existsb (fun y => f y || g y) l = existsb f l || existsb g l.
Proof.
  induction l as [|y l IH]; simpl; auto.
  rewrite IH. destruct (f y), (g y), (existsb f l), (existsb g l); auto.
Qed.

Lemma existsb_andb_const {A : Type} (c : bool) (g : A -> bool) (l : list A) :
  existsb (fun y => c && g y) l = c && existsb g l.
Proof.
  induction l as [|y l IH]; simpl.
  - destruct c; auto.
  - rewrite IH. destruct c; auto.
Qed.

Lemma existsb_ext_in {A : Type} (f g : A -> bool) (l : list A) :
  (forall y, In y l -> f y = g y) -> existsb f l = existsb g l.
Proof.
  induction l as [|y l IH]; simpl; intros H; auto.
  rewrite (H y), IH; auto.
Qed.

Section Components.

Variable R : node -> node -> bool.
Hypothesis R_refl : forall x, R x x = true.
Hypothesis R_sym : forall x y, R x y = R y x.
Hypothesis R_trans : forall x y z, R x y = true -> R y z = true -> R x z = true.

Lemma R_class (x a y : node) : R x a = true -> R x y = R a y.
Proof.
  intros H. destruct (R x y) eqn:E1, (R a y) eqn:E2; auto.
  - rewrite R_sym in H. rewrite (R_trans _ _ _ H E1) in E2. discriminate.
  - rewrite (R_trans _ _ _ H E2) in E1. discriminate.
Qed.

Lemma n_comp_le (l : list node) : (n_comp R l <= List.length l)%nat.
Proof.
  induction l as [|x l IH]; simpl; auto.
  destruct (existsb (R x) l); lia.
Qed.

Lemma n_comp_pos (l : list node) : l <> [] -> (1 <= n_comp R l)%nat.
Proof.
  induction l as [|x l IH]; intros H; [congruence|].
  simpl. destruct l as [|y l].
  - simpl. lia.
  - assert (1 <= n_comp R (y :: l))%nat by (apply IH; discriminate). lia.
Qed.

(** One class only: all nodes are related. *)
Lemma n_comp_one (l : list node) :
  (n_comp R l <= 1)%nat ->
  forall x y, In x l -> In y l -> R x y = true.
Proof.
  induction l as [|z l IH]; intros H x y Hx Hy; [destruct Hx|].
  simpl in H.
  destruct l as [|z' l].
  - destruct Hx as [<-|[]]. destruct Hy as [<-|[]]. apply R_refl.
  - assert (Hpos : (1 <= n_comp R (z' :: l))%nat)
      by (apply n_comp_pos; discriminate).
    destruct (existsb (R z) (z' :: l)) eqn:E; [|lia].
    assert (Hl : forall x y, In x (z' :: l) -> In y (z' :: l) -> R x y = true)
      by (apply IH; lia).
    apply existsb_exists in E. destruct E as [r [Hr Hzr]].
    assert (Hz : forall y, In y (z :: z' :: l) -> R z y = true).
    { intros y0 [<-|Hy0]; [apply R_refl|].
      apply R_trans with r; auto. }
    destruct Hx as [<-|Hx].
    + apply Hz; auto.
    + rewrite R_sym. destruct Hy as [<-|Hy].
      * apply Hz. right; auto.
      * rewrite R_sym. apply Hl; auto.
Qed.

(** No two distinct nodes related: every node is a class. *)
Lemma n_comp_discrete (l : list node) :
  NoDup l ->
  (forall x y, In x l -> In y l -> x <> y -> R x y = false) ->
  n_comp R l = List.length l.
Proof.
  induction 1 as [|x l Hx Hn IH]; intros H; simpl; auto.
  rewrite IH by (intros; apply H; simpl; auto).
  replace (existsb (R x) l) with false; auto.
  symmetry. apply not_true_is_false. intros E.
  apply existsb_exists in E. destruct E as [y [Hy E]].
  rewrite H in E; simpl; auto; try discriminate.
  intros ->. contradiction.
Qed.

(** Joining the classes of [a] and [b]. *)
Section Merge.

Variable R' : node -> node -> bool.
Variables a b : node.
Hypothesis R'_def :
  forall x y, R' x y = R x y || (R x a && R b y) || (R x b && R a y).

Lemma existsb_merged (x : node) (l : list node) :
  existsb (R' x) l
  = existsb (R x) l || (R x a && existsb (R b) l)
    || (R x b && existsb (R a) l).
Proof.
  rewrite (existsb_ext_in (R' x)
             (fun y => (R x y || (R x a && R b y)) || (R x b && R a y)))
    by (intros; apply R'_def).
  rewrite !existsb_orb, !existsb_andb_const. reflexivity.
Qed.

Lemma n_comp_merge (l : list node) :
  R a b = false ->
  n_comp R l
  = (n_comp R' l
     + (if existsb (R a) l && existsb (R b) l then 1 else 0))%nat.
Proof.
  intros Hab. induction l as [|x l IH]; simpl; auto.
  rewrite existsb_merged, IH.
  rewrite (R_sym a x), (R_sym b x).
  destruct (R x a) eqn:Exa; destruct (R x b) eqn:Exb.
  - exfalso. rewrite R_sym in Exa.
    rewrite (R_trans _ _ _ Exa Exb) in Hab. discriminate.
  - rewrite (existsb_ext_in (R x) (R a)) by (intros; apply R_class; auto).
    destruct (existsb (R a) l), (existsb (R b) l); simpl; lia.
  - rewrite (existsb_ext_in (R x) (R b)) by (intros; apply R_class; auto).
    destruct (existsb (R a) l), (existsb (R b) l); simpl; lia.
  - destruct (existsb (R x) l), (existsb (R a) l), (existsb (R b) l);
      simpl; lia.
Qed.

Lemma n_comp_same (l : list node) :
  R a b = true -> n_comp R' l = n_comp R l.
Proof.
  intros Hab.
  assert (E : forall x y, R' x y = R x y).
  { intros x y. rewrite R'_def.
    destruct (R x y) eqn:Exy; auto. simpl.
    destruct (R x a) eqn:Exa; simpl.
    - destruct (R b y) eqn:Eby; simpl.
      + rewrite (R_trans _ _ _ (R_trans _ _ _ Exa Hab) Eby) in Exy.
        discriminate.
      + destruct (R x b) eqn:Exb; auto. simpl.
        destruct (R a y) eqn:Eay; auto.
        rewrite (R_trans _ _ _ Exa Eay) in Exy. discriminate.
    - destruct (R x b) eqn:Exb; auto. simpl.
      destruct (R a y) eqn:Eay; auto.
      rewrite R_sym in Hab.
      rewrite (R_trans _ _ _ (R_trans _ _ _ Exb Hab) Eay) in Exy.
      discriminate. }
  induction l as [|x l IH]; simpl; auto.
  rewrite IH, (existsb_ext_in (R' x) (R x)); auto.
Qed.

End Merge.

End Components.

(** ** Adjacency *)

Lemma adj_of_In (es : list edge) (u w : node) :
  In w (adj_of es u) <-> exists wt, In (u, w, wt) es \/ In (w, u, wt) es.
Proof.
  induction es as [|[[a b] x] es IH]; simpl.
  - split; [tauto|]. intros [wt [[]|[]]].
  - destruct (node_eqb a u) eqn:Ea; [|destruct (node_eqb b u) eqn:Eb].
    + apply node_eqb_eq in Ea. subst a. simpl. rewrite IH. split.
      * intros [<-|[wt H]]; [exists x; auto|exists wt; tauto].
      * intros [wt [[E|H]|[E|H]]].
        -- injection E as <- <-. auto.
        -- right. exists wt. auto.
        -- injection E as <- <- <-. auto.
        -- right. exists wt. auto.
    + apply node_eqb_eq in Eb. subst b. apply node_eqb_neq in Ea.
      simpl. rewrite IH. split.
      * intros [<-|[wt H]]; [exists x; auto|exists wt; tauto].
      * intros [wt [[E|H]|[E|H]]].
        -- injection E as <- <- <-. congruence.
        -- right. exists wt. auto.
        -- injection E as <- <-. auto.
        -- right. exists wt. auto.
    + apply node_eqb_neq in Ea. apply node_eqb_neq in Eb.
      rewrite IH. split.
      * intros [wt H]. exists wt. tauto.
      * intros [wt [[E|H]|[E|H]]].
        -- injection E as <- <- <-. congruence.
        -- exists wt. auto.
        -- injection E as <- <- <-. congruence.
        -- exists wt. auto.
Qed.

Lemma adj_of_sym (es : list edge) (u w : node) :
  In w (adj_of es u) -> In u (adj_of es w).
Proof.
  rewrite !adj_of_In. intros [wt H]. exists wt. tauto.
Qed.

Lemma adj_of_app (es1 es2 : list edge) (u : node) :
  adj_of (es1 ++ es2) u = adj_of es1 u ++ adj_of es2 u.
Proof.
  induction es1 as [|[[a b] x] es1 IH]; simpl; auto.
  destruct (node_eqb a u); [|destruct (node_eqb b u)]; simpl; rewrite IH; auto.
Qed.

Lemma joins_spec (u v : node) (e : edge) :
  joins u v e = true <->
  (fst (fst e) = u /\ snd (fst e) = v) \/ (fst (fst e) = v /\ snd (fst e) = u).
Proof.
  destruct e as [[a b] x]. simpl.
  rewrite orb_true_iff, !andb_true_iff, !node_eqb_eq. tauto.
Qed.

Lemma has_edge_adj (g : Graph) (u v : node) :
  has_edge g u v = true <-> In v (adj g u).
Proof.
  unfold has_edge, adj. rewrite existsb_exists, adj_of_In. split.
  - intros [[[a b] x] [Hin Hj]]. apply joins_spec in Hj. simpl in Hj.
    exists x. destruct Hj as [[-> ->]|[-> ->]]; auto.
  - intros [wt [H|H]].
    + exists (u, v, wt). split; auto. apply joins_spec. simpl. auto.
    + exists (v, u, wt). split; auto. apply joins_spec. simpl. auto.
Qed.

Lemma adj_in_nodes (g : Graph) (u w : node) :
  well_formed g -> In w (adj g u) -> In u (g_nodes g) /\ In w (g_nodes g).
Proof.
  intros [_ Hwf] H. apply adj_of_In in H. destruct H as [wt [H|H]];
    apply Hwf in H; tauto.
Qed.

(** ** Connectivity of a graph *)

Lemma conn_sym (g : Graph) (u v : node) :
  conn (adj g) u v -> conn (adj g) v u.
Proof.
  induction 1 as [u|u w v Hw Hc IH].
  - constructor.
  - apply conn_trans with w; auto.
    apply conn_edge. apply adj_of_sym. exact Hw.
Qed.

Lemma connected_conn (g : Graph) (s t : node) :
  well_formed g -> (connected g s t = true <-> conn (adj g) s t).
Proof.
  intros Hwf. unfold connected, number_of_nodes.
  destruct (in_dec node_dec s (g_nodes g)) as [Hs|Hs].
  - apply reach_conn; auto.
    intros u w Hw. destruct (adj_in_nodes g u w Hwf Hw). assumption.
  - split.
    + apply reach_sound.
    + intros H. assert (s = t) as ->.
      { inversion H as [u|u w v Hw Hc]; subst; auto.
        destruct (adj_in_nodes g s w Hwf Hw). contradiction. }
      destruct (List.length (g_nodes g)); simpl; rewrite node_eqb_refl; auto.
Qed.

Lemma connected_refl (g : Graph) (s : node) : connected g s s = true.
Proof.
  unfold connected. destruct (number_of_nodes g); simpl;
    rewrite node_eqb_refl; auto.
Qed.

Lemma connected_sym (g : Graph) (s t : node) :
  well_formed g -> connected g s t = connected g t s.
Proof.
  intros Hwf.
  destruct (connected g s t) eqn:E1, (connected g t s) eqn:E2; auto.
  - apply connected_conn in E1; auto. apply conn_sym in E1.
    apply connected_conn in E1; auto. congruence.
  - apply connected_conn in E2; auto. apply conn_sym in E2.
    apply connected_conn in E2; auto. congruence.
Qed.

Lemma connected_trans (g : Graph) (s t u : node) :
  well_formed g ->
  connected g s t = true -> connected g t u = true -> connected g s u = true.
Proof.
  intros Hwf H1 H2. apply connected_conn in H1; auto.
  apply connected_conn in H2; auto. apply connected_conn; auto.
  eapply conn_trans; eauto.
Qed.

Lemma has_edge_connected (g : Graph) (u v : node) :
  well_formed g -> has_edge g u v = true -> connected g u v = true.
Proof.
  intros Hwf H. apply connected_conn; auto.
  apply conn_edge. apply has_edge_adj. exact H.
Qed.

(** ** Adding an edge between two nodes of the graph *)

Section NewEdge.

Variables next next' : node -> list node.
Variables a b : node.
Hypothesis next_sym : forall x y, In y (next x) -> In x (next y).
Hypothesis next'_def :
  forall x y, In y (next' x) <->
              In y (next x) \/ (x = a /\ y = b) \/ (x = b /\ y = a).

Lemma conn_sym_next (u v : node) : conn next u v -> conn next v u.
Proof.
  induction 1 as [u|u w v Hw Hc IH].
  - constructor.
  - apply conn_trans with w; auto. apply conn_edge. auto.
Qed.

Lemma conn_new_edge (x y : node) :
  conn next' x y <->
  conn next x y \/ (conn next x a /\ conn next b y)
  \/ (conn next x b /\ conn next a y).
Proof.
  split.
  - induction 1 as [u|u w v Hw Hc IH].
    + left. constructor.
    + apply next'_def in Hw.
      destruct Hw as [Hw|[[-> ->]|[-> ->]]].
      * destruct IH as [IH|[[I1 I2]|[I1 I2]]].
        -- left. econstructor; eauto.
        -- right. left. split; auto. econstructor; eauto.
        -- right. right. split; auto. econstructor; eauto.
      * destruct IH as [IH|[[I1 I2]|[I1 I2]]].
        -- right. left. split; auto. constructor.
        -- left. eapply conn_trans; [|exact I2]. apply conn_sym_next. exact I1.
        -- left. exact I2.
      * destruct IH as [IH|[[I1 I2]|[I1 I2]]].
        -- right. right. split; auto. constructor.
        -- left. exact I2.
        -- left. eapply conn_trans; [|exact I2]. apply conn_sym_next. exact I1.
  - assert (Hmono : forall u v, conn next u v -> conn next' u v).
    { induction 1; [constructor|].
      econstructor; eauto. apply next'_def. auto. }
    intros [H|[[H1 H2]|[H1 H2]]]; auto.
    + apply conn_trans with a; auto. apply conn_trans with b; auto.
      apply conn_edge. apply next'_def. auto.
    + apply conn_trans with b; auto. apply conn_trans with a; auto.
      apply conn_edge. apply next'_def. auto.
Qed.

End NewEdge.

Lemma bool_eq_iff (b1 b2 : bool) : (b1 = true <-> b2 = true) -> b1 = b2.
Proof.
  destruct b1, b2; intros [H1 H2]; try reflexivity.
  - symmetry. apply H1. reflexivity.
  - apply H2. reflexivity.
Qed.

Lemma add_node_old (g : Graph) (n : node) :
  In n (g_nodes g) -> add_node g n = g.
Proof.
  intros H. unfold add_node. apply mem_In in H. rewrite H. reflexivity.
Qed.

Lemma add_edge_new (g : Graph) (a b : node) (w : attr) :
  In a (g_nodes g) -> In b (g_nodes g) -> has_edge g a b = false ->
  add_edge g a b w = mkGraph (g_nodes g) (g_edges g ++ [(a, b, w)]).
Proof.
  intros Ha Hb He. unfold add_edge.
  rewrite (add_node_old g a Ha), (add_node_old g b Hb), He. reflexivity.
Qed.

Section NewEdgeInGraph.

Variable g : Graph.
Variables a b : node.
Variable w : attr.
Hypothesis g_wf : well_formed g.
Hypothesis a_node : In a (g_nodes g).
Hypothesis b_node : In b (g_nodes g).
Hypothesis apart : connected g a b = false.

Let g' := add_edge g a b w.

Lemma apart_no_edge : has_edge g a b = false.
Proof.
  destruct (has_edge g a b) eqn:E; auto.
  apply has_edge_connected in E; auto. congruence.
Qed.

Lemma new_edge_graph : g' = mkGraph (g_nodes g) (g_edges g ++ [(a, b, w)]).
Proof. apply add_edge_new; auto. apply apart_no_edge. Qed.

Lemma new_edge_wf : well_formed g'.
Proof.
  rewrite new_edge_graph. destruct g_wf as [Hn He]. split; simpl; auto.
  intros x y wt H. apply in_app_or in H. destruct H as [H|[H|[]]].
  - eapply He; eauto.
  - injection H as <- <- <-. auto.
Qed.

Lemma new_edge_adj (x y : node) :
  In y (adj g' x) <->
  In y (adj g x) \/ (x = a /\ y = b) \/ (x = b /\ y = a).
Proof.
  rewrite new_edge_graph. unfold adj. simpl. rewrite adj_of_app, in_app_iff.
  simpl.
  destruct (node_eqb a x) eqn:Ea; [|destruct (node_eqb b x) eqn:Eb]; simpl.
  - apply node_eqb_eq in Ea. subst x. intuition congruence.
  - apply node_eqb_eq in Eb. subst x. intuition congruence.
  - apply node_eqb_neq in Ea. apply node_eqb_neq in Eb.
    intuition congruence.
Qed.

Lemma new_edge_connected (x y : node) :
  connected g' x y
  = connected g x y || (connected g x a && connected g b y)
    || (connected g x b && connected g a y).
Proof.
  apply bool_eq_iff.
  rewrite !orb_true_iff, !andb_true_iff.
  rewrite (connected_conn g' x y new_edge_wf).
  rewrite !(connected_conn g) by exact g_wf.
  rewrite (conn_new_edge (adj g) (adj g') a b).
  - tauto.
  - intros u v. apply adj_of_sym.
  - apply new_edge_adj.
Qed.

Lemma new_edge_nodes : g_nodes g' = g_nodes g.
Proof. rewrite new_edge_graph. reflexivity. Qed.

Lemma new_edge_edges : number_of_edges g' = S (number_of_edges g).
Proof.
  rewrite new_edge_graph. unfold number_of_edges. simpl.
  rewrite length_app. simpl. lia.
Qed.

Lemma new_edge_components : (components g' + 1 = components g)%nat.
Proof.
  unfold components. rewrite new_edge_nodes.
  rewrite (n_comp_merge (connected g)
             (fun x y => connected_sym g x y g_wf)
             (fun x y z => connected_trans g x y z g_wf)
             (connected g') a b new_edge_connected (g_nodes g) apart).
  replace (existsb (connected g a) (g_nodes g)) with true.
  - replace (existsb (connected g b) (g_nodes g)) with true; auto.
    symmetry. apply existsb_exists. exists b. split; auto.
    apply connected_refl.
  - symmetry. apply existsb_exists. exists a. split; auto.
    apply connected_refl.
Qed.

Lemma new_edge_forest : forest g -> forest g'.
Proof.
  intros [_ H]. split; [apply new_edge_wf|].
  unfold number_of_nodes in *. rewrite new_edge_nodes, new_edge_edges.
  pose proof new_edge_components. lia.
Qed.

End NewEdgeInGraph.

Lemma no_edges_connected (ns : list node) (x y : node) :
  connected (mkGraph ns []) x y = true -> x = y.
Proof.
  unfold connected. simpl.
  destruct (number_of_nodes (mkGraph ns [])); simpl;
    rewrite orb_false_r; apply node_eqb_eq.
Qed.

Lemma no_edges_forest (ns : list node) : NoDup ns -> forest (mkGraph ns []).
Proof.
  intros Hn. split.
  - split; simpl; auto. intros a b w [].
  - unfold components, number_of_edges, number_of_nodes. simpl.
    rewrite Nat.add_0_r. apply n_comp_discrete; auto.
    intros x y _ _ Hxy. destruct (connected _ x y) eqn:E; auto.
    apply no_edges_connected in E. contradiction.
Qed.

(** A forest with one edge less than it has nodes is a spanning tree. *)
Lemma forest_spanning (g : Graph) :
  forest g -> S (number_of_edges g) = number_of_nodes g ->
  spanning_connected g.
Proof.
  intros [Hwf Hc] Hn u v Hu Hv.
  apply (n_comp_one (connected g) (connected_refl g)
           (fun x y => connected_sym g x y Hwf)
           (fun x y z => connected_trans g x y z Hwf) (g_nodes g)); auto.
  unfold components in Hc. lia.
Qed.

Lemma forest_edges_lt (g : Graph) :
  forest g -> g_nodes g <> [] -> (number_of_edges g < number_of_nodes g)%nat.
Proof.
  intros [Hwf Hc] Hne.
  pose proof (n_comp_pos (connected g) (g_nodes g) Hne).
  unfold components in Hc. lia.
Qed.

(** ** The stable descending sort *)

Lemma insert_desc_perm (x : candidate) (l : list candidate) :
  Permutation (insert_desc x l) (x :: l).
Proof.
  induction l as [|y l IH]; simpl; auto.
  destruct (Qltb (score_of x) (score_of y)); auto.
  rewrite IH. apply perm_swap.
Qed.

Lemma sort_desc_perm (l : list candidate) : Permutation (sort_desc l) l.
Proof.
  induction l as [|x l IH]; simpl; auto.
  rewrite insert_desc_perm. auto.
Qed.

Lemma insert_desc_head (x : candidate) (l : list candidate) :
  Forall (fun z => score_of z <= score_of x) l -> insert_desc x l = x :: l.
Proof.
  intros H. destruct l as [|y l]; simpl; auto.
  inversion H; subst.
  replace (Qltb (score_of x) (score_of y)) with false; auto.
  symmetry. apply Qltb_ge. assumption.
Qed.

Lemma insert_desc_sorted (x : candidate) (l : list candidate) :
  sorted_desc l -> sorted_desc (insert_desc x l).
Proof.
  unfold sorted_desc.
  induction 1 as [|y l Hs IH Hy]; simpl.
  - constructor; constructor.
  - destruct (Qltb (score_of x) (score_of y)) eqn:E.
    + constructor; auto.
      apply (Permutation_Forall (Permutation_sym (insert_desc_perm x l))).
      constructor; auto. apply Qltb_lt in E. apply Qlt_le_weak. exact E.
    + apply Qltb_ge in E. constructor.
      * constructor; auto.
      * constructor; auto.
        eapply Forall_impl; [|exact Hy]. simpl. intros z Hz.
        eapply Qle_trans; eauto.
Qed.

Lemma sort_desc_sorted (l : list candidate) : sorted_desc (sort_desc l).
Proof.
  induction l as [|x l IH]; simpl.
  - constructor.
  - apply insert_desc_sorted. exact IH.
Qed.

Section Threshold.

(** A test that holds of every candidate scoring at least as much as one
    it holds of. *)
Variable p : candidate -> bool.
Hypothesis p_up :
  forall x y, p x = true -> score_of x <= score_of y -> p y = true.

Lemma filter_insert_out (x : candidate) (l : list candidate) :
  p x = false -> filter p (insert_desc x l) = filter p l.
Proof.
  intros Hx. induction l as [|y l IH]; simpl.
  - rewrite Hx. reflexivity.
  - destruct (Qltb (score_of x) (score_of y)); simpl.
    + rewrite IH. reflexivity.
    + rewrite Hx. reflexivity.
Qed.

Lemma filter_insert_in (x : candidate) (l : list candidate) :
  p x = true -> sorted_desc l ->
  filter p (insert_desc x l) = insert_desc x (filter p l).
Proof.
  intros Hx. unfold sorted_desc.
  induction 1 as [|y l Hs IH Hy]; simpl.
  - rewrite Hx. reflexivity.
  - destruct (Qltb (score_of x) (score_of y)) eqn:E.
    + assert (Hpy : p y = true).
      { apply (p_up x); auto. apply Qlt_le_weak. apply Qltb_lt. exact E. }
      simpl. rewrite Hpy, IH. simpl. rewrite E. reflexivity.
    + apply Qltb_ge in E.
      change (filter p (x :: y :: l)) with
        (if p x then x :: filter p (y :: l) else filter p (y :: l)).
      rewrite Hx. symmetry. apply insert_desc_head.
      apply Forall_forall. intros z Hz. apply filter_In in Hz.
      destruct Hz as [[<-|Hz] _]; auto.
      rewrite Forall_forall in Hy. eapply Qle_trans; [apply Hy|]; eauto.
Qed.

Lemma sort_desc_filter (l : list candidate) :
  filter p (sort_desc l) = sort_desc (filter p l).
Proof.
  induction l as [|x l IH]; simpl; auto.
  destruct (p x) eqn:Hx.
  - rewrite filter_insert_in; auto using sort_desc_sorted.
    rewrite IH. reflexivity.
  - rewrite filter_insert_out; auto.
Qed.

(** In a sorted list the candidates passing the test come first. *)
Lemma sorted_prefix (l : list candidate) :
  sorted_desc l -> l = filter p l ++ filter (fun c => negb (p c)) l.
Proof.
  unfold sorted_desc. induction 1 as [|y l Hs IH Hy]; simpl; auto.
  destruct (p y) eqn:Hpy; simpl.
  - f_equal. exact IH.
  - assert (Hall : forall z, In z l -> p z = false).
    { intros z Hz. destruct (p z) eqn:Hpz; auto.
      rewrite Forall_forall in Hy.
      rewrite (p_up z y Hpz (Hy z Hz)) in Hpy. discriminate. }
    assert (E1 : filter p l = []).
    { clear - Hall. induction l as [|z l IHl]; simpl; auto.
      rewrite (Hall z) by (left; auto). apply IHl.
      intros; apply Hall; right; auto. }
    assert (E2 : filter (fun c => negb (p c)) l = l).
    { clear - Hall. induction l as [|z l IHl]; simpl; auto.
      rewrite (Hall z) by (left; auto). simpl. f_equal. apply IHl.
      intros; apply Hall; right; auto. }
    rewrite E1, E2. reflexivity.
Qed.

End Threshold.

Lemma above_up (threshold : Q) (x y : candidate) :
  above threshold x = true -> score_of x <= score_of y ->
  above threshold y = true.
Proof.
  unfold above. rewrite !Qltb_lt. intros H1 H2.
  eapply Qlt_le_trans; eauto.
Qed.

(** ** Nodes and edges kept by the graph operations *)

Lemma add_node_nodes (g : Graph) (n x : node) :
  In x (g_nodes (add_node g n)) <-> In x (g_nodes g) \/ x = n.
Proof.
  unfold add_node. destruct (mem n (g_nodes g)) eqn:E; simpl.
  - apply mem_In in E. split; auto. intros [H| ->]; auto.
  - rewrite in_app_iff. simpl. intuition.
Qed.

Lemma add_node_edges (g : Graph) (n : node) :
  g_edges (add_node g n) = g_edges g.
Proof.
  unfold add_node. destruct (mem n (g_nodes g)); reflexivity.
Qed.

Lemma add_nodes_from_nodes (ns : list node) :
  forall g x, In x (g_nodes (add_nodes_from g ns))
              <-> In x (g_nodes g) \/ In x ns.
Proof.
  unfold add_nodes_from.
  induction ns as [|n ns IH]; intros g x; simpl.
  - tauto.
  - rewrite IH, add_node_nodes. intuition.
Qed.

Lemma add_nodes_from_edges (ns : list node) :
  forall g, g_edges (add_nodes_from g ns) = g_edges g.
Proof.
  unfold add_nodes_from.
  induction ns as [|n ns IH]; intros g; simpl; auto.
  rewrite IH. apply add_node_edges.
Qed.

Lemma add_edge_nodes (g : Graph) (a b : node) (w : attr) (x : node) :
  In x (g_nodes g) -> In x (g_nodes (add_edge g a b w)).
Proof.
  intros H. unfold add_edge.
  assert (H1 : In x (g_nodes (add_node (add_node g a) b)))
    by (rewrite !add_node_nodes; auto).
  destruct (has_edge _ a b); simpl; exact H1.
Qed.

Lemma add_edge_has_edge (g : Graph) (a b : node) (w : attr) (u v : node) :
  has_edge g u v = true -> has_edge (add_edge g a b w) u v = true.
Proof.
  unfold has_edge, add_edge. rewrite !add_node_edges.
  intros H. apply existsb_exists in H. destruct H as [e [He Hj]].
  fold (has_edge (add_node (add_node g a) b) a b).
  destruct (has_edge (add_node (add_node g a) b) a b); simpl;
    apply existsb_exists.
  - exists (if joins a b e
            then (fst (fst e), snd (fst e), update_attr (snd e) w) else e).
    split.
    + apply in_map_iff. exists e. split; auto.
    + destruct (joins a b e); auto. destruct e as [[x y] z]. exact Hj.
  - exists e. split; auto. apply in_or_app. auto.
Qed.

(** ** Candidates join feature columns *)

Lemma all_pairs_In {A : Type} (l : list A) (x y : A) :
  In (x, y) (all_pairs l) -> In x l /\ In y l.
Proof.
  induction l as [|z l IH]; simpl; [tauto|].
  rewrite in_app_iff, in_map_iff. intros [[y' [E Hy]]|H].
  - injection E as <- <-. auto.
  - apply IH in H. tauto.
Qed.

Lemma candidate_pairs_endpoints
  (mutual_info_score : column -> column -> Q) (epsilon : Q) (df : frame) :
  Forall (endpoints_in (frame_columns df))
         (candidate_pairs mutual_info_score epsilon df).
Proof.
  rewrite candidate_pairs_dependent. apply Forall_forall.
  intros c Hc. apply in_map_iff in Hc. destruct Hc as [[p q] [<- Hp]].
  unfold dependent_pairs in Hp. apply filter_In in Hp. destruct Hp as [Hp _].
  apply all_pairs_In in Hp. destruct Hp as [H1 H2].
  unfold endpoints_in, frame_columns. simpl. split; apply in_map; auto.
Qed.

(** ** The scan returns and only grows the graph *)

Lemma scan_rest_grows (rest : list candidate) :
  forall (g : Graph) (kept : list candidate),
    Forall (endpoints_in (g_nodes g)) rest ->
    exists g' L', scan_rest g kept rest = Ret (g', L')
                  /\ (forall u v, has_edge g u v = true -> has_edge g' u v = true).
Proof.
  induction rest as [|[[a b] m] rest IH]; intros g kept Hin; simpl.
  - exists g, kept. auto.
  - inversion Hin as [|c l [Ha Hb] Hrest]; subst. simpl in Ha, Hb.
    destruct (scan_break g).
    + exists g, (kept ++ (a, b, m) :: rest). auto.
    + unfold has_path. apply mem_In in Ha, Hb. rewrite Ha, Hb. simpl.
      destruct (connected g a b); simpl.
      * apply IH. exact Hrest.
      * destruct (IH (add_edge g a b (Some m)) kept) as [g' [L' [E Hm]]].
        { eapply Forall_impl; [|exact Hrest].
          intros c [H1 H2]. split; apply add_edge_nodes; auto. }
        exists g', L'. split; auto.
        intros u v H. apply Hm. apply add_edge_has_edge. exact H.
Qed.

Lemma scan_rest_prefix (front : list candidate) :
  forall (g : Graph) (kept back : list candidate) (g2 : Graph) (L2 : list candidate),
    Forall (endpoints_in (g_nodes g)) (front ++ back) ->
    scan_rest g kept front = Ret (g2, L2) ->
    exists g1 L1, scan_rest g kept (front ++ back) = Ret (g1, L1)
                  /\ (forall u v, has_edge g2 u v = true -> has_edge g1 u v = true).
Proof.
  induction front as [|[[a b] m] front IH];
    intros g kept back g2 L2 Hin H; simpl in *.
  - injection H as <- <-. apply scan_rest_grows. exact Hin.
  - inversion Hin as [|c l [Ha Hb] Hrest]; subst.
    destruct (scan_break g).
    + injection H as <- <-. eauto.
    + destruct (has_path g a b) as [p|e|]; simpl in *; try discriminate.
      destruct p; simpl in *.
      * eapply IH; eauto.
      * eapply IH; eauto.
        eapply Forall_impl; [|exact Hrest].
        intros c [H1 H2]. split; apply add_edge_nodes; auto.
Qed.

(** ** Drafting under two thresholds *)

Section DraftMonotone.

Variable mutual_info_score : column -> column -> Q.
Variable data : frame.
Variable class_node : node.
Variables epsilon1 epsilon2 : Q.
Hypothesis thresholds : epsilon1 <= epsilon2.

Lemma pairs_with_above (n : node) (xi : column) (later : frame) :
  pairs_with mutual_info_score epsilon2 n xi later
  = filter (above epsilon2)
           (pairs_with mutual_info_score epsilon1 n xi later).
Proof.
  induction later as [|[m xj] later IH]; simpl; auto.
  destruct (Qltb epsilon2 (mutual_info_score xi xj)) eqn:E2;
    destruct (Qltb epsilon1 (mutual_info_score xi xj)) eqn:E1; simpl.
  - unfold above at 1. simpl. rewrite E2, IH. reflexivity.
  - exfalso. apply Qltb_lt in E2. apply Qltb_ge in E1.
    apply (Qlt_irrefl epsilon2).
    eapply Qlt_le_trans; [exact E2|]. eapply Qle_trans; eauto.
  - unfold above at 1. simpl. rewrite E2. exact IH.
  - exact IH.
Qed.

Lemma candidate_pairs_above (df : frame) :
  candidate_pairs mutual_info_score epsilon2 df
  = filter (above epsilon2) (candidate_pairs mutual_info_score epsilon1 df).
Proof.
  induction df as [|[n xi] df IH]; simpl; auto.
  rewrite filter_app, <- IH, <- pairs_with_above. reflexivity.
Qed.

(** The sorted candidates of the higher threshold open the sorted list
    of the lower one. *)
Lemma sorted_candidates_prefix (df : frame) :
  exists back,
    sort_desc (candidate_pairs mutual_info_score epsilon1 df)
    = sort_desc (candidate_pairs mutual_info_score epsilon2 df) ++ back.
Proof.
  exists (filter (fun c => negb (above epsilon2 c))
                 (sort_desc (candidate_pairs mutual_info_score epsilon1 df))).
  rewrite candidate_pairs_above.
  rewrite <- (sort_desc_filter (above epsilon2) (above_up epsilon2)).
  apply (sorted_prefix (above epsilon2) (above_up epsilon2)).
  apply sort_desc_sorted.
Qed.

(** C6. Drafting is monotone in the threshold: when it succeeds under
    the higher threshold it succeeds under the lower one, and every edge
    of the skeleton drafted under the higher threshold is an edge of the
    skeleton drafted under the lower one. *)
Theorem draft_monotone (g2 : Graph) (L2 : list candidate) :
  draft mutual_info_score data class_node epsilon2 = Ret (g2, L2) ->
  exists g1 L1,
    draft mutual_info_score data class_node epsilon1 = Ret (g1, L1)
    /\ forall u v, has_edge g2 u v = true -> has_edge g1 u v = true.
Proof.
  rewrite !draft_unfold.
  set (df := features data class_node).
  destruct (sorted_candidates_prefix df) as [back E].
  pose proof (candidate_pairs_endpoints mutual_info_score epsilon1 df) as Hin.
  apply (Permutation_Forall (Permutation_sym (sort_desc_perm _))) in Hin.
  rewrite E in *.
  destruct (sort_desc (candidate_pairs mutual_info_score epsilon2 df))
    as [|[[a1 b1] m1] [|[[a2 b2] m2] L]]; try discriminate.
  simpl app. intros H.
  eapply scan_rest_prefix; [|exact H].
  simpl in Hin. inversion Hin as [|? ? _ Hin']; subst.
  inversion Hin' as [|? ? _ Hin'']; subst.
  eapply Forall_impl; [|exact Hin''].
  intros c [H1 H2].
  split; do 2 apply add_edge_nodes; apply add_nodes_from_nodes; auto.
Qed.

End DraftMonotone.

(** ** Pairs of distinct columns *)

Lemma all_pairs_map {A B : Type} (f : A -> B) (l : list A) :
  all_pairs (map f l) = map (fun p => (f (fst p), f (snd p))) (all_pairs l).
Proof.
  induction l as [|x l IH]; simpl; auto.
  rewrite map_app, IH, !map_map. reflexivity.
Qed.

Lemma filter_keeps_distinct_keys (X Y : Type) (key : X -> Y)
  (keep : X -> bool) (xs : list X) :
  NoDup (map key xs) -> NoDup (map key (filter keep xs)).
Proof.
  intros Hdistinct. induction xs as [|x xs IH]; simpl in *; auto.
  inversion Hdistinct as [|? ? Hx Hxs]; subst.
  destruct (keep x); simpl; auto.
  constructor; auto. intros Hin. apply Hx.
  apply in_map_iff in Hin. destruct Hin as [y [E Hy]].
  apply filter_In in Hy. apply in_map_iff. exists y. tauto.
Qed.

Lemma all_pairs_apart (l : list node) (x y : node) :
  NoDup l -> In (x, y) (all_pairs l) -> x <> y /\ ~ In (y, x) (all_pairs l).
Proof.
  induction 1 as [|z l Hz Hn IH]; simpl; [tauto|].
  rewrite !in_app_iff, !in_map_iff. intros [[y' [E Hy]]|H].
  - injection E as <- <-. split.
    + intros ->. contradiction.
    + intros [[x' [E' Hx']]|H'].
      * injection E' as <- <-. contradiction.
      * apply all_pairs_In in H'. tauto.
  - destruct (IH H) as [Hxy Hyx]. split; auto.
    intros [[x' [E' Hx']]|H']; auto.
    injection E' as <- <-. apply all_pairs_In in H. tauto.
Qed.

Lemma all_pairs_NoDup (l : list node) : NoDup l -> NoDup (all_pairs l).
Proof.
  induction 1 as [|z l Hz Hn IH]; simpl; [constructor|].
  apply NoDup_app.
  - apply Finite.Injective_map_NoDup; auto.
    intros a b E. injection E. auto.
  - exact IH.
  - intros [a b] H1 H2. apply in_map_iff in H1. destruct H1 as [y [E Hy]].
    injection E as <- <-. apply all_pairs_In in H2. tauto.
Qed.

Lemma frame_columns_features (data : frame) (class_node : node) :
  NoDup (frame_columns data) ->
  NoDup (frame_columns (features data class_node)).
Proof.
  unfold frame_columns, features. apply filter_keeps_distinct_keys.
Qed.

(** The names of the candidate pairs of a table whose columns have
    distinct names: no pair twice, none reversed, none a loop. *)
Lemma candidate_names
  (mutual_info_score : column -> column -> Q) (epsilon : Q) (df : frame) :
  NoDup (frame_columns df) ->
  NoDup (map fst (candidate_pairs mutual_info_score epsilon df))
  /\ forall a b, In (a, b) (map fst (candidate_pairs mutual_info_score epsilon df)) ->
                 a <> b
                 /\ ~ In (b, a) (map fst (candidate_pairs mutual_info_score
                                            epsilon df)).
Proof.
  intros Hn. rewrite candidate_pairs_dependent, map_map.
  unfold dependent_pairs, as_candidate. simpl.
  assert (E : map (fun p : (node * column) * (node * column) =>
                     (fst (fst p), fst (snd p))) (all_pairs df)
              = all_pairs (frame_columns df)).
  { unfold frame_columns. rewrite all_pairs_map. reflexivity. }
  assert (Hsub : forall q,
             In q (map (fun p : (node * column) * (node * column) =>
                          (fst (fst p), fst (snd p)))
                       (filter (fun p => Qltb epsilon
                                  (mutual_info_score (snd (fst p)) (snd (snd p))))
                               (all_pairs df))) ->
             In q (all_pairs (frame_columns df))).
  { intros q Hq. rewrite <- E. apply in_map_iff in Hq.
    destruct Hq as [p [Hp Hin]]. apply filter_In in Hin.
    apply in_map_iff. exists p. tauto. }
  split.
  - apply filter_keeps_distinct_keys. rewrite E. apply all_pairs_NoDup. exact Hn.
  - intros a b H. apply Hsub in H.
    destruct (all_pairs_apart _ a b Hn H) as [H1 H2]. split; auto.
Qed.

Lemma add_nodes_from_fresh (ns pre : list node) :
  NoDup (pre ++ ns) ->
  add_nodes_from (mkGraph pre []) ns = mkGraph (pre ++ ns) [].
Proof.
  unfold add_nodes_from. revert pre.
  induction ns as [|n ns IH]; intros pre H; simpl.
  - rewrite app_nil_r. reflexivity.
  - assert (Hn : ~ In n pre).
    { apply NoDup_remove_2 in H. intros Hin. apply H.
      apply in_or_app. auto. }
    unfold add_node at 2. simpl. apply mem_not_In in Hn. rewrite Hn.
    rewrite IH.
    + rewrite <- app_assoc. reflexivity.
    + rewrite <- app_assoc. exact H.
Qed.

Lemma remove_nth_length {A : Type} (l : list A) :
  forall i, (i < List.length l)%nat ->
            List.length (remove_nth i l) = (List.length l - 1)%nat.
Proof.
  induction l as [|x l IH]; intros i Hi; simpl in *; [lia|].
  destruct i as [|i]; simpl; [lia|].
  rewrite IH by lia. lia.
Qed.

Lemma remove_nth_Forall {A : Type} (P : A -> Prop) (l : list A) :
  forall i, Forall P l -> Forall P (remove_nth i l).
Proof.
  induction l as [|x l IH]; intros i H; destruct i; simpl; auto;
    inversion H; subst; auto.
Qed.

(** ** The scan keeps a forest *)

Lemma scan_step_invariant (s s' : scan_state) :
  scan_invariant s -> scan_step s = Ret (Some s') -> scan_invariant s'.
Proof.
  destruct s as [[[g L] i] n]. simpl.
  intros [Hf [Hne [Hin [Hi Hn]]]].
  destruct (i <? n)%Z eqn:Elt; [|discriminate].
  apply Z.ltb_lt in Elt.
  destruct (nth_error L (Z.to_nat i)) as [[[a b] m]|] eqn:Enth; [|discriminate].
  destruct (_ =? _)%Z; [discriminate|].
  assert (Hab : endpoints_in (g_nodes g) (a, b, m)).
  { rewrite Forall_forall in Hin. apply Hin. eapply nth_error_In; eauto. }
  destruct Hab as [Ha Hb]. simpl in Ha, Hb.
  unfold has_path.
  rewrite (proj2 (mem_In a _) Ha), (proj2 (mem_In b _) Hb). simpl.
  destruct (connected g a b) eqn:Ec; simpl; intros E; injection E as <-.
  - simpl. split; [exact Hf|]. split; [exact Hne|]. split; [exact Hin|].
    split; lia.
  - pose proof Hf as [Hwf _].
    assert (Hnodes : g_nodes (add_edge g a b (Some m)) = g_nodes g)
      by (apply new_edge_nodes; auto).
    simpl. split; [apply new_edge_forest; auto|].
    rewrite Hnodes. split; [exact Hne|].
    split; [apply remove_nth_Forall; exact Hin|].
    split; [lia|]. rewrite remove_nth_length by lia. lia.
Qed.

Lemma scan_reaches_invariant (s s' : scan_state) :
  scan_invariant s -> scan_reaches s s' -> scan_invariant s'.
Proof.
  intros H. induction 1; auto.
  eapply scan_step_invariant; eauto.
Qed.

(** On a spanning tree the loop body steps to the next candidate and
    leaves the graph and the list alone. *)
Lemma scan_step_spanning (g : Graph) (L : list candidate) (i n : Z)
                         (s' : scan_state) :
  scan_invariant (g, L, i, n) ->
  S (number_of_edges g) = number_of_nodes g ->
  scan_step (g, L, i, n) = Ret (Some s') ->
  s' = (g, L, (i + 1)%Z, n).
Proof.
  simpl. intros [Hf [Hne [Hin [Hi Hn]]]] Htree.
  destruct (i <? n)%Z eqn:Elt; [|discriminate].
  destruct (nth_error L (Z.to_nat i)) as [[[a b] m]|] eqn:Enth; [|discriminate].
  destruct (_ =? _)%Z; [discriminate|].
  assert (Hab : endpoints_in (g_nodes g) (a, b, m)).
  { rewrite Forall_forall in Hin. apply Hin. eapply nth_error_In; eauto. }
  destruct Hab as [Ha Hb]. simpl in Ha, Hb.
  unfold has_path.
  rewrite (proj2 (mem_In a _) Ha), (proj2 (mem_In b _) Hb). simpl.
  rewrite (forest_spanning g Hf Htree a b Ha Hb). simpl.
  intros E. injection E as <-. reflexivity.
Qed.

Lemma scan_step_returns (g : Graph) (L : list candidate) (i n : Z) :
  scan_invariant (g, L, i, n) ->
  S (number_of_edges g) = number_of_nodes g ->
  scan_step (g, L, i, n)
  = Ret (if (i <? n)%Z then Some (g, L, (i + 1)%Z, n) else None).
Proof.
  intros Hinv Htree.
  pose proof Hinv as [Hf [Hne [Hin [Hi Hn]]]].
  destruct (i <? n)%Z eqn:Elt.
  - apply Z.ltb_lt in Elt.
    destruct (nth_error L (Z.to_nat i)) as [[[a b] m]|] eqn:Enth.
    + assert (Hab : endpoints_in (g_nodes g) (a, b, m)).
      { rewrite Forall_forall in Hin. apply Hin. eapply nth_error_In; eauto. }
      destruct Hab as [Ha Hb]. simpl in Ha, Hb.
      simpl. rewrite (proj2 (Z.ltb_lt _ _) Elt), Enth.
      replace (_ =? _)%Z with false by (symmetry; apply Z.eqb_neq; lia).
      unfold has_path.
      rewrite (proj2 (mem_In a _) Ha), (proj2 (mem_In b _) Hb). simpl.
      rewrite (forest_spanning g Hf Htree a b Ha Hb). reflexivity.
    + apply nth_error_None in Enth. lia.
  - simpl. rewrite Elt. reflexivity.
Qed.

Lemma scan_spanning_run (k : nat) :
  forall (g : Graph) (L : list candidate) (i n : Z) (fuel : nat),
    scan_invariant (g, L, i, n) ->
    S (number_of_edges g) = number_of_nodes g ->
    Z.to_nat (n - i) = k -> (k <= fuel)%nat ->
    draft_scan fuel (g, L, i, n) = Ret (g, L).
Proof.
  induction k as [|k IH]; intros g L i n fuel Hinv Htree Hk Hfuel.
  - destruct fuel; cbn [draft_scan];
      rewrite (scan_step_returns g L i n Hinv Htree);
      replace (i <? n)%Z with false
        by (symmetry; apply Z.ltb_ge; destruct Hinv as [_ [_ [_ [? _]]]]; lia);
      reflexivity.
  - destruct fuel as [|fuel]; [lia|].
    cbn [draft_scan]. rewrite (scan_step_returns g L i n Hinv Htree).
    assert (Elt : (i <? n)%Z = true) by (apply Z.ltb_lt; lia).
    rewrite Elt. simpl.
    apply IH; auto; try lia.
    eapply scan_step_invariant; [exact Hinv|].
    rewrite (scan_step_returns g L i n Hinv Htree), Elt. reflexivity.
Qed.

(** ** The scan on a spanning tree *)

Section DraftSpanning.

Variable mutual_info_score : column -> column -> Q.
Variable data : frame.
Variable class_node : node.
Variable epsilon : Q.
Hypothesis distinct_names : NoDup (frame_columns data).

(** The sorted candidates: the two that are popped and the rest. *)
Variables a1 b1 a2 b2 : node.
Variables m1 m2 : Q.
Variable L : list candidate.
Hypothesis sorted_candidates :
  sort_desc (candidate_pairs mutual_info_score epsilon
               (features data class_node))
  = (a1, b1, m1) :: (a2, b2, m2) :: L.

Let cols := frame_columns (features data class_node).

(** The graph the scan starts from. *)
Let graph0 :=
  add_edge (add_edge (add_nodes_from empty_graph cols) a1 b1 (Some m1))
           a2 b2 (Some m2).

Let start : scan_state := (graph0, L, 0%Z, Z.of_nat (List.length L)).

Lemma draft_start :
  draft mutual_info_score data class_node epsilon
  = draft_scan (List.length L) start.
Proof.
  unfold draft. fold cols. rewrite sorted_candidates. reflexivity.
Qed.

Lemma start_invariant : scan_invariant start.
Proof.
  assert (Hcols : NoDup cols)
    by (apply frame_columns_features; exact distinct_names).
  destruct (candidate_names mutual_info_score epsilon
              (features data class_node) Hcols) as [Hnd Hap].
  pose proof (candidate_pairs_endpoints mutual_info_score epsilon
                (features data class_node)) as Hend.
  pose proof (sort_desc_perm (candidate_pairs mutual_info_score epsilon
                                (features data class_node))) as Hperm.
  rewrite sorted_candidates in Hperm.
  apply (Permutation_Forall (Permutation_sym Hperm)) in Hend.
  fold cols in Hend.
  pose proof (Permutation_map fst Hperm) as Hpn. simpl in Hpn.
  apply (Permutation_NoDup (Permutation_sym Hpn)) in Hnd.
  assert (Hap' : forall a b, In (a, b) ((a1, b1) :: (a2, b2) :: map fst L) ->
                             a <> b /\ ~ In (b, a) ((a1, b1) :: (a2, b2)
                                                      :: map fst L)).
  { intros a b H.
    destruct (Hap a b (Permutation_in _ Hpn H)) as [H1 H2].
    split; auto. intros H3. apply H2.
    eapply Permutation_in; [exact Hpn|exact H3]. }
  inversion Hend as [|? ? [Ha1 Hb1] Hend']; subst.
  inversion Hend' as [|? ? [Ha2 Hb2] Hend'']; subst.
  simpl in Ha1, Hb1, Ha2, Hb2.
  assert (Hne1 : a1 <> b1) by (apply (Hap' a1 b1); simpl; auto).
  assert (Hne2 : a2 <> b2) by (apply (Hap' a2 b2); simpl; auto).
  assert (Hdiff : (a1, b1) <> (a2, b2)).
  { inversion Hnd as [|? ? Hx _]; subst. intros E. apply Hx.
    rewrite E. simpl. auto. }
  assert (Hrev : (b1, a1) <> (a2, b2)).
  { intros E. destruct (Hap' a1 b1) as [_ H]; [simpl; auto|].
    apply H. rewrite E. simpl. auto. }
  assert (Einit : add_nodes_from empty_graph cols = mkGraph cols [])
    by (apply (add_nodes_from_fresh cols []); exact Hcols).
  assert (F0 : forest (mkGraph cols [])) by (apply no_edges_forest; auto).
  set (g1 := add_edge (mkGraph cols []) a1 b1 (Some m1)).
  assert (A1 : connected (mkGraph cols []) a1 b1 = false).
  { destruct (connected _ a1 b1) eqn:E; auto.
    apply no_edges_connected in E. contradiction. }
  assert (F1 : forest g1)
    by (apply new_edge_forest; auto; apply F0).
  assert (N1 : g_nodes g1 = cols)
    by (apply (new_edge_nodes (mkGraph cols [])); auto; apply F0).
  assert (A2 : connected g1 a2 b2 = false).
  { unfold g1. rewrite new_edge_connected; auto; [|apply F0].
    destruct (connected _ a2 b2) eqn:E.
    { apply no_edges_connected in E. contradiction. }
    destruct (connected _ a2 a1) eqn:E1; destruct (connected _ b1 b2) eqn:E2;
      destruct (connected _ a2 b1) eqn:E3; destruct (connected _ a1 b2) eqn:E4;
      simpl; auto;
      repeat match goal with
             | H : connected _ _ _ = true |- _ =>
                 apply no_edges_connected in H
             end; subst; congruence. }
  unfold start, graph0. rewrite Einit. fold g1.
  assert (F2 : forest (add_edge g1 a2 b2 (Some m2))).
  { apply new_edge_forest; auto; try apply F1; rewrite N1; auto. }
  assert (N2 : g_nodes (add_edge g1 a2 b2 (Some m2)) = cols).
  { rewrite <- N1. apply new_edge_nodes; auto; try apply F1;
      rewrite N1; auto. }
  simpl. split; [exact F2|]. rewrite N2.
  split; [intros E; rewrite E in Ha1; destruct Ha1|].
  split; [exact Hend''|]. split; lia.
Qed.

(** C2. Once the working graph has one edge less than it has nodes, the
    scan of the drafting stage adds no edge: from such a loop head on,
    every later loop head has the same graph and the same candidate
    list, and the scan returns them.  (Before that point the scan adds
    every candidate whose ends no path joins: see [scan_step].) *)
Theorem scan_adds_nothing_to_spanning_tree
  (graph : Graph) (cands : list candidate) (i lenght : Z) :
  scan_reaches start (graph, cands, i, lenght) ->
  S (number_of_edges graph) = number_of_nodes graph ->
  draft mutual_info_score data class_node epsilon
  = draft_scan (List.length L) start
  /\ (forall s, scan_reaches (graph, cands, i, lenght) s ->
                scan_graph s = graph /\ scan_list s = cands)
  /\ (forall fuel, (Z.to_nat (lenght - i) <= fuel)%nat ->
                   draft_scan fuel (graph, cands, i, lenght)
                   = Ret (graph, cands)).
Proof.
  intros Hreach Htree.
  assert (Hinv : scan_invariant (graph, cands, i, lenght))
    by (eapply scan_reaches_invariant; [apply start_invariant|exact Hreach]).
  split; [apply draft_start|]. split.
  - intros s Hs.
    assert (H : exists j, s = (graph, cands, j, lenght)
                          /\ scan_invariant s).
    { induction Hs as [|s' s'' Hs' IH Hstep].
      - exists i. auto.
      - destruct IH as [j [-> Hj]].
        pose proof (scan_step_spanning graph cands j lenght s'' Hj Htree
                      Hstep) as E.
        exists (j + 1)%Z. split; auto.
        eapply scan_step_invariant; [exact Hj|exact Hstep]. }
    destruct H as [j [-> _]]. auto.
  - intros fuel Hfuel.
    eapply scan_spanning_run; eauto.
Qed.

End DraftSpanning.

(** ** Loops *)

Section WhileTrue.

Variables S R : Type.
Variable step : S -> outcome (R + S).

(** More fuel does not change a result. *)
Lemma while_true_more (fuel : nat) :
  forall (s : S) (r : outcome R) (extra : nat),
    while_true step fuel s = r -> r <> Timeout ->
    while_true step (fuel + extra) s = r.
Proof.
  induction fuel as [|fuel IH]; intros s r extra H Hr; simpl in *.
  - congruence.
  - destruct (step s) as [[result|s']|e|]; simpl in *; auto.
Qed.

(** A loop head that leads back to itself is never left. *)
Lemma while_true_fixed (s : S) :
  step s = Ret (inr s) -> forall fuel, while_true step fuel s = Timeout.
Proof.
  intros H fuel. induction fuel as [|fuel IH]; simpl; auto.
  rewrite H. simpl. exact IH.
Qed.

(** Whatever the fuel, the loop runs out of it or gives the result it
    gives with [enough]. *)
Lemma while_true_stable (enough : nat) (s : S) (r : outcome R) :
  while_true step enough s = r -> r <> Timeout ->
  forall fuel, while_true step fuel s = Timeout
               \/ while_true step fuel s = r.
Proof.
  intros H Hr fuel.
  destruct (while_true step fuel s) as [x|e|] eqn:E; auto; right.
  - pose proof (while_true_more fuel s (Ret x) enough E) as H1.
    pose proof (while_true_more enough s r fuel H Hr) as H2.
    rewrite Nat.add_comm in H2. rewrite H1 in H2; congruence.
  - pose proof (while_true_more fuel s (Raise e) enough E) as H1.
    pose proof (while_true_more enough s r fuel H Hr) as H2.
    rewrite Nat.add_comm in H2. rewrite H1 in H2; congruence.
Qed.

End WhileTrue.

(** ** The separation tests at work *)

(** Replace a closed term of the goal by its value. *)
Ltac evaluate t :=
  let x := fresh "x" in set (x := t); vm_compute in x; subst x.

(** The shrink step offers one conditioning set for every node of the graph,
    whether the node is in [c] or not. *)
Lemma shrink_candidates_per_node
  (mutual_info_score : column -> column -> Q) (data : frame)
  (node1 node2 : node) (c nodes : list node) :
  forall values conditions,
    shrink_candidates mutual_info_score data node1 node2 c nodes
    = Ret (values, conditions) ->
    conditions = map (without c) nodes
    /\ List.length values = List.length nodes.
Proof.
  induction nodes as [|nd nodes IH]; simpl; intros values conditions H.
  - injection H as <- <-. auto.
  - destruct (score_given _ _ _ _ _) as [vi|e|]; simpl in H; try discriminate.
    destruct (shrink_candidates _ _ _ _ _ _) as [[vs cs]|e|];
      simpl in H; try discriminate.
    injection H as <- <-. destruct (IH vs cs eq_refl) as [-> Hl].
    simpl. auto.
Qed.

(** C3. On the square [A - B - D - C - A] the test of [A] against [D]
    starts from [c = [B; C]].  Its shrink step scores four conditioning
    sets, one for each node of the graph: [c] itself twice (for [A] and
    [D], which are not in [c]) beside the two single removals. *)
Theorem shrink_step_scores_every_node :
  (separate_a_start square_graph "A" "D" = Ret (["B"; "C"], ["B"; "C"])
   /\ exists values,
       shrink_candidates sample_score four_table "A" "D" ["B"; "C"]
                         (g_nodes square_graph)
       = Ret (values, [["B"; "C"]; ["C"]; ["B"]; ["B"; "C"]]))%string.
Proof.
  split; [vm_compute; reflexivity|].
  destruct (shrink_candidates sample_score four_table "A"%string "D"%string
              ["B"; "C"]%string (g_nodes square_graph))
    as [[values conditions]|e|] eqn:E; try (vm_compute in E; discriminate).
  exists values.
  destruct (shrink_candidates_per_node _ _ _ _ _ _ _ _ E) as [-> _].
  reflexivity.
Qed.

Lemma mem_in_lists_false (n : node) (ls : list (list node)) :
  mem_in_lists n ls = false.
Proof.
  unfold mem_in_lists. induction ls as [|l ls IH]; simpl; auto.
Qed.

Lemma on_paths_prime_empty (paths : list (list node))
                           (lists : list (list node)) (members : list node) :
  fst (on_paths paths
         (fun nd => mem_in_lists nd lists && negb (mem nd members))
         (fun _ => false)) = [].
Proof.
  unfold on_paths.
  assert (H : forall ps acc, fst acc = [] ->
            fst (fold_left
                   (fun acc path =>
                      fold_left
                        (fun '(n1, n2) nd =>
                           let n1 := if mem_in_lists nd lists
                                        && negb (mem nd members)
                                     then n1 ++ [nd] else n1 in
                           let n2 := if false then n2 ++ [nd] else n2 in
                           (n1, n2))
                        (inner path) acc)
                   ps acc) = []).
  { induction ps as [|path ps IH]; intros acc Hacc; simpl; auto.
    apply IH. generalize (inner path). intros l. revert acc Hacc.
    induction l as [|nd l IHl]; intros [n1 n2] Hacc; simpl; auto.
    apply IHl. rewrite mem_in_lists_false. simpl. exact Hacc. }
  apply H. reflexivity.
Qed.

Lemma separate_b_prime_sets_empty (graph : Graph) (node1 node2 : node)
  (n1 n1_prime n2 n2_prime : list node) :
  separate_b_sets graph node1 node2 = Ret ((n1, n1_prime), (n2, n2_prime)) ->
  n1_prime = [] /\ n2_prime = [].
Proof.
  unfold separate_b_sets.
  destruct (neighbors graph node1) as [nb1|e|]; simpl; try discriminate.
  destruct (neighbors graph node2) as [nb2|e|]; simpl; try discriminate.
  destruct (all_simple_paths graph node1 node2) as [paths|e|]; simpl;
    try discriminate.
  destruct (on_paths paths _ _) as [m1 m2].
  destruct (neighbor_lists graph m1) as [l1|e|]; simpl; try discriminate.
  destruct (neighbor_lists graph m2) as [l2|e|]; simpl; try discriminate.
  intros H. injection H as <- <- <- <-.
  split; apply on_paths_prime_empty.
Qed.

(** C4. On the path [A - B - C - D] the test of [A] against [D] finds
    [n1 = [B]] and [n2 = [C]]; [C] lies on the path, is a neighbour of [B]
    and is not in [n1], yet [n1_prime] is empty, and so is [n2_prime]: the
    test starts from [[C]] alone. *)
Theorem separate_b_prime_sets_at_path :
  (separate_b_sets path_graph "A" "D" = Ret ((["B"], []), (["C"], []))
   /\ In "C" (inner ["A"; "B"; "C"; "D"])
   /\ In "C" (adj path_graph "B")
   /\ separate_b_start path_graph "A" "D" = Ret ["C"])%string.
Proof.
  repeat split; vm_compute; auto.
Qed.

(** C5. On the table [four_table] the search never returns: whatever the
    fuel, [estimate] runs out of it.  Thickening tests [B] against [D]
    with [c = [C; C]]; the shrink step moves to [c = []], and from there
    every pass through the loop ends where it began. *)
Theorem estimate_diverges (fuel : nat) :
  estimate sample_score four_table "Class"%string default_epsilon fuel
  = Timeout.
Proof.
  unfold estimate, skeleton.
  evaluate (negb (mem "Class"%string (frame_columns four_table))).
  cbn [negb].
  evaluate (draft sample_score four_table "Class"%string default_epsilon).
  cbn [bind thicken].
  unfold try_to_separate_a at 1.
  match goal with |- context [separate_a_start ?g ?a ?b] =>
    evaluate (separate_a_start g a b) end.
  cbn [bind].
  match goal with |- context [while_true ?st fuel ?s] =>
    destruct (while_true_stable _ _ st 3 s (Ret false)
                ltac:(vm_compute; reflexivity) ltac:(discriminate) fuel)
      as [E|E]; rewrite E; clear E end.
  - reflexivity.
  - cbn [bind negb thicken].
    match goal with |- context [add_edge ?g ?a ?b ?w] =>
      evaluate (add_edge g a b w) end.
    unfold try_to_separate_a at 1.
    match goal with |- context [separate_a_start ?g ?a ?b] =>
      evaluate (separate_a_start g a b) end.
    cbn [bind].
    destruct fuel as [|fuel]; [reflexivity|].
    cbn [while_true].
    match goal with |- context [separate_a_step ?mi ?d ?e ?g ?a ?b ?n2 ?s] =>
      evaluate (separate_a_step mi d e g a b n2 s) end.
    cbn [bind].
    rewrite while_true_fixed; [reflexivity|].
    vm_compute. reflexivity.
Qed.

(** ** The traversal *)

Lemma work_weight_app (w1 w2 : list (node * list node)) :
  work_weight (w1 ++ w2) = (work_weight w1 + work_weight w2)%nat.
Proof.
  induction w1 as [|e w1 IH]; simpl; auto. rewrite IH. lia.
Qed.

Lemma unvisited_weight_skip (g : Graph) (ns visited : list node) (c : node) :
  ~ In c ns ->
  unvisited_weight g ns (c :: visited) = unvisited_weight g ns visited.
Proof.
  induction ns as [|v ns IH]; simpl; intros H; auto.
  rewrite IH by tauto.
  replace (node_eqb v c) with false; auto.
  symmetry. apply node_eqb_neq. intros ->. tauto.
Qed.

Lemma unvisited_weight_visit (g : Graph) (ns visited : list node) (c : node) :
  NoDup ns -> In c ns -> mem c visited = false ->
  (unvisited_weight g ns (c :: visited) + 2 + List.length (adj g c)
   = unvisited_weight g ns visited)%nat.
Proof.
  induction 1 as [|v ns Hv Hn IH]; simpl; intros Hin Hc; [tauto|].
  destruct Hin as [->|Hin].
  - rewrite node_eqb_refl, Hc. simpl.
    rewrite unvisited_weight_skip by exact Hv. lia.
  - replace (node_eqb v c) with false.
    + simpl. specialize (IH Hin Hc). destruct (mem v visited); lia.
    + symmetry. apply node_eqb_neq. intros ->. contradiction.
Qed.

Section Traverse.

Variable depth_first : bool.
Variable g : Graph.
Variable root : node.
Hypothesis g_wf : well_formed g.

Lemma visited_tree (visited : list node) (tree : list (node * node)) (x : node) :
  visited = rev (map snd tree) ++ [root] ->
  (In x visited <-> In x (root :: map snd tree)).
Proof.
  intros ->. rewrite in_app_iff, <- in_rev. simpl. tauto.
Qed.

(** The traversal ends, and at its end the invariant holds with an empty
    work list. *)
Lemma traverse_ends (fuel : nat) :
  forall work visited tree,
    traverse_invariant g root work visited tree ->
    (work_weight work + unvisited_weight g (g_nodes g) visited <= fuel)%nat ->
    exists visited' tree',
      traverse depth_first fuel g work visited tree = Ret tree'
      /\ traverse_invariant g root [] visited' tree'.
Proof.
  induction fuel as [|fuel IH]; intros work visited tree Hinv Hfuel.
  - destruct work as [|[p ch] waiting]; simpl in Hfuel; [|lia].
    exists visited, tree. simpl. auto.
  - destruct work as [|[p [|child others]] waiting].
    + exists visited, tree. simpl. auto.
    + simpl. apply IH.
      * destruct Hinv as [Hv [Hg [Ht [Hw Hc]]]].
        repeat split; auto.
        -- apply (Hw p0 ch). right; auto.
        -- apply (Hw p0 ch). right; auto.
        -- intros v w Hvin Hwin.
           destruct (Hc v w Hvin Hwin) as [H|[ch [[E|H1] H2]]]; auto.
           ++ injection E as <- <-. destruct H2.
           ++ right. exists ch. auto.
      * simpl in Hfuel. lia.
    + simpl. destruct (mem child visited) eqn:Em.
      * apply IH.
        -- destruct Hinv as [Hv [Hg [Ht [Hw Hc]]]].
           repeat split; auto.
           ++ destruct H as [E|H].
              ** injection E as <- <-. apply (Hw p (child :: others)).
                 left; auto.
              ** apply (Hw p0 ch). right; auto.
           ++ destruct H as [E|H].
              ** injection E as <- <-.
                 destruct (Hw p (child :: others)) as [_ Hi]; [left; auto|].
                 intros x Hx. apply Hi. right; auto.
              ** apply (Hw p0 ch). right; auto.
           ++ intros v w Hvin Hwin.
              destruct (Hc v w Hvin Hwin) as [H|[ch [[E|H1] H2]]]; auto.
              ** injection E as <- <-. destruct H2 as [<-|H2].
                 --- left. apply mem_In. exact Em.
                 --- right. exists others. split; auto. left; auto.
              ** right. exists ch. split; auto. right; auto.
        -- simpl in *. lia.
      * destruct Hinv as [Hv [Hg [Ht [Hw Hc]]]].
        assert (Hp : In p visited /\ incl (child :: others) (adj g p)).
        { apply Hw. left; auto. }
        destruct Hp as [Hp Hi].
        assert (Hchild : In child (adj g p)) by (apply Hi; left; auto).
        assert (Hnew : ~ In child visited) by (apply mem_not_In; exact Em).
        set (work' := if depth_first
                      then (child, adj g child) :: (p, others) :: waiting
                      else ((p, others) :: waiting) ++ [(child, adj g child)]).
        assert (Hwork' : forall e, In e work' <->
                           e = (child, adj g child) \/ e = (p, others)
                           \/ In e waiting).
        { intros e. unfold work'. destruct depth_first; simpl.
          - intuition.
          - rewrite in_app_iff. simpl. intuition. }
        apply IH.
        -- split; [|split; [|split; [|split]]].
           ++ rewrite map_app, rev_app_distr. simpl. rewrite Hv. reflexivity.
           ++ constructor; auto.
              ** apply (visited_tree visited tree p Hv). exact Hp.
              ** intros H. apply Hnew.
                 apply (visited_tree visited tree child Hv). exact H.
           ++ intros p0 c0 H. apply in_app_or in H.
              destruct H as [H|[E|[]]]; auto.
              injection E as <- <-. exact Hchild.
           ++ intros p0 ch H. apply Hwork' in H.
              destruct H as [E|[E|H]].
              ** injection E as -> ->. split; [left; auto|].
                 intros x Hx; exact Hx.
              ** injection E as -> ->. split; [right; auto|].
                 intros x Hx. apply Hi. right; auto.
              ** destruct (Hw p0 ch) as [H1 H2]; [right; auto|].
                 split; auto. right; auto.
           ++ intros v w [<-|Hvin] Hwin.
              ** right. exists (adj g child). split; auto.
                 apply Hwork'. auto.
              ** destruct (Hc v w Hvin Hwin) as [H|[ch [[E|H1] H2]]].
                 --- left. right; auto.
                 --- injection E as <- <-. destruct H2 as [<-|H2].
                     +++ left. left; auto.
                     +++ right. exists others. split; auto.
                         apply Hwork'. auto.
                 --- right. exists ch. split; auto. apply Hwork'. auto.
        -- assert (Hin : In child (g_nodes g)).
           { destruct (adj_in_nodes g p child g_wf Hchild). assumption. }
           pose proof (unvisited_weight_visit g (g_nodes g) visited child
                         (proj1 g_wf) Hin Em) as Hu.
           simpl in Hfuel. clear Hwork'. subst work'.
           destruct depth_first; simpl;
             [|rewrite work_weight_app; simpl]; lia.
Qed.

End Traverse.

(** ** Degrees and the fuel of the traversal *)

Lemma count_node_le (ns : list node) (a : node) :
  NoDup ns ->
  (fold_right (fun v n => ((if node_eqb a v then 1 else 0) + n)%nat) O ns <= 1)%nat.
Proof.
  induction 1 as [|v ns Hv Hn IH]; simpl; auto.
  destruct (node_eqb a v) eqn:E; [|lia].
  apply node_eqb_eq in E. subst v.
  assert (H0 : fold_right (fun v n => ((if node_eqb a v then 1 else 0) + n)%nat)
                          O ns = O).
  { clear IH Hn. induction ns as [|u ns IHn]; simpl; auto.
    replace (node_eqb a u) with false.
    - apply IHn. intros H. apply Hv. right; auto.
    - symmetry. apply node_eqb_neq. intros ->. apply Hv. left; auto. }
  lia.
Qed.

Lemma degree_sum_le (es : list edge) (ns : list node) :
  NoDup ns -> (degree_sum es ns <= 2 * List.length es)%nat.
Proof.
  intros Hn. induction es as [|[[a b] w] es IH]; cbn [List.length].
  - unfold degree_sum. clear Hn. induction ns; simpl; auto.
  - assert (H : (degree_sum ((a, b, w) :: es) ns
                 <= fold_right (fun v n => ((if node_eqb a v then 1 else 0) + n)%nat)
                               O ns
                    + fold_right (fun v n => ((if node_eqb b v then 1 else 0) + n)%nat)
                                 O ns
                    + degree_sum es ns)%nat).
    { clear. unfold degree_sum.
      induction ns as [|v ns IHn]; cbn [fold_right]; auto.
      assert (E : List.length (adj_of ((a, b, w) :: es) v)
                  = ((if node_eqb a v then 1
                      else if node_eqb b v then 1 else 0)
                     + List.length (adj_of es v))%nat).
      { simpl. destruct (node_eqb a v); [|destruct (node_eqb b v)]; auto. }
      rewrite E.
      destruct (node_eqb a v); [|destruct (node_eqb b v)]; lia. }
    eapply Nat.le_trans; [exact H|].
    apply Nat.le_trans with (1 + 1 + degree_sum es ns)%nat; [|lia].
    apply Nat.add_le_mono; [|apply le_n].
    apply Nat.add_le_mono; apply count_node_le; exact Hn.
Qed.

Lemma unvisited_weight_all (g : Graph) (ns : list node) :
  unvisited_weight g ns [] = (2 * List.length ns + degree_sum (g_edges g) ns)%nat.
Proof.
  unfold degree_sum. induction ns as [|v ns IH]; simpl; auto.
  rewrite IH. unfold adj. lia.
Qed.

Lemma traverse_fuel_enough (g : Graph) (root : node) :
  well_formed g -> In root (g_nodes g) ->
  (work_weight [(root, adj g root)]
   + unvisited_weight g (g_nodes g) [root] <= traverse_fuel g)%nat.
Proof.
  intros [Hn He] Hr.
  pose proof (unvisited_weight_visit g (g_nodes g) [] root Hn Hr eq_refl) as H.
  rewrite unvisited_weight_all in H.
  pose proof (degree_sum_le (g_edges g) (g_nodes g) Hn).
  unfold traverse_fuel, number_of_edges, number_of_nodes. simpl. lia.
Qed.

(** ** Grown trees *)

Lemma arcs_next_In (es : list (node * node)) (u v : node) :
  In v (arcs_next es u) <-> In (u, v) es.
Proof.
  unfold arcs_next. rewrite in_map_iff. split.
  - intros [[a b] [E H]]. apply filter_In in H. destruct H as [H1 H2].
    simpl in *. apply node_eqb_eq in H2. subst. exact H1.
  - intros H. exists (u, v). split; auto. apply filter_In. split; auto.
    simpl. apply node_eqb_refl.
Qed.

Lemma conn_incl (next next' : node -> list node) (u v : node) :
  (forall x y, In y (next x) -> In y (next' x)) ->
  conn next u v -> conn next' u v.
Proof.
  intros H. induction 1; [constructor|]. econstructor; eauto.
Qed.

Lemma grown_NoDup (root : node) (tree : list (node * node)) :
  grown root tree -> NoDup (root :: map snd tree).
Proof.
  induction 1 as [|tree p c Hg IH Hp Hc].
  - constructor; [tauto|constructor].
  - rewrite map_app. simpl.
    change (root :: map snd tree ++ [c]) with ((root :: map snd tree) ++ [c]).
    apply NoDup_app; auto.
    + constructor; [tauto|constructor].
    + intros x Hx [<-|[]]. contradiction.
Qed.

Lemma grown_parents (root : node) (tree : list (node * node)) :
  grown root tree ->
  forall p c, In (p, c) tree -> In p (root :: map snd tree).
Proof.
  induction 1 as [|tree p c Hg IH Hp Hc]; intros p0 c0 H; [destruct H|].
  rewrite map_app. cbn [map snd].
  change (root :: map snd tree ++ [c]) with ((root :: map snd tree) ++ [c]).
  apply in_or_app. left.
  apply in_app_or in H. destruct H as [H|[E|[]]].
  - eapply IH; eauto.
  - injection E as <- <-. exact Hp.
Qed.

(** Every node of a grown tree is reached from the root along its arcs. *)
Lemma grown_reach (root : node) (tree : list (node * node)) :
  grown root tree ->
  forall x, In x (root :: map snd tree) -> conn (arcs_next tree) root x.
Proof.
  induction 1 as [|tree p c Hg IH Hp Hc]; intros x Hx.
  - destruct Hx as [<-|[]]. constructor.
  - assert (Hmono : forall u v, conn (arcs_next tree) u v ->
                                conn (arcs_next (tree ++ [(p, c)])) u v).
    { intros u v. apply conn_incl. intros a b Hab.
      apply arcs_next_In. apply in_or_app. left.
      apply arcs_next_In. exact Hab. }
    rewrite map_app in Hx. simpl in Hx.
    destruct Hx as [<-|Hx]; [constructor|].
    apply in_app_or in Hx. destruct Hx as [Hx|[<-|[]]].
    + apply Hmono. apply IH. right; auto.
    + apply conn_trans with p.
      * apply Hmono. apply IH. exact Hp.
      * apply conn_edge. apply arcs_next_In. apply in_or_app. right. left; auto.
Qed.

Lemma index_of_app (x : node) (l l' : list node) :
  In x l -> index_of x (l ++ l') = index_of x l.
Proof.
  induction l as [|y l IH]; simpl; [tauto|].
  intros [->|H].
  - rewrite node_eqb_refl. reflexivity.
  - destruct (node_eqb y x); auto.
Qed.

Lemma index_of_lt (x : node) (l : list node) :
  In x l -> (index_of x l < List.length l)%nat.
Proof.
  induction l as [|y l IH]; simpl; [tauto|].
  intros [->|H].
  - rewrite node_eqb_refl. lia.
  - destruct (node_eqb y x); [lia|]. apply IH in H. lia.
Qed.

Lemma index_of_new (x : node) (l : list node) :
  ~ In x l -> index_of x (l ++ [x]) = List.length l.
Proof.
  induction l as [|y l IH]; simpl; intros H.
  - rewrite node_eqb_refl. reflexivity.
  - replace (node_eqb y x) with false.
    + rewrite IH; auto.
    + symmetry. apply node_eqb_neq. intros ->. tauto.
Qed.

(** In a grown tree every arc leads to a node that joined later. *)
Lemma grown_rank (root : node) (tree : list (node * node)) :
  grown root tree ->
  forall p c, In (p, c) tree ->
              (index_of p (root :: map snd tree)
               < index_of c (root :: map snd tree))%nat.
Proof.
  induction 1 as [|tree p c Hg IH Hp Hc]; intros p0 c0 H; [destruct H|].
  rewrite map_app.
  change (root :: map snd tree ++ map snd [(p, c)])
    with ((root :: map snd tree) ++ [c]).
  apply in_app_or in H. destruct H as [H|[E|[]]].
  - assert (Hp0 : In p0 (root :: map snd tree))
      by (eapply grown_parents; eauto).
    assert (Hc0 : In c0 (root :: map snd tree)).
    { right. apply in_map_iff. exists (p0, c0). auto. }
    rewrite !index_of_app by assumption. apply IH. exact H.
  - injection E as <- <-.
    rewrite index_of_app by assumption.
    rewrite index_of_new by assumption.
    apply index_of_lt. exact Hp.
Qed.

(** ** The directed graph of a grown tree *)

Lemma d_add_node_old (d : DiGraph) (n : node) :
  In n (d_nodes d) -> d_add_node d n = d.
Proof.
  intros H. unfold d_add_node. apply mem_In in H. rewrite H. reflexivity.
Qed.

Lemma d_add_node_edges (d : DiGraph) (n : node) :
  d_edges (d_add_node d n) = d_edges d.
Proof.
  unfold d_add_node. destruct (mem n (d_nodes d)); reflexivity.
Qed.

Lemma arc_eqb_eq (e1 e2 : node * node) : arc_eqb e1 e2 = true <-> e1 = e2.
Proof.
  destruct e1 as [a b], e2 as [c d]. unfold arc_eqb. simpl.
  rewrite andb_true_iff, !node_eqb_eq. split.
  - intros [-> ->]. reflexivity.
  - intros E. injection E. auto.
Qed.

Lemma existsb_arc (e : node * node) (es : list (node * node)) :
  existsb (arc_eqb e) es = true <-> In e es.
Proof.
  rewrite existsb_exists. split.
  - intros [x [Hx E]]. apply arc_eqb_eq in E. subst. exact Hx.
  - intros H. exists e. split; auto. apply arc_eqb_eq. reflexivity.
Qed.

Lemma d_add_edge_edges (d : DiGraph) (u v : node) :
  d_edges (d_add_edge d u v)
  = if existsb (arc_eqb (u, v)) (d_edges d) then d_edges d
    else d_edges d ++ [(u, v)].
Proof.
  unfold d_add_edge. cbv zeta. rewrite !d_add_node_edges.
  destruct (existsb (arc_eqb (u, v)) (d_edges d)); simpl;
    rewrite ?d_add_node_edges; reflexivity.
Qed.

Lemma d_add_edge_leaf (ns : list node) (es : list (node * node)) (p c : node) :
  In p ns -> ~ In c ns -> ~ In (p, c) es ->
  d_add_edge (mkDiGraph ns es) p c = mkDiGraph (ns ++ [c]) (es ++ [(p, c)]).
Proof.
  intros Hp Hc He. unfold d_add_edge.
  rewrite (d_add_node_old (mkDiGraph ns es) p Hp).
  unfold d_add_node. simpl.
  apply mem_not_In in Hc. rewrite Hc. simpl.
  replace (existsb (arc_eqb (p, c)) es) with false; auto.
  symmetry. apply not_true_is_false. intros E. apply existsb_arc in E.
  contradiction.
Qed.

Lemma grown_digraph (root : node) (tree : list (node * node)) :
  grown root tree ->
  d_add_edges_from (d_add_node (mkDiGraph [] []) root) tree
  = mkDiGraph (root :: map snd tree) tree.
Proof.
  unfold d_add_edges_from.
  induction 1 as [|tree p c Hg IH Hp Hc].
  - reflexivity.
  - rewrite fold_left_app, IH. simpl.
    rewrite d_add_edge_leaf; auto.
    + rewrite map_app. reflexivity.
    + intros H. apply Hc. right. apply in_map_iff. exists (p, c). auto.
Qed.

(** The tree of a search: grown from the source, made of edges of the
    graph, and spanning exactly the nodes a path joins to the source. *)
Lemma search_tree_spec (depth_first : bool) (g : Graph) (root : node) :
  well_formed g -> In root (g_nodes g) ->
  exists tree,
    search_tree depth_first g root = Ret (mkDiGraph (root :: map snd tree) tree)
    /\ grown root tree
    /\ (forall p c, In (p, c) tree -> In c (adj g p))
    /\ (forall x, In x (root :: map snd tree) <-> conn (adj g) root x).
Proof.
  intros Hwf Hroot. unfold search_tree.
  rewrite (proj2 (mem_In root (g_nodes g)) Hroot).
  destruct (traverse_ends depth_first g root Hwf (traverse_fuel g)
              [(root, adj g root)] [root] [])
    as [visited [tree [E [Hv [Hg [Ht [_ Hc]]]]]]].
  - split; [reflexivity|]. split; [constructor|]. split; [intros ? ? []|].
    split.
    + intros p ch [H|[]]. injection H as <- <-. split; [left; auto|].
      intros x Hx; exact Hx.
    + intros v w [<-|[]] Hw. right. exists (adj g root). split; auto.
      left; auto.
  - apply traverse_fuel_enough; auto.
  - exists tree. rewrite E. simpl. rewrite grown_digraph by exact Hg.
    repeat split; auto.
    + intros Hx.
      apply conn_incl with (next := arcs_next tree).
      * intros a b Hab. apply Ht. apply arcs_next_In. exact Hab.
      * apply grown_reach; auto.
    + intros Hx.
      apply (visited_tree root visited tree x Hv).
      assert (Hr : In root visited).
      { apply (visited_tree root visited tree root Hv). left; auto. }
      clear - Hx Hr Hc. induction Hx as [u|u w v Hw Hx IH]; auto.
      apply IH. destruct (Hc u w Hr Hw) as [H|[ch [[] _]]]. exact H.
Qed.

(** ** Directed cycles *)

Lemma ranked_conn (next : node -> list node) (rank : node -> nat) (u v : node) :
  (forall x y, In y (next x) -> (rank x < rank y)%nat) ->
  conn next u v -> (rank u <= rank v)%nat.
Proof.
  intros H. induction 1 as [u|u w v Hw Hc IH]; auto.
  apply H in Hw. lia.
Qed.

Lemma ranked_no_cycle (d : DiGraph) (rank : node -> nat) :
  (forall u v, In (u, v) (d_edges d) -> (rank u < rank v)%nat) ->
  has_cycle d = false.
Proof.
  intros H. unfold has_cycle. apply not_true_is_false. intros E.
  apply existsb_exists in E. destruct E as [[u v] [He Hr]]. simpl in Hr.
  apply reach_sound in Hr.
  apply (ranked_conn (successors d) rank v u) in Hr.
  - apply H in He. lia.
  - intros x y Hy. apply H. apply arcs_next_In. exact Hy.
Qed.

(** ** Attaching the class node *)

Lemma attach_class_edges (class_node : node) (cols : list node) :
  NoDup cols ->
  forall d, (forall n, In n cols -> ~ In (class_node, n) (d_edges d)) ->
            d_edges (attach_class d class_node cols)
            = d_edges d ++ map (pair class_node) cols.
Proof.
  unfold attach_class.
  induction 1 as [|n cols Hn Hnd IH]; intros d Hd; simpl.
  - rewrite app_nil_r. reflexivity.
  - rewrite IH.
    + rewrite d_add_edge_edges.
      replace (existsb (arc_eqb (class_node, n)) (d_edges d)) with false.
      * rewrite <- app_assoc. reflexivity.
      * symmetry. apply not_true_is_false. intros E. apply existsb_arc in E.
        apply (Hd n); auto. left; auto.
    + intros m Hm. rewrite d_add_edge_edges.
      destruct (existsb (arc_eqb (class_node, n)) (d_edges d)).
      * apply Hd. right; auto.
      * intros H. apply in_app_or in H. destruct H as [H|[E|[]]].
        -- apply (Hd m); auto. right; auto.
        -- injection E as ->. contradiction.
Qed.

(** ** The skeleton stays a graph over the feature columns *)

Lemma add_edge_same_nodes (g : Graph) (a b : node) (w : attr) :
  In a (g_nodes g) -> In b (g_nodes g) ->
  g_nodes (add_edge g a b w) = g_nodes g.
Proof.
  intros Ha Hb. unfold add_edge.
  rewrite (add_node_old g a Ha), (add_node_old g b Hb).
  destruct (has_edge g a b); reflexivity.
Qed.

Lemma add_edge_wf (g : Graph) (a b : node) (w : attr) :
  well_formed g -> In a (g_nodes g) -> In b (g_nodes g) ->
  well_formed (add_edge g a b w).
Proof.
  intros [Hn He] Ha Hb. unfold add_edge.
  rewrite (add_node_old g a Ha), (add_node_old g b Hb).
  destruct (has_edge g a b); split; simpl; auto.
  - intros x y wt H. apply in_map_iff in H.
    destruct H as [[[x' y'] wt'] [E H]].
    destruct (joins a b (x', y', wt')); injection E as <- <- <-;
      eapply He; eauto.
  - intros x y wt H. apply in_app_or in H. destruct H as [H|[E|[]]].
    + eapply He; eauto.
    + injection E as <- <- <-. auto.
Qed.

Lemma remove_edge_wf (g g' : Graph) (a b : node) :
  well_formed g -> remove_edge g a b = Ret g' ->
  well_formed g' /\ g_nodes g' = g_nodes g.
Proof.
  intros [Hn He]. unfold remove_edge.
  destruct (has_edge g a b); [|discriminate].
  intros E. injection E as <-. simpl.
  split; [|reflexivity]. split; simpl; auto.
  intros x y wt Hin. apply filter_In in Hin. destruct Hin as [Hin _].
  apply (He x y wt Hin).
Qed.

Lemma scan_step_nodes (s s' : scan_state) :
  scan_invariant s -> scan_step s = Ret (Some s') ->
  g_nodes (scan_graph s') = g_nodes (scan_graph s).
Proof.
  destruct s as [[[g L] i] n]. simpl.
  intros [Hf [Hne [Hin [Hi Hn]]]].
  destruct (i <? n)%Z; [|discriminate].
  destruct (nth_error L (Z.to_nat i)) as [[[a b] m]|] eqn:Enth; [|discriminate].
  destruct (_ =? _)%Z; [discriminate|].
  assert (Hab : endpoints_in (g_nodes g) (a, b, m)).
  { rewrite Forall_forall in Hin. apply Hin. eapply nth_error_In; eauto. }
  destruct Hab as [Ha Hb]. simpl in Ha, Hb.
  destruct (has_path g a b) as [p|e|]; simpl; try discriminate.
  destruct p; simpl; intros E; injection E as <-; simpl; auto.
  apply add_edge_same_nodes; auto.
Qed.

Lemma draft_scan_invariant (fuel : nat) :
  forall (s : scan_state) (g : Graph) (L : list candidate),
    scan_invariant s -> draft_scan fuel s = Ret (g, L) ->
    well_formed g /\ g_nodes g = g_nodes (scan_graph s)
    /\ Forall (endpoints_in (g_nodes g)) L.
Proof.
  assert (Hstop : forall s g L, scan_invariant s ->
                    Ret (scan_graph s, scan_list s) = Ret (g, L) ->
                    well_formed g /\ g_nodes g = g_nodes (scan_graph s)
                    /\ Forall (endpoints_in (g_nodes g)) L).
  { intros [[[g0 L0] i] n] g L [[Hwf _] [_ [Hin _]]] E.
    injection E as <- <-. simpl. auto. }
  induction fuel as [|fuel IH]; intros s g L Hinv H; simpl in H.
  - destruct (scan_step s) as [[s'|]|e|] eqn:E; simpl in H;
      try discriminate. eapply Hstop; eauto.
  - destruct (scan_step s) as [[s'|]|e|] eqn:E; simpl in H;
      try discriminate.
    + destruct (IH s' g L (scan_step_invariant s s' Hinv E) H)
        as [H1 [H2 H3]].
      rewrite (scan_step_nodes s s' Hinv E) in H2. auto.
    + eapply Hstop; eauto.
Qed.

Section SkeletonFacts.

Variable mutual_info_score : column -> column -> Q.
Variable data : frame.
Variable class_node : node.
Variable epsilon : Q.
Hypothesis distinct_names : NoDup (frame_columns data).

Let cols := frame_columns (features data class_node).

Lemma draft_wf (g : Graph) (L : list candidate) :
  draft mutual_info_score data class_node epsilon = Ret (g, L) ->
  well_formed g /\ g_nodes g = cols /\ Forall (endpoints_in cols) L.
Proof.
  intros H.
  destruct (sort_desc (candidate_pairs mutual_info_score epsilon
                         (features data class_node)))
    as [|[[a1 b1] m1] [|[[a2 b2] m2] L0]] eqn:Es;
    try (unfold draft in H; rewrite Es in H; discriminate).
  rewrite (draft_start mutual_info_score data class_node epsilon
             a1 b1 a2 b2 m1 m2 L0 Es) in H.
  pose proof (start_invariant mutual_info_score data class_node epsilon
                distinct_names a1 b1 a2 b2 m1 m2 L0 Es) as Hinv.
  destruct (draft_scan_invariant _ _ g L Hinv H) as [H1 [H2 H3]].
  assert (Hnodes : g_nodes g = cols).
  { rewrite H2. simpl.
    pose proof (candidate_pairs_endpoints mutual_info_score epsilon
                  (features data class_node)) as Hend.
    apply (Permutation_Forall (Permutation_sym (sort_desc_perm _))) in Hend.
    rewrite Es in Hend.
    inversion Hend as [|? ? [Ha1 Hb1] Hend']; subst.
    inversion Hend' as [|? ? [Ha2 Hb2] _]; subst.
    simpl in Ha1, Hb1, Ha2, Hb2.
    assert (E0 : g_nodes (add_nodes_from empty_graph cols) = cols).
    { unfold empty_graph.
      rewrite (add_nodes_from_fresh cols []); auto.
      simpl. apply frame_columns_features. exact distinct_names. }
    unfold scan_graph. cbn [fst]. fold cols.
    fold cols in Ha1, Hb1, Ha2, Hb2.
    rewrite add_edge_same_nodes.
    - rewrite add_edge_same_nodes; rewrite ?E0; auto.
    - rewrite add_edge_same_nodes; rewrite ?E0; auto.
    - rewrite add_edge_same_nodes; rewrite ?E0; auto. }
  rewrite Hnodes in H3. auto.
Qed.

Lemma thicken_wf (fuel : nat) (L : list candidate) :
  forall g g',
    well_formed g -> Forall (endpoints_in (g_nodes g)) L ->
    thicken mutual_info_score data epsilon fuel g L = Ret g' ->
    well_formed g' /\ g_nodes g' = g_nodes g.
Proof.
  induction L as [|[[a b] m] L IH]; intros g g' Hwf Hin H; simpl in H.
  - injection H as <-. auto.
  - inversion Hin as [|? ? [Ha Hb] Hin']; subst. simpl in Ha, Hb.
    destruct (try_to_separate_a _ _ _ _ _ _ _) as [sep|e|];
      simpl in H; try discriminate.
    destruct sep; simpl in H.
    + apply IH; auto.
    + destruct (IH (add_edge g a b (Some m)) g') as [H1 H2]; auto.
      * apply add_edge_wf; auto.
      * rewrite add_edge_same_nodes; auto.
      * rewrite H2, add_edge_same_nodes; auto.
Qed.

Lemma thin_wf (separate : Graph -> node -> node -> outcome bool)
              (es : list (node * node)) :
  forall g g',
    well_formed g ->
    (forall u v, In (u, v) es -> In u (g_nodes g) /\ In v (g_nodes g)) ->
    thin separate g es = Ret g' ->
    well_formed g' /\ g_nodes g' = g_nodes g.
Proof.
  induction es as [|[a b] es IH]; intros g g' Hwf Hin H; simpl in H.
  - injection H as <-. auto.
  - destruct (Hin a b (or_introl eq_refl)) as [Ha Hb].
    destruct (remove_edge g a b) as [g1|e|] eqn:E1; simpl in H;
      try discriminate.
    destruct (remove_edge_wf g g1 a b Hwf E1) as [Hwf1 Hn1].
    destruct (has_path g1 a b) as [p|e|]; simpl in H; try discriminate.
    assert (Hrest : forall g2, g_nodes g2 = g_nodes g ->
              forall u v, In (u, v) es ->
                          In u (g_nodes g2) /\ In v (g_nodes g2)).
    { intros g2 E u v Huv. rewrite E. apply Hin. right; auto. }
    destruct (if p then _ else _) as [keep|e|]; simpl in H; try discriminate.
    destruct keep.
    + destruct (IH (add_edge g1 a b None) g') as [H1 H2]; auto.
      * apply add_edge_wf; auto; rewrite Hn1; auto.
      * apply Hrest. rewrite add_edge_same_nodes; auto; rewrite Hn1; auto.
      * split; auto.
        rewrite H2, add_edge_same_nodes; auto; rewrite Hn1; auto.
    + destruct (IH g1 g') as [H1 H2]; auto.
      split; auto. congruence.
Qed.

End SkeletonFacts.

Lemma edges_from_nodes (g : Graph) (todo seen : list node) (u v : node) :
  In (u, v) (edges_from g seen todo) -> In u todo /\ In v (adj g u).
Proof.
  revert seen. induction todo as [|n todo IH]; intros seen H; simpl in H.
  - destruct H.
  - apply in_app_or in H. destruct H as [H|H].
    + apply in_map_iff in H. destruct H as [nbr [E H]].
      injection E as <- <-. apply filter_In in H. split; [left; auto|tauto].
    + apply IH in H. split; [right|]; tauto.
Qed.

Lemma edges_view_nodes (g : Graph) (u v : node) :
  well_formed g -> In (u, v) (edges_view g) ->
  In u (g_nodes g) /\ In v (g_nodes g).
Proof.
  intros Hwf H. apply edges_from_nodes in H. destruct H as [Hu Hv].
  split; auto. destruct (adj_in_nodes g u v Hwf Hv). assumption.
Qed.

Section ConstraintSearchResult.

Variable mutual_info_score : column -> column -> Q.
Variable data : frame.
Variable class_node : node.
Variable epsilon : Q.
Hypothesis distinct_names : NoDup (frame_columns data).

Let cols := frame_columns (features data class_node).

Lemma skeleton_wf (fuel : nat) (g : Graph) :
  skeleton mutual_info_score data class_node epsilon fuel = Ret g ->
  well_formed g /\ g_nodes g = cols.
Proof.
  unfold skeleton. intros H.
  destruct (draft mutual_info_score data class_node epsilon)
    as [[g0 L]|e|] eqn:Ed; simpl in H; try discriminate.
  destruct (draft_wf mutual_info_score data class_node epsilon
              distinct_names g0 L Ed) as [W0 [N0 E0]].
  destruct (thicken _ _ _ _ g0 L) as [g1|e|] eqn:E1; simpl in H;
    try discriminate.
  destruct (thicken_wf mutual_info_score data epsilon fuel L g0 g1 W0)
    as [W1 N1]; auto.
  { rewrite N0. exact E0. }
  destruct (thin _ g1 (edges_view g1)) as [g2|e|] eqn:E2; simpl in H;
    try discriminate.
  destruct (thin_wf _ (edges_view g1) g1 g2 W1
              (fun u v Huv => edges_view_nodes g1 u v W1 Huv) E2) as [W2 N2].
  destruct (thin_wf _ (edges_view g2) g2 g W2
              (fun u v Huv => edges_view_nodes g2 u v W2 Huv) H) as [W3 N3].
  split; auto. unfold cols. congruence.
Qed.

Lemma class_not_feature : ~ In class_node cols.
Proof.
  unfold cols, frame_columns, features. intros H.
  apply in_map_iff in H. destruct H as [[n c] [E H]]. simpl in E. subst n.
  apply filter_In in H. destruct H as [_ H]. simpl in H.
  rewrite node_eqb_refl in H. discriminate.
Qed.

(** The directed graph [orient] builds from a skeleton over the feature
    columns. *)
Lemma orient_spec (g : Graph) (root : node) :
  well_formed g -> g_nodes g = cols ->
  first_column (features data class_node) = Ret root ->
  exists tree,
    orient data class_node g
    = Ret (attach_class (mkDiGraph (root :: map snd tree) tree)
                        class_node cols)
    /\ feature_edges (attach_class (mkDiGraph (root :: map snd tree) tree)
                                   class_node cols) class_node = tree
    /\ grown root tree
    /\ (forall p c, In (p, c) tree -> In c (adj g p))
    /\ (forall x, In x (root :: map snd tree) <-> conn (adj g) root x).
Proof.
  intros Hwf Hnodes Hroot.
  assert (Hin : In root (g_nodes g)).
  { rewrite Hnodes. unfold cols, frame_columns.
    destruct (features data class_node) as [|[n c] rest]; simpl in *;
      [discriminate|]. injection Hroot as ->. left; auto. }
  destruct (search_tree_spec true g root Hwf Hin)
    as [tree [Et [Hg [Ht Hc]]]].
  exists tree. unfold orient. rewrite Hroot. simpl.
  unfold dfs_tree. rewrite Et. simpl. fold cols.
  assert (Hcols : NoDup cols)
    by (apply frame_columns_features; exact distinct_names).
  assert (Htree_nodes : forall p c, In (p, c) tree ->
                                    In p cols /\ In c cols).
  { intros p c Hpc. rewrite <- Hnodes.
    destruct (adj_in_nodes g p c Hwf (Ht p c Hpc)). auto. }
  assert (Hno_class : forall n, In n cols ->
            ~ In (class_node, n)
                 (d_edges (mkDiGraph (root :: map snd tree) tree))).
  { intros n _ H. simpl in H. apply Htree_nodes in H.
    apply class_not_feature. tauto. }
  pose proof (attach_class_edges class_node cols Hcols _ Hno_class) as Ee.
  simpl in Ee.
  assert (Hfe : feature_edges
                  (attach_class (mkDiGraph (root :: map snd tree) tree)
                                class_node cols) class_node = tree).
  { unfold feature_edges. rewrite Ee, filter_app.
    replace (filter _ (map (pair class_node) cols)) with (@nil (node * node)).
    - rewrite app_nil_r. apply forallb_filter_id. apply forallb_forall.
      intros [p c] Hpc. simpl.
      destruct (Htree_nodes p c Hpc) as [Hp Hc'].
      apply andb_true_iff. split; apply negb_true_iff; apply node_eqb_neq;
        intros ->; apply class_not_feature; auto.
    - symmetry. clear. induction cols as [|n l IH]; simpl; auto.
      rewrite node_eqb_refl. simpl. exact IH. }
  split; [|repeat split; auto; apply Hc].
  unfold DAG.
  rewrite (ranked_no_cycle _
             (fun x => if node_eqb x class_node then O
                       else S (index_of x (root :: map snd tree)))).
  - reflexivity.
  - intros u v Huv. rewrite Ee in Huv. apply in_app_or in Huv.
    destruct Huv as [Huv|Huv].
    + destruct (Htree_nodes u v Huv) as [Hu Hv].
      replace (node_eqb u class_node) with false
        by (symmetry; apply node_eqb_neq; intros ->;
            apply class_not_feature; auto).
      replace (node_eqb v class_node) with false
        by (symmetry; apply node_eqb_neq; intros ->;
            apply class_not_feature; auto).
      apply -> Nat.succ_lt_mono. apply grown_rank; auto.
    + apply in_map_iff in Huv. destruct Huv as [n [E Hn]].
      injection E as <- <-. rewrite node_eqb_refl.
      replace (node_eqb n class_node) with false
        by (symmetry; apply node_eqb_neq; intros ->;
            apply class_not_feature; auto).
      lia.
Qed.

End ConstraintSearchResult.

(** ** The depth-first traversal *)

Section DepthFirst.

Variable g : Graph.
Variable root : node.

Lemma traverse_invariant_pop (p : node) (waiting : list (node * list node))
  (visited : list node) (tree : list (node * node)) :
  traverse_invariant g root ((p, []) :: waiting) visited tree ->
  traverse_invariant g root waiting visited tree.
Proof.
  intros [Hv [Hg [Ht [Hw Hc]]]].
  split; [exact Hv|]. split; [exact Hg|]. split; [exact Ht|]. split.
  - intros p0 ch H. apply (Hw p0 ch). right; exact H.
  - intros v w Hvin Hwin.
    destruct (Hc v w Hvin Hwin) as [H|[ch [[E|H1] H2]]]; auto.
    + injection E as <- <-. destruct H2.
    + right. exists ch. auto.
Qed.

Lemma traverse_invariant_skip (p child : node) (others : list node)
  (waiting : list (node * list node))
  (visited : list node) (tree : list (node * node)) :
  traverse_invariant g root ((p, child :: others) :: waiting) visited tree ->
  In child visited ->
  traverse_invariant g root ((p, others) :: waiting) visited tree.
Proof.
  intros [Hv [Hg [Ht [Hw Hc]]]] Hin.
  split; [exact Hv|]. split; [exact Hg|]. split; [exact Ht|]. split.
  - intros p0 ch [E|H].
    + injection E as <- <-.
      destruct (Hw p (child :: others)) as [H1 H2]; [left; auto|].
      split; auto. intros x Hx. apply H2. right; auto.
    + apply (Hw p0 ch). right; auto.
  - intros v w Hvin Hwin.
    destruct (Hc v w Hvin Hwin) as [H|[ch [[E|H1] H2]]]; auto.
    + injection E as <- <-. destruct H2 as [<-|H2]; auto.
      right. exists others. split; auto. left; auto.
    + right. exists ch. split; auto. right; auto.
Qed.

Lemma traverse_invariant_push (p child : node) (others : list node)
  (waiting : list (node * list node))
  (visited : list node) (tree : list (node * node)) :
  traverse_invariant g root ((p, child :: others) :: waiting) visited tree ->
  ~ In child visited ->
  traverse_invariant g root
    ((child, adj g child) :: (p, others) :: waiting)
    (child :: visited) (tree ++ [(p, child)]).
Proof.
  intros [Hv [Hg [Ht [Hw Hc]]]] Hnew.
  destruct (Hw p (child :: others)) as [Hp Hi]; [left; auto|].
  assert (Hchild : In child (adj g p)) by (apply Hi; left; auto).
  split; [|split; [|split; [|split]]].
  - rewrite map_app, rev_app_distr. simpl. rewrite Hv. reflexivity.
  - constructor; auto.
    + apply (visited_tree root visited tree p Hv). exact Hp.
    + intros H. apply Hnew.
      apply (visited_tree root visited tree child Hv). exact H.
  - intros p0 c0 H. apply in_app_or in H.
    destruct H as [H|[E|[]]]; auto.
    injection E as <- <-. exact Hchild.
  - intros p0 ch [E|[E|H]].
    + injection E as <- <-. split; [left; auto|].
      intros x Hx; exact Hx.
    + injection E as <- <-. split; [right; auto|].
      intros x Hx. apply Hi. right; auto.
    + destruct (Hw p0 ch) as [H1 H2]; [right; auto|].
      split; auto. right; auto.
  - intros v w [<-|Hvin] Hwin.
    + right. exists (adj g child). split; auto. left; auto.
    + destruct (Hc v w Hvin Hwin) as [H|[ch [[E|H1] H2]]].
      * left. right; auto.
      * injection E as <- <-. destruct H2 as [<-|H2].
        -- left. left; auto.
        -- right. exists others. split; auto. right; left; auto.
      * right. exists ch. split; auto. right; right; auto.
Qed.

Lemma conn_more_arcs (tree : list (node * node)) (e : node * node)
                     (u v : node) :
  conn (arcs_next tree) u v -> conn (arcs_next (tree ++ [e])) u v.
Proof.
  apply conn_incl. intros x y H. apply arcs_next_In.
  apply in_or_app. left. apply arcs_next_In. exact H.
Qed.

Lemma branch_more_arcs (tree : list (node * node)) (e : node * node)
                       (work : list (node * list node)) :
  branch tree work -> branch (tree ++ [e]) work.
Proof.
  induction work as [|[p ch] waiting IH]; simpl; auto.
  intros [H1 H2]. split; auto.
  intros w ch0 Hw. apply conn_more_arcs. apply (H1 w ch0 Hw).
Qed.

(** The nodes of the work list lead down the tree to its first node. *)
Lemma branch_head (tree : list (node * node)) (p : node) (ch : list node)
                  (waiting : list (node * list node)) (w : node)
                  (chw : list node) :
  branch tree ((p, ch) :: waiting) ->
  In (w, chw) ((p, ch) :: waiting) -> conn (arcs_next tree) w p.
Proof.
  intros [H _] [E|Hin].
  - injection E as <- _. constructor.
  - apply (H w chw Hin).
Qed.

Lemma last_arc (t1 t2 tree : list (node * node)) (x y : node * node) :
  t1 ++ x :: t2 = tree ++ [y] ->
  (t2 = [] /\ t1 = tree /\ x = y)
  \/ exists t2', t2 = t2' ++ [y] /\ tree = t1 ++ x :: t2'.
Proof.
  destruct (exists_last (l := x :: t2) ltac:(discriminate)) as [l [z E]].
  destruct t2 as [|x2 t2].
  - intros H. left.
    change (t1 ++ [x] = tree ++ [y]) in H.
    apply app_inj_tail in H. destruct H as [-> ->]. auto.
  - intros H. right.
    destruct (exists_last (l := x2 :: t2) ltac:(discriminate)) as [l2 [z2 E2]].
    rewrite E2 in H |- *.
    change (t1 ++ x :: l2 ++ [z2]) with (t1 ++ (x :: l2) ++ [z2]) in H.
    rewrite app_assoc in H. apply app_inj_tail in H.
    destruct H as [<- ->]. exists l2. auto.
Qed.

(** A depth-first traversal leaves no edge across the tree and takes the
    neighbours in their order. *)
Lemma traverse_depth_first (fuel : nat) :
  forall work visited tree tree',
    traverse_invariant g root work visited tree ->
    branch tree work ->
    looked_at g work visited ->
    no_cross_edge g root tree ->
    in_neighbour_order g root tree ->
    traverse true fuel g work visited tree = Ret tree' ->
    no_cross_edge g root tree' /\ in_neighbour_order g root tree'.
Proof.
  induction fuel as [|fuel IH];
    intros work visited tree tree' Hinv Hb Hl Hx Ho E.
  { destruct work as [|[p ch] waiting]; simpl in E; [|discriminate].
    injection E as <-. auto. }
  destruct work as [|[p [|child others]] waiting]; simpl in E.
  - injection E as <-. auto.
  - apply (IH waiting visited tree tree'); auto.
    + apply (traverse_invariant_pop p). exact Hinv.
    + apply Hb.
    + intros p0 ch H. apply (Hl p0 ch). right; exact H.
  - destruct (mem child visited) eqn:Em.
    + apply mem_In in Em.
      apply (IH ((p, others) :: waiting) visited tree tree'); auto.
      * apply (traverse_invariant_skip p child). exact Hinv. exact Em.
      * intros p0 ch [H|H].
        -- injection H as <- <-.
           destruct (Hl p (child :: others)) as [seen [E1 E2]]; [left; auto|].
           exists (seen ++ [child]). split.
           ++ rewrite <- app_assoc. exact E1.
           ++ intros x Hin. apply in_app_or in Hin.
              destruct Hin as [Hin|[<-|[]]]; auto.
        -- apply (Hl p0 ch). right; exact H.
    + apply mem_not_In in Em.
      pose proof Hinv as [Hv [Hg [Ht [Hw Hc]]]].
      apply (IH ((child, adj g child) :: (p, others) :: waiting)
                (child :: visited) (tree ++ [(p, child)]) tree'); auto.
      * apply traverse_invariant_push; auto.
      * split.
        -- intros w ch Hin.
           apply conn_trans with (v := p).
           ++ apply conn_more_arcs. destruct Hin as [H|H].
              ** injection H as <- _. constructor.
              ** apply (branch_head tree p (child :: others) waiting w ch Hb).
                 right; exact H.
           ++ apply conn_edge. apply arcs_next_In.
              apply in_or_app. right. left. reflexivity.
        -- apply (branch_more_arcs tree (p, child)
                    ((p, others) :: waiting)). exact Hb.
      * intros p0 ch [H|[H|H]].
        -- injection H as <- <-. exists []. split; auto.
           intros x [].
        -- injection H as <- <-.
           destruct (Hl p (child :: others)) as [seen [E1 E2]]; [left; auto|].
           exists (seen ++ [child]). split.
           ++ rewrite <- app_assoc. exact E1.
           ++ intros x Hin. apply in_app_or in Hin.
              destruct Hin as [Hin|[<-|[]]]; [right; auto|left; auto].
        -- destruct (Hl p0 ch) as [seen [E1 E2]]; [right; auto|].
           exists seen. split; auto.
           intros x Hin. right. apply E2. exact Hin.
      * (* no edge across the tree with its new leaf *)
        assert (Hdown : forall w, In w visited -> In child (adj g w) ->
                                  conn (arcs_next (tree ++ [(p, child)]))
                                       w child).
        { intros w Hwv Hwc.
          destruct (Hc w child Hwv Hwc) as [H|[ch [H1 _]]];
            [contradiction|].
          apply conn_trans with (v := p).
          - apply conn_more_arcs.
            apply (branch_head tree p (child :: others) waiting w ch Hb H1).
          - apply conn_edge. apply arcs_next_In.
            apply in_or_app. right. left. reflexivity. }
        assert (Hnodes : forall x, In x (root :: map snd (tree ++ [(p, child)]))
                                   -> x = child \/ In x visited).
        { intros x Hin. rewrite map_app in Hin. simpl in Hin.
          destruct Hin as [<-|Hin].
          - right. apply (visited_tree root visited tree root Hv). left; auto.
          - apply in_app_or in Hin. destruct Hin as [Hin|[<-|[]]]; auto.
            right. apply (visited_tree root visited tree x Hv). right; auto. }
        intros u v Hu Hv' Huv.
        destruct (Hnodes u Hu) as [->|Hu1];
          destruct (Hnodes v Hv') as [->|Hv1].
        -- left. constructor.
        -- right. apply Hdown; auto.
           unfold adj in *. apply adj_of_sym. exact Huv.
        -- left. apply Hdown; auto.
        -- destruct (Hx u v) as [H|H]; auto.
           ++ apply (visited_tree root visited tree u Hv). exact Hu1.
           ++ apply (visited_tree root visited tree v Hv). exact Hv1.
           ++ left. apply conn_more_arcs. exact H.
           ++ right. apply conn_more_arcs. exact H.
      * (* the neighbours in their order *)
        intros t1 p0 c0 t2 Et. symmetry in Et.
        destruct (last_arc t1 t2 tree (p0, c0) (p, child) Et)
          as [[-> [-> E0]]|[t2' [-> ->]]].
        -- injection E0 as -> ->.
           destruct (Hl p (child :: others)) as [seen [E1 E2]]; [left; auto|].
           exists seen, others. split; auto.
           intros x Hin. apply (visited_tree root visited tree x Hv).
           apply E2. exact Hin.
        -- apply (Ho t1 p0 c0 t2'). reflexivity.
Qed.

End DepthFirst.

(** [nx.dfs_tree] on a node of the graph. *)
Lemma dfs_tree_spec (g : Graph) (root : node) :
  well_formed g -> In root (g_nodes g) ->
  exists tree,
    dfs_tree g root = Ret (mkDiGraph (root :: map snd tree) tree)
    /\ grown root tree
    /\ (forall p c, In (p, c) tree -> In c (adj g p))
    /\ (forall x, In x (root :: map snd tree) <-> conn (adj g) root x)
    /\ no_cross_edge g root tree
    /\ in_neighbour_order g root tree.
Proof.
  intros Hwf Hroot.
  destruct (search_tree_spec true g root Hwf Hroot)
    as [tree [E [Hg [Ht Hc]]]].
  exists tree. split; [exact E|]. split; [exact Hg|].
  split; [exact Ht|]. split; [exact Hc|].
  unfold search_tree in E.
  rewrite (proj2 (mem_In root (g_nodes g)) Hroot) in E.
  destruct (traverse true (traverse_fuel g) g [(root, adj g root)] [root] [])
    as [tree0|e|] eqn:E0; simpl in E; try discriminate.
  assert (Hstart : traverse_invariant g root [(root, adj g root)] [root] []).
  { split; [reflexivity|]. split; [constructor|]. split; [intros ? ? []|].
    split.
    - intros p ch [H|[]]. injection H as <- <-. split; [left; auto|].
      intros x Hx; exact Hx.
    - intros v w [<-|[]] Hw. right. exists (adj g root). split; auto.
      left; auto. }
  destruct (traverse_ends true g root Hwf (traverse_fuel g)
              [(root, adj g root)] [root] [] Hstart
              (traverse_fuel_enough g root Hwf Hroot))
    as [visited [tree1 [E1 [_ [Hg1 _]]]]].
  rewrite E0 in E1. injection E1 as <-.
  rewrite (grown_digraph root tree0 Hg1) in E.
  assert (tree0 = tree) by (injection E; auto). subst tree0.
  apply (traverse_depth_first g root (traverse_fuel g)
           [(root, adj g root)] [root] [] tree); auto.
  - split; [intros w ch []|exact I].
  - intros p ch [H|[]]. injection H as <- <-. exists []. split; auto.
    intros x [].
  - intros u v [<-|[]] [<-|[]] _. left. constructor.
  - intros t1 p c t2 H. destruct t1; discriminate.
Qed.

(** ** The depth-first tree of the skeleton *)

Section OrientDepthFirst.

Variable data : frame.
Variable class_node : node.
Hypothesis distinct_names : NoDup (frame_columns data).

Let cols := frame_columns (features data class_node).

(** The graph [orient] builds holds the tree of [nx.dfs_tree], and
    nothing else between feature columns. *)
Lemma orient_depth_first (g : Graph) (root : node) :
  well_formed g -> g_nodes g = cols ->
  first_column (features data class_node) = Ret root ->
  exists tree,
    orient data class_node g
    = Ret (attach_class (mkDiGraph (root :: map snd tree) tree)
                        class_node cols)
    /\ feature_edges (attach_class (mkDiGraph (root :: map snd tree) tree)
                                   class_node cols) class_node = tree
    /\ dfs_tree g root = Ret (mkDiGraph (root :: map snd tree) tree)
    /\ grown root tree
    /\ (forall p c, In (p, c) tree -> In c (adj g p))
    /\ (forall x, In x (root :: map snd tree) <-> conn (adj g) root x)
    /\ no_cross_edge g root tree
    /\ in_neighbour_order g root tree.
Proof.
  intros Hwf Hnodes Hroot.
  assert (Hin : In root (g_nodes g)).
  { rewrite Hnodes. unfold cols, frame_columns.
    destruct (features data class_node) as [|[n c] rest]; simpl in *;
      [discriminate|]. injection Hroot as ->. left; auto. }
  destruct (dfs_tree_spec g root Hwf Hin)
    as [tree [Ed [Hg [Ht [Hc [Hx Ho]]]]]].
  destruct (orient_spec data class_node distinct_names g root Hwf Hnodes Hroot)
    as [tree2 [Eo [Ef [_ [Ht2 _]]]]].
  fold cols in Eo, Ef.
  assert (Hsame : tree2 = tree).
  { pose proof Eo as Eq. unfold orient in Eq. rewrite Hroot in Eq.
    cbn [bind] in Eq. rewrite Ed in Eq. cbn [bind] in Eq. fold cols in Eq.
    unfold DAG in Eq.
    destruct (has_cycle _); [discriminate|]. injection Eq as Eq.
    apply (f_equal d_edges) in Eq.
    assert (Hcols : NoDup cols)
      by (apply frame_columns_features; exact distinct_names).
    assert (Hout : forall t : list (node * node),
               (forall p c, In (p, c) t -> In c (adj g p)) ->
               forall n, In n cols ->
                 ~ In (class_node, n)
                      (d_edges (mkDiGraph (root :: map snd t) t))).
    { intros t Hadj n _ H. simpl in H. apply Hadj in H.
      destruct (adj_in_nodes g class_node n Hwf H) as [Hcl _].
      rewrite Hnodes in Hcl.
      apply (class_not_feature data class_node). exact Hcl. }
    rewrite (attach_class_edges class_node cols Hcols _ (Hout tree Ht)) in Eq.
    rewrite (attach_class_edges class_node cols Hcols _ (Hout tree2 Ht2))
      in Eq.
    simpl in Eq. apply app_inv_tail in Eq. auto. }
  subst tree2. exists tree. repeat split; auto; apply Hc.
Qed.

End OrientDepthFirst.

(** The nodes a tree leads to are nodes of the tree. *)
Lemma tree_walk_inside (root : node) (tree : list (node * node)) (u v : node) :
  conn (arcs_next tree) u v ->
  In u (root :: map snd tree) -> In v (root :: map snd tree).
Proof.
  induction 1 as [u|u w v Hw _ IH]; auto.
  intros _. apply IH. right. apply arcs_next_In in Hw.
  apply in_map_iff. exists (u, w). auto.
Qed.

(** ** What the constraint-based search returns *)

(** C8, as the program has it.  The arcs between feature columns of the
    returned graph are the depth-first tree of the final skeleton, grown
    from the first feature column: they are the arcs of [nx.dfs_tree] on
    the skeleton, in the order of their discovery; each hangs a new column
    under one the tree has, along an edge of the skeleton; a skeleton edge
    at a column the tree reaches joins that column and one above or below
    it in the tree, never two branches; when an arc joined the tree, the
    neighbours of its tail listed before its head were in the tree; and a
    feature column is reached from the root along the arcs exactly when a
    path of the final skeleton joins it to the root. *)
Theorem depth_first_tree_of_skeleton
  (mutual_info_score : column -> column -> Q) (data : frame)
  (class_node : node) (epsilon : Q) (fuel : nat)
  (graph : Graph) (root : node) (dag : DiGraph) :
  NoDup (frame_columns data) ->
  skeleton mutual_info_score data class_node epsilon fuel = Ret graph ->
  first_column (features data class_node) = Ret root ->
  estimate mutual_info_score data class_node epsilon fuel = Ret dag ->
  dfs_tree graph root
  = Ret (mkDiGraph (root :: map snd (feature_edges dag class_node))
                   (feature_edges dag class_node))
  /\ grown root (feature_edges dag class_node)
  /\ (forall p c, In (p, c) (feature_edges dag class_node) ->
                  has_edge graph p c = true)
  /\ (forall u v,
        conn (arcs_next (feature_edges dag class_node)) root u ->
        has_edge graph u v = true ->
        conn (arcs_next (feature_edges dag class_node)) u v
        \/ conn (arcs_next (feature_edges dag class_node)) v u)
  /\ (forall t1 p c t2,
        feature_edges dag class_node = t1 ++ (p, c) :: t2 ->
        exists l1 l2, adj graph p = l1 ++ c :: l2
                      /\ incl l1 (root :: map snd t1))
  /\ forall f, conn (arcs_next (feature_edges dag class_node)) root f
               <-> connected graph root f = true.
Proof.
  intros Hnames Hskel Hroot Hest. unfold estimate in Hest.
  destruct (negb (mem class_node (frame_columns data))); [discriminate|].
  rewrite Hskel in Hest. simpl in Hest.
  destruct (skeleton_wf mutual_info_score data class_node epsilon Hnames
              fuel graph Hskel) as [Hwf Hnodes].
  destruct (orient_depth_first data class_node Hnames graph root
              Hwf Hnodes Hroot)
    as [tree [Eo [Ef [Ed [Hg [Ht [Hc [Hx Ho]]]]]]]].
  rewrite Eo in Hest. injection Hest as <-. rewrite Ef.
  assert (Hup : forall a b, conn (arcs_next tree) a b -> conn (adj graph) a b).
  { intros a b. apply conn_incl. intros x y Hxy. apply Ht.
    apply arcs_next_In. exact Hxy. }
  split; [exact Ed|]. split; [exact Hg|]. split; [|split; [|split]].
  - intros p c Hpc. apply has_edge_adj. apply Ht. exact Hpc.
  - intros u v Hu Huv. apply has_edge_adj in Huv.
    apply Hx; auto.
    + apply (tree_walk_inside root tree root u Hu). left; auto.
    + apply Hc. apply conn_trans with (v := u); [apply Hup; exact Hu|].
      apply conn_edge. exact Huv.
  - exact Ho.
  - intros f. rewrite (connected_conn graph root f Hwf). split.
    + apply Hup.
    + intros H. apply grown_reach; auto. apply Hc. exact H.
Qed.

(** C8, as the claim has it, fails on [bits_table]: the search returns a
    graph in which the feature [B] is not reached from the root [A]. *)
Lemma bits_table_tree_not_spanning :
  (exists dag,
     estimate sample_score bits_table "Class" default_epsilon 5 = Ret dag
     /\ In "B" (frame_columns (features bits_table "Class"))
     /\ ~ conn (arcs_next (feature_edges dag "Class")) "A" "B")%string.
Proof.
  eexists. split; [vm_compute; reflexivity|].
  split; [vm_compute; auto|].
  intros H. inversion H as [|u w v Hw Hc]; subst.
  vm_compute in Hw. exact Hw.
Qed.

(** ** The scorer and columns of unequal length *)



(** ** Worked instances *)

(** The scorer on two columns and two conditioning columns. *)
Lemma conditional_mutual_info_score_instance :
  let x := [0; 0; 1; 1]%Z in
  let y := [0; 1; 0; 1]%Z in
  let cs := [[0; 1; 1; 1]%Z; [0; 0; 0; 1]%Z] in
  List.length x = List.length y
  /\ Forall (fun c => List.length c = List.length x) cs
  /\ exists q, conditional_mutual_info_score sample_score x y cs = Ret q
               /\ q == cmi_spec sample_score x y cs.
Proof.
  intros x y cs.
  assert (H1 : List.length x = List.length y) by reflexivity.
  assert (H2 : Forall (fun c => List.length c = List.length x) cs)
    by (repeat constructor).
  split; [exact H1|]. split; [exact H2|].
  exact (conditional_mutual_info_score_spec sample_score x y cs H1 H2).
Defined.

(** A table with two features: the second pop fails. *)
Lemma estimate_pops_empty_list_instance :
  (In "Class" (frame_columns two_table)
   /\ (List.length (dependent_pairs sample_score default_epsilon
                      (features two_table "Class")) < 2)%nat
   /\ estimate sample_score two_table "Class" default_epsilon 10
      = Raise IndexError)%string.
Proof.
  assert (H1 : In "Class"%string (frame_columns two_table))
    by (simpl; auto).
  assert (H2 : (List.length (dependent_pairs sample_score default_epsilon
                               (features two_table "Class"%string)) < 2)%nat)
    by (vm_compute; lia).
  split; [exact H1|]. split; [exact H2|].
  exact (estimate_pops_empty_list sample_score two_table "Class"%string
           default_epsilon 10 H1 H2).
Defined.

(** Drafting [three_table] under the thresholds 0.003 and 0.2. *)
Lemma draft_monotone_instance :
  (3 # 1000) <= (1 # 5)
  /\ exists g2 L2 g1 L1,
      draft sample_score three_table "Class"%string (1 # 5) = Ret (g2, L2)
      /\ draft sample_score three_table "Class"%string (3 # 1000) = Ret (g1, L1)
      /\ forall u v, has_edge g2 u v = true -> has_edge g1 u v = true.
Proof.
  assert (H : (3 # 1000) <= (1 # 5)) by (apply Qle_bool_iff; reflexivity).
  split; [exact H|].
  destruct (draft sample_score three_table "Class"%string (1 # 5))
    as [[g2 L2]|e|] eqn:E2;
    [|vm_compute in E2; discriminate|vm_compute in E2; discriminate].
  destruct (draft_monotone sample_score three_table "Class"%string
              (3 # 1000) (1 # 5) H g2 L2 E2) as [g1 [L1 [E1 Hm]]].
  exists g2, L2, g1, L1. auto.
Defined.

(** The scan of [three_table]: the two popped edges already span the three
    features, and the scan passes over the remaining candidate. *)
Lemma scan_adds_nothing_instance :
  exists graph cands,
    S (number_of_edges graph) = number_of_nodes graph
    /\ cands <> []
    /\ draft sample_score three_table "Class"%string default_epsilon
       = draft_scan 1 (graph, cands, 0%Z, 1%Z)
    /\ draft_scan 1 (graph, cands, 0%Z, 1%Z) = Ret (graph, cands).
Proof.
  set (xa := [0; 1; 0; 2; 2; 0]%Z).
  set (xb := [1; 1; 0; 0; 1; 0]%Z).
  set (xc := [2; 2; 1; 1; 1; 0]%Z).
  set (L := [("A", "B", sample_score xa xb)]%string).
  set (graph :=
         add_edge
           (add_edge
              (add_nodes_from empty_graph
                 (frame_columns (features three_table "Class"%string)))
              "A"%string "C"%string (Some (sample_score xa xc)))
           "B"%string "C"%string (Some (sample_score xb xc))).
  assert (Hnames : NoDup (frame_columns three_table)).
  { simpl. repeat constructor; simpl; intuition discriminate. }
  assert (Hsorted :
            sort_desc (candidate_pairs sample_score default_epsilon
                         (features three_table "Class"%string))
            = (("A", "C", sample_score xa xc)
                 :: ("B", "C", sample_score xb xc) :: L)%string)
    by (vm_compute; reflexivity).
  assert (Htree : S (number_of_edges graph) = number_of_nodes graph)
    by (vm_compute; reflexivity).
  destruct (scan_adds_nothing_to_spanning_tree
              sample_score three_table "Class"%string default_epsilon Hnames
              "A"%string "C"%string "B"%string "C"%string
              (sample_score xa xc) (sample_score xb xc) L Hsorted
              graph L 0%Z 1%Z (reaches_here _) Htree)
    as [Hdraft [_ Hrun]].
  exists graph, L. split; [exact Htree|]. split; [discriminate|].
  split; [exact Hdraft|]. apply Hrun. simpl. lia.
Defined.

(** On [three_table] the search returns the tree [A -> C -> B] of the
    triangle it ends with. *)
Lemma depth_first_tree_instance :
  exists graph dag,
    NoDup (frame_columns three_table)
    /\ skeleton sample_score three_table "Class"%string default_epsilon 10
       = Ret graph
    /\ estimate sample_score three_table "Class"%string default_epsilon 10
       = Ret dag
    /\ dfs_tree graph "A"%string
       = Ret (mkDiGraph
                ("A"%string :: map snd (feature_edges dag "Class"%string))
                (feature_edges dag "Class"%string))
    /\ grown "A"%string (feature_edges dag "Class"%string)
    /\ (forall p c, In (p, c) (feature_edges dag "Class"%string) ->
                    has_edge graph p c = true)
    /\ (forall u v,
          conn (arcs_next (feature_edges dag "Class"%string)) "A"%string u ->
          has_edge graph u v = true ->
          conn (arcs_next (feature_edges dag "Class"%string)) u v
          \/ conn (arcs_next (feature_edges dag "Class"%string)) v u)
    /\ (forall t1 p c t2,
          feature_edges dag "Class"%string = t1 ++ (p, c) :: t2 ->
          exists l1 l2, adj graph p = l1 ++ c :: l2
                        /\ incl l1 ("A"%string :: map snd t1))
    /\ forall f, conn (arcs_next (feature_edges dag "Class"%string))
                      "A"%string f
                 <-> connected graph "A"%string f = true.
Proof.
  assert (Hnames : NoDup (frame_columns three_table)).
  { simpl. repeat constructor; simpl; intuition discriminate. }
  destruct (skeleton sample_score three_table "Class"%string default_epsilon 10)
    as [graph|e|] eqn:Es;
    [|vm_compute in Es; discriminate|vm_compute in Es; discriminate].
  destruct (estimate sample_score three_table "Class"%string default_epsilon 10)
    as [dag|e|] eqn:Ee;
    [|vm_compute in Ee; discriminate|vm_compute in Ee; discriminate].
  exists graph, dag.
  split; [exact Hnames|]. split; [reflexivity|]. split; [reflexivity|].
  exact (depth_first_tree_of_skeleton sample_score three_table
           "Class"%string default_epsilon 10 graph "A"%string dag
           Hnames Es eq_refl Ee).
Defined.


(** ** The complete graph of the tree search *)

Lemma add_node_wf (g : Graph) (n : node) :
  well_formed g -> well_formed (add_node g n).
Proof.
  intros [Hn He]. unfold add_node.
  destruct (mem n (g_nodes g)) eqn:E; [split; auto|].
  split; simpl.
  - apply NoDup_app; auto.
    + constructor; [tauto|constructor].
    + intros x Hx [<-|[]]. apply mem_not_In in E. contradiction.
  - intros a b w H. destruct (He a b w H). split; apply in_or_app; auto.
Qed.

Lemma add_node_has_edge (g : Graph) (n u v : node) :
  has_edge (add_node g n) u v = has_edge g u v.
Proof.
  unfold has_edge. rewrite add_node_edges. reflexivity.
Qed.

Lemma add_edge_joined (g : Graph) (a b : node) (w : attr) :
  has_edge (add_edge g a b w) a b = true.
Proof.
  unfold add_edge.
  destruct (has_edge (add_node (add_node g a) b) a b) eqn:E.
  - unfold has_edge in *. simpl. apply existsb_exists in E.
    destruct E as [e [He Hj]]. apply existsb_exists.
    exists (fst (fst e), snd (fst e), update_attr (snd e) w). split.
    + apply in_map_iff. exists e. rewrite Hj. auto.
    + destruct e as [[x y] z]. exact Hj.
  - unfold has_edge. simpl. rewrite existsb_app. simpl.
    rewrite !node_eqb_refl. simpl. apply orb_true_r.
Qed.

Lemma add_nodes_from_same (ns : list node) :
  forall g1 g2, g_nodes g1 = g_nodes g2 ->
                g_nodes (add_nodes_from g1 ns) = g_nodes (add_nodes_from g2 ns).
Proof.
  unfold add_nodes_from.
  induction ns as [|n ns IH]; intros g1 g2 E; simpl; auto.
  apply IH. unfold add_node. rewrite E.
  destruct (mem n (g_nodes g2)); simpl; congruence.
Qed.

Lemma add_nodes_from_known (ns : list node) :
  forall g, (forall n, In n ns -> In n (g_nodes g)) ->
            g_nodes (add_nodes_from g ns) = g_nodes g.
Proof.
  unfold add_nodes_from.
  induction ns as [|n ns IH]; intros g H; simpl; auto.
  rewrite add_node_old by (apply H; left; auto).
  apply IH. intros m Hm. apply H. right; auto.
Qed.

Section CompleteGraph.

Variable mutual_info_score : column -> column -> Q.

Local Abbreviation join_later :=
  (TreeAugmentedNaiveBayesSearch.join_later mutual_info_score).
Local Abbreviation join_all :=
  (TreeAugmentedNaiveBayesSearch.join_all mutual_info_score).

Lemma join_later_spec (from_node : node) (xi : column) (later : frame) :
  forall g,
    well_formed g -> In from_node (g_nodes g) ->
    well_formed (join_later g from_node xi later)
    /\ g_nodes (join_later g from_node xi later)
       = g_nodes (add_nodes_from g (frame_columns later))
    /\ (forall u v, has_edge g u v = true ->
                    has_edge (join_later g from_node xi later) u v = true)
    /\ (forall b, In b (frame_columns later) ->
                  has_edge (join_later g from_node xi later) from_node b = true).
Proof.
  induction later as [|[b xb] later IH]; intros g Hwf Ha; simpl.
  - split; [exact Hwf|]. split; [reflexivity|]. split; [auto|].
    intros b [].
  - set (g1 := add_edge (add_node g b) from_node b
                        (Some (mutual_info_score xi xb))).
    assert (Hb1 : In b (g_nodes (add_node g b)))
      by (apply add_node_nodes; auto).
    assert (Ha1 : In from_node (g_nodes (add_node g b)))
      by (apply add_node_nodes; auto).
    assert (Hwf1 : well_formed g1)
      by (apply add_edge_wf; auto; apply add_node_wf; auto).
    assert (Hn1 : g_nodes g1 = g_nodes (add_node g b))
      by (apply add_edge_same_nodes; auto).
    destruct (IH g1 Hwf1) as [W [N [P J]]].
    { rewrite Hn1. exact Ha1. }
    split; [exact W|]. split; [|split].
    + rewrite N. apply add_nodes_from_same. exact Hn1.
    + intros u v H. apply P. apply add_edge_has_edge.
      rewrite add_node_has_edge. exact H.
    + intros c [<-|Hc].
      * apply P. apply add_edge_joined.
      * apply J. exact Hc.
Qed.

Lemma join_all_spec (cols : frame) :
  forall g,
    well_formed g ->
    well_formed (join_all g cols)
    /\ g_nodes (join_all g cols)
       = g_nodes (add_nodes_from g (frame_columns cols))
    /\ (forall u v, has_edge g u v = true ->
                    has_edge (join_all g cols) u v = true)
    /\ (forall a b, In (a, b) (all_pairs (frame_columns cols)) ->
                    has_edge (join_all g cols) a b = true).
Proof.
  induction cols as [|[a xa] later IH]; intros g Hwf; simpl.
  - split; [exact Hwf|]. split; [reflexivity|]. split; [auto|].
    intros a b [].
  - assert (Ha : In a (g_nodes (add_node g a)))
      by (apply add_node_nodes; auto).
    destruct (join_later_spec a xa later (add_node g a)
                (add_node_wf g a Hwf) Ha) as [W1 [N1 [P1 J1]]].
    destruct (IH _ W1) as [W [N [P J]]].
    split; [exact W|]. split; [|split].
    + rewrite N. rewrite add_nodes_from_known.
      * exact N1.
      * intros n Hn. rewrite N1. apply add_nodes_from_nodes. auto.
    + intros u v H. apply P. apply P1. rewrite add_node_has_edge. exact H.
    + intros x y H. apply in_app_or in H. destruct H as [H|H].
      * apply in_map_iff in H. destruct H as [b [E Hb]].
        injection E as <- <-. apply P. apply J1. exact Hb.
      * apply J. exact H.
Qed.

End CompleteGraph.

Lemma all_pairs_total (l : list node) (x y : node) :
  In x l -> In y l -> x <> y ->
  In (x, y) (all_pairs l) \/ In (y, x) (all_pairs l).
Proof.
  induction l as [|z l IH]; simpl; [tauto|].
  intros [->|Hx] [->|Hy] Hne.
  - congruence.
  - left. apply in_or_app. left. apply in_map. exact Hy.
  - right. apply in_or_app. left. apply in_map. exact Hx.
  - destruct (IH Hx Hy Hne); [left|right]; apply in_or_app; auto.
Qed.

(** ** The maximum spanning tree *)

Lemma add_edge_adj_grows (g : Graph) (a b : node) (w : attr) (x y : node) :
  In y (adj g x) -> In y (adj (add_edge g a b w) x).
Proof.
  intros H. apply has_edge_adj. apply add_edge_has_edge.
  apply has_edge_adj. exact H.
Qed.

Lemma connected_add_edge_grows (g : Graph) (a b : node) (w : attr) (x y : node) :
  well_formed g -> In a (g_nodes g) -> In b (g_nodes g) ->
  connected g x y = true -> connected (add_edge g a b w) x y = true.
Proof.
  intros Hwf Ha Hb H.
  apply connected_conn; [apply add_edge_wf; auto|].
  apply connected_conn in H; auto.
  eapply conn_incl; [|exact H]. intros u v. apply add_edge_adj_grows.
Qed.

Lemma connected_add_edge_ends (g : Graph) (a b : node) (w : attr) :
  well_formed g -> In a (g_nodes g) -> In b (g_nodes g) ->
  connected (add_edge g a b w) a b = true.
Proof.
  intros Hwf Ha Hb. apply has_edge_connected.
  - apply add_edge_wf; auto.
  - apply add_edge_joined.
Qed.

Lemma kruskal_fold (g : Graph) (es : list candidate) :
  forall t,
    well_formed t -> Forall (endpoints_in (g_nodes t)) es ->
    well_formed (fold_left (kruskal_take g) es t)
    /\ g_nodes (fold_left (kruskal_take g) es t) = g_nodes t
    /\ (forall x y, connected t x y = true ->
                    connected (fold_left (kruskal_take g) es t) x y = true)
    /\ Forall (fun c => connected (fold_left (kruskal_take g) es t)
                                  (fst (fst c)) (snd (fst c)) = true) es.
Proof.
  induction es as [|[[u v] w] es IH]; intros t Hwf Hin; simpl.
  - split; [exact Hwf|]. split; [reflexivity|]. split; auto.
  - inversion Hin as [|? ? [Hu Hv] Hin']; subst. simpl in Hu, Hv.
    destruct (connected t u v) eqn:Ec.
    + destruct (IH t Hwf Hin') as [W [N [M F]]].
      split; [exact W|]. split; [exact N|]. split; [exact M|].
      constructor; [simpl; apply M; exact Ec|exact F].
    + set (t1 := add_edge t u v (edge_attr g u v)).
      assert (W1 : well_formed t1) by (apply add_edge_wf; auto).
      assert (N1 : g_nodes t1 = g_nodes t)
        by (apply add_edge_same_nodes; auto).
      destruct (IH t1 W1) as [W [N [M F]]].
      { rewrite N1. exact Hin'. }
      split; [exact W|]. split; [congruence|]. split.
      * intros x y H. apply M. apply connected_add_edge_grows; auto.
      * constructor; [|exact F]. simpl. apply M.
        apply connected_add_edge_ends; auto.
Qed.

Lemma edges_from_complete (g : Graph) (todo : list node) :
  forall seen u w,
    In u todo -> In w todo -> In w (adj g u) ->
    ~ In u seen -> ~ In w seen ->
    In (u, w) (edges_from g seen todo) \/ In (w, u) (edges_from g seen todo).
Proof.
  induction todo as [|n todo IH]; intros seen u w Hu Hw Ha Hus Hws; simpl.
  - destruct Hu.
  - destruct (node_dec n u) as [->|Hnu].
    + left. apply in_or_app. left. apply in_map. apply filter_In.
      split; auto. apply negb_true_iff. apply mem_not_In. exact Hws.
    + destruct (node_dec n w) as [->|Hnw].
      * right. apply in_or_app. left. apply in_map. apply filter_In.
        split; [apply adj_of_sym; exact Ha|].
        apply negb_true_iff. apply mem_not_In. exact Hus.
      * destruct Hu as [Hu|Hu]; [contradiction|].
        destruct Hw as [Hw|Hw]; [contradiction|].
        destruct (IH (n :: seen) u w Hu Hw Ha) as [H|H].
        -- intros [E|E]; auto.
        -- intros [E|E]; auto.
        -- left. apply in_or_app. auto.
        -- right. apply in_or_app. auto.
Qed.

Lemma edges_view_complete (g : Graph) (u w : node) :
  well_formed g -> In w (adj g u) ->
  In (u, w) (edges_view g) \/ In (w, u) (edges_view g).
Proof.
  intros Hwf H. destruct (adj_in_nodes g u w Hwf H) as [Hu Hw].
  apply edges_from_complete; auto.
Qed.

Lemma maximum_spanning_tree_spec (g : Graph) :
  well_formed g ->
  well_formed (maximum_spanning_tree g)
  /\ g_nodes (maximum_spanning_tree g) = g_nodes g
  /\ (forall u w, In w (adj g u) ->
                  connected (maximum_spanning_tree g) u w = true).
Proof.
  intros Hwf. unfold maximum_spanning_tree.
  set (es := sort_desc (map (fun e => (fst e, snd e,
                                       weight_of (edge_attr g (fst e) (snd e))))
                            (edges_view g))).
  assert (Hin : forall u v, In (u, v) (edges_view g) ->
                            exists wt, In (u, v, wt) es).
  { intros u v H. exists (weight_of (edge_attr g u v)).
    apply (Permutation_in _ (Permutation_sym (sort_desc_perm _))).
    apply in_map_iff. exists (u, v). auto. }
  assert (Hends : Forall (endpoints_in (g_nodes (mkGraph (g_nodes g) []))) es).
  { apply Forall_forall. intros [[u v] wt] H.
    apply (Permutation_in _ (sort_desc_perm _)) in H.
    apply in_map_iff in H. destruct H as [[u' v'] [E H]].
    injection E as <- <- _. simpl.
    apply edges_view_nodes; auto. }
  assert (W0 : well_formed (mkGraph (g_nodes g) [])).
  { split; simpl; [apply Hwf|]. intros a b w []. }
  destruct (kruskal_fold g es _ W0 Hends) as [W [N [_ F]]].
  split; [exact W|]. split; [exact N|].
  intros u w Hadj.
  rewrite Forall_forall in F.
  destruct (edges_view_complete g u w Hwf Hadj) as [H|H];
    destruct (Hin _ _ H) as [wt Hwt]; specialize (F _ Hwt); simpl in F; auto.
  rewrite connected_sym; auto.
Qed.

(** ** A grown tree has no cycle *)

Lemma linked_sym (es : list (node * node)) (u v : node) :
  linked es u v -> linked es v u.
Proof. unfold linked. tauto. Qed.

Lemma linked_path_inside (es : list (node * node)) (l1 : list node) :
  forall x y l2, linked_path es (l1 ++ x :: y :: l2) -> linked es x y.
Proof.
  induction l1 as [|a l1 IH]; intros x y l2 H.
  - simpl in H. tauto.
  - apply (IH x y l2).
    destruct l1 as [|b l1]; simpl in H; simpl; tauto.
Qed.

Lemma linked_path_among (es es' : list (node * node)) (l : list node) :
  (forall u v, In u l -> In v l -> linked es u v -> linked es' u v) ->
  linked_path es l -> linked_path es' l.
Proof.
  induction l as [|a l IH]; intros H Hp; simpl; auto.
  destruct l as [|b l]; auto.
  destruct Hp as [Hab Hp]. split.
  - apply H; simpl; auto.
  - apply IH; auto. intros u v Hu Hv. apply H; right; auto.
Qed.

Lemma last_In (l : list node) (d : node) : l <> [] -> In (last l d) l.
Proof.
  induction l as [|a l IH]; intros H; [congruence|].
  destruct l as [|b l]; [left; auto|].
  right. apply IH. discriminate.
Qed.

(** A node on a cycle has two different neighbours on it. *)
Lemma cycle_neighbours (es : list (node * node)) (l : list node) (c : node) :
  cycle es l -> In c l ->
  exists x y, x <> y /\ linked es x c /\ linked es y c.
Proof.
  intros [Hlen [Hnd [Hp Hclose]]] Hc.
  destruct (@in_split node c l Hc) as [l1 [l2 E]]. subst l.
  destruct l1 as [|a l1].
  - (* [c] opens the cycle *)
    destruct l2 as [|v [|v' l2]]; simpl in Hlen; try lia.
    simpl app in *.
    exists v, (last (c :: v :: v' :: l2) EmptyString).
    repeat split.
    + change (last (c :: v :: v' :: l2) EmptyString)
        with (last (v' :: l2) EmptyString).
      intros E.
      assert (Hin : In v (v' :: l2))
        by (rewrite E; apply last_In; discriminate).
      inversion Hnd as [|? ? _ Hnd']; subst.
      inversion Hnd' as [|? ? Hv _]; subst. contradiction.
    + apply linked_sym. simpl in Hp. tauto.
    + exact Hclose.
  - (* [c] has a predecessor *)
    assert (Hne : a :: l1 <> []) by discriminate.
    destruct (exists_last Hne) as [front [pred Efront]].
    rewrite Efront in *. rewrite <- app_assoc in *. simpl app in *.
    assert (Hpred : linked es pred c)
      by (eapply linked_path_inside; eauto).
    destruct l2 as [|v l2].
    + (* [c] closes the cycle *)
      exists pred, (hd EmptyString (front ++ [pred; c])).
      repeat split; auto.
      * destruct front as [|f front].
        -- simpl in Hlen. lia.
        -- simpl. intros E. subst f.
           inversion Hnd as [|? ? Hx _]; subst. apply Hx.
           apply in_or_app. right. left; auto.
      * apply linked_sym.
        replace (last (front ++ [pred; c]) EmptyString) with c in Hclose;
          auto.
        clear. induction front as [|f front IH]; simpl; auto.
        destruct (front ++ [pred; c]) eqn:E; auto.
        destruct front; discriminate.
    + exists pred, v. repeat split; auto.
      * intros E. subst v.
        apply NoDup_remove_2 in Hnd. apply Hnd.
        apply in_or_app. right. right. left; auto.
      * apply linked_sym.
        apply (linked_path_inside es (front ++ [pred]) c v l2).
        rewrite <- app_assoc. exact Hp.
Qed.

Theorem grown_no_cycle (root : node) (tree : list (node * node)) :
  grown root tree -> forall l, ~ cycle tree l.
Proof.
  induction 1 as [|tree p c Hg IH Hp Hc]; intros l Hcyc.
  - destruct Hcyc as [_ [_ [_ [[]|[]]]]].
  - assert (Hnodes : forall a b, In (a, b) tree ->
                                 In a (root :: map snd tree)
                                 /\ In b (root :: map snd tree)).
    { intros a b Hab. split.
      - eapply grown_parents; eauto.
      - right. apply in_map_iff. exists (a, b). auto. }
    assert (Hleaf : forall x, linked (tree ++ [(p, c)]) x c -> x = p).
    { intros x [H|H]; apply in_app_or in H; destruct H as [H|[E|[]]].
      - apply Hnodes in H. tauto.
      - injection E. auto.
      - apply Hnodes in H. tauto.
      - injection E as <- <-. contradiction. }
    destruct (in_dec node_dec c l) as [Hin|Hout].
    + destruct (cycle_neighbours _ l c Hcyc Hin) as [x [y [Hxy [Hx Hy]]]].
      apply Hleaf in Hx. apply Hleaf in Hy. congruence.
    + apply (IH l). destruct Hcyc as [Hlen [Hnd [Hpath Hclose]]].
      assert (Hold : forall u v, In u l -> In v l ->
                                 linked (tree ++ [(p, c)]) u v ->
                                 linked tree u v).
      { intros u v Hu Hv [H|H]; apply in_app_or in H;
          destruct H as [H|[E|[]]].
        - left; auto.
        - injection E as <- <-. contradiction.
        - right; auto.
        - injection E as <- <-. contradiction. }
      assert (Hne : l <> []) by (intros ->; simpl in Hlen; lia).
      repeat split; auto.
      * eapply linked_path_among; eauto.
      * apply Hold; auto.
        -- apply last_In. exact Hne.
        -- destruct l; [congruence|left; auto].
Qed.

(** ** The class node over a grown tree *)

Section AttachClass.

Variable class_node : node.
Variable cols : list node.
Variable root : node.
Variable tree : list (node * node).
Hypothesis cols_distinct : NoDup cols.
Hypothesis class_apart : ~ In class_node cols.
Hypothesis tree_grown : grown root tree.
Hypothesis tree_in_cols : forall p c, In (p, c) tree -> In p cols /\ In c cols.

Let digraph := attach_class (mkDiGraph (root :: map snd tree) tree)
                            class_node cols.

Lemma attached_edges : d_edges digraph = tree ++ map (pair class_node) cols.
Proof.
  unfold digraph.
  rewrite (attach_class_edges class_node cols cols_distinct); auto.
  intros n _ H. simpl in H. apply tree_in_cols in H. tauto.
Qed.

Lemma not_class (n : node) : In n cols -> node_eqb n class_node = false.
Proof.
  intros H. apply node_eqb_neq. intros ->. contradiction.
Qed.

Lemma attached_feature_edges : feature_edges digraph class_node = tree.
Proof.
  unfold feature_edges. rewrite attached_edges, filter_app.
  replace (filter _ (map (pair class_node) cols)) with (@nil (node * node)).
  - rewrite app_nil_r. apply forallb_filter_id. apply forallb_forall.
    intros [p c] Hpc. simpl. destruct (tree_in_cols p c Hpc) as [Hp Hc].
    rewrite (not_class p Hp), (not_class c Hc). reflexivity.
  - symmetry. clear. induction cols as [|n l IH]; simpl; auto.
    rewrite node_eqb_refl. simpl. exact IH.
Qed.

Lemma attached_out_degree : out_degree digraph class_node = List.length cols.
Proof.
  unfold out_degree, successors, arcs_next.
  rewrite attached_edges, filter_app, map_app.
  replace (filter (fun e => node_eqb (fst e) class_node) tree)
    with (@nil (node * node)).
  - simpl. rewrite length_map. f_equal.
    clear. induction cols as [|n l IH]; simpl; auto.
    rewrite node_eqb_refl. simpl. f_equal. exact IH.
  - symmetry.
    assert (H : forall es : list (node * node),
               (forall p c, In (p, c) es -> In p cols) ->
               filter (fun e => node_eqb (fst e) class_node) es = []).
    { induction es as [|[p c] es IH]; intros H; simpl; auto.
      rewrite (not_class p) by (apply (H p c); left; auto).
      apply IH. intros p' c' H'. apply (H p' c'). right; auto. }
    apply H. intros p c Hpc. apply (tree_in_cols p c Hpc).
Qed.

Lemma attached_in_degree : in_degree digraph class_node = O.
Proof.
  unfold in_degree, predecessors.
  rewrite attached_edges, filter_app, map_app, length_app, !length_map.
  assert (H : forall es : list (node * node),
             (forall p c, In (p, c) es -> In c cols) ->
             filter (fun e => node_eqb (snd e) class_node) es = []).
  { induction es as [|[p c] es IH]; intros H; simpl; auto.
    rewrite (not_class c) by (apply (H p c); left; auto).
    apply IH. intros p' c' H'. apply (H p' c'). right; auto. }
  rewrite !H; auto.
  - intros p c Hpc. apply in_map_iff in Hpc. destruct Hpc as [n [E Hn]].
    injection E as <- <-. exact Hn.
  - intros p c Hpc. apply (tree_in_cols p c Hpc).
Qed.

(** The result passes the acyclicity check of [DAG]. *)
Lemma attached_is_dag : DAG digraph = Ret digraph.
Proof.
  unfold DAG.
  rewrite (ranked_no_cycle _
             (fun x => if node_eqb x class_node then O
                       else S (index_of x (root :: map snd tree)))).
  - reflexivity.
  - intros u v Huv. rewrite attached_edges in Huv. apply in_app_or in Huv.
    destruct Huv as [Huv|Huv].
    + destruct (tree_in_cols u v Huv) as [Hu Hv].
      rewrite (not_class u Hu), (not_class v Hv).
      apply -> Nat.succ_lt_mono. apply grown_rank; auto.
    + apply in_map_iff in Huv. destruct Huv as [n [E Hn]].
      injection E as <- <-. rewrite node_eqb_refl, (not_class n Hn). lia.
Qed.

End AttachClass.

(** ** What the tree search returns *)

Lemma conn_in_nodes (g : Graph) (u v : node) :
  well_formed g -> In u (g_nodes g) -> conn (adj g) u v -> In v (g_nodes g).
Proof.
  intros Hwf Hu H. induction H as [u|u w v Hw Hc IH]; auto.
  apply IH. destruct (adj_in_nodes g u w Hwf Hw). assumption.
Qed.

Lemma either_way_linked (es : list (node * node)) (x y : node) :
  In y (either_way es x) <-> linked es x y.
Proof.
  unfold either_way, linked. rewrite in_app_iff, arcs_next_In, in_map_iff.
  split.
  - intros [H|[[a b] [E H]]]; auto.
    apply filter_In in H. destruct H as [H1 H2]. simpl in *.
    apply node_eqb_eq in H2. subst. auto.
  - intros [H|H]; auto. right. exists (y, x). split; auto.
    apply filter_In. split; auto. simpl. apply node_eqb_refl.
Qed.

Section TreeSearchResult.

Variable mutual_info_score : column -> column -> Q.
Variable data : frame.
Variable class_node : node.
Hypothesis distinct_names : NoDup (frame_columns data).

Let cols := frame_columns (features data class_node).

Let tree_graph :=
  maximum_spanning_tree
    (TreeAugmentedNaiveBayesSearch.join_all mutual_info_score empty_graph
       (features data class_node)).

Lemma cols_distinct : NoDup cols.
Proof. apply frame_columns_features. exact distinct_names. Qed.

(** The maximum spanning tree joins all feature columns. *)
Lemma tree_graph_spec :
  well_formed tree_graph /\ g_nodes tree_graph = cols
  /\ forall x y, In x cols -> In y cols -> connected tree_graph x y = true.
Proof.
  assert (W0 : well_formed empty_graph).
  { split; simpl; [constructor|]. intros a b w []. }
  destruct (join_all_spec mutual_info_score (features data class_node)
              empty_graph W0) as [WG [NG [_ JG]]].
  destruct (maximum_spanning_tree_spec _ WG) as [WT [NT CT]].
  fold tree_graph in WT, NT, CT.
  assert (Hnodes : g_nodes tree_graph = cols).
  { rewrite NT, NG. unfold empty_graph.
    rewrite (add_nodes_from_fresh _ []); [reflexivity|].
    simpl. apply cols_distinct. }
  split; [exact WT|]. split; [exact Hnodes|].
  intros x y Hx Hy.
  destruct (node_dec x y) as [->|Hne]; [apply connected_refl|].
  destruct (all_pairs_total cols x y Hx Hy Hne) as [H|H].
  - apply CT. apply has_edge_adj. apply JG. exact H.
  - rewrite connected_sym by exact WT.
    apply CT. apply has_edge_adj. apply JG. exact H.
Qed.

(** The breadth-first tree from a feature column spans all of them. *)
Lemma bfs_tree_spans (r : node) :
  In r cols ->
  exists tree,
    bfs_tree tree_graph r = Ret (mkDiGraph (r :: map snd tree) tree)
    /\ grown r tree
    /\ (forall p c, In (p, c) tree -> In p cols /\ In c cols)
    /\ (forall x, In x (r :: map snd tree) <-> In x cols).
Proof.
  intros Hr. destruct tree_graph_spec as [WT [NT CT]].
  assert (Hrn : In r (g_nodes tree_graph)) by (rewrite NT; exact Hr).
  destruct (search_tree_spec false tree_graph r WT Hrn)
    as [tree [E [Hg [Ht Hc]]]].
  exists tree. split; [exact E|]. split; [exact Hg|]. split.
  - intros p c Hpc. rewrite <- NT.
    apply (adj_in_nodes tree_graph p c WT). apply Ht. exact Hpc.
  - intros x. rewrite Hc. split.
    + intros H. rewrite <- NT. eapply conn_in_nodes; eauto.
    + intros H. apply connected_conn; auto.
Qed.

(** The properties of the graph built over such a tree. *)
Lemma attached_tree (r : node) (tree : list (node * node)) :
  In r cols -> grown r tree ->
  (forall p c, In (p, c) tree -> In p cols /\ In c cols) ->
  (forall x, In x (r :: map snd tree) <-> In x cols) ->
  let dag := attach_class (mkDiGraph (r :: map snd tree) tree)
                          class_node cols in
  DAG dag = Ret dag
  /\ out_degree dag class_node = List.length (features data class_node)
  /\ in_degree dag class_node = O
  /\ S (List.length (feature_edges dag class_node))
     = List.length (features data class_node)
  /\ (forall u v, In u cols -> In v cols ->
                  conn (either_way (feature_edges dag class_node)) u v)
  /\ (forall l, ~ cycle (feature_edges dag class_node) l).
Proof.
  intros Hr Hg Hin Hall dag.
  pose proof cols_distinct as Hnd.
  pose proof (class_not_feature data class_node) as Hclass. fold cols in Hclass.
  assert (Hlen : List.length cols = List.length (features data class_node))
    by (unfold cols, frame_columns; apply length_map).
  unfold dag.
  rewrite (attached_feature_edges class_node cols r tree Hnd Hclass Hin).
  split; [apply attached_is_dag; auto|].
  split; [rewrite attached_out_degree; auto|].
  split; [apply attached_in_degree; auto|].
  split; [|split].
  - rewrite <- Hlen.
    assert (Hperm : Permutation (r :: map snd tree) cols).
    { apply NoDup_Permutation; auto. apply grown_NoDup. exact Hg. }
    apply Permutation_length in Hperm. simpl in Hperm.
    rewrite length_map in Hperm. exact Hperm.
  - assert (Hreach : forall x, In x cols -> conn (either_way tree) r x).
    { intros x Hx. apply conn_incl with (next := arcs_next tree).
      - intros a b Hab. apply either_way_linked. left.
        apply arcs_next_In. exact Hab.
      - apply grown_reach; auto. apply Hall. exact Hx. }
    assert (Hsym : forall a b, In b (either_way tree a) ->
                               In a (either_way tree b)).
    { intros a b Hab. apply either_way_linked. apply linked_sym.
      apply either_way_linked. exact Hab. }
    intros u v Hu Hv. apply conn_trans with r.
    + apply (conn_sym_next (either_way tree) Hsym). apply Hreach. exact Hu.
    + apply Hreach. exact Hv.
  - apply (grown_no_cycle r). exact Hg.
Qed.

(** C7. With the class column present and at least one feature column,
    the tree search returns a graph whenever the root is left out or is a
    feature column, and every graph it returns gives the class node as
    many outgoing arcs as there are feature columns and no incoming arc,
    while the arcs between feature columns form a tree: one arc less than
    there are feature columns, any two feature columns joined by a walk
    along the arcs, and no cycle. *)
Theorem tree_search_result (root_node : option node) :
  In class_node (frame_columns data) ->
  features data class_node <> [] ->
  (match root_node with
   | Some r => In r cols
   | None => True
   end ->
   exists dag,
     TreeAugmentedNaiveBayesSearch.estimate mutual_info_score data class_node
                                            root_node = Ret dag)
  /\ forall dag,
      TreeAugmentedNaiveBayesSearch.estimate mutual_info_score data class_node
                                             root_node = Ret dag ->
      out_degree dag class_node = List.length (features data class_node)
      /\ in_degree dag class_node = O
      /\ S (List.length (feature_edges dag class_node))
         = List.length (features data class_node)
      /\ (forall u v, In u cols -> In v cols ->
                      conn (either_way (feature_edges dag class_node)) u v)
      /\ (forall l, ~ cycle (feature_edges dag class_node) l).
Proof.
  intros Hclass Hfeat.
  assert (Hfirst : exists r0, first_column (features data class_node) = Ret r0
                              /\ In r0 cols).
  { unfold cols, frame_columns.
    destruct (features data class_node) as [|[n c] rest]; [congruence|].
    exists n. simpl. auto. }
  destruct Hfirst as [r0 [Efirst Hr0]].
  (* whichever root is used, the search goes through [bfs_tree] *)
  assert (Hshape :
            forall dag,
              TreeAugmentedNaiveBayesSearch.estimate mutual_info_score data
                class_node root_node = Ret dag ->
              exists r, bfs_tree tree_graph r <> Raise NetworkXError
                        /\ (digraph <- bfs_tree tree_graph r ;;
                            DAG (attach_class digraph class_node cols))
                           = Ret dag).
  { intros dag H. unfold TreeAugmentedNaiveBayesSearch.estimate in H.
    destruct (negb (mem class_node (frame_columns data))); [discriminate|].
    destruct (match root_node with
              | Some r => negb (mem r (frame_columns data))
              | None => false
              end); [discriminate|].
    fold tree_graph in H. fold cols in H.
    destruct (truthy root_node).
    - destruct root_node as [r|]; [|discriminate].
      exists r. split; auto.
      intros E. rewrite E in H. discriminate.
    - rewrite Efirst in H. simpl in H. exists r0. split; auto.
      intros E. rewrite E in H. discriminate. }
  assert (Hrun :
            forall r, In r cols ->
              exists dag,
                (digraph <- bfs_tree tree_graph r ;;
                 DAG (attach_class digraph class_node cols)) = Ret dag).
  { intros r Hr. destruct (bfs_tree_spans r Hr) as [tree [E [Hg [Hin Hall]]]].
    rewrite E. simpl.
    destruct (attached_tree r tree Hr Hg Hin Hall) as [Hdag _].
    eauto. }
  split.
  - intros Hroot. unfold TreeAugmentedNaiveBayesSearch.estimate.
    rewrite (proj2 (mem_In _ _) Hclass). simpl.
    assert (Hval : match root_node with
                   | Some r => negb (mem r (frame_columns data))
                   | None => false
                   end = false).
    { destruct root_node as [r|]; auto.
      apply negb_false_iff. apply mem_In.
      unfold cols, frame_columns, features in Hroot.
      apply in_map_iff in Hroot. destruct Hroot as [[n c] [En Hn]].
      apply filter_In in Hn. destruct Hn as [Hn _].
      simpl in En. subst n. apply in_map_iff. exists (r, c). auto. }
    rewrite Hval. fold tree_graph. fold cols.
    destruct (truthy root_node) eqn:Et.
    + destruct root_node as [r|]; [|discriminate]. apply Hrun. exact Hroot.
    + rewrite Efirst. simpl. apply Hrun. exact Hr0.
  - intros dag H. destruct (Hshape dag H) as [r [Hnot Hr]].
    assert (Hin : In r cols).
    { destruct tree_graph_spec as [_ [NT _]]. rewrite <- NT.
      unfold bfs_tree, search_tree in Hnot.
      destruct (mem r (g_nodes tree_graph)) eqn:Em.
      - apply mem_In. exact Em.
      - congruence. }
    destruct (bfs_tree_spans r Hin) as [tree [E [Hg [Hinc Hall]]]].
    rewrite E in Hr. simpl in Hr.
    destruct (attached_tree r tree Hin Hg Hinc Hall) as [Hdag Hprops].
    rewrite Hdag in Hr. injection Hr as <-. exact Hprops.
Qed.

End TreeSearchResult.

(** The tree search on [four_table], rooted at its first feature column. *)
Lemma tree_search_instance :
  (exists dag,
      TreeAugmentedNaiveBayesSearch.estimate sample_score four_table
        "Class"%string None = Ret dag)
  /\ forall dag,
      TreeAugmentedNaiveBayesSearch.estimate sample_score four_table
        "Class"%string None = Ret dag ->
      out_degree dag "Class"%string = 4%nat
      /\ in_degree dag "Class"%string = O
      /\ List.length (feature_edges dag "Class"%string) = 3%nat.
Proof.
  assert (Hnames : NoDup (frame_columns four_table)).
  { simpl. repeat constructor; simpl; intuition discriminate. }
  assert (Hclass : In "Class"%string (frame_columns four_table)).
  { simpl. intuition. }
  assert (Hfeat : features four_table "Class"%string <> []).
  { vm_compute. discriminate. }
  destruct (tree_search_result sample_score four_table "Class"%string Hnames
              None Hclass Hfeat) as [Hex Hall].
  split; [exact (Hex I)|].
  intros dag Hdag.
  destruct (Hall dag Hdag) as [Hout [Hin [Hedges _]]].
  split; [exact Hout|]. split; [exact Hin|].
  apply eq_add_S. exact Hedges.
Defined.
(** ** More on the scorer *)

Lemma unique_from_repeat (k : Z) (n : nat) (seen : list Z) :
  In k seen -> unique_from seen (repeat k n) = [].
Proof.
  intros H. induction n as [|n IH]; simpl; auto.
  replace (existsb (Z.eqb k) seen) with true; auto.
  symmetry. apply existsb_exists. exists k. split; auto. apply Z.eqb_refl.
Qed.

Lemma select_all (x : column) :
  forall m, (List.length x <= m)%nat -> select x (repeat true m) = x.
Proof.
  induction x as [|a x IH]; intros m Hm.
  - destruct m; reflexivity.
  - destruct m as [|m]; simpl in *; [lia|]. rewrite IH by lia. reflexivity.
Qed.

Lemma eq_mask_repeat (k : Z) (m : nat) :
  eq_mask (repeat k m) k = repeat true m.
Proof.
  unfold eq_mask. induction m as [|m IH]; simpl; auto.
  rewrite Z.eqb_refl, IH. reflexivity.
Qed.

Lemma mask_sum_repeat (m : nat) : mask_sum (repeat true m) = m.
Proof.
  unfold mask_sum. induction m as [|m IH]; simpl; auto.
Qed.

Lemma ratio_same (m : nat) : (0 < m)%nat -> ratio m m == 1.
Proof.
  intros H. unfold ratio. apply Qmult_inv_r.
  intros E. unfold Qeq in E. simpl in E. lia.
Qed.

(** X1. Conditioning on a column that holds one value in every row
    changes nothing: the score is the mutual information of the two
    target columns. *)
Theorem constant_condition_is_unconditional
  (mutual_info_score : column -> column -> Q) (x y : column)
  (k : Z) (m : nat) :
  List.length x = List.length y -> (0 < m)%nat -> (List.length x <= m)%nat ->
  exists q,
    conditional_mutual_info_score mutual_info_score x y [repeat k m] = Ret q
    /\ q == mutual_info_score x y.
Proof.
  intros Hxy Hm Hlen. unfold conditional_mutual_info_score.
  cbn [List.length Nat.eqb cmi_columns].
  destruct m as [|m]; [lia|].
  change (unique (repeat k (S m))) with (k :: unique_from [k] (repeat k m)).
  rewrite unique_from_repeat by (left; reflexivity).
  cbn [cmi_values]. rewrite eq_mask_repeat, mask_sum_repeat, repeat_length.
  unfold bool_index. rewrite repeat_length.
  replace (S m <? List.length x)%nat with false
    by (symmetry; apply Nat.ltb_ge; lia).
  replace (S m <? List.length y)%nat with false
    by (symmetry; apply Nat.ltb_ge; lia).
  cbn [bind]. rewrite !select_all by lia.
  unfold sk_mutual_info_score. rewrite Hxy, Nat.eqb_refl. cbn [bind].
  eexists. split; [reflexivity|].
  rewrite ratio_same by lia. ring.
Qed.

Lemma constant_condition_instance :
  exists q,
    conditional_mutual_info_score sample_score [0; 1; 1]%Z [1; 0; 1]%Z
                                  [repeat 7%Z 3] = Ret q
    /\ q == sample_score [0; 1; 1]%Z [1; 0; 1]%Z.
Proof.
  apply (constant_condition_is_unconditional sample_score
           [0; 1; 1]%Z [1; 0; 1]%Z 7%Z 3);
    [reflexivity | simpl; lia | simpl; lia].
Defined.

Section ScorerSums.

Variable mutual_info_score : column -> column -> Q.


(** X3. The order of the conditioning columns does not matter (in exact
    arithmetic). *)
Theorem conditioning_order_is_irrelevant (x y : column) (cs cs' : list column) :
  List.length x = List.length y ->
  Forall (fun c => (List.length x <= List.length c)%nat) cs ->
  Permutation cs cs' ->
  exists q q',
    conditional_mutual_info_score mutual_info_score x y cs = Ret q
    /\ conditional_mutual_info_score mutual_info_score x y cs' = Ret q'
    /\ q == q'.
Proof.
  intros Hxy Hall Hperm.
  assert (Hall' : Forall (fun c => (List.length x <= List.length c)%nat) cs')
    by (eapply Permutation_Forall; eauto).
  destruct cs as [|c cs].
  - apply Permutation_nil in Hperm. subst cs'.
    unfold conditional_mutual_info_score, sk_mutual_info_score. simpl.
    rewrite Hxy, Nat.eqb_refl. eexists. eexists.
    split; [reflexivity|]. split; reflexivity.
  - destruct cs' as [|c' cs'];
      [apply Permutation_sym, Permutation_nil in Hperm; discriminate|].
    destruct (cmi_columns_sum mutual_info_score x y (c :: cs) 0 Hxy Hall)
      as [q [E S]].
    destruct (cmi_columns_sum mutual_info_score x y (c' :: cs') 0 Hxy Hall')
      as [q' [E' S']].
    exists q, q'. unfold conditional_mutual_info_score.
    cbn [List.length Nat.eqb].
    split; [exact E|]. split; [exact E'|].
    rewrite S, S'.
    rewrite (Qsum_perm _ _ (Permutation_map
                              (column_term mutual_info_score x y) Hperm)).
    reflexivity.
Qed.

End ScorerSums.
(** ** Loops that end *)

Section WhileMeasure.

Variables St R : Type.
Variable step : St -> outcome (R + St).
Variable measure : St -> nat.
Hypothesis step_ends : forall s, step s <> Timeout.
Hypothesis step_decreases :
  forall s s', step s = Ret (inr s') -> (measure s' < measure s)%nat.

(** A loop whose every pass lowers a measure is left before the measure
    is used up. *)
Lemma while_true_ends (fuel : nat) :
  forall s, (measure s < fuel)%nat -> while_true step fuel s <> Timeout.
Proof.
  induction fuel as [|fuel IH]; intros s Hs; [lia|].
  simpl. pose proof (step_ends s) as He.
  destruct (step s) as [[r|s']|e|] eqn:E; simpl; try congruence.
  apply IH. apply step_decreases in E. lia.
Qed.

End WhileMeasure.

Section WhileInvariant.

Variables St R : Type.
Variable step : St -> outcome (R + St).
Variable inv : St -> Prop.
Variable post : R -> Prop.
Hypothesis step_keeps :
  forall s s', inv s -> step s = Ret (inr s') -> inv s'.
Hypothesis step_leaves :
  forall s r, inv s -> step s = Ret (inl r) -> post r.

Lemma while_true_invariant (fuel : nat) :
  forall s r, inv s -> while_true step fuel s = Ret r -> post r.
Proof.
  induction fuel as [|fuel IH]; intros s r Hs H; simpl in H; [discriminate|].
  destruct (step s) as [[r'|s']|e|] eqn:E; simpl in H; try discriminate.
  - injection H as <-. eapply step_leaves; eauto.
  - eapply IH; [|exact H]. eapply step_keeps; eauto.
Qed.

End WhileInvariant.

(** ** The scorer always answers *)

Lemma bind_ends {A B : Type} (m : outcome A) (k : A -> outcome B) :
  m <> Timeout -> (forall a, k a <> Timeout) -> bind m k <> Timeout.
Proof.
  intros Hm Hk. destruct m; simpl; auto. congruence.
Qed.

Lemma get_column_ends (df : frame) (n : node) : get_column df n <> Timeout.
Proof.
  induction df as [|[m c] df IH]; simpl; [discriminate|].
  destruct (node_eqb m n); [discriminate|exact IH].
Qed.

Lemma get_columns_ends (df : frame) (ns : list node) :
  get_columns df ns <> Timeout.
Proof.
  induction ns as [|n ns IH]; simpl; [discriminate|].
  apply bind_ends; [apply get_column_ends|]. intros c.
  apply bind_ends; [exact IH|]. discriminate.
Qed.

Section ScorerEnds.

Variable mutual_info_score : column -> column -> Q.

Lemma sk_mutual_info_score_ends (x y : column) :
  sk_mutual_info_score mutual_info_score x y <> Timeout.
Proof.
  unfold sk_mutual_info_score. destruct (_ =? _)%nat; discriminate.
Qed.

Lemma bool_index_ends (x : column) (mask : list bool) :
  bool_index x mask <> Timeout.
Proof.
  unfold bool_index. destruct (_ <? _)%nat; discriminate.
Qed.

Lemma cmi_values_ends (x y c : column) (values : list Z) :
  forall acc, cmi_values mutual_info_score x y c values acc <> Timeout.
Proof.
  induction values as [|i values IH]; intros acc; simpl; [discriminate|].
  apply bind_ends; [apply bool_index_ends|]. intros xs.
  apply bind_ends; [apply bool_index_ends|]. intros ys.
  apply bind_ends; [apply sk_mutual_info_score_ends|]. intros m.
  apply IH.
Qed.

Lemma cmi_columns_ends (x y : column) (cs : list column) :
  forall acc, cmi_columns mutual_info_score x y cs acc <> Timeout.
Proof.
  induction cs as [|c cs IH]; intros acc; simpl; [discriminate|].
  apply bind_ends; [apply cmi_values_ends|]. intros a. apply IH.
Qed.

Lemma conditional_mutual_info_score_ends (x y : column) (cs : list column) :
  conditional_mutual_info_score mutual_info_score x y cs <> Timeout.
Proof.
  unfold conditional_mutual_info_score. destruct (_ =? _)%nat.
  - apply sk_mutual_info_score_ends.
  - apply cmi_columns_ends.
Qed.

Lemma score_given_ends (data : frame) (node1 node2 : node) (c : list node) :
  score_given mutual_info_score data node1 node2 c <> Timeout.
Proof.
  unfold score_given.
  apply bind_ends; [apply get_column_ends|]. intros xi.
  apply bind_ends; [apply get_column_ends|]. intros xj.
  apply bind_ends; [apply get_columns_ends|]. intros cs.
  apply conditional_mutual_info_score_ends.
Qed.

End ScorerEnds.

(** ** The lists [n1] and [n2] *)

Lemma on_paths_keep (keep1 keep2 : node -> bool) (paths : list (list node)) :
  (forall x, In x (fst (on_paths paths keep1 keep2)) ->
             keep1 x = true /\ exists path, In path paths /\ In x (inner path))
  /\ (forall x, In x (snd (on_paths paths keep1 keep2)) ->
                keep2 x = true /\ exists path, In path paths /\ In x (inner path)).
Proof.
  unfold on_paths.
  set (body := fun '((n1, n2) : list node * list node) (nd : node) =>
                 let n1 := if keep1 nd then n1 ++ [nd] else n1 in
                 let n2 := if keep2 nd then n2 ++ [nd] else n2 in
                 (n1, n2)).
  set (good := fun (seen : list (list node)) (acc : list node * list node) =>
                 (forall x, In x (fst acc) ->
                    keep1 x = true
                    /\ exists path, In path seen /\ In x (inner path))
                 /\ (forall x, In x (snd acc) ->
                       keep2 x = true
                       /\ exists path, In path seen /\ In x (inner path))).
  assert (Hinner : forall (path : list node) seen l acc,
             incl l (inner path) -> In path seen -> good seen acc ->
             good seen (fold_left body l acc)).
  { intros path seen l. induction l as [|nd l IH]; intros acc Hl Hp Hacc;
      simpl; auto.
    apply IH; auto.
    - intros z Hz. apply Hl. right; auto.
    - destruct acc as [n1 n2]. destruct Hacc as [G1 G2]. simpl in *.
      assert (Hnd : In nd (inner path)) by (apply Hl; left; auto).
      split; simpl.
      + destruct (keep1 nd) eqn:E; auto.
        intros x Hx. apply in_app_or in Hx. destruct Hx as [Hx|[<-|[]]]; auto.
        split; auto. exists path. auto.
      + destruct (keep2 nd) eqn:E; auto.
        intros x Hx. apply in_app_or in Hx. destruct Hx as [Hx|[<-|[]]]; auto.
        split; auto. exists path. auto. }
  assert (Hweak : forall seen seen' acc,
             incl seen seen' -> good seen acc -> good seen' acc).
  { intros seen seen' acc Hs [G1 G2]. split; intros x Hx.
    - destruct (G1 x Hx) as [K [p [Hp Hi]]]. split; auto. exists p. auto.
    - destruct (G2 x Hx) as [K [p [Hp Hi]]]. split; auto. exists p. auto. }
  assert (Houter : forall ps seen acc,
             good seen acc ->
             good (seen ++ ps)
                  (fold_left (fun acc path => fold_left body (inner path) acc)
                             ps acc)).
  { induction ps as [|p ps IH]; intros seen acc Hacc; simpl.
    - rewrite app_nil_r. exact Hacc.
    - replace (seen ++ p :: ps) with ((seen ++ [p]) ++ ps)
        by (rewrite <- app_assoc; reflexivity).
      apply IH. apply (Hinner p).
      + apply incl_refl.
      + apply in_or_app. right. left. reflexivity.
      + eapply Hweak; [|exact Hacc]. apply incl_appl. apply incl_refl. }
  assert (H0 : good [] ([], [])) by (split; intros x []).
  pose proof (Houter paths [] ([], []) H0) as H.
  unfold good, body in H. cbn [app] in H. exact H.
Qed.

(** ** The second separation test *)

Section SeparateB.

Variable mutual_info_score : column -> column -> Q.
Variable data : frame.
Variable epsilon : Q.

Local Abbreviation score := (score_given mutual_info_score data).
Local Abbreviation drop := (drop_members mutual_info_score data epsilon).
Local Abbreviation step := (separate_b_step mutual_info_score data epsilon).

Lemma remove_first_length (i : node) (l : list node) :
  mem i l = true -> S (List.length (remove_first i l)) = List.length l.
Proof.
  induction l as [|m l IH]; simpl; [discriminate|].
  rewrite node_eqb_sym. destruct (node_eqb m i) eqn:E; simpl; auto.
Qed.

Lemma remove_first_incl (i : node) (l : list node) :
  incl (remove_first i l) l.
Proof.
  induction l as [|m l IH]; simpl; [apply incl_refl|].
  destruct (node_eqb m i).
  - apply incl_tl, incl_refl.
  - intros x [<-|H]; [left; auto|right; apply IH; auto].
Qed.

Lemma without_incl (c : list node) (n : node) : incl (without c n) c.
Proof. unfold without. intros x H. apply filter_In in H. tauto. Qed.

Lemma drop_members_ends (node1 node2 : node) (c : list node) (v : Q)
                        (todo : list node) :
  forall c_prime, drop node1 node2 c v todo c_prime <> Timeout.
Proof.
  induction todo as [|i todo IH]; intros c_prime; simpl; [discriminate|].
  apply bind_ends; [apply score_given_ends|]. intros vi.
  destruct (Qltb vi epsilon); [discriminate|].
  destruct (_ && _); apply IH.
Qed.

(** What the [for i in c] loop leaves: [c_prime] only loses members; it
    keeps its length exactly when no removal scored within [epsilon] of
    [v]; the loop is cut short only by a removal scoring under
    [epsilon]. *)
Lemma drop_members_spec (node1 node2 : node) (c : list node) (v : Q)
                        (todo : list node) :
  forall c_prime,
    match drop node1 node2 c v todo c_prime with
    | Ret (Some c') =>
        incl c' c_prime
        /\ (List.length c' <= List.length c_prime)%nat
        /\ (List.length c' = List.length c_prime ->
            forall i, In i todo -> In i c_prime ->
              exists vi, score node1 node2 (without c i) = Ret vi
                         /\ Qltb vi epsilon = false
                         /\ Qle_bool vi (v + epsilon) = false)
    | Ret None =>
        exists i vi, In i todo
                     /\ score node1 node2 (without c i) = Ret vi
                     /\ Qltb vi epsilon = true
    | _ => True
    end.
Proof.
  induction todo as [|i todo IH]; intros c_prime; simpl.
  - split; [apply incl_refl|]. split; [lia|]. intros _ i [].
  - destruct (score node1 node2 (without c i)) as [vi|e|] eqn:Ev; simpl; auto.
    destruct (Qltb vi epsilon) eqn:Elt.
    { exists i, vi. auto. }
    destruct (Qle_bool vi (v + epsilon) && mem i c_prime) eqn:Edrop.
    + apply andb_true_iff in Edrop. destruct Edrop as [Ele Emem].
      specialize (IH (remove_first i c_prime)).
      destruct (drop node1 node2 c v todo (remove_first i c_prime))
        as [[c'|]|e|]; auto.
      * destruct IH as [Hincl [Hlen _]].
        pose proof (remove_first_length i c_prime Emem) as Hl.
        split; [intros x Hx; apply (remove_first_incl i); auto|].
        split; [lia|]. intros E. lia.
      * destruct IH as [j [vj [Hj H]]]. exists j, vj. split; [right|]; auto.
    + specialize (IH c_prime).
      destruct (drop node1 node2 c v todo c_prime) as [[c'|]|e|]; auto.
      * destruct IH as [Hincl [Hlen Hsame]].
        split; auto. split; auto.
        intros E j [<-|Hj] Hjc; [|apply Hsame; auto].
        exists vi. split; auto. split; auto.
        apply andb_false_iff in Edrop. destruct Edrop as [H|H]; auto.
        apply mem_In in Hjc. congruence.
      * destruct IH as [j [vj [Hj H]]]. exists j, vj. split; [right|]; auto.
Qed.

Lemma separate_b_step_ends (node1 node2 : node) (c : list node) :
  step node1 node2 c <> Timeout.
Proof.
  unfold separate_b_step.
  apply bind_ends; [apply score_given_ends|]. intros v.
  destruct (Qltb v epsilon); [discriminate|].
  apply bind_ends; [apply drop_members_ends|]. intros [c'|]; [|discriminate].
  destruct (_ <? _)%nat; discriminate.
Qed.

Lemma separate_b_step_shrinks (node1 node2 : node) (c c' : list node) :
  step node1 node2 c = Ret (inr c') ->
  (List.length c' < List.length c)%nat /\ incl c' c.
Proof.
  unfold separate_b_step.
  destruct (score node1 node2 c) as [v|e|]; simpl; try discriminate.
  destruct (Qltb v epsilon); [discriminate|].
  pose proof (drop_members_spec node1 node2 c v c c) as Hd.
  destruct (drop node1 node2 c v c c) as [[c1|]|e|]; simpl; try discriminate.
  destruct (List.length c1 <? List.length c)%nat eqn:E; [|discriminate].
  intros H. injection H as <-. apply Nat.ltb_lt in E. tauto.
Qed.

(** X4. [try_to_separate_b] always comes to an end: started from the
    conditioning set [c], its loop returns or raises within
    [len(c) + 1] passes. *)
Theorem try_to_separate_b_ends
  (graph : Graph) (node1 node2 : node) (c : list node) (fuel : nat) :
  separate_b_start graph node1 node2 = Ret c ->
  (List.length c < fuel)%nat ->
  try_to_separate_b mutual_info_score data epsilon fuel graph node1 node2
  <> Timeout.
Proof.
  intros Hstart Hfuel. unfold try_to_separate_b. rewrite Hstart. simpl.
  apply (while_true_ends _ _ (step node1 node2) (@List.length node)).
  - apply separate_b_step_ends.
  - intros s s' H. apply (separate_b_step_shrinks node1 node2 s s' H).
  - exact Hfuel.
Qed.

(** The conditioning set the test starts from: inner nodes of simple
    paths, all of them neighbours of one of the two nodes. *)
Lemma separate_b_start_spec (graph : Graph) (node1 node2 : node)
                            (c : list node) :
  separate_b_start graph node1 node2 = Ret c ->
  incl c (adj graph node1) \/ incl c (adj graph node2).
Proof.
  unfold separate_b_start. intros H.
  destruct (separate_b_sets graph node1 node2)
    as [[[n1 n1'] [n2 n2']]|e|] eqn:Es; simpl in H; try discriminate.
  destruct (separate_b_prime_sets_empty graph node1 node2 n1 n1' n2 n2' Es)
    as [-> ->].
  rewrite !app_nil_r in H.
  unfold separate_b_sets, neighbors in Es.
  destruct (mem node1 (g_nodes graph)); simpl in Es; try discriminate.
  destruct (mem node2 (g_nodes graph)); simpl in Es; try discriminate.
  destruct (all_simple_paths graph node1 node2) as [paths|e|];
    simpl in Es; try discriminate.
  pose proof (on_paths_keep (fun nd => mem nd (adj graph node1))
                            (fun nd => mem nd (adj graph node2)) paths)
    as [K1 K2].
  destruct (on_paths paths _ _) as [m1 m2]. simpl in K1, K2.
  destruct (neighbor_lists graph m1) as [l1|e|]; simpl in Es; try discriminate.
  destruct (neighbor_lists graph m2) as [l2|e|]; simpl in Es; try discriminate.
  assert (En : n1 = m1 /\ n2 = m2) by (inversion Es; auto).
  destruct En as [-> ->]. clear Es.
  destruct (_ <? _)%nat; injection H as <-.
  - left. intros x Hx. apply mem_In. apply K1. exact Hx.
  - right. intros x Hx. apply mem_In. apply K2. exact Hx.
Qed.

(** X5. What the verdicts of [try_to_separate_b] rest on.  [True]: some
    set of neighbours of one of the two nodes gives a conditional score
    under [epsilon].  [False]: the last set tried scores [epsilon] or
    more and dropping any one member raises the score by more than
    [epsilon]. *)
Theorem try_to_separate_b_verdict
  (graph : Graph) (node1 node2 : node) (fuel : nat) (verdict : bool) :
  try_to_separate_b mutual_info_score data epsilon fuel graph node1 node2
  = Ret verdict ->
  exists c v,
    (incl c (adj graph node1) \/ incl c (adj graph node2))
    /\ score node1 node2 c = Ret v
    /\ if verdict then Qltb v epsilon = true
       else Qltb v epsilon = false
            /\ forall i, In i c ->
                 exists vi, score node1 node2 (without c i) = Ret vi
                            /\ Qltb (v + epsilon) vi = true.
Proof.
  unfold try_to_separate_b.
  destruct (separate_b_start graph node1 node2) as [c0|e|] eqn:Es; simpl;
    try discriminate.
  pose proof (separate_b_start_spec graph node1 node2 c0 Es) as Hc0.
  set (near := fun c : list node =>
                 incl c (adj graph node1) \/ incl c (adj graph node2)).
  assert (Hsub : forall c c', incl c' c -> near c -> near c').
  { intros c c' Hi [H|H]; [left|right]; eapply incl_tran; eauto. }
  apply (while_true_invariant _ _ (step node1 node2) near
           (fun verdict =>
              exists c v, near c /\ score node1 node2 c = Ret v
                /\ if verdict : bool then Qltb v epsilon = true
                   else Qltb v epsilon = false
                        /\ forall i, In i c ->
                             exists vi,
                               score node1 node2 (without c i) = Ret vi
                               /\ Qltb (v + epsilon) vi = true));
    [| |exact Hc0].
  - intros s s' Hs H. apply separate_b_step_shrinks in H.
    apply (Hsub s); tauto.
  - intros c r Hc. unfold separate_b_step.
    destruct (score node1 node2 c) as [v|e|] eqn:Ev; simpl; try discriminate.
    destruct (Qltb v epsilon) eqn:Elt.
    { intros H. injection H as <-. exists c, v. auto. }
    pose proof (drop_members_spec node1 node2 c v c c) as Hd.
    destruct (drop node1 node2 c v c c) as [[c1|]|e|]; simpl;
      try discriminate.
    + destruct Hd as [Hincl [Hle Hsame]].
      destruct (List.length c1 <? List.length c)%nat eqn:E; [discriminate|].
      apply Nat.ltb_ge in E.
      intros H. injection H as <-. exists c, v.
      split; auto. split; auto. split; auto.
      intros i Hi. destruct (Hsame ltac:(lia) i Hi Hi) as [vi [H1 [H2 H3]]].
      exists vi. split; auto. unfold Qltb. rewrite H3. reflexivity.
    + destruct Hd as [i [vi [Hi [H1 H2]]]].
      intros H. injection H as <-. exists (without c i), vi.
      split; [apply (Hsub c); auto; apply without_incl|]. auto.
Qed.

End SeparateB.

(** ** Simple paths *)

Lemma removelast_In {A : Type} (x : A) (l : list A) :
  In x (removelast l) -> In x l.
Proof.
  induction l as [|a l IH]; simpl; auto.
  destruct l as [|b l]; [intros []|].
  intros [<-|H]; [left; auto|right; apply IH; exact H].
Qed.

(** Every simple path found continues the path so far with new nodes and
    follows edges of the graph to the target. *)
Lemma simple_paths_shape (g : Graph) (target : node) (fuel : nat) :
  forall (visited : list node) (u : node) (p : list node),
    In p (simple_paths fuel g target visited u) ->
    exists q, p = rev (q ++ visited)
              /\ (forall x, In x q -> ~ In x visited)
              /\ conn (adj g) u target.
Proof.
  induction fuel as [|fuel IH]; intros visited u p H; simpl in H; [destruct H|].
  apply in_flat_map in H. destruct H as [child [Hchild H]].
  destruct (mem child visited) eqn:Ev; [destruct H|].
  destruct (node_eqb child target) eqn:Et.
  - destruct H as [<-|[]]. exists [child]. split; [reflexivity|]. split.
    + intros x [<-|[]]. apply mem_not_In. exact Ev.
    + apply node_eqb_eq in Et. subst. eapply conn_step; [exact Hchild|].
      apply conn_refl.
  - destruct (IH (child :: visited) child p H) as [q [-> [Hq Hc]]].
    exists (q ++ [child]). split; [rewrite <- app_assoc; reflexivity|]. split.
    + intros x Hx Hv. apply in_app_or in Hx. destruct Hx as [Hx|[<-|[]]].
      * apply (Hq x Hx). right. exact Hv.
      * apply mem_not_In in Ev. contradiction.
    + eapply conn_step; eauto.
Qed.

(** The inner nodes of the simple paths between two nodes are not the
    source, and a path exists only between nodes the graph joins. *)
Lemma all_simple_paths_spec (g : Graph) (s t : node) (paths : list (list node)) :
  all_simple_paths g s t = Ret paths ->
  In s (g_nodes g) /\ In t (g_nodes g)
  /\ forall p, In p paths ->
       conn (adj g) s t /\ forall x, In x (inner p) -> x <> s.
Proof.
  unfold all_simple_paths.
  destruct (mem s (g_nodes g)) eqn:Es; simpl; [|discriminate].
  destruct (mem t (g_nodes g)) eqn:Et; simpl; [|discriminate].
  intros H. injection H as <-.
  split; [apply mem_In; auto|]. split; [apply mem_In; auto|].
  intros p Hp. destruct (node_eqb s t); [destruct Hp|].
  apply simple_paths_shape in Hp. destruct Hp as [q [-> [Hq Hc]]].
  split; auto. intros x Hx.
  rewrite rev_app_distr in Hx. simpl in Hx. unfold inner in Hx. simpl in Hx.
  apply removelast_In in Hx. apply in_rev in Hx.
  intros ->. apply (Hq s Hx). left. reflexivity.
Qed.

(** ** The least of the candidate scores *)

Lemma Qltb_trans_le (x y z : Q) :
  Qltb x y = true -> Qltb z y = false -> Qltb z x = false.
Proof.
  intros H1 H2. apply Qltb_lt in H1. apply Qltb_ge in H2.
  apply not_true_is_false. intros H3. apply Qltb_lt in H3.
  apply (Qlt_irrefl z).
  eapply Qlt_trans; [exact H3|]. eapply Qlt_le_trans; eauto.
Qed.

Lemma argmin_from_spec (l : list Q) :
  forall (pre : list Q) (best : Q) (best_i : nat),
    (best_i < List.length pre)%nat ->
    nth best_i (pre ++ l) 0 = best ->
    (forall x, In x pre -> Qltb x best = false) ->
    let k := argmin_from best best_i (List.length pre) l in
    (k < List.length (pre ++ l))%nat
    /\ forall x, In x (pre ++ l) -> Qltb x (nth k (pre ++ l) 0) = false.
Proof.
  induction l as [|x l IH]; intros pre best best_i Hi Hb Hpre; simpl.
  - rewrite app_nil_r in *. rewrite Hb. split; auto.
  - replace (pre ++ x :: l) with ((pre ++ [x]) ++ l) in *
      by (rewrite <- app_assoc; reflexivity).
    replace (S (List.length pre)) with (List.length (pre ++ [x]))
      by (rewrite length_app; simpl; lia).
    destruct (Qltb x best) eqn:E.
    + apply IH.
      * rewrite length_app. simpl. lia.
      * rewrite app_nth1 by (rewrite length_app; simpl; lia).
        rewrite app_nth2 by lia. rewrite Nat.sub_diag. reflexivity.
      * intros y Hy. apply in_app_or in Hy. destruct Hy as [Hy|[<-|[]]].
        -- eapply Qltb_trans_le; eauto.
        -- apply Qltb_irrefl.
    + apply IH.
      * rewrite length_app. simpl. lia.
      * exact Hb.
      * intros y Hy. apply in_app_or in Hy. destruct Hy as [Hy|[<-|[]]]; auto.
Qed.

Lemma argmin_spec (l : list Q) (k : nat) :
  argmin l = Ret k ->
  (k < List.length l)%nat /\ forall x, In x l -> Qltb x (nth k l 0) = false.
Proof.
  destruct l as [|x l]; simpl; [discriminate|].
  intros H. injection H as <-.
  apply (argmin_from_spec l [x] x 0); simpl; auto.
  intros y [<-|[]]. apply Qltb_irrefl.
Qed.

Lemma argmin_ends (l : list Q) : argmin l <> Timeout.
Proof. destruct l; discriminate. Qed.

(** ** The first separation test *)

Section SeparateA.

Variable mutual_info_score : column -> column -> Q.
Variable data : frame.
Variable epsilon : Q.

Local Abbreviation score := (score_given mutual_info_score data).
Local Abbreviation shrink := (shrink_candidates mutual_info_score data).
Local Abbreviation step := (separate_a_step mutual_info_score data epsilon).

(** The candidates of the shrink step, one for every node of the graph,
    each with its score. *)
Lemma shrink_candidates_spec (node1 node2 : node) (c nodes : list node) :
  forall values conditions,
    shrink node1 node2 c nodes = Ret (values, conditions) ->
    List.length values = List.length nodes
    /\ List.length conditions = List.length nodes
    /\ forall k, (k < List.length nodes)%nat ->
         nth k conditions [] = without c (nth k nodes EmptyString)
         /\ score node1 node2 (nth k conditions []) = Ret (nth k values 0).
Proof.
  induction nodes as [|nd nodes IH]; simpl; intros values conditions H.
  - injection H as <- <-. simpl. split; auto. split; auto. intros k Hk. lia.
  - destruct (score node1 node2 (without c nd)) as [vi|e|] eqn:Ev;
      simpl in H; try discriminate.
    destruct (shrink node1 node2 c nodes) as [[vs cs]|e|];
      simpl in H; try discriminate.
    injection H as <- <-. destruct (IH vs cs eq_refl) as [H1 [H2 H3]].
    simpl. split; [lia|]. split; [lia|].
    intros [|k] Hk; [auto|]. apply H3. lia.
Qed.

Lemma without_absent (c : list node) (n : node) :
  ~ In n c -> without c n = c.
Proof.
  intros H. unfold without. apply forallb_filter_id. apply forallb_forall.
  intros x Hx. apply negb_true_iff. apply node_eqb_neq. intros ->. auto.
Qed.

(** The least candidate score never exceeds the score of [c] itself: a
    node of the graph outside [c] offers [c] as a candidate. *)
Lemma shrink_least (node1 node2 : node) (c nodes : list node) (outside : node)
                   (values : list Q) (conditions : list (list node))
                   (v : Q) (k : nat) :
  In outside nodes -> ~ In outside c ->
  score node1 node2 c = Ret v ->
  shrink node1 node2 c nodes = Ret (values, conditions) ->
  argmin values = Ret k ->
  Qltb v (nth k values 0) = false.
Proof.
  intros Hin Hout Hv Hs Hk.
  destruct (shrink_candidates_spec node1 node2 c nodes values conditions Hs)
    as [H1 [H2 H3]].
  destruct (argmin_spec values k Hk) as [_ Hmin].
  apply Hmin.
  destruct (In_nth nodes outside EmptyString Hin) as [j [Hj Ej]].
  destruct (H3 j Hj) as [Ec Es]. rewrite Ec, Ej, (without_absent c outside Hout) in Es.
  rewrite Hv in Es. injection Es as ->.
  apply nth_In. lia.
Qed.

(** The lists the test starts from: neighbours of one of the two nodes,
    none of them [node1]. *)
Lemma separate_a_start_spec (graph : Graph) (node1 node2 : node)
                            (n1 n2 : list node) :
  separate_a_start graph node1 node2 = Ret (n1, n2) ->
  In node1 (g_nodes graph)
  /\ forall x, In x (n1 ++ n2) ->
       x <> node1 /\ (In x (adj graph node1) \/ In x (adj graph node2)).
Proof.
  unfold separate_a_start, neighbors.
  destruct (mem node1 (g_nodes graph)) eqn:E1; simpl; try discriminate.
  destruct (mem node2 (g_nodes graph)); simpl; try discriminate.
  destruct (all_simple_paths graph node1 node2) as [paths|e|] eqn:Ep;
    simpl; try discriminate.
  destruct (all_simple_paths_spec graph node1 node2 paths Ep)
    as [_ [_ Hpaths]].
  pose proof (on_paths_keep (fun nd => mem nd (adj graph node1))
                            (fun nd => mem nd (adj graph node2)) paths)
    as [K1 K2].
  destruct (on_paths paths _ _) as [m1 m2]. simpl in K1, K2.
  intros H. split; [apply mem_In; exact E1|].
  assert (G1 : forall x, In x m1 ->
                 x <> node1 /\ (In x (adj graph node1) \/ In x (adj graph node2))).
  { intros x Hx. destruct (K1 x Hx) as [Hm [p [Hp Hi]]].
    split; [apply (Hpaths p Hp); auto|]. left. apply mem_In. exact Hm. }
  assert (G2 : forall x, In x m2 ->
                 x <> node1 /\ (In x (adj graph node1) \/ In x (adj graph node2))).
  { intros x Hx. destruct (K2 x Hx) as [Hm [p [Hp Hi]]].
    split; [apply (Hpaths p Hp); auto|]. right. apply mem_In. exact Hm. }
  intros x Hx. apply in_app_or in Hx.
  destruct (_ <? _)%nat; injection H as <- <-; destruct Hx; auto.
Qed.

(** X6. What the verdicts of [try_to_separate_a] rest on.  [True]: some
    set of neighbours of the two nodes gives a conditional score under
    [epsilon].  [False]: the set tried last scores [epsilon] or more and
    holds exactly one node; the branch that gives up because every
    candidate scores above the current set is never taken. *)
Theorem try_to_separate_a_verdict
  (graph : Graph) (node1 node2 : node) (fuel : nat) (verdict : bool) :
  try_to_separate_a mutual_info_score data epsilon fuel graph node1 node2
  = Ret verdict ->
  exists c v,
    (forall x, In x c -> In x (adj graph node1) \/ In x (adj graph node2))
    /\ score node1 node2 c = Ret v
    /\ if verdict then Qltb v epsilon = true
       else Qltb v epsilon = false /\ List.length c = 1%nat.
Proof.
  unfold try_to_separate_a.
  destruct (separate_a_start graph node1 node2) as [[n1 n2]|e|] eqn:Es;
    simpl; try discriminate.
  destruct (separate_a_start_spec graph node1 node2 n1 n2 Es) as [Hn1 Hnear].
  set (inv := fun s : separate_a_state =>
                let '(c, v, skip_step, n2_used) := s in
                incl c (n1 ++ n2)
                /\ (skip_step = true ->
                    score node1 node2 c = Ret v /\ Qltb v epsilon = false)).
  apply (while_true_invariant _ _ (step graph node1 node2 n2) inv
           (fun verdict =>
              exists c v,
                (forall x, In x c ->
                           In x (adj graph node1) \/ In x (adj graph node2))
                /\ score node1 node2 c = Ret v
                /\ if verdict : bool then Qltb v epsilon = true
                   else Qltb v epsilon = false /\ List.length c = 1%nat)).
  - (* the loop head is reached again *)
    intros [[[c v] skip] used] s' [Hc Hskip]. unfold separate_a_step.
    assert (Hscored :
              forall v1 sep,
                (if negb skip
                 then v' <- score node1 node2 c ;; Ret (v', Qltb v' epsilon)
                 else Ret (v, false)) = Ret (v1, sep) ->
                sep = false ->
                score node1 node2 c = Ret v1 /\ Qltb v1 epsilon = false).
    { intros v1 sep H ->. destruct skip; simpl in H.
      - injection H as <-. auto.
      - destruct (score node1 node2 c) as [v'|e|]; simpl in H;
          try discriminate.
        injection H as <- E. auto. }
    destruct (if negb skip then _ else _) as [[v1 sep]|e|] eqn:Escored;
      simpl; try discriminate.
    destruct sep; [discriminate|].
    destruct (Hscored v1 false eq_refl eq_refl) as [Hv1 Hge].
    destruct (List.length c =? 1)%nat.
    + destruct (negb used); [|discriminate].
      intros H. injection H as <-. simpl. split; [|discriminate].
      apply incl_appr, incl_refl.
    + destruct (shrink node1 node2 c (g_nodes graph))
        as [[values conditions]|e|] eqn:Esh; simpl; try discriminate.
      destruct (argmin values) as [k|e|] eqn:Ek; simpl; try discriminate.
      destruct (Qltb (nth k values 0) epsilon) eqn:Elt; [discriminate|].
      rewrite (shrink_least node1 node2 c (g_nodes graph) node1 values
                 conditions v1 k Hn1
                 (fun H => proj1 (Hnear node1 (Hc node1 H)) eq_refl)
                 Hv1 Esh Ek).
      intros H. injection H as <-. simpl.
      destruct (shrink_candidates_spec node1 node2 c (g_nodes graph)
                  values conditions Esh) as [H1 [H2 H3]].
      destruct (argmin_spec values k Ek) as [Hk _].
      destruct (H3 k ltac:(lia)) as [Ec Esc].
      split; [|intros _; split; auto].
      rewrite Ec. eapply incl_tran; [apply without_incl|exact Hc].
  - (* the loop is left *)
    intros [[[c v] skip] used] r [Hc Hskip]. unfold separate_a_step.
    assert (Hscored :
              forall v1 sep,
                (if negb skip
                 then v' <- score node1 node2 c ;; Ret (v', Qltb v' epsilon)
                 else Ret (v, false)) = Ret (v1, sep) ->
                score node1 node2 c = Ret v1 /\ Qltb v1 epsilon = sep).
    { intros v1 sep H. destruct skip; simpl in H.
      - injection H as <- <-. auto.
      - destruct (score node1 node2 c) as [v'|e|]; simpl in H;
          try discriminate.
        injection H as <- <-. auto. }
    destruct (if negb skip then _ else _) as [[v1 sep]|e|] eqn:Escored;
      simpl; try discriminate.
    destruct (Hscored v1 sep eq_refl) as [Hv1 Hsep].
    assert (Hcnear : forall x, In x c ->
                       In x (adj graph node1) \/ In x (adj graph node2)).
    { intros x Hx. apply Hnear. apply Hc. exact Hx. }
    destruct sep.
    { intros H. injection H as <-. exists c, v1. auto. }
    destruct (List.length c =? 1)%nat eqn:Elen.
    + destruct (negb used); [discriminate|].
      intros H. injection H as <-. exists c, v1.
      apply Nat.eqb_eq in Elen. auto.
    + destruct (shrink node1 node2 c (g_nodes graph))
        as [[values conditions]|e|] eqn:Esh; simpl; try discriminate.
      destruct (argmin values) as [k|e|] eqn:Ek; simpl; try discriminate.
      destruct (shrink_candidates_spec node1 node2 c (g_nodes graph)
                  values conditions Esh) as [H1 [H2 H3]].
      destruct (argmin_spec values k Ek) as [Hk _].
      destruct (H3 k ltac:(lia)) as [Ec Esc].
      destruct (Qltb (nth k values 0) epsilon) eqn:Elt.
      * intros H. injection H as <-.
        exists (nth k conditions []), (nth k values 0).
        split; [|auto].
        intros x Hx. apply Hcnear. rewrite Ec in Hx.
        apply (without_incl c _ x Hx).
      * rewrite (shrink_least node1 node2 c (g_nodes graph) node1 values
                   conditions v1 k Hn1
                   (fun H => proj1 (Hnear node1 (Hc node1 H)) eq_refl)
                   Hv1 Esh Ek).
        discriminate.
  - simpl. split; [apply incl_appl, incl_refl|discriminate].
Qed.

(** A pass that goes on with the same [c] is repeated for ever. *)
Lemma separate_a_stuck (graph : Graph) (node1 node2 : node) (n2 : list node)
                       (c : list node) (v v' : Q) (skip used used' : bool) :
  step graph node1 node2 n2 (c, v, skip, used)
  = Ret (inr (c, v', true, used')) ->
  forall fuel,
    while_true (step graph node1 node2 n2) fuel (c, v, skip, used) = Timeout.
Proof.
  intros H fuel. destruct fuel as [|fuel]; [reflexivity|].
  cbn [while_true]. rewrite H. cbn [bind]. apply while_true_fixed.
  revert H. unfold separate_a_step.
  destruct (if negb skip then _ else _) as [[v1 sep]|e|]; simpl;
    try discriminate.
  destruct sep; [discriminate|].
  destruct (List.length c =? 1)%nat.
  { destruct (negb used); discriminate. }
  destruct (shrink node1 node2 c (g_nodes graph))
    as [[values conditions]|e|]; simpl; try discriminate.
  destruct (argmin values) as [k|e|]; simpl; try discriminate.
  destruct (Qltb (nth k values 0) epsilon) eqn:Elt; [discriminate|].
  destruct (Qltb v1 (nth k values 0)).
  { destruct (negb used); discriminate. }
  intros H. injection H as Ec Ev Eu. subst v' used'.
  cbn [negb bind]. rewrite Qltb_irrefl, Ec. reflexivity.
Qed.

Lemma shrink_candidates_empty (node1 node2 : node) (v : Q) (nodes : list node) :
  score node1 node2 [] = Ret v ->
  shrink node1 node2 [] nodes
  = Ret (repeat v (List.length nodes), repeat [] (List.length nodes)).
Proof.
  intros Hv. induction nodes as [|nd nodes IH]; simpl; auto.
  rewrite Hv, IH. reflexivity.
Qed.

Lemma nth_repeat_lt {A : Type} (a d : A) (n k : nat) :
  (k < n)%nat -> nth k (repeat a n) d = a.
Proof.
  revert k. induction n as [|n IH]; intros k Hk; [lia|].
  destruct k; simpl; auto. apply IH. lia.
Qed.

(** X7. [try_to_separate_a] never returns for two nodes of the graph
    that no path joins when their columns score [epsilon] or more: the
    conditioning set is empty, the shrink step offers the empty set again
    and the loop goes on with it for ever. *)
Theorem try_to_separate_a_unjoined_diverges
  (graph : Graph) (node1 node2 : node) (v : Q) :
  well_formed graph ->
  In node1 (g_nodes graph) -> In node2 (g_nodes graph) ->
  connected graph node1 node2 = false ->
  score node1 node2 [] = Ret v -> Qltb v epsilon = false ->
  forall fuel,
    try_to_separate_a mutual_info_score data epsilon fuel graph node1 node2
    = Timeout.
Proof.
  intros Hwf H1 H2 Hcon Hv Hge fuel.
  assert (Hpaths : all_simple_paths graph node1 node2 = Ret []).
  { destruct (all_simple_paths graph node1 node2) as [paths|e|] eqn:E.
    - destruct paths as [|p paths]; auto.
      destruct (all_simple_paths_spec graph node1 node2 _ E) as [_ [_ H]].
      destruct (H p (or_introl eq_refl)) as [Hc _].
      apply connected_conn in Hc; auto. congruence.
    - unfold all_simple_paths in E.
      rewrite (proj2 (mem_In _ _) H1), (proj2 (mem_In _ _) H2) in E.
      discriminate.
    - unfold all_simple_paths in E.
      destruct (_ && _); discriminate. }
  unfold try_to_separate_a, separate_a_start, neighbors.
  rewrite (proj2 (mem_In _ _) H1), (proj2 (mem_In _ _) H2), Hpaths.
  simpl.
  apply (separate_a_stuck graph node1 node2 [] [] 0 v false false false).
  unfold separate_a_step. simpl negb. cbv iota.
  rewrite Hv. simpl. rewrite Hge. simpl.
  rewrite (shrink_candidates_empty node1 node2 v (g_nodes graph) Hv). simpl.
  destruct (g_nodes graph) as [|n0 ns] eqn:En; [destruct H1|].
  simpl List.length. 
  destruct (argmin (repeat v (S (List.length ns)))) as [k|e|] eqn:Ek;
    try (simpl in Ek; discriminate).
  simpl bind.
  destruct (argmin_spec _ k Ek) as [Hk _]. rewrite repeat_length in Hk.
  destruct k as [|m]; [|rewrite !nth_repeat_lt by lia];
    rewrite Hge, Qltb_irrefl; reflexivity.
Qed.

End SeparateA.

(** ** Orienting one pair *)

Lemma no_member_nil {A : Type} (l : list A) : (forall x, ~ In x l) -> l = [].
Proof.
  destruct l as [|a l]; auto. intros H. destruct (H a). left. reflexivity.
Qed.

Section OrientEdge.

Variable mutual_info_score : column -> column -> Q.
Variable data : frame.
Variable epsilon : Q.

Local Abbreviation score := (score_given mutual_info_score data).
Local Abbreviation members :=
  (orient_members mutual_info_score data epsilon).
Local Abbreviation step := (orient_edge_step mutual_info_score data epsilon).

(** The two arcs [orient_edge] records for each node it picks. *)
Let arcs_to (s1 s2 : node) (picked : list node) : list (node * node) :=
  flat_map (fun i => [(s1, i); (s2, i)]) picked.

Lemma orient_members_spec (s1 s2 : node) (c : list node) (v : Q)
                          (todo : list node) :
  forall c_prime oriented,
    match members s1 s2 c v todo c_prime oriented with
    | Ret (inr (c', oriented')) =>
        incl c' c_prime
        /\ (List.length c' <= List.length c_prime)%nat
        /\ exists picked, incl picked todo
                          /\ oriented' = oriented ++ arcs_to s1 s2 picked
    | Ret (inl oriented') =>
        exists picked, incl picked todo
                       /\ oriented' = oriented ++ arcs_to s1 s2 picked
    | Raise _ => True
    | Timeout => False
    end.
Proof.
  induction todo as [|i todo IH]; intros c_prime oriented; simpl.
  - split; [apply incl_refl|]. split; [lia|].
    exists []. split; [apply incl_refl|]. simpl. rewrite app_nil_r. reflexivity.
  - pose proof (score_given_ends mutual_info_score data s1 s2 (without c i))
      as He.
    destruct (score s1 s2 (without c i)) as [vi|e|]; simpl; auto.
    destruct (Qle_bool vi (v + epsilon)).
    + specialize (IH (without c_prime i) (oriented ++ [(s1, i); (s2, i)])).
      destruct (members s1 s2 c v todo (without c_prime i) _)
        as [[o'|[c' o']]|e|]; auto.
      * destruct IH as [picked [Hp ->]]. exists (i :: picked). split.
        -- intros x [<-|Hx]; [left|right]; auto.
        -- rewrite <- app_assoc. reflexivity.
      * destruct IH as [Hincl [Hlen [picked [Hp ->]]]].
        split; [eapply incl_tran; [exact Hincl|apply without_incl]|].
        split.
        { pose proof (filter_length_le (fun m => negb (node_eqb m i)) c_prime).
          unfold without in Hlen. lia. }
        exists (i :: picked). split.
        -- intros x [<-|Hx]; [left|right]; auto.
        -- rewrite <- app_assoc. reflexivity.
    + destruct (Qle_bool vi epsilon).
      { exists []. split; [intros x []|]. simpl. rewrite app_nil_r. reflexivity. }
      specialize (IH c_prime oriented).
      destruct (members s1 s2 c v todo c_prime oriented)
        as [[o'|[c' o']]|e|]; auto.
      * destruct IH as [picked [Hp ->]]. exists picked. split; auto.
        apply incl_tl. exact Hp.
      * destruct IH as [Hincl [Hlen [picked [Hp ->]]]].
        split; auto. split; auto. exists picked. split; auto.
        apply incl_tl. exact Hp.
Qed.

Lemma orient_edge_step_spec (s1 s2 : node) (c : list node)
                            (oriented : list (node * node)) :
  match step s1 s2 (c, oriented) with
  | Ret (inr (c', oriented')) =>
      (List.length c' < List.length c)%nat /\ incl c' c
      /\ exists picked, incl picked c
                        /\ oriented' = oriented ++ arcs_to s1 s2 picked
  | Ret (inl oriented') =>
      exists picked, incl picked c
                     /\ oriented' = oriented ++ arcs_to s1 s2 picked
  | Raise _ => True
  | Timeout => False
  end.
Proof.
  unfold orient_edge_step.
  pose proof (score_given_ends mutual_info_score data s1 s2 c) as He.
  destruct (score s1 s2 c) as [v|e|]; simpl; auto.
  destruct (Qltb v epsilon).
  { exists []. split; [intros x []|]. simpl. rewrite app_nil_r. reflexivity. }
  pose proof (orient_members_spec s1 s2 c v c c oriented) as Hm.
  destruct (members s1 s2 c v c c oriented) as [[o'|[c' o']]|e|]; simpl; auto.
  destruct Hm as [Hincl [Hlen Hp]].
  destruct (List.length c' <? List.length c)%nat eqn:E; auto.
  apply Nat.ltb_lt in E. auto.
Qed.

(** The conditioning set [orient_edge] starts from lies among the
    neighbours of one of the two nodes; it is empty for a pair that is an
    edge or has no common neighbour. *)
Lemma orient_start_spec (graph : Graph) (s1 s2 : node) (c : list node) :
  orient_start graph s1 s2 = Ret c ->
  (incl c (adj graph s1) \/ incl c (adj graph s2))
  /\ (has_edge graph s1 s2 = true -> c = [])
  /\ ((forall x, In x (adj graph s1) -> ~ In x (adj graph s2)) -> c = []).
Proof.
  unfold orient_start, orient_sets, neighbors.
  destruct (mem s1 (g_nodes graph)); simpl; try discriminate.
  destruct (mem s2 (g_nodes graph)); simpl; try discriminate.
  destruct (all_simple_paths graph s1 s2) as [paths|e|]; simpl;
    try discriminate.
  set (inter := nodup node_dec
                  (filter (fun n => mem n (adj graph s2)) (adj graph s1))).
  set (guard := negb (has_edge graph s1 s2) && (0 <? List.length inter)%nat).
  pose proof (on_paths_keep (fun nd => mem nd (adj graph s1))
                            (fun nd => mem nd (adj graph s2)) paths)
    as [K1 K2].
  assert (Hsets :
            forall n1 n2,
              (if guard
               then on_paths paths (fun nd => mem nd (adj graph s1))
                                   (fun nd => mem nd (adj graph s2))
               else ([], [])) = (n1, n2) ->
              incl n1 (adj graph s1) /\ incl n2 (adj graph s2)
              /\ (guard = false -> n1 = [] /\ n2 = [])).
  { intros n1 n2 H. destruct guard.
    - rewrite H in K1, K2. simpl in K1, K2.
      split; [intros x Hx; apply mem_In; apply K1; auto|].
      split; [intros x Hx; apply mem_In; apply K2; auto|discriminate].
    - injection H as <- <-.
      split; [intros x []|]. split; [intros x []|]. auto. }
  clear K1 K2.
  destruct (if guard then _ else _) as [n1 n2] eqn:En.
  destruct (Hsets n1 n2 eq_refl) as [H1 [H2 H0]]. clear Hsets.
  destruct (neighbor_lists graph n1) as [l1|e|]; simpl; try discriminate.
  destruct (neighbor_lists graph n2) as [l2|e|]; simpl; try discriminate.
  pose proof (on_paths_keep
                (fun nd => negb (mem nd n1) && mem_in_lists nd l1)
                (fun nd => negb (mem nd n2) && mem_in_lists nd l2) paths)
    as [P1 P2].
  assert (E1 : fst (on_paths paths
                      (fun nd => negb (mem nd n1) && mem_in_lists nd l1)
                      (fun nd => negb (mem nd n2) && mem_in_lists nd l2))
               = []).
  { apply no_member_nil. intros x Hx. destruct (P1 x Hx) as [H _].
    rewrite mem_in_lists_false, andb_false_r in H. discriminate. }
  assert (E2 : snd (on_paths paths
                      (fun nd => negb (mem nd n1) && mem_in_lists nd l1)
                      (fun nd => negb (mem nd n2) && mem_in_lists nd l2))
               = []).
  { apply no_member_nil. intros x Hx. destruct (P2 x Hx) as [H _].
    rewrite mem_in_lists_false, andb_false_r in H. discriminate. }
  clear P1 P2.
  destruct (on_paths paths
              (fun nd => negb (mem nd n1) && mem_in_lists nd l1)
              (fun nd => negb (mem nd n2) && mem_in_lists nd l2))
    as [n1' n2'].
  simpl in E1, E2. subst n1' n2'. cbn [bind List.length]. rewrite !app_nil_r.
  assert (Hc : forall c0, (c0 = n1 \/ c0 = n2) ->
             (incl c0 (adj graph s1) \/ incl c0 (adj graph s2))
             /\ (has_edge graph s1 s2 = true -> c0 = [])
             /\ ((forall x, In x (adj graph s1) -> ~ In x (adj graph s2)) ->
                 c0 = [])).
  { intros c0 Hc0. split; [destruct Hc0 as [->| ->]; auto|]. split.
    - intros He. unfold guard in H0. rewrite He in H0. simpl in H0.
      destruct (H0 eq_refl) as [-> ->]. destruct Hc0; auto.
    - intros Hno.
      assert (Ei : inter = []).
      { apply no_member_nil. intros x Hx. unfold inter in Hx.
        apply nodup_In in Hx. apply filter_In in Hx. destruct Hx as [Hx1 Hx2].
        apply mem_In in Hx2. apply (Hno x); auto. }
      unfold guard in H0. rewrite Ei in H0. simpl in H0.
      rewrite andb_false_r in H0.
      destruct (H0 eq_refl) as [-> ->]. destruct Hc0; auto. }
  destruct (List.length n1 + 0 <? _)%nat; intros H; injection H as <-;
    apply Hc; auto.
Qed.

(** X8. [orient_edge] always comes to an end: started from the
    conditioning set [c], its loop returns or raises within [len(c) + 1]
    passes. *)
Theorem orient_edge_ends
  (graph : Graph) (s1 s2 : node) (c : list node) (fuel : nat) :
  orient_start graph s1 s2 = Ret c ->
  (List.length c < fuel)%nat ->
  orient_edge mutual_info_score data epsilon fuel graph s1 s2 <> Timeout.
Proof.
  intros Hstart Hfuel. unfold orient_edge. rewrite Hstart. simpl.
  apply (while_true_ends _ _ (step s1 s2)
           (fun s => List.length (fst s))).
  - intros [c0 o]. pose proof (orient_edge_step_spec s1 s2 c0 o) as H.
    destruct (step s1 s2 (c0, o)); auto; discriminate.
  - intros [c0 o] [c1 o1] E.
    pose proof (orient_edge_step_spec s1 s2 c0 o) as H.
    rewrite E in H. simpl. tauto.
  - exact Hfuel.
Qed.

(** X9. The arcs [orient_edge] returns come in pairs, one from each of
    the two nodes into a picked node, and every picked node is a
    neighbour of the same one of the two.  For a pair that is an edge of
    the graph, and for a pair without a common neighbour, no arc is
    returned. *)
Theorem orient_edge_arcs
  (graph : Graph) (s1 s2 : node) (fuel : nat) (arcs : list (node * node)) :
  orient_edge mutual_info_score data epsilon fuel graph s1 s2 = Ret arcs ->
  (exists picked,
      arcs = flat_map (fun i => [(s1, i); (s2, i)]) picked
      /\ (incl picked (adj graph s1) \/ incl picked (adj graph s2)))
  /\ (has_edge graph s1 s2 = true -> arcs = [])
  /\ ((forall x, In x (adj graph s1) -> ~ In x (adj graph s2)) -> arcs = []).
Proof.
  unfold orient_edge.
  destruct (orient_start graph s1 s2) as [c0|e|] eqn:Es; simpl;
    try discriminate.
  destruct (orient_start_spec graph s1 s2 c0 Es) as [Hnear [Hedge Hnone]].
  intros H.
  assert (Hpicked : exists picked, incl picked c0
                                   /\ arcs = arcs_to s1 s2 picked).
  { revert H.
    apply (while_true_invariant _ _ (step s1 s2)
             (fun s => incl (fst s) c0
                       /\ exists picked, incl picked c0
                                         /\ snd s = arcs_to s1 s2 picked)
             (fun arcs => exists picked, incl picked c0
                                         /\ arcs = arcs_to s1 s2 picked)).
    - intros [c o] [c' o'] [Hc [picked [Hp Ho]]] E. simpl in Hc, Ho.
      pose proof (orient_edge_step_spec s1 s2 c o) as Hs. rewrite E in Hs.
      destruct Hs as [_ [Hincl [more [Hm ->]]]].
      split; [eapply incl_tran; eauto|].
      exists (picked ++ more). split.
      + apply incl_app; auto. eapply incl_tran; eauto.
      + subst o. unfold arcs_to. rewrite flat_map_app. reflexivity.
    - intros [c o] r [Hc [picked [Hp Ho]]] E. simpl in Hc, Ho.
      pose proof (orient_edge_step_spec s1 s2 c o) as Hs. rewrite E in Hs.
      destruct Hs as [more [Hm ->]].
      exists (picked ++ more). split.
      + apply incl_app; auto. eapply incl_tran; eauto.
      + subst o. unfold arcs_to. rewrite flat_map_app. reflexivity.
    - simpl. split; [apply incl_refl|]. exists []. split; [intros x []|].
      reflexivity. }
  destruct Hpicked as [picked [Hp ->]].
  assert (Hempty : c0 = [] -> arcs_to s1 s2 picked = []).
  { intros ->. destruct picked as [|i l]; auto.
    destruct (Hp i). left. reflexivity. }
  split; [|split; auto].
  exists picked. split; [reflexivity|].
  destruct Hnear as [Hn|Hn]; [left|right]; eapply incl_tran; eauto.
Qed.

End OrientEdge.

(** ** Worked instances of the separation tests *)


Lemma conditioning_order_instance :
  exists q q',
    conditional_mutual_info_score sample_score [0; 0; 1; 1]%Z [0; 1; 0; 1]%Z
                                  [[0; 1; 1; 1]%Z; [0; 0; 0; 1]%Z] = Ret q
    /\ conditional_mutual_info_score sample_score [0; 0; 1; 1]%Z [0; 1; 0; 1]%Z
                                     [[0; 0; 0; 1]%Z; [0; 1; 1; 1]%Z] = Ret q'
    /\ q == q'.
Proof.
  apply (conditioning_order_is_irrelevant sample_score
           [0; 0; 1; 1]%Z [0; 1; 0; 1]%Z
           [[0; 1; 1; 1]%Z; [0; 0; 0; 1]%Z] [[0; 0; 0; 1]%Z; [0; 1; 1; 1]%Z]);
    [reflexivity | repeat constructor | apply perm_swap].
Defined.

Lemma try_to_separate_b_ends_instance :
  (try_to_separate_b sample_score four_table default_epsilon 2
                     path_graph "A" "D" <> Timeout)%string.
Proof.
  apply (try_to_separate_b_ends sample_score four_table default_epsilon
           path_graph "A"%string "D"%string ["C"%string] 2);
    [vm_compute; reflexivity | simpl; lia].
Defined.

Lemma try_to_separate_b_verdict_instance :
  (exists c v,
      (incl c (adj path_graph "A") \/ incl c (adj path_graph "D"))
      /\ score_given sample_score four_table "A" "D" c = Ret v
      /\ Qltb v default_epsilon = false
      /\ forall i, In i c ->
           exists vi,
             score_given sample_score four_table "A" "D" (without c i) = Ret vi
             /\ Qltb (v + default_epsilon) vi = true)%string.
Proof.
  apply (try_to_separate_b_verdict sample_score four_table default_epsilon
           path_graph "A"%string "D"%string 5 false).
  vm_compute. reflexivity.
Defined.

Lemma try_to_separate_a_verdict_instance :
  (let graph := mkGraph ["A"; "B"; "C"] [("A", "B", None); ("A", "C", None)] in
   exists c v,
     (forall x, In x c -> In x (adj graph "B") \/ In x (adj graph "C"))
     /\ score_given sample_score bits_table "B" "C" c = Ret v
     /\ Qltb v default_epsilon = true)%string.
Proof.
  apply (try_to_separate_a_verdict sample_score bits_table default_epsilon
           (mkGraph ["A"; "B"; "C"]%string
                    [("A", "B", None); ("A", "C", None)]%string)
           "B"%string "C"%string 5 true).
  vm_compute. reflexivity.
Defined.

Lemma try_to_separate_a_unjoined_instance :
  (try_to_separate_a sample_score two_table default_epsilon 1000
                     (mkGraph ["A"; "B"] []) "A" "B" = Timeout)%string.
Proof.
  destruct (score_given sample_score two_table "A"%string "B"%string [])
    as [v|e|] eqn:E;
    [|vm_compute in E; discriminate|vm_compute in E; discriminate].
  apply (try_to_separate_a_unjoined_diverges sample_score two_table
           default_epsilon (mkGraph ["A"; "B"]%string []) "A"%string "B"%string v).
  - split; [simpl; repeat constructor; simpl; intuition discriminate|].
    intros a b w [].
  - simpl. auto.
  - simpl. auto.
  - vm_compute. reflexivity.
  - exact E.
  - vm_compute in E. injection E as <-. vm_compute. reflexivity.
Defined.

Lemma orient_edge_ends_instance :
  (orient_edge sample_score four_table default_epsilon 3
               square_graph "A" "D" <> Timeout)%string.
Proof.
  apply (orient_edge_ends sample_score four_table default_epsilon
           square_graph "A"%string "D"%string ["B"; "C"]%string 3);
    [vm_compute; reflexivity | simpl; lia].
Defined.

Lemma orient_edge_arcs_instance :
  (let arcs := [("A", "B"); ("D", "B"); ("A", "C"); ("D", "C")] in
   (exists picked,
       arcs = flat_map (fun i => [("A", i); ("D", i)]) picked
       /\ (incl picked (adj square_graph "A")
           \/ incl picked (adj square_graph "D")))
   /\ (has_edge square_graph "A" "D" = true -> arcs = [])
   /\ ((forall x, In x (adj square_graph "A") ->
                  ~ In x (adj square_graph "D")) -> arcs = []))%string.
Proof.
  apply (orient_edge_arcs sample_score four_table default_epsilon
           square_graph "A"%string "D"%string 5).
  vm_compute. reflexivity.
Defined.

(** ** Parents in the returned graph *)

Lemma filter_one (f : node) (l : list node) :
  NoDup l ->
  List.length (filter (node_eqb f) l) = if mem f l then 1%nat else 0%nat.
Proof.
  unfold mem. induction 1 as [|x l Hx Hl IH]; simpl; auto.
  destruct (node_eqb f x) eqn:E; simpl.
  - apply node_eqb_eq in E. subst x. rewrite IH.
    replace (existsb (node_eqb f) l) with false; auto.
    symmetry. apply (mem_not_In f l). exact Hx.
  - exact IH.
Qed.

Lemma heads_count (f : node) (es : list (node * node)) :
  List.length (filter (fun e => node_eqb (snd e) f) es)
  = List.length (filter (node_eqb f) (map snd es)).
Proof.
  induction es as [|[a b] es IH]; simpl; auto.
  rewrite (node_eqb_sym b f). destruct (node_eqb f b); simpl; auto.
Qed.

(** A feature column has the class node for a parent, and beside it the
    node it hangs under in the tree, if it is in the tree and is not its
    root. *)
Lemma attached_feature_in_degree
  (class_node : node) (cols : list node) (root : node)
  (tree : list (node * node)) (f : node) :
  NoDup cols -> ~ In class_node cols -> grown root tree ->
  (forall p c, In (p, c) tree -> In p cols /\ In c cols) ->
  In f cols ->
  in_degree (attach_class (mkDiGraph (root :: map snd tree) tree)
                          class_node cols) f
  = if mem f (map snd tree) then 2%nat else 1%nat.
Proof.
  intros Hnd Hclass Hg Hin Hf. unfold in_degree, predecessors.
  rewrite (attached_edges class_node cols root tree Hnd Hclass Hin).
  rewrite length_map, filter_app, length_app, !heads_count.
  rewrite map_map. simpl. rewrite map_id.
  pose proof (grown_NoDup root tree Hg) as Ht.
  rewrite (filter_one f (map snd tree)) by (inversion Ht; auto).
  rewrite (filter_one f cols Hnd).
  rewrite (proj2 (mem_In f cols) Hf).
  destruct (mem f (map snd tree)); reflexivity.
Qed.

Lemma root_not_hung (root : node) (tree : list (node * node)) :
  grown root tree -> mem root (map snd tree) = false.
Proof.
  intros Hg. apply mem_not_In.
  pose proof (grown_NoDup root tree Hg) as H. inversion H; auto.
Qed.

(** ** Outcomes of the tree search *)

Lemma first_column_spec (df : frame) :
  match first_column df with
  | Ret r => In r (frame_columns df) /\ df <> []
  | Raise IndexError => df = []
  | _ => False
  end.
Proof.
  destruct df as [|[n c] rest]; simpl; auto. split; auto. discriminate.
Qed.

Section TreeSearchOutcome.

Variable mutual_info_score : column -> column -> Q.
Variable data : frame.
Variable class_node : node.
Hypothesis distinct_names : NoDup (frame_columns data).

Let cols := frame_columns (features data class_node).

Local Abbreviation tan_estimate :=
  (TreeAugmentedNaiveBayesSearch.estimate mutual_info_score data class_node).

Let tree_graph :=
  maximum_spanning_tree
    (TreeAugmentedNaiveBayesSearch.join_all mutual_info_score empty_graph
       (features data class_node)).

Lemma feature_columns (r : node) :
  In r cols <-> In r (frame_columns data) /\ r <> class_node.
Proof.
  unfold cols, frame_columns, features. rewrite in_map_iff. split.
  - intros [[n c] [E H]]. simpl in E. subst n.
    apply filter_In in H. destruct H as [H1 H2]. simpl in H2.
    apply negb_true_iff in H2. apply node_eqb_neq in H2.
    split; auto. apply in_map_iff. exists (r, c). auto.
  - intros [H Hne]. apply in_map_iff in H. destruct H as [[n c] [E H]].
    simpl in E. subst n. exists (r, c). split; auto.
    apply filter_In. split; auto. simpl.
    apply negb_true_iff. apply node_eqb_neq. exact Hne.
Qed.

(** The search from a root among the feature columns. *)
Lemma rooted_search (r : node) :
  In r cols ->
  exists tree,
    (digraph <- bfs_tree tree_graph r ;;
     DAG (attach_class digraph class_node cols))
    = Ret (attach_class (mkDiGraph (r :: map snd tree) tree) class_node cols)
    /\ grown r tree
    /\ (forall p c, In (p, c) tree -> In p cols /\ In c cols)
    /\ (forall x, In x (r :: map snd tree) <-> In x cols).
Proof.
  intros Hr.
  destruct (bfs_tree_spans mutual_info_score data class_node distinct_names
              r Hr) as [tree [E [Hg [Hin Hall]]]].
  exists tree. fold tree_graph in E. rewrite E. simpl.
  destruct (attached_tree data class_node distinct_names r tree Hr Hg Hin Hall)
    as [Hdag _].
  fold cols in Hdag. rewrite Hdag. auto.
Qed.


(** X11. In the graph the tree search returns every feature column has
    the class node for a parent; the root has no other parent and every
    other feature column has exactly one more. *)
Theorem tree_search_parents (root_node : option node) (dag : DiGraph) :
  tan_estimate root_node = Ret dag ->
  exists root,
    In root cols
    /\ (if truthy root_node then root_node = Some root
        else first_column (features data class_node) = Ret root)
    /\ forall f, In f cols ->
         In class_node (predecessors dag f)
         /\ in_degree dag f = if node_eqb f root then 1%nat else 2%nat.
Proof.
  unfold TreeAugmentedNaiveBayesSearch.estimate.
  destruct (negb (mem class_node (frame_columns data))); [discriminate|].
  destruct (match root_node with
            | Some r => negb (mem r (frame_columns data))
            | None => false
            end); [discriminate|].
  fold tree_graph. fold cols.
  assert (Hrooted :
            forall r,
              (digraph <- bfs_tree tree_graph r ;;
               DAG (attach_class digraph class_node cols)) = Ret dag ->
              In r cols
              /\ forall f, In f cols ->
                   In class_node (predecessors dag f)
                   /\ in_degree dag f = if node_eqb f r then 1%nat else 2%nat).
  { intros r H.
    assert (Hr : In r cols).
    { destruct (tree_graph_spec mutual_info_score data class_node
                  distinct_names) as [_ [N _]].
      fold tree_graph in N. fold cols in N. rewrite <- N.
      unfold bfs_tree, search_tree in H.
      destruct (mem r (g_nodes tree_graph)) eqn:Em; [|discriminate].
      apply mem_In. exact Em. }
    split; auto.
    destruct (rooted_search r Hr) as [tree [E [Hg [Hin Hall]]]].
    rewrite E in H. injection H as <-.
    pose proof (frame_columns_features data class_node distinct_names) as Hnd.
    pose proof (class_not_feature data class_node) as Hclass.
    fold cols in Hnd, Hclass.
    intros f Hf. split.
    - unfold predecessors.
      rewrite (attached_edges class_node cols r tree Hnd Hclass Hin).
      apply in_map_iff. exists (class_node, f). split; auto.
      apply filter_In. split; [|simpl; apply node_eqb_refl].
      apply in_or_app. right. apply in_map. exact Hf.
    - rewrite (attached_feature_in_degree class_node cols r tree f
                 Hnd Hclass Hg Hin Hf).
      destruct (node_eqb f r) eqn:Efr.
      + apply node_eqb_eq in Efr. subst f.
        rewrite (root_not_hung r tree Hg). reflexivity.
      + apply node_eqb_neq in Efr.
        replace (mem f (map snd tree)) with true; auto.
        symmetry. apply mem_In.
        destruct (proj2 (Hall f) Hf) as [E'|H']; auto. congruence. }
  destruct (truthy root_node) eqn:Et.
  - destruct root_node as [r|]; [|discriminate].
    intros H. exists r. destruct (Hrooted r H). auto.
  - destruct (first_column (features data class_node)) as [r0|e|] eqn:E0;
      simpl; try discriminate.
    intros H. exists r0. destruct (Hrooted r0 H). auto.
Qed.

End TreeSearchOutcome.

(** ** Edges through the stages of the search *)

Lemma has_edge_sym (g : Graph) (u v : node) :
  has_edge g u v = has_edge g v u.
Proof.
  apply bool_eq_iff. rewrite !has_edge_adj. unfold adj.
  split; apply adj_of_sym.
Qed.

(** An edge of the graph after [add_edge] was there before or is the edge
    added. *)
Lemma add_edge_has_edge_inv (g : Graph) (a b : node) (w : attr) (u v : node) :
  has_edge (add_edge g a b w) u v = true ->
  has_edge g u v = true \/ (u = a /\ v = b) \/ (u = b /\ v = a).
Proof.
  rewrite !has_edge_adj. unfold adj, add_edge.
  set (g1 := add_node (add_node g a) b).
  assert (E1 : g_edges g1 = g_edges g)
    by (unfold g1; rewrite !add_node_edges; reflexivity).
  destruct (has_edge g1 a b); simpl; rewrite E1, !adj_of_In.
  - intros [wt H]. left.
    assert (Hmap : forall x y, In (x, y, wt)
                     (map (fun e : edge =>
                             if joins a b e
                             then (fst (fst e), snd (fst e),
                                   update_attr (snd e) w)
                             else e) (g_edges g)) ->
                   exists wt', In (x, y, wt') (g_edges g)).
    { intros x y Hin. apply in_map_iff in Hin.
      destruct Hin as [[[x' y'] wt'] [E Hin]].
      destruct (joins a b (x', y', wt')); cbn [fst snd] in E;
        injection E as <- <- _; eauto. }
    destruct H as [H|H]; apply Hmap in H; destruct H as [wt' H]; eauto.
  - intros [wt [H|H]]; apply in_app_or in H; destruct H as [H|[E|[]]]; eauto.
    + injection E as <- <- _. auto.
    + injection E as <- <- _. auto.
Qed.

Lemma remove_edge_has_edge (g g' : Graph) (a b u v : node) :
  remove_edge g a b = Ret g' ->
  has_edge g a b = true
  /\ (has_edge g' u v = true -> has_edge g u v = true).
Proof.
  unfold remove_edge. destruct (has_edge g a b) eqn:E; [|discriminate].
  intros H. injection H as <-. split; auto.
  unfold has_edge. simpl. rewrite !existsb_exists.
  intros [e [H1 H2]]. apply filter_In in H1. exists e. tauto.
Qed.

Lemma proposed_incl (l1 l2 : list candidate) (u v : node) :
  incl l1 l2 -> proposed l1 u v -> proposed l2 u v.
Proof.
  intros Hi [m [H|H]]; exists m; [left|right]; apply Hi; exact H.
Qed.

(** The scan on a forest: it returns a forest on the same nodes in which
    every candidate it looked at is joined by a path, and its new edges
    are candidates. *)
Lemma scan_rest_spec (rest : list candidate) :
  forall (g : Graph) (kept : list candidate),
    forest g -> g_nodes g <> [] ->
    Forall (endpoints_in (g_nodes g)) rest ->
    (forall a b m, In (a, b, m) kept -> connected g a b = true) ->
    exists g' L',
      scan_rest g kept rest = Ret (g', L')
      /\ forest g' /\ g_nodes g' = g_nodes g
      /\ (forall x y, connected g x y = true -> connected g' x y = true)
      /\ (forall a b m, In (a, b, m) (kept ++ rest) -> connected g' a b = true)
      /\ incl L' (kept ++ rest)
      /\ (forall u v, has_edge g' u v = true ->
                      has_edge g u v = true \/ proposed rest u v).
Proof.
  induction rest as [|[[a b] m] rest IH]; intros g kept Hf Hne Hin Hkept.
  - exists g, kept. simpl. rewrite app_nil_r.
    split; auto. split; auto. split; auto. split; auto. split; auto.
    split; [apply incl_refl|auto].
  - inversion Hin as [|c l [Ha Hb] Hrest]; subst. simpl in Ha, Hb.
    pose proof Hf as [Hwf _].
    cbn [scan_rest].
    replace (scan_break g) with false.
    2:{ symmetry. unfold scan_break. apply Z.eqb_neq.
        pose proof (forest_edges_lt g Hf Hne). lia. }
    unfold has_path.
    rewrite (proj2 (mem_In a _) Ha), (proj2 (mem_In b _) Hb). cbn [andb bind].
    destruct (connected g a b) eqn:Ec; cbn [negb].
    + destruct (IH g (kept ++ [(a, b, m)]) Hf Hne Hrest)
        as [g' [L' [E [F [N [Hmono [Hall [Hincl Hedges]]]]]]]].
      { intros x y w H. apply in_app_or in H. destruct H as [H|[H|[]]].
        - eapply Hkept; eauto.
        - injection H as <- <- <-. exact Ec. }
      exists g', L'. rewrite <- app_assoc in Hall, Hincl.
      split; auto. split; auto. split; auto. split; auto. split; auto.
      split; auto.
      intros u v H. destruct (Hedges u v H) as [H1|H1]; auto.
      right. eapply proposed_incl; [|exact H1]. apply incl_tl, incl_refl.
    + set (g1 := add_edge g a b (Some m)).
      assert (N1 : g_nodes g1 = g_nodes g)
        by (apply add_edge_same_nodes; auto).
      assert (F1 : forest g1) by (apply new_edge_forest; auto).
      destruct (IH g1 kept F1) as [g' [L' [E [F [N [Hmono [Hall [Hincl Hedges]]]]]]]].
      * rewrite N1. exact Hne.
      * rewrite N1. exact Hrest.
      * intros x y w H. apply connected_add_edge_grows; auto.
        eapply Hkept; eauto.
      * exists g', L'. split; auto. split; auto.
        split; [congruence|].
        split; [intros x y H; apply Hmono;
                apply connected_add_edge_grows; auto|].
        split.
        { intros x y w H. apply in_app_or in H. destruct H as [H|[H|H]].
          - apply (Hall x y w). apply in_or_app. auto.
          - injection H as <- <- <-. apply Hmono.
            apply connected_add_edge_ends; auto.
          - apply (Hall x y w). apply in_or_app. auto. }
        split.
        { intros c Hc. apply Hincl in Hc. apply in_app_or in Hc.
          apply in_or_app. destruct Hc; auto. right. right. auto. }
        intros u v H. destruct (Hedges u v H) as [H1|H1].
        -- apply add_edge_has_edge_inv in H1.
           destruct H1 as [H1|[[-> ->]|[-> ->]]]; auto.
           ++ right. exists m. left. left. reflexivity.
           ++ right. exists m. right. left. reflexivity.
        -- right. eapply proposed_incl; [|exact H1]. apply incl_tl, incl_refl.
Qed.

Section DraftResult.

Variable mutual_info_score : column -> column -> Q.
Variable data : frame.
Variable class_node : node.
Variable epsilon : Q.
Hypothesis distinct_names : NoDup (frame_columns data).

Let cols := frame_columns (features data class_node).
Let cands := candidate_pairs mutual_info_score epsilon
                             (features data class_node).

(** X12. Drafting returns as soon as two pairs of feature columns score
    above [epsilon].  The graph it returns is a forest on the feature
    columns whose edges are candidate pairs, and it joins the two columns
    of every candidate pair by a path; the candidates it hands on are
    candidates it was given. *)
Theorem draft_spans_candidates :
  ((2 <= List.length cands)%nat ->
   exists g L, draft mutual_info_score data class_node epsilon = Ret (g, L))
  /\ forall g L,
      draft mutual_info_score data class_node epsilon = Ret (g, L) ->
      forest g /\ g_nodes g = cols
      /\ (forall u v, has_edge g u v = true -> proposed cands u v)
      /\ (forall a b m, In (a, b, m) cands -> connected g a b = true)
      /\ incl L cands.
Proof.
  rewrite draft_unfold. fold cands. fold cols.
  pose proof (sort_desc_perm cands) as Hperm.
  pose proof (sort_desc_length cands) as Hlen.
  destruct (sort_desc cands) as [|[[a1 b1] m1] [|[[a2 b2] m2] L0]] eqn:Es.
  { split; [simpl in Hlen; lia|discriminate]. }
  { split; [simpl in Hlen; lia|discriminate]. }
  pose proof (start_invariant mutual_info_score data class_node epsilon
                distinct_names a1 b1 a2 b2 m1 m2 L0 Es) as Hinv.
  fold cols in Hinv.
  set (g00 := add_nodes_from empty_graph cols) in *.
  set (g01 := add_edge g00 a1 b1 (Some m1)) in *.
  set (g0 := add_edge g01 a2 b2 (Some m2)) in *.
  destruct Hinv as [F0 [Hne [Hin0 _]]].
  pose proof F0 as [W0 _].
  destruct (scan_rest_spec L0 g0 [] F0 Hne Hin0)
    as [g' [L' [E [F [N [Hmono [Hall [Hincl Hedges]]]]]]]].
  { intros a b m []. }
  assert (N0 : g_nodes g0 = cols).
  { destruct (draft_wf mutual_info_score data class_node epsilon
                distinct_names g' L') as [_ [H _]].
    - rewrite draft_unfold. fold cands. rewrite Es. exact E.
    - rewrite <- N. exact H. }
  assert (Hfirst : connected g0 a1 b1 = true).
  { apply has_edge_connected; auto. apply add_edge_has_edge.
    apply add_edge_joined. }
  assert (Hsecond : connected g0 a2 b2 = true).
  { apply has_edge_connected; auto. apply add_edge_joined. }
  assert (Hedges0 : forall u v, has_edge g0 u v = true ->
                                proposed [(a1, b1, m1); (a2, b2, m2)] u v).
  { intros u v H. apply add_edge_has_edge_inv in H.
    destruct H as [H|[[-> ->]|[-> ->]]].
    - apply add_edge_has_edge_inv in H.
      destruct H as [H|[[-> ->]|[-> ->]]].
      + unfold has_edge, g00 in H. rewrite add_nodes_from_edges in H.
        discriminate.
      + exists m1. left. left. reflexivity.
      + exists m1. right. left. reflexivity.
    - exists m2. left. right. left. reflexivity.
    - exists m2. right. right. left. reflexivity. }
  assert (Hsub : incl ((a1, b1, m1) :: (a2, b2, m2) :: L0) cands).
  { intros c Hc. eapply Permutation_in; eauto. }
  split; [eauto|].
  intros g L H. rewrite E in H. injection H as <- <-.
  split; auto. split; [congruence|]. split; [|split].
  - intros u v H. destruct (Hedges u v H) as [H1|H1].
    + eapply proposed_incl; [|apply Hedges0; exact H1].
      intros c [<-|[<-|[]]]; apply Hsub; simpl; auto.
    + eapply proposed_incl; [|exact H1].
      intros c Hc. apply Hsub. right. right. exact Hc.
  - intros a b m H. apply (Permutation_in _ (Permutation_sym Hperm)) in H.
    destruct H as [H|[H|H]].
    + injection H as <- <- <-. apply Hmono. exact Hfirst.
    + injection H as <- <- <-. apply Hmono. exact Hsecond.
    + apply (Hall a b m). exact H.
  - intros c Hc. apply Hsub. right. right. apply Hincl. exact Hc.
Qed.

End DraftResult.

(** ** What the constraint-based search can return *)

Lemma get_column_In (df : frame) (n : node) (c : column) :
  NoDup (frame_columns df) -> In (n, c) df -> get_column df n = Ret c.
Proof.
  induction df as [|[m x] df IH]; intros Hnd Hin; simpl in *; [destruct Hin|].
  inversion Hnd as [|? ? Hm Hnd']; subst.
  destruct Hin as [E|Hin].
  - injection E as -> ->. rewrite node_eqb_refl. reflexivity.
  - replace (node_eqb m n) with false; auto.
    symmetry. apply node_eqb_neq. intros ->. apply Hm.
    unfold frame_columns. apply in_map_iff. exists (n, c). auto.
Qed.

Section CandidateColumns.

Variable mutual_info_score : column -> column -> Q.
Variable epsilon : Q.

Lemma pairs_with_columns (n : node) (xi : column) (later : frame)
                         (a b : node) (m : Q) :
  In (a, b, m) (pairs_with mutual_info_score epsilon n xi later) ->
  a = n /\ exists xb, In (b, xb) later
                      /\ m = mutual_info_score xi xb /\ epsilon < m.
Proof.
  induction later as [|[t xj] later IH]; simpl; [intros []|].
  destruct (Qltb epsilon (mutual_info_score xi xj)) eqn:E.
  - intros [H|H].
    + injection H as <- <- <-. split; auto. exists xj.
      split; auto. split; auto. apply Qltb_lt. exact E.
    + destruct (IH H) as [-> [xb [H1 H2]]]. split; auto. exists xb. auto.
  - intros H. destruct (IH H) as [-> [xb [H1 H2]]]. split; auto.
    exists xb. auto.
Qed.

(** A candidate pair names two columns whose mutual information exceeds
    the threshold. *)
Lemma candidate_columns (df : frame) (a b : node) (m : Q) :
  In (a, b, m) (candidate_pairs mutual_info_score epsilon df) ->
  exists xa xb, In (a, xa) df /\ In (b, xb) df
                /\ epsilon < mutual_info_score xa xb.
Proof.
  induction df as [|[n xi] df IH]; simpl; [intros []|].
  intros H. apply in_app_or in H. destruct H as [H|H].
  - apply pairs_with_columns in H. destruct H as [-> [xb [H1 [-> H3]]]].
    exists xi, xb. auto.
  - destruct (IH H) as [xa [xb [H1 [H2 H3]]]]. exists xa, xb. auto.
Qed.

End CandidateColumns.

Section SkeletonEdges.

Variable mutual_info_score : column -> column -> Q.
Variable data : frame.
Variable class_node : node.
Variable epsilon : Q.
Hypothesis distinct_names : NoDup (frame_columns data).

Let cols := frame_columns (features data class_node).
Let cands := candidate_pairs mutual_info_score epsilon
                             (features data class_node).

(** Thickening only adds candidates handed to it. *)
Lemma thicken_edges (fuel : nat) (L : list candidate) :
  forall g g',
    thicken mutual_info_score data epsilon fuel g L = Ret g' ->
    forall u v, has_edge g' u v = true ->
                has_edge g u v = true \/ proposed L u v.
Proof.
  induction L as [|[[a b] m] L IH]; intros g g' H u v Huv; simpl in H.
  - injection H as <-. auto.
  - destruct (try_to_separate_a _ _ _ _ _ _ _) as [sep|e|];
      simpl in H; try discriminate.
    destruct sep; simpl in H.
    + destruct (IH g g' H u v Huv) as [H1|H1]; auto.
      right. eapply proposed_incl; [|exact H1]. apply incl_tl, incl_refl.
    + destruct (IH _ g' H u v Huv) as [H1|H1].
      * apply add_edge_has_edge_inv in H1.
        destruct H1 as [H1|[[-> ->]|[-> ->]]]; auto.
        -- right. exists m. left. left. reflexivity.
        -- right. exists m. right. left. reflexivity.
      * right. eapply proposed_incl; [|exact H1]. apply incl_tl, incl_refl.
Qed.

(** Thinning adds no edge: an edge it puts back it has just removed. *)
Lemma thin_edges (separate : Graph -> node -> node -> outcome bool)
                 (es : list (node * node)) :
  forall g g',
    thin separate g es = Ret g' ->
    forall u v, has_edge g' u v = true -> has_edge g u v = true.
Proof.
  induction es as [|[a b] es IH]; intros g g' H u v Huv; simpl in H.
  - injection H as <-. auto.
  - destruct (remove_edge g a b) as [g1|e|] eqn:E1; simpl in H;
      try discriminate.
    destruct (remove_edge_has_edge g g1 a b a b E1) as [Hab _].
    assert (Hsub : forall x y, has_edge g1 x y = true -> has_edge g x y = true)
      by (intros x y; apply (proj2 (remove_edge_has_edge g g1 a b x y E1))).
    destruct (has_path g1 a b) as [p|e|]; simpl in H; try discriminate.
    destruct (if p then _ else _) as [keep|e|]; simpl in H; try discriminate.
    destruct keep.
    + pose proof (IH _ g' H u v Huv) as H1.
      apply add_edge_has_edge_inv in H1.
      destruct H1 as [H1|[[-> ->]|[-> ->]]]; auto.
      rewrite has_edge_sym. exact Hab.
    + apply Hsub. apply (IH g1 g' H u v Huv).
Qed.

(** Every edge of the skeleton is a candidate pair. *)
Lemma skeleton_edges (fuel : nat) (g : Graph) :
  skeleton mutual_info_score data class_node epsilon fuel = Ret g ->
  forall u v, has_edge g u v = true -> proposed cands u v.
Proof.
  unfold skeleton. intros H u v Huv.
  destruct (draft mutual_info_score data class_node epsilon)
    as [[g0 L]|e|] eqn:Ed; simpl in H; try discriminate.
  destruct (draft_spans_candidates mutual_info_score data class_node epsilon
              distinct_names) as [_ Hd].
  destruct (Hd g0 L Ed) as [_ [_ [He0 [_ HL]]]]. fold cands in He0, HL.
  destruct (thicken _ _ _ _ g0 L) as [g1|e|] eqn:E1; simpl in H;
    try discriminate.
  destruct (thin _ g1 (edges_view g1)) as [g2|e|] eqn:E2; simpl in H;
    try discriminate.
  apply (thin_edges _ _ g2 g H) in Huv.
  apply (thin_edges _ _ g1 g2 E2) in Huv.
  destruct (thicken_edges fuel L g0 g1 E1 u v Huv) as [H1|H1]; auto.
  eapply proposed_incl; eauto.
Qed.

(** X13. Every arc between two feature columns of the graph the
    constraint-based search returns joins two columns whose mutual
    information, taken in the order of the columns in the table, exceeds
    [epsilon]. *)
Theorem constraint_search_arcs_are_candidates
  (fuel : nat) (dag : DiGraph) (u v : node) :
  estimate mutual_info_score data class_node epsilon fuel = Ret dag ->
  In (u, v) (feature_edges dag class_node) ->
  exists xu xv,
    get_column data u = Ret xu /\ get_column data v = Ret xv
    /\ (epsilon < mutual_info_score xu xv
        \/ epsilon < mutual_info_score xv xu).
Proof.
  unfold estimate.
  destruct (negb (mem class_node (frame_columns data))); [discriminate|].
  destruct (skeleton mutual_info_score data class_node epsilon fuel)
    as [g|e|] eqn:Es; simpl; try discriminate.
  destruct (skeleton_wf mutual_info_score data class_node epsilon
              distinct_names fuel g Es) as [Hwf Hnodes].
  intros Ho Huv.
  destruct (first_column (features data class_node)) as [root|e|] eqn:Er;
    [|unfold orient in Ho; rewrite Er in Ho; discriminate
     |unfold orient in Ho; rewrite Er in Ho; discriminate].
  destruct (orient_spec data class_node distinct_names g root Hwf Hnodes Er)
    as [tree [Eo [Ef [_ [Ht _]]]]].
  rewrite Eo in Ho. injection Ho as <-. rewrite Ef in Huv.
  assert (Hedge : has_edge g u v = true)
    by (apply has_edge_adj; apply Ht; exact Huv).
  assert (Hcol : forall a b m,
             In (a, b, m) cands ->
             exists xa xb, get_column data a = Ret xa
                           /\ get_column data b = Ret xb
                           /\ epsilon < mutual_info_score xa xb).
  { intros a b m H. apply candidate_columns in H.
    destruct H as [xa [xb [H1 [H2 H3]]]]. exists xa, xb.
    unfold features in H1, H2. apply filter_In in H1, H2.
    split; [apply get_column_In; tauto|].
    split; [apply get_column_In; tauto|exact H3]. }
  destruct (skeleton_edges fuel g Es u v Hedge) as [m [H|H]];
    destruct (Hcol _ _ _ H) as [xa [xb [H1 [H2 H3]]]].
  - exists xa, xb. auto.
  - exists xb, xa. auto.
Qed.


End SkeletonEdges.

(** ** Worked instances of the two searches *)

Lemma four_table_names : NoDup (frame_columns four_table).
Proof. simpl. repeat constructor; simpl; intuition discriminate. Defined.

Lemma three_table_names : NoDup (frame_columns three_table).
Proof. simpl. repeat constructor; simpl; intuition discriminate. Defined.


Lemma tree_search_parents_instance :
  (exists dag root,
      TreeAugmentedNaiveBayesSearch.estimate sample_score four_table
        "Class" None = Ret dag
      /\ In root (frame_columns (features four_table "Class"))
      /\ first_column (features four_table "Class") = Ret root
      /\ forall f, In f (frame_columns (features four_table "Class")) ->
           In "Class" (predecessors dag f)
           /\ in_degree dag f = if node_eqb f root then 1%nat else 2%nat)%string.
Proof.
  destruct (TreeAugmentedNaiveBayesSearch.estimate sample_score four_table
              "Class"%string None) as [dag|e|] eqn:E;
    [|vm_compute in E; discriminate|vm_compute in E; discriminate].
  destruct (tree_search_parents sample_score four_table "Class"%string
              four_table_names None dag E) as [root H].
  exists dag, root. split; [reflexivity|exact H].
Defined.

Lemma draft_spans_candidates_instance :
  (let cands := candidate_pairs sample_score default_epsilon
                                (features three_table "Class") in
   exists g L,
     draft sample_score three_table "Class" default_epsilon = Ret (g, L)
     /\ forest g
     /\ g_nodes g = frame_columns (features three_table "Class")
     /\ (forall u v, has_edge g u v = true -> proposed cands u v)
     /\ (forall a b m, In (a, b, m) cands -> connected g a b = true)
     /\ incl L cands)%string.
Proof.
  destruct (draft_spans_candidates sample_score three_table "Class"%string
              default_epsilon three_table_names) as [Hex Hall].
  destruct (Hex ltac:(vm_compute; lia)) as [g [L E]].
  exists g, L. split; [exact E|exact (Hall g L E)].
Defined.

Lemma constraint_search_arcs_instance :
  (exists xu xv,
      get_column three_table "A" = Ret xu
      /\ get_column three_table "C" = Ret xv
      /\ (default_epsilon < sample_score xu xv
          \/ default_epsilon < sample_score xv xu))%string.
Proof.
  destruct (estimate sample_score three_table "Class"%string default_epsilon 10)
    as [dag|e|] eqn:E;
    [|vm_compute in E; discriminate|vm_compute in E; discriminate].
  apply (constraint_search_arcs_are_candidates sample_score three_table
           "Class"%string default_epsilon three_table_names 10 dag
           "A"%string "C"%string E).
  vm_compute in E. injection E as <-. vm_compute. auto.
Defined.


(** ** Calls that raise nothing *)

Lemma bind_quiet {A B : Type} (m : outcome A) (k : A -> outcome B) :
  quiet m -> (forall a, m = Ret a -> quiet (k a)) -> quiet (bind m k).
Proof.
  intros Hm Hk. destruct m as [a|e|]; simpl.
  - apply Hk. reflexivity.
  - destruct (Hm e). reflexivity.
  - intros e. discriminate.
Qed.

Lemma Ret_quiet {A : Type} (a : A) : quiet (Ret a).
Proof. intros e. discriminate. Qed.

Lemma returns_quiet {A : Type} (m : outcome A) : returns m -> quiet m.
Proof. intros [a ->]. apply Ret_quiet. Qed.

Section WhileQuiet.

Variables St R : Type.
Variable step : St -> outcome (R + St).
Variable inv : St -> Prop.
Hypothesis step_keeps :
  forall s s', inv s -> step s = Ret (inr s') -> inv s'.
Hypothesis step_quiet : forall s, inv s -> quiet (step s).

(** A loop whose passes raise nothing raises nothing. *)
Lemma while_true_quiet (fuel : nat) :
  forall s, inv s -> quiet (while_true step fuel s).
Proof.
  induction fuel as [|fuel IH]; intros s Hs; simpl.
  - intros e. discriminate.
  - apply bind_quiet; [apply step_quiet; exact Hs|].
    intros [r|s'] E; [apply Ret_quiet|].
    apply IH. eapply step_keeps; eauto.
Qed.

End WhileQuiet.

(** ** Scores on a rectangular table *)

Lemma get_column_returns (df : frame) (n : node) :
  In n (frame_columns df) -> exists c, get_column df n = Ret c /\ In (n, c) df.
Proof.
  induction df as [|[m x] df IH]; simpl; [intros []|].
  intros H. destruct (node_eqb m n) eqn:E.
  - apply node_eqb_eq in E. subst m. exists x. auto.
  - destruct H as [H|H]; [apply node_eqb_neq in E; contradiction|].
    destruct (IH H) as [c [H1 H2]]. exists c. auto.
Qed.

Lemma get_columns_returns (df : frame) (names : list node) :
  incl names (frame_columns df) ->
  exists cs, get_columns df names = Ret cs
             /\ Forall (fun c => exists n, In (n, c) df) cs.
Proof.
  induction names as [|n names IH]; intros H; simpl.
  - exists []. auto.
  - destruct (get_column_returns df n) as [c [E Hc]].
    { apply H. left. reflexivity. }
    destruct IH as [cs [Es Hcs]].
    { intros x Hx. apply H. right. exact Hx. }
    rewrite E, Es. simpl. exists (c :: cs). split; auto.
    constructor; eauto.
Qed.

Section ScoreReturns.

Variable mutual_info_score : column -> column -> Q.
Variable data : frame.
Hypothesis same_length : rectangular data.

(** On a rectangular table the conditional score of two columns given
    columns of the table is always computed. *)
Lemma score_given_returns (node1 node2 : node) (c : list node) :
  In node1 (frame_columns data) -> In node2 (frame_columns data) ->
  incl c (frame_columns data) ->
  returns (score_given mutual_info_score data node1 node2 c).
Proof.
  intros H1 H2 Hc. unfold score_given.
  destruct (get_column_returns data node1 H1) as [xi [E1 I1]].
  destruct (get_column_returns data node2 H2) as [xj [E2 I2]].
  destruct (get_columns_returns data c Hc) as [cs [Es Hcs]].
  rewrite E1, E2, Es. simpl.
  assert (Hxy : List.length xi = List.length xj)
    by (eapply same_length; eauto).
  unfold conditional_mutual_info_score.
  destruct cs as [|c0 cs']; simpl.
  - unfold sk_mutual_info_score. rewrite Hxy, Nat.eqb_refl.
    eexists. reflexivity.
  - destruct (cmi_columns_sum mutual_info_score xi xj (c0 :: cs') 0 Hxy)
      as [q [E _]].
    + eapply Forall_impl; [|exact Hcs].
      intros x [n Hn]. rewrite (same_length _ _ _ _ I1 Hn). lia.
    + exists q. exact E.
Qed.

End ScoreReturns.

(** ** Graphs without double edges and loops *)

Lemma adj_of_same_ends (f : edge -> edge) (es : list edge) (x : node) :
  (forall e, fst (f e) = fst e) -> adj_of (map f es) x = adj_of es x.
Proof.
  intros Hf. induction es as [|[[a b] w] es IH]; simpl; auto.
  pose proof (Hf (a, b, w)) as E. destruct (f (a, b, w)) as [[a' b'] w'].
  simpl in E. injection E as -> ->. rewrite IH. reflexivity.
Qed.

(** The neighbours after [add_edge]: a new edge comes last. *)
Lemma add_edge_adj_list (g : Graph) (a b : node) (w : attr) (x : node) :
  adj (add_edge g a b w) x
  = if has_edge g a b then adj g x
    else adj g x ++ (if node_eqb a x then [b]
                     else if node_eqb b x then [a] else []).
Proof.
  unfold add_edge, adj, has_edge. rewrite !add_node_edges.
  destruct (existsb (joins a b) (g_edges g)); simpl.
  - apply adj_of_same_ends. intros [[x0 y0] w0].
    destruct (joins a b (x0, y0, w0)); reflexivity.
  - rewrite adj_of_app. simpl.
    destruct (node_eqb a x); [reflexivity|].
    destruct (node_eqb b x); reflexivity.
Qed.

Lemma add_edge_simple (g : Graph) (a b : node) (w : attr) :
  simple g -> a <> b -> simple (add_edge g a b w).
Proof.
  intros Hs Hab x. rewrite add_edge_adj_list.
  destruct (Hs x) as [Hnd Hx].
  destruct (has_edge g a b) eqn:He; [auto|].
  assert (Hb : ~ In b (adj g a)).
  { intros H. apply has_edge_adj in H. congruence. }
  assert (Ha : ~ In a (adj g b)).
  { intros H. apply has_edge_adj in H. rewrite has_edge_sym in H. congruence. }
  destruct (node_eqb a x) eqn:Eax.
  - apply node_eqb_eq in Eax. subst x. split.
    + apply NoDup_app; auto.
      * repeat constructor. intros [].
      * intros y Hy [<-|[]]. contradiction.
    + intros H. apply in_app_or in H. destruct H as [H|[H|[]]]; auto.
  - destruct (node_eqb b x) eqn:Ebx.
    + apply node_eqb_eq in Ebx. subst x. split.
      * apply NoDup_app; auto.
        -- repeat constructor. intros [].
        -- intros y Hy [<-|[]]. contradiction.
      * intros H. apply in_app_or in H. destruct H as [H|[H|[]]]; auto.
    + rewrite app_nil_r. auto.
Qed.

Lemma adj_of_filter (keep : edge -> bool) (x : node) (es : list edge) :
  (forall y, In y (adj_of (filter keep es) x) -> In y (adj_of es x))
  /\ (NoDup (adj_of es x) -> NoDup (adj_of (filter keep es) x)).
Proof.
  induction es as [|[[a b] w] es [IH1 IH2]]; simpl; [auto|].
  destruct (keep (a, b, w)); simpl.
  - destruct (node_eqb a x); [|destruct (node_eqb b x)]; auto.
    + split.
      * intros y [<-|H]; [left|right]; auto.
      * intros H. inversion H; subst. constructor; auto.
    + split.
      * intros y [<-|H]; [left|right]; auto.
      * intros H. inversion H; subst. constructor; auto.
  - destruct (node_eqb a x); [|destruct (node_eqb b x)]; auto.
    + split; [intros y H; right; auto|].
      intros H. inversion H; auto.
    + split; [intros y H; right; auto|].
      intros H. inversion H; auto.
Qed.

Lemma remove_edge_simple (g g' : Graph) (a b : node) :
  remove_edge g a b = Ret g' -> simple g -> simple g'.
Proof.
  unfold remove_edge. destruct (has_edge g a b); [|discriminate].
  intros H Hs x. injection H as <-. unfold adj. simpl.
  destruct (Hs x) as [Hnd Hx].
  destruct (adj_of_filter (fun e => negb (joins a b e)) x (g_edges g))
    as [H1 H2].
  split; auto.
Qed.

(** Removing one edge leaves the others. *)
Lemma remove_edge_other (g g' : Graph) (a b u v : node) :
  remove_edge g a b = Ret g' ->
  (u, v) <> (a, b) -> (u, v) <> (b, a) ->
  has_edge g u v = true -> has_edge g' u v = true.
Proof.
  unfold remove_edge. destruct (has_edge g a b); [|discriminate].
  intros H H1 H2. injection H as <-. unfold has_edge. simpl.
  rewrite !existsb_exists. intros [e [He Hj]].
  exists e. split; auto. apply filter_In. split; auto.
  apply negb_true_iff. apply not_true_is_false. intros Hab.
  apply joins_spec in Hj. apply joins_spec in Hab.
  destruct Hj as [[<- <-]|[<- <-]]; destruct Hab as [[E1 E2]|[E1 E2]];
    try (apply H1; congruence); try (apply H2; congruence).
Qed.

(** [graph.edges] lists every edge once. *)
Lemma edges_from_apart (g : Graph) :
  simple g ->
  forall todo seen,
    NoDup todo ->
    pairs_apart (edges_from g seen todo)
    /\ forall u v, In (u, v) (edges_from g seen todo) ->
                   In u todo /\ ~ In v seen /\ In v (adj g u).
Proof.
  intros Hs. induction todo as [|n todo IH]; intros seen Hnd; simpl.
  - split; [split; [constructor|intros u v []]|intros u v []].
  - inversion Hnd as [|? ? Hn Hnd']; subst.
    destruct (IH (n :: seen) Hnd') as [[IHnd IHrev] IHin].
    destruct (Hs n) as [Hadj Hself].
    assert (Hhead : forall u v,
               In (u, v) (map (fun nbr => (n, nbr))
                              (filter (fun nbr => negb (mem nbr seen))
                                      (adj g n))) ->
               u = n /\ ~ In v seen /\ In v (adj g n)).
    { intros u v H. apply in_map_iff in H. destruct H as [nbr [E H]].
      injection E as <- <-. apply filter_In in H. destruct H as [H1 H2].
      apply negb_true_iff in H2. apply mem_not_In in H2. auto. }
    split; [split|].
    + apply NoDup_app.
      * apply Finite.Injective_map_NoDup.
        -- intros x y E. injection E. auto.
        -- apply NoDup_filter. exact Hadj.
      * exact IHnd.
      * intros [u v] H1 H2. apply Hhead in H1. destruct H1 as [-> _].
        apply IHin in H2. destruct H2 as [H2 _]. contradiction.
    + intros u v H Hrev. apply in_app_or in H. apply in_app_or in Hrev.
      destruct H as [H|H].
      * destruct (Hhead u v H) as [-> [Hv Hvn]].
        destruct Hrev as [Hrev|Hrev].
        -- destruct (Hhead v n Hrev) as [-> _]. contradiction.
        -- destruct (IHin v n Hrev) as [_ [Hx _]]. apply Hx. left. reflexivity.
      * destruct (IHin u v H) as [Hu [Hv Hvu]].
        destruct Hrev as [Hrev|Hrev].
        -- destruct (Hhead v u Hrev) as [-> _]. apply Hv. left. reflexivity.
        -- apply (IHrev u v H Hrev).
    + intros u v H. apply in_app_or in H. destruct H as [H|H].
      * destruct (Hhead u v H) as [-> [Hv Hvn]]. split; [left|]; auto.
      * destruct (IHin u v H) as [Hu [Hv Hvu]].
        split; [right; auto|]. split; auto.
        intros Hin. apply Hv. right. exact Hin.
Qed.

Lemma edges_view_apart (g : Graph) :
  well_formed g -> simple g ->
  pairs_apart (edges_view g)
  /\ forall u v, In (u, v) (edges_view g) -> has_edge g u v = true.
Proof.
  intros [Hnd _] Hs. unfold edges_view.
  destruct (edges_from_apart g Hs (g_nodes g) [] Hnd) as [H1 H2].
  split; auto. intros u v H. apply has_edge_adj. apply H2. exact H.
Qed.

Lemma no_edges_simple (ns : list node) : simple (mkGraph ns []).
Proof. intros u. unfold adj. simpl. split; [constructor|intros []]. Qed.

Lemma scan_rest_simple (rest : list candidate) :
  forall g kept g' L',
    scan_rest g kept rest = Ret (g', L') ->
    simple g -> (forall a b m, In (a, b, m) rest -> a <> b) -> simple g'.
Proof.
  induction rest as [|[[a b] m] rest IH]; intros g kept g' L' H Hs Hne;
    simpl in H.
  - injection H as <- <-. exact Hs.
  - destruct (scan_break g); [injection H as <- <-; exact Hs|].
    destruct (has_path g a b) as [p|e|]; simpl in H; try discriminate.
    assert (Hrest : forall x y w, In (x, y, w) rest -> x <> y)
      by (intros x y w Hin; apply (Hne x y w); right; exact Hin).
    destruct p; simpl in H.
    + eapply IH; eauto.
    + eapply IH; eauto. apply add_edge_simple; auto.
      apply (Hne a b m). left. reflexivity.
Qed.

Lemma thicken_simple
  (mutual_info_score : column -> column -> Q) (data : frame) (epsilon : Q)
  (fuel : nat) (L : list candidate) :
  forall g g',
    thicken mutual_info_score data epsilon fuel g L = Ret g' ->
    simple g -> (forall a b m, In (a, b, m) L -> a <> b) -> simple g'.
Proof.
  induction L as [|[[a b] m] L IH]; intros g g' H Hs Hne; simpl in H.
  - injection H as <-. exact Hs.
  - destruct (try_to_separate_a _ _ _ _ _ _ _) as [sep|e|];
      simpl in H; try discriminate.
    assert (Hrest : forall x y w, In (x, y, w) L -> x <> y)
      by (intros x y w Hin; apply (Hne x y w); right; exact Hin).
    destruct sep; simpl in H.
    + eapply IH; eauto.
    + eapply IH; eauto. apply add_edge_simple; auto.
      apply (Hne a b m). left. reflexivity.
Qed.

Lemma thin_simple (separate : Graph -> node -> node -> outcome bool)
                  (es : list (node * node)) :
  forall g g', thin separate g es = Ret g' -> simple g -> simple g'.
Proof.
  induction es as [|[a b] es IH]; intros g g' H Hs; simpl in H.
  - injection H as <-. exact Hs.
  - destruct (remove_edge g a b) as [g1|e|] eqn:E1; simpl in H;
      try discriminate.
    pose proof (remove_edge_simple g g1 a b E1 Hs) as Hs1.
    destruct (remove_edge_has_edge g g1 a b a b E1) as [Hab _].
    assert (Hne : a <> b).
    { intros ->. apply has_edge_adj in Hab. destruct (Hs b). contradiction. }
    destruct (has_path g1 a b) as [p|e|]; simpl in H; try discriminate.
    destruct (if p then _ else _) as [keep|e|]; simpl in H; try discriminate.
    destruct keep.
    + eapply IH; eauto. apply add_edge_simple; auto.
    + eapply IH; eauto.
Qed.

(** ** The separation tests raise nothing on a rectangular table *)

Lemma neighbor_lists_returns (g : Graph) (ns : list node) :
  incl ns (g_nodes g) -> returns (neighbor_lists g ns).
Proof.
  induction ns as [|n ns IH]; intros H; simpl.
  - exists []. reflexivity.
  - unfold neighbors. rewrite (proj2 (mem_In n _) (H n (or_introl eq_refl))).
    destruct IH as [ls E]; [intros x Hx; apply H; right; exact Hx|].
    rewrite E. simpl. eexists. reflexivity.
Qed.

Section QuietTests.

Variable mutual_info_score : column -> column -> Q.
Variable data : frame.
Variable epsilon : Q.
Hypothesis same_length : rectangular data.

Variable graph : Graph.
Hypothesis graph_wf : well_formed graph.
Hypothesis graph_columns : incl (g_nodes graph) (frame_columns data).

Variables node1 node2 : node.
Hypothesis node1_in : In node1 (g_nodes graph).
Hypothesis node2_in : In node2 (g_nodes graph).

Local Abbreviation score := (score_given mutual_info_score data node1 node2).

Lemma score_returns (c : list node) :
  incl c (g_nodes graph) -> returns (score c).
Proof.
  intros Hc. apply score_given_returns; auto.
  intros x Hx. apply graph_columns. apply Hc. exact Hx.
Qed.

Lemma paths_return :
  exists paths, all_simple_paths graph node1 node2 = Ret paths.
Proof.
  unfold all_simple_paths.
  rewrite (proj2 (mem_In _ _) node1_in), (proj2 (mem_In _ _) node2_in).
  simpl. eexists. reflexivity.
Qed.

Lemma neighbours_are_nodes (x : node) :
  In x (adj graph node1) \/ In x (adj graph node2) -> In x (g_nodes graph).
Proof.
  intros [H|H]; apply (adj_in_nodes graph _ x graph_wf H).
Qed.

Lemma shrink_candidates_returns (c nodes : list node) :
  incl c (g_nodes graph) ->
  returns (shrink_candidates mutual_info_score data node1 node2 c nodes).
Proof.
  intros Hc. induction nodes as [|nd nodes IH]; simpl.
  - eexists. reflexivity.
  - destruct (score_returns (without c nd)) as [vi E].
    { eapply incl_tran; [apply without_incl|exact Hc]. }
    rewrite E. simpl. destruct IH as [[vs cs] E']. rewrite E'. simpl.
    eexists. reflexivity.
Qed.

Lemma separate_a_step_quiet (n2 : list node) (s : separate_a_state) :
  incl (fst (fst (fst s))) (g_nodes graph) ->
  quiet (separate_a_step mutual_info_score data epsilon graph
                         node1 node2 n2 s).
Proof.
  destruct s as [[[c v] skip] used]. simpl. intros Hc.
  unfold separate_a_step.
  destruct (score_returns c Hc) as [v0 Ev].
  assert (Hscored : exists sc,
             (if negb skip
              then v' <- score c ;; Ret (v', Qltb v' epsilon)
              else Ret (v, false)) = Ret sc).
  { destruct skip; simpl; [eexists; reflexivity|].
    rewrite Ev. simpl. eexists. reflexivity. }
  destruct Hscored as [[v1 sep] ->]. simpl.
  destruct sep; [apply Ret_quiet|].
  destruct (List.length c =? 1)%nat.
  { destruct (negb used); apply Ret_quiet. }
  destruct (shrink_candidates_returns c (g_nodes graph) Hc)
    as [[values conditions] Es].
  rewrite Es. simpl.
  destruct (shrink_candidates_spec mutual_info_score data node1 node2 c
              (g_nodes graph) values conditions Es) as [Hlen _].
  destruct values as [|x values].
  { destruct (g_nodes graph); [destruct node1_in|discriminate]. }
  simpl.
  destruct (Qltb _ epsilon); [apply Ret_quiet|].
  destruct (Qltb v1 _); [destruct (negb used)|]; apply Ret_quiet.
Qed.

Lemma separate_a_step_keeps (n2 : list node) (s s' : separate_a_state) :
  incl n2 (g_nodes graph) ->
  incl (fst (fst (fst s))) (g_nodes graph) ->
  separate_a_step mutual_info_score data epsilon graph node1 node2 n2 s
  = Ret (inr s') ->
  incl (fst (fst (fst s'))) (g_nodes graph).
Proof.
  destruct s as [[[c v] skip] used]. simpl. intros Hn2 Hc.
  unfold separate_a_step.
  destruct (if negb skip then _ else _) as [[v1 sep]|e|]; simpl;
    try discriminate.
  destruct sep; [discriminate|].
  destruct (List.length c =? 1)%nat.
  { destruct (negb used); [|discriminate].
    intros H. injection H as <-. exact Hn2. }
  destruct (shrink_candidates mutual_info_score data node1 node2 c
              (g_nodes graph)) as [[values conditions]|e|] eqn:Es;
    simpl; try discriminate.
  destruct (argmin values) as [k|e|] eqn:Ek; simpl; try discriminate.
  destruct (Qltb _ epsilon); [discriminate|].
  destruct (Qltb v1 _).
  { destruct (negb used); [|discriminate].
    intros H. injection H as <-. exact Hn2. }
  intros H. injection H as <-. simpl.
  destruct (shrink_candidates_spec mutual_info_score data node1 node2 c
              (g_nodes graph) values conditions Es) as [H1 [H2 H3]].
  destruct (argmin_spec values k Ek) as [Hk _].
  destruct (H3 k ltac:(lia)) as [Ec _]. rewrite Ec.
  eapply incl_tran; [apply without_incl|exact Hc].
Qed.

Lemma try_to_separate_a_quiet (fuel : nat) :
  quiet (try_to_separate_a mutual_info_score data epsilon fuel graph
                           node1 node2).
Proof.
  unfold try_to_separate_a.
  destruct (separate_a_start graph node1 node2) as [[n1 n2]|e|] eqn:Es.
  - simpl.
    destruct (separate_a_start_spec graph node1 node2 n1 n2 Es) as [_ Hnear].
    assert (Hall : incl (n1 ++ n2) (g_nodes graph)).
    { intros x Hx. apply neighbours_are_nodes. apply Hnear. exact Hx. }
    apply (while_true_quiet _ _ _
             (fun s : separate_a_state =>
                incl (fst (fst (fst s))) (g_nodes graph))).
    + intros s s'. apply separate_a_step_keeps.
      eapply incl_tran; [apply incl_appr, incl_refl|exact Hall].
    + intros s. apply separate_a_step_quiet.
    + simpl. eapply incl_tran; [apply incl_appl, incl_refl|exact Hall].
  - exfalso. unfold separate_a_start, neighbors in Es.
    rewrite (proj2 (mem_In _ _) node1_in), (proj2 (mem_In _ _) node2_in) in Es.
    destruct paths_return as [paths Ep]. rewrite Ep in Es. simpl in Es.
    destruct (on_paths paths _ _). discriminate.
  - intros e. discriminate.
Qed.

Lemma drop_members_quiet (c : list node) (v : Q) (todo : list node) :
  incl c (g_nodes graph) ->
  forall c_prime,
    quiet (drop_members mutual_info_score data epsilon node1 node2 c v
                        todo c_prime).
Proof.
  intros Hc. induction todo as [|i todo IH]; intros c_prime; simpl.
  - apply Ret_quiet.
  - destruct (score_returns (without c i)) as [vi E].
    { eapply incl_tran; [apply without_incl|exact Hc]. }
    rewrite E. simpl.
    destruct (Qltb vi epsilon); [apply Ret_quiet|].
    destruct (_ && _); apply IH.
Qed.

Lemma separate_b_step_quiet (c : list node) :
  incl c (g_nodes graph) ->
  quiet (separate_b_step mutual_info_score data epsilon node1 node2 c).
Proof.
  intros Hc. unfold separate_b_step.
  destruct (score_returns c Hc) as [v E]. rewrite E. simpl.
  destruct (Qltb v epsilon); [apply Ret_quiet|].
  apply bind_quiet; [apply drop_members_quiet; exact Hc|].
  intros [c'|] _; [|apply Ret_quiet].
  destruct (_ <? _)%nat; apply Ret_quiet.
Qed.

Lemma separate_b_start_returns :
  exists c, separate_b_start graph node1 node2 = Ret c
            /\ incl c (g_nodes graph).
Proof.
  assert (Hret : returns (separate_b_start graph node1 node2)).
  { unfold separate_b_start, separate_b_sets, neighbors.
    rewrite (proj2 (mem_In _ _) node1_in), (proj2 (mem_In _ _) node2_in).
    destruct paths_return as [paths Ep]. rewrite Ep. simpl.
    pose proof (on_paths_keep (fun nd => mem nd (adj graph node1))
                              (fun nd => mem nd (adj graph node2)) paths)
      as [K1 K2].
    destruct (on_paths paths (fun nd => mem nd (adj graph node1))
                             (fun nd => mem nd (adj graph node2)))
      as [m1 m2].
    simpl in K1, K2.
    destruct (neighbor_lists_returns graph m1) as [l1 E1].
    { intros x Hx. apply neighbours_are_nodes. left. apply mem_In.
      apply K1. exact Hx. }
    destruct (neighbor_lists_returns graph m2) as [l2 E2].
    { intros x Hx. apply neighbours_are_nodes. right. apply mem_In.
      apply K2. exact Hx. }
    rewrite E1. simpl. rewrite E2. simpl.
    destruct (_ <? _)%nat; eexists; reflexivity. }
  destruct Hret as [c E]. exists c. split; auto.
  intros x Hx. apply neighbours_are_nodes.
  destruct (separate_b_start_spec graph node1 node2 c E) as [H|H]; auto.
Qed.

Lemma try_to_separate_b_quiet (fuel : nat) :
  quiet (try_to_separate_b mutual_info_score data epsilon fuel graph
                           node1 node2).
Proof.
  unfold try_to_separate_b.
  destruct separate_b_start_returns as [c [E Hc]]. rewrite E. simpl.
  apply (while_true_quiet _ _ _ (fun c => incl c (g_nodes graph))).
  - intros s s' Hs H.
    apply (separate_b_step_shrinks mutual_info_score data epsilon) in H.
    eapply incl_tran; [apply H|exact Hs].
  - apply separate_b_step_quiet.
  - exact Hc.
Qed.

End QuietTests.

(** ** The errors of the constraint-based search *)

Section SearchErrors.

Variable mutual_info_score : column -> column -> Q.
Variable data : frame.
Variable class_node : node.
Variable epsilon : Q.
Hypothesis distinct_names : NoDup (frame_columns data).
Hypothesis same_length : rectangular data.

Let cols := frame_columns (features data class_node).
Let cands := candidate_pairs mutual_info_score epsilon
                             (features data class_node).

Lemma cols_are_columns : incl cols (frame_columns data).
Proof.
  intros x Hx. unfold cols, frame_columns, features in Hx.
  apply in_map_iff in Hx. destruct Hx as [[n c] [E H]]. simpl in E. subst n.
  apply filter_In in H. apply in_map_iff. exists (x, c). tauto.
Qed.

Lemma thicken_quiet (fuel : nat) (L : list candidate) :
  forall g,
    well_formed g -> g_nodes g = cols ->
    Forall (endpoints_in cols) L ->
    quiet (thicken mutual_info_score data epsilon fuel g L).
Proof.
  induction L as [|[[a b] m] L IH]; intros g Hwf Hn Hin; simpl.
  - apply Ret_quiet.
  - inversion Hin as [|? ? [Ha Hb] Hin']; subst. simpl in Ha, Hb.
    apply bind_quiet.
    + apply (try_to_separate_a_quiet mutual_info_score data epsilon
               same_length g Hwf); rewrite ?Hn; auto.
      apply cols_are_columns.
    + intros sep _. destruct sep; simpl.
      * apply IH; auto.
      * apply IH; auto.
        -- apply add_edge_wf; auto; rewrite Hn; auto.
        -- rewrite add_edge_same_nodes; auto; rewrite Hn; auto.
Qed.

Lemma thin_quiet (separate : Graph -> node -> node -> outcome bool)
                 (es : list (node * node)) :
  (forall g a b, well_formed g -> g_nodes g = cols ->
                 In a cols -> In b cols -> quiet (separate g a b)) ->
  forall g,
    well_formed g -> g_nodes g = cols ->
    pairs_apart es ->
    (forall u v, In (u, v) es -> has_edge g u v = true) ->
    quiet (thin separate g es).
Proof.
  intros Hsep. induction es as [|[a b] es IH]; intros g Hwf Hn [Hnd Hrev] Hes;
    simpl.
  - apply Ret_quiet.
  - assert (Hab : has_edge g a b = true) by (apply Hes; left; reflexivity).
    assert (Ha : In a cols /\ In b cols).
    { rewrite <- Hn. apply (adj_in_nodes g a b Hwf).
      apply has_edge_adj. exact Hab. }
    destruct Ha as [Ha Hb].
    destruct (remove_edge g a b) as [g1|e|] eqn:E1;
      [|unfold remove_edge in E1; rewrite Hab in E1; discriminate
       |unfold remove_edge in E1; rewrite Hab in E1; discriminate].
    simpl.
    destruct (remove_edge_wf g g1 a b Hwf E1) as [Hwf1 Hn1].
    rewrite Hn in Hn1.
    unfold has_path. rewrite Hn1.
    rewrite (proj2 (mem_In _ _) Ha), (proj2 (mem_In _ _) Hb). simpl.
    inversion Hnd as [|? ? Hfresh Hnd']; subst.
    assert (Happart : pairs_apart es).
    { split; auto. intros u v H Hr. apply (Hrev u v); right; auto. }
    assert (Hrest1 : forall u v, In (u, v) es -> has_edge g1 u v = true).
    { intros u v H. apply (remove_edge_other g g1 a b u v E1).
      - intros E. apply Hfresh. rewrite <- E. exact H.
      - intros E. apply (Hrev a b); [left; reflexivity|].
        right. injection E as -> ->. exact H.
      - apply Hes. right. exact H. }
    apply bind_quiet.
    + destruct (connected g1 a b); [|apply Ret_quiet].
      apply bind_quiet; [apply Hsep; auto|]. intros sep _. apply Ret_quiet.
    + intros keep _. destruct keep.
      * apply IH; auto.
        -- apply add_edge_wf; auto; rewrite Hn1; auto.
        -- rewrite add_edge_same_nodes; auto; rewrite Hn1; auto.
        -- intros u v H. apply add_edge_has_edge. apply Hrest1. exact H.
      * apply IH; auto.
Qed.


End SearchErrors.

Lemma rectangular_check (df : frame) (rows : nat) :
  forallb (fun p => (List.length (snd p) =? rows)%nat) df = true ->
  rectangular df.
Proof.
  intros H n1 c1 n2 c2 H1 H2. rewrite forallb_forall in H.
  apply H in H1. apply H in H2. simpl in H1, H2.
  apply Nat.eqb_eq in H1. apply Nat.eqb_eq in H2. congruence.
Qed.

Lemma two_table_names : NoDup (frame_columns two_table).
Proof. simpl. repeat constructor; simpl; intuition discriminate. Defined.


(** ** Counting edges and components *)

Lemma n_comp_ext (R R' : node -> node -> bool) (l : list node) :
  (forall x y, R x y = R' x y) -> n_comp R l = n_comp R' l.
Proof.
  intros E. induction l as [|x l IH]; simpl; auto.
  rewrite IH, (existsb_ext_in (R x) (R' x)); auto.
Qed.

(** Connectivity depends on which nodes are neighbours only. *)
Lemma connected_ext (g g' : Graph) :
  well_formed g -> well_formed g' ->
  (forall x y, In y (adj g x) <-> In y (adj g' x)) ->
  forall x y, connected g x y = connected g' x y.
Proof.
  intros W W' E x y. apply bool_eq_iff.
  rewrite (connected_conn g x y W), (connected_conn g' x y W').
  split; apply conn_incl; intros u v; apply E.
Qed.

Lemma components_ext (g g' : Graph) :
  well_formed g -> well_formed g' -> g_nodes g = g_nodes g' ->
  (forall x y, In y (adj g x) <-> In y (adj g' x)) ->
  components g = components g'.
Proof.
  intros W W' N E. unfold components. rewrite N.
  apply n_comp_ext. apply connected_ext; auto.
Qed.

(** The same edges in another order give the same neighbours. *)
Lemma adj_same_edges (ns ns' : list node) (es es' : list edge) (x y : node) :
  (forall e, In e es <-> In e es') ->
  In y (adj (mkGraph ns es) x) <-> In y (adj (mkGraph ns' es') x).
Proof.
  intros E. unfold adj. simpl. rewrite !adj_of_In.
  split; intros [wt [H|H]]; exists wt; [left|right|left|right]; apply E; auto.
Qed.

Section AppendEdge.

Variable g : Graph.
Variables a b : node.
Variable w : attr.
Hypothesis g_wf : well_formed g.
Hypothesis a_node : In a (g_nodes g).
Hypothesis b_node : In b (g_nodes g).

Let g' := mkGraph (g_nodes g) (g_edges g ++ [(a, b, w)]).

Lemma append_edge_wf : well_formed g'.
Proof.
  destruct g_wf as [Hn He]. split; simpl; auto.
  intros x y wt H. apply in_app_or in H. destruct H as [H|[H|[]]].
  - eapply He; eauto.
  - injection H as <- <- <-. auto.
Qed.

Lemma append_edge_adj (x y : node) :
  In y (adj g' x) <->
  In y (adj g x) \/ (x = a /\ y = b) \/ (x = b /\ y = a).
Proof.
  unfold adj, g'. simpl. rewrite adj_of_app, in_app_iff. simpl.
  destruct (node_eqb a x) eqn:Ea; [|destruct (node_eqb b x) eqn:Eb]; simpl.
  - apply node_eqb_eq in Ea. subst x. intuition congruence.
  - apply node_eqb_eq in Eb. subst x. intuition congruence.
  - apply node_eqb_neq in Ea. apply node_eqb_neq in Eb.
    intuition congruence.
Qed.

Lemma append_edge_connected (x y : node) :
  connected g' x y
  = connected g x y || (connected g x a && connected g b y)
    || (connected g x b && connected g a y).
Proof.
  apply bool_eq_iff.
  rewrite !orb_true_iff, !andb_true_iff.
  rewrite (connected_conn g' x y append_edge_wf).
  rewrite !(connected_conn g) by exact g_wf.
  rewrite (conn_new_edge (adj g) (adj g') a b).
  - tauto.
  - intros u v. apply adj_of_sym.
  - apply append_edge_adj.
Qed.

(** An edge between two components joins them; an edge inside a component
    changes nothing. *)
Lemma append_edge_components :
  (components g' + (if connected g a b then 0 else 1) = components g)%nat.
Proof.
  unfold components. change (g_nodes g') with (g_nodes g).
  destruct (connected g a b) eqn:E.
  - rewrite Nat.add_0_r.
    apply (n_comp_same (connected g)
             (fun x y => connected_sym g x y g_wf)
             (fun x y z => connected_trans g x y z g_wf)
             (connected g') a b append_edge_connected (g_nodes g) E).
  - rewrite (n_comp_merge (connected g)
               (fun x y => connected_sym g x y g_wf)
               (fun x y z => connected_trans g x y z g_wf)
               (connected g') a b append_edge_connected (g_nodes g) E).
    replace (existsb (connected g a) (g_nodes g)) with true.
    + replace (existsb (connected g b) (g_nodes g)) with true; auto.
      symmetry. apply existsb_exists. exists b. split; auto.
      apply connected_refl.
    + symmetry. apply existsb_exists. exists a. split; auto.
      apply connected_refl.
Qed.

Lemma append_edge_joined : connected g' a b = true.
Proof.
  rewrite append_edge_connected.
  rewrite (connected_refl g a), (connected_refl g b). simpl.
  destruct (connected g a b); reflexivity.
Qed.

Lemma append_edge_grows (x y : node) :
  connected g x y = true -> connected g' x y = true.
Proof.
  intros H. rewrite append_edge_connected, H. reflexivity.
Qed.

End AppendEdge.

(** A graph has at least as many components as it has nodes more than
    edges. *)
Lemma components_bound (ns : list node) (es : list edge) :
  well_formed (mkGraph ns es) ->
  (List.length ns <= components (mkGraph ns es) + List.length es)%nat.
Proof.
  induction es as [|e es IH] using rev_ind; intros Hwf.
  - destruct Hwf as [Hn _]. simpl in Hn.
    pose proof (no_edges_forest ns Hn) as [_ H].
    unfold number_of_edges, number_of_nodes in H. simpl in H. lia.
  - destruct e as [[a b] w].
    assert (Hwf0 : well_formed (mkGraph ns es)).
    { destruct Hwf as [Hn He]. split; simpl in *; auto.
      intros x y wt H. apply (He x y wt). apply in_or_app. auto. }
    assert (Hab : In a ns /\ In b ns).
    { destruct Hwf as [_ He]. apply (He a b w). simpl.
      apply in_or_app. right. left. reflexivity. }
    destruct Hab as [Ha Hb].
    pose proof (append_edge_components (mkGraph ns es) a b w Hwf0 Ha Hb) as H.
    cbn [g_nodes g_edges] in H. specialize (IH Hwf0).
    rewrite length_app. cbn [List.length].
    destruct (connected (mkGraph ns es) a b);
      unfold components, edge in *; cbn [g_nodes g_edges] in *; lia.
Qed.

(** Edges between [a] and [b] added to a graph: the first may join two
    components, the others change nothing. *)
Lemma append_edges_components (a b : node) (extra : list edge) :
  forall g,
    well_formed g -> In a (g_nodes g) -> In b (g_nodes g) ->
    (forall e, In e extra -> joins a b e = true) ->
    well_formed (mkGraph (g_nodes g) (g_edges g ++ extra))
    /\ (components (mkGraph (g_nodes g) (g_edges g ++ extra))
        + (if connected g a b then 0
           else match extra with [] => 0 | _ => 1 end)
        = components g)%nat.
Proof.
  induction extra as [|e extra IH]; intros g Hwf Ha Hb Hj.
  - rewrite app_nil_r. destruct g as [ns es]. simpl.
    split; auto. destruct (connected _ a b); lia.
  - destruct e as [[x y] wt].
    assert (Hxy : (x = a /\ y = b) \/ (x = b /\ y = a)).
    { pose proof (Hj (x, y, wt) (or_introl eq_refl)) as H.
      apply joins_spec in H. simpl in H. exact H. }
    set (g1 := mkGraph (g_nodes g) (g_edges g ++ [(x, y, wt)])).
    assert (Hx : In x (g_nodes g) /\ In y (g_nodes g))
      by (destruct Hxy as [[-> ->]|[-> ->]]; auto).
    destruct Hx as [Hx Hy].
    pose proof (append_edge_wf g x y wt Hwf Hx Hy) as W1. fold g1 in W1.
    pose proof (append_edge_components g x y wt Hwf Hx Hy) as C1.
    fold g1 in C1.
    assert (J1 : connected g1 a b = true).
    { pose proof (append_edge_joined g x y wt Hwf Hx Hy) as J. fold g1 in J.
      destruct Hxy as [[-> ->]|[-> ->]]; auto.
      rewrite connected_sym; auto. }
    assert (Exy : connected g x y = connected g a b).
    { destruct Hxy as [[-> ->]|[-> ->]]; auto. apply connected_sym; auto. }
    destruct (IH g1 W1 Ha Hb) as [W2 C2].
    { intros e He. apply Hj. right. exact He. }
    simpl in W2, C2. rewrite <- app_assoc in W2, C2. simpl in W2, C2.
    split; auto. rewrite J1 in C2. rewrite Exy in C1.
    destruct (connected g a b); lia.
Qed.

(** Removing the edge between two nodes of a forest leaves a forest in
    which no path joins the two. *)
Lemma forest_bridge (g g' : Graph) (a b : node) :
  forest g -> remove_edge g a b = Ret g' ->
  forest g' /\ connected g' a b = false
  /\ S (number_of_edges g') = number_of_edges g.
Proof.
  intros [Hwf Hc] Hr.
  destruct (remove_edge_wf g g' a b Hwf Hr) as [Hwf' Hn'].
  destruct (remove_edge_has_edge g g' a b a b Hr) as [Hab _].
  assert (Hnodes : In a (g_nodes g) /\ In b (g_nodes g)).
  { apply (adj_in_nodes g a b Hwf). apply has_edge_adj. exact Hab. }
  destruct Hnodes as [Ha Hb].
  unfold remove_edge in Hr. rewrite Hab in Hr. injection Hr as <-.
  set (keep := fun e : edge => negb (joins a b e)) in *.
  set (kept := filter keep (g_edges g)) in *.
  set (gone := filter (fun e => negb (keep e)) (g_edges g)).
  set (g0 := mkGraph (g_nodes g) kept) in *.
  assert (Hgone : forall e, In e gone -> joins a b e = true).
  { intros e He. apply filter_In in He. destruct He as [_ He].
    unfold keep in He. rewrite negb_involutive in He. exact He. }
  assert (Hsome : gone <> []).
  { unfold has_edge in Hab. apply existsb_exists in Hab.
    destruct Hab as [e [He Hj]]. intros E.
    assert (Hin : In e gone).
    { apply filter_In. split; auto. unfold keep. rewrite Hj. reflexivity. }
    rewrite E in Hin. destruct Hin. }
  destruct (append_edges_components a b gone g0 Hwf') as [W1 C1]; auto.
  simpl in W1, C1. fold kept in W1, C1.
  assert (Hsame : components (mkGraph (g_nodes g) (kept ++ gone))
                  = components g).
  { apply components_ext; auto.
    intros x y. destruct g as [ns es]. apply adj_same_edges.
    intros e. unfold kept, gone. simpl. rewrite in_app_iff, !filter_In.
    destruct (keep e); simpl; intuition discriminate. }
  assert (Hlen : (List.length kept + List.length gone
                  = List.length (g_edges g))%nat).
  { unfold kept, gone. clear. induction (g_edges g) as [|e es IH]; simpl; auto.
    destruct (keep e); simpl; lia. }
  pose proof (components_bound (g_nodes g) kept Hwf') as Hbound.
  fold g0 in Hbound.
  unfold number_of_edges, number_of_nodes in *. simpl.
  rewrite Hsame in C1.
  assert (Hpos : (1 <= List.length gone)%nat).
  { destruct gone; [congruence|simpl; lia]. }
  clearbody gone kept. unfold edge in *.
  destruct (connected g0 a b) eqn:Econ.
  - exfalso. lia.
  - assert (E1 : match gone with [] => 0%nat | _ :: _ => 1%nat end = 1%nat)
      by (destruct gone; [congruence|reflexivity]).
    rewrite E1 in C1. clear E1 Hsome Hgone.
    unfold forest, number_of_edges, number_of_nodes.
    cbn [g0 g_nodes g_edges]. unfold edge.
    split; [split; [exact Hwf'|lia]|]. split; auto. lia.
Qed.

(** ** Thinning a forest *)

Lemma remove_edge_gone (g g' : Graph) (a b : node) :
  remove_edge g a b = Ret g' -> has_edge g' a b = false.
Proof.
  unfold remove_edge. destruct (has_edge g a b); [|discriminate].
  intros H. injection H as <-. unfold has_edge. simpl.
  apply not_true_is_false. intros H. apply existsb_exists in H.
  destruct H as [e [He Hj]]. apply filter_In in He. destruct He as [_ He].
  rewrite Hj in He. discriminate.
Qed.

Lemma edges_view_no_edges (ns : list node) : edges_view (mkGraph ns []) = [].
Proof.
  unfold edges_view.
  assert (H : forall todo seen, edges_from (mkGraph ns []) seen todo = []).
  { induction todo as [|n todo IH]; intros seen; simpl; auto. }
  apply H.
Qed.

Lemma no_edge_graph (g : Graph) :
  (forall u v, has_edge g u v = false) -> g = mkGraph (g_nodes g) [].
Proof.
  destruct g as [ns es]. simpl. intros H. f_equal.
  destruct es as [|[[x y] w] es]; auto.
  specialize (H x y). unfold has_edge in H. simpl in H.
  rewrite !node_eqb_refl in H. discriminate.
Qed.

(** On a forest a thinning pass removes every edge it is given and never
    asks for a separation test. *)
Lemma thin_forest (separate : Graph -> node -> node -> outcome bool)
                  (es : list (node * node)) :
  forall g,
    forest g -> pairs_apart es ->
    (forall u v, In (u, v) es -> has_edge g u v = true) ->
    exists g',
      thin separate g es = Ret g'
      /\ forest g' /\ g_nodes g' = g_nodes g
      /\ forall u v, has_edge g' u v = true ->
                     has_edge g u v = true
                     /\ ~ In (u, v) es /\ ~ In (v, u) es.
Proof.
  induction es as [|[a b] es IH]; intros g Hf [Hnd Hrev] Hes; simpl.
  - exists g. split; [reflexivity|]. split; [exact Hf|].
    split; [reflexivity|]. intros u v H. split; auto.
  - pose proof Hf as [Hwf _].
    assert (Hab : has_edge g a b = true) by (apply Hes; left; reflexivity).
    assert (Hnodes : In a (g_nodes g) /\ In b (g_nodes g)).
    { apply (adj_in_nodes g a b Hwf). apply has_edge_adj. exact Hab. }
    destruct Hnodes as [Ha Hb].
    destruct (remove_edge g a b) as [g1|e|] eqn:E1;
      [|unfold remove_edge in E1; rewrite Hab in E1; discriminate
       |unfold remove_edge in E1; rewrite Hab in E1; discriminate].
    destruct (forest_bridge g g1 a b Hf E1) as [F1 [Hcut _]].
    destruct (remove_edge_wf g g1 a b Hwf E1) as [_ N1].
    simpl. unfold has_path. rewrite N1.
    rewrite (proj2 (mem_In _ _) Ha), (proj2 (mem_In _ _) Hb), Hcut. simpl.
    inversion Hnd as [|? ? Hfresh Hnd']; subst.
    destruct (IH g1 F1) as [g' [E [F' [N' Hedges]]]].
    + split; auto. intros u v H Hr. apply (Hrev u v); right; auto.
    + intros u v H. apply (remove_edge_other g g1 a b u v E1).
      * intros E. apply Hfresh. rewrite <- E. exact H.
      * intros E. apply (Hrev a b); [left; reflexivity|].
        right. injection E as -> ->. exact H.
      * apply Hes. right. exact H.
    + exists g'. split; auto. split; auto. split; [congruence|].
      intros u v H. destruct (Hedges u v H) as [H1 [H2 H3]].
      pose proof (remove_edge_gone g g1 a b E1) as Hgone.
      split; [apply (remove_edge_has_edge g g1 a b u v E1); exact H1|].
      split; intros [Eq|Hin]; auto.
      * injection Eq as <- <-. congruence.
      * injection Eq as <- <-. rewrite has_edge_sym in H1. congruence.
Qed.

(** A forest has no edge twice and no loop. *)
Lemma forest_simple (g : Graph) : forest g -> simple g.
Proof.
  intros Hf u. pose proof Hf as [Hwf _].
  assert (Hloop : ~ In u (adj g u)).
  { intros H. apply has_edge_adj in H.
    destruct (remove_edge g u u) as [g1|e|] eqn:E1;
      try (unfold remove_edge in E1; rewrite H in E1; discriminate).
    destruct (forest_bridge g g1 u u Hf E1) as [_ [Hcut _]].
    rewrite connected_refl in Hcut. discriminate. }
  split; auto.
  apply (NoDup_count_occ node_dec). intros v.
  destruct (in_dec node_dec v (adj g u)) as [Hin|Hout].
  2:{ apply (count_occ_not_In node_dec) in Hout. lia. }
  assert (Hne : u <> v) by (intros ->; contradiction).
  apply has_edge_adj in Hin.
  destruct (remove_edge g u v) as [g1|e|] eqn:E1;
    try (unfold remove_edge in E1; rewrite Hin in E1; discriminate).
  destruct (forest_bridge g g1 u v Hf E1) as [_ [_ Hone]].
  unfold remove_edge in E1. rewrite Hin in E1. injection E1 as <-.
  unfold number_of_edges in Hone. simpl in Hone. unfold adj.
  revert Hone. clear -Hne. generalize (g_edges g). intros es.
  assert (Hcount : forall es,
             (count_occ node_dec (adj_of es u) v
              + List.length (filter (fun e => negb (joins u v e)) es)
              = List.length es)%nat).
  { clear es. induction es as [|[[x y] w] es IH]; [reflexivity|].
    cbn [adj_of filter].
    change (joins u v (x, y, w))
      with ((node_eqb x u && node_eqb y v) || (node_eqb x v && node_eqb y u)).
    destruct (node_eqb x u) eqn:Exu.
    - apply node_eqb_eq in Exu. subst x.
      destruct (node_eqb y v) eqn:Eyv; cbn [andb orb negb count_occ].
      + apply node_eqb_eq in Eyv. subst y.
        destruct (node_dec v v); [|congruence].
        cbn [List.length Nat.add]. f_equal. exact IH.
      + apply node_eqb_neq in Eyv.
        replace (node_eqb u v) with false
          by (symmetry; apply node_eqb_neq; auto).
        cbn [andb negb]. destruct (node_dec y v); [congruence|].
        cbn [List.length]. rewrite Nat.add_succ_r. f_equal. exact IH.
    - destruct (node_eqb y u) eqn:Eyu; cbn [andb orb negb count_occ].
      + apply node_eqb_eq in Eyu. subst y.
        destruct (node_eqb x v) eqn:Exv; cbn [andb orb negb count_occ].
        * apply node_eqb_eq in Exv. subst x.
          destruct (node_dec v v); [|congruence].
          cbn [List.length Nat.add]. f_equal. exact IH.
        * apply node_eqb_neq in Exv.
          destruct (node_dec x v); [congruence|].
          cbn [List.length]. rewrite Nat.add_succ_r. f_equal. exact IH.
      + rewrite andb_false_r. cbn [negb List.length].
        rewrite Nat.add_succ_r. f_equal. exact IH. }
  pose proof (Hcount es) as Hc. intros H.
  assert (Hc' : (count_occ node_dec (adj_of es u) v
                 + List.length (filter (fun e => negb (joins u v e)) es)
                 = S (List.length (filter (fun e => negb (joins u v e)) es)))%nat).
  { rewrite Hc. symmetry. exact H. }
  revert Hc'. generalize (count_occ node_dec (adj_of es u) v).
  generalize (List.length (filter (fun e => negb (joins u v e)) es)).
  intros n m ?. lia.
Qed.

(** X16. Thinning destroys a forest: when the graph handed to the first
    thinning pass has no cycle, the pass removes every edge, whatever the
    separation test would say, and leaves the nodes without any edge. *)
Theorem thinning_empties_forest
  (separate : Graph -> node -> node -> outcome bool) (g : Graph) :
  forest g ->
  thin separate g (edges_view g) = Ret (mkGraph (g_nodes g) []).
Proof.
  intros Hf. pose proof Hf as [Hwf _].
  destruct (edges_view_apart g Hwf (forest_simple g Hf)) as [Hapart Hedges].
  destruct (thin_forest separate (edges_view g) g Hf Hapart Hedges)
    as [g' [E [_ [N Hleft]]]].
  rewrite E. f_equal. rewrite <- N. apply no_edge_graph.
  intros u v. apply not_true_is_false. intros H.
  destruct (Hleft u v H) as [H1 [H2 H3]].
  apply has_edge_adj in H1.
  destruct (edges_view_complete g u v Hwf H1); contradiction.
Qed.

Section NoThickening.

Variable mutual_info_score : column -> column -> Q.
Variable data : frame.
Variable class_node : node.
Variable epsilon : Q.
Hypothesis distinct_names : NoDup (frame_columns data).

Let cols := frame_columns (features data class_node).

(** X17. When thickening adds no edge to the drafted graph (in
    particular when drafting has used up every candidate pair), the
    search returns the plain naive-Bayes graph: thinning removes the whole
    drafted forest without a single separation test, and the only arcs
    left are those from the class node to the feature columns. *)
Theorem search_without_thickening
  (fuel : nat) (g0 : Graph) (L : list candidate) :
  In class_node (frame_columns data) ->
  draft mutual_info_score data class_node epsilon = Ret (g0, L) ->
  thicken mutual_info_score data epsilon fuel g0 L = Ret g0 ->
  exists dag,
    estimate mutual_info_score data class_node epsilon fuel = Ret dag
    /\ d_edges dag = map (pair class_node) cols
    /\ feature_edges dag class_node = [].
Proof.
  intros Hclass Ed Et. unfold estimate.
  rewrite (proj2 (mem_In _ _) Hclass). cbn [negb].
  destruct (draft_spans_candidates mutual_info_score data class_node epsilon
              distinct_names) as [_ Hall].
  destruct (Hall g0 L Ed) as [F0 [N0 _]]. fold cols in N0.
  unfold skeleton. rewrite Ed. cbn [bind]. rewrite Et. cbn [bind].
  rewrite (thinning_empties_forest _ g0 F0). cbn [bind].
  rewrite edges_view_no_edges. cbn [thin bind]. rewrite N0.
  pose proof (frame_columns_features data class_node distinct_names) as Hnd.
  pose proof (class_not_feature data class_node) as Hcl.
  fold cols in Hnd, Hcl.
  assert (W : well_formed (mkGraph cols [])).
  { split; simpl; auto. intros a b w []. }
  pose proof (first_column_spec (features data class_node)) as Hfirst.
  destruct (first_column (features data class_node)) as [root|e|] eqn:Er.
  - destruct (orient_spec data class_node distinct_names (mkGraph cols [])
                root W eq_refl Er) as [tree [Eo [Ef [_ [Ht _]]]]].
    assert (Etree : tree = []).
    { destruct tree as [|[p c] tree]; auto.
      destruct (Ht p c (or_introl eq_refl)). }
    subst tree. fold cols in Eo, Ef.
    eexists. split; [exact Eo|]. split; [|exact Ef].
    rewrite (attached_edges class_node cols root [] Hnd Hcl); auto.
    intros p c [].
  - exfalso. destruct e; try contradiction.
    rewrite draft_unfold in Ed. rewrite Hfirst in Ed. discriminate.
  - contradiction.
Qed.

End NoThickening.

(** ** Worked instances of thinning *)

Lemma path_graph_forest : forest path_graph.
Proof.
  split; [split|vm_compute; reflexivity].
  - simpl. repeat constructor; simpl; intuition discriminate.
  - intros a b w H. simpl in H.
    destruct H as [E|[E|[E|[]]]]; injection E as <- <- <-; simpl; auto 10.
Defined.

(** The path [A - B - C - D], thinned with a test that would raise. *)
Lemma thinning_empties_forest_instance :
  thin (fun _ _ _ => Raise KeyError) path_graph (edges_view path_graph)
  = Ret (mkGraph (g_nodes path_graph) []).
Proof.
  apply (thinning_empties_forest (fun _ _ _ => Raise KeyError) path_graph).
  exact path_graph_forest.
Defined.

Lemma bits_table_names : NoDup (frame_columns bits_table).
Proof. simpl. repeat constructor; simpl; intuition discriminate. Defined.

Lemma search_without_thickening_instance :
  (exists dag,
      estimate sample_score bits_table "Class" default_epsilon 5 = Ret dag
      /\ d_edges dag
         = map (pair "Class") (frame_columns (features bits_table "Class"))
      /\ feature_edges dag "Class" = [])%string.
Proof.
  destruct (draft sample_score bits_table "Class"%string default_epsilon)
    as [[g0 L]|e|] eqn:Ed;
    [|vm_compute in Ed; discriminate|vm_compute in Ed; discriminate].
  apply (search_without_thickening sample_score bits_table "Class"%string
           default_epsilon bits_table_names 5 g0 L).
  - simpl. auto 10.
  - exact Ed.
  - vm_compute in Ed. injection Ed as <- <-. vm_compute. reflexivity.
Defined.

(** ** The maximum spanning tree *)

Lemma heavier_incl (w : Q) (es es' : list edge) (x y : node) :
  incl es es' ->
  In y (adj_of (heavier w es) x) -> In y (adj_of (heavier w es') x).
Proof.
  intros Hi. rewrite !adj_of_In. unfold heavier.
  intros [wt [H|H]]; exists wt; [left|right];
    apply filter_In in H; apply filter_In; split; try tauto; apply Hi; tauto.
Qed.

Lemma heavier_all (w : Q) (es : list edge) :
  (forall e, In e es -> w <= weight_of (snd e)) -> heavier w es = es.
Proof.
  intros H. unfold heavier. apply forallb_filter_id. apply forallb_forall.
  intros e He. apply Qle_bool_iff. apply H. exact He.
Qed.

(** Kruskal's loop over candidates sorted with the heavier first, from a
    forest whose edges are at least as heavy as every candidate.  The
    result is a forest; its edges are those of the start and edges of
    candidates, each with the attributes it has in [g]; and the ends of
    every candidate are joined in it by edges at least as heavy as the
    candidate. *)
Lemma kruskal_heavy (g : Graph) (es : list candidate) :
  forall t,
    forest t -> Forall (endpoints_in (g_nodes t)) es ->
    sorted_desc es ->
    (forall c, In c es ->
               score_of c = weight_of (edge_attr g (fst (fst c)) (snd (fst c)))) ->
    (forall e c, In e (g_edges t) -> In c es ->
                 score_of c <= weight_of (snd e)) ->
    let T := fold_left (kruskal_take g) es t in
    forest T
    /\ incl (g_edges t) (g_edges T)
    /\ (forall e, In e (g_edges T) ->
          In e (g_edges t)
          \/ exists c, In c es
                       /\ e = (fst (fst c), snd (fst c),
                               edge_attr g (fst (fst c)) (snd (fst c))))
    /\ (forall c, In c es ->
          conn (adj_of (heavier (score_of c) (g_edges T)))
               (fst (fst c)) (snd (fst c))).
Proof.
  induction es as [|[[u v] w] es IH]; intros t Hf Hin Hsorted Hw Hfloor; simpl.
  - split; [exact Hf|]. split; [apply incl_refl|].
    split; [auto|intros c []].
  - inversion Hin as [|? ? [Hu Hv] Hin']; subst. simpl in Hu, Hv.
    inversion Hsorted as [|? ? Hsorted' Hhead]; subst.
    pose proof Hf as [Hwf _].
    assert (Hw' : forall c, In c es ->
               score_of c = weight_of (edge_attr g (fst (fst c)) (snd (fst c))))
      by (intros c Hc; apply Hw; right; exact Hc).
    assert (Ew : w = weight_of (edge_attr g u v))
      by (apply (Hw (u, v, w)); left; reflexivity).
    set (t1 := if connected t u v then t
               else add_edge t u v (edge_attr g u v)).
    assert (Ht1 : forest t1 /\ g_nodes t1 = g_nodes t
                  /\ incl (g_edges t) (g_edges t1)
                  /\ (forall e, In e (g_edges t1) ->
                        In e (g_edges t) \/ e = (u, v, edge_attr g u v))
                  /\ conn (adj_of (heavier w (g_edges t1))) u v).
    { unfold t1. destruct (connected t u v) eqn:Ec.
      - split; [exact Hf|]. split; [reflexivity|].
        split; [apply incl_refl|]. split; [auto|].
        rewrite heavier_all.
        + apply (connected_conn t u v Hwf). exact Ec.
        + intros e He. apply (Hfloor e (u, v, w) He). left. reflexivity.
      - rewrite (new_edge_graph t u v (edge_attr g u v) Hwf Hu Hv Ec).
        split.
        { rewrite <- (new_edge_graph t u v (edge_attr g u v) Hwf Hu Hv Ec).
          apply new_edge_forest; auto. }
        simpl. split; [reflexivity|].
        split; [apply incl_appl, incl_refl|]. split.
        + intros e He. apply in_app_or in He. destruct He as [He|[<-|[]]]; auto.
        + eapply conn_step; [|apply conn_refl].
          apply adj_of_In. exists (edge_attr g u v). left.
          unfold heavier. apply filter_In. split.
          * apply in_or_app. right. left. reflexivity.
          * simpl. rewrite <- Ew. apply Qle_bool_iff. apply Qle_refl. }
    destruct Ht1 as [F1 [N1 [I1 [E1 C1]]]].
    change (fold_left (kruskal_take g) es (kruskal_take g t (u, v, w)))
      with (fold_left (kruskal_take g) es t1).
    destruct (IH t1 F1) as [FT [IT [ET CT]]]; auto.
    { rewrite N1. exact Hin'. }
    { intros e c He Hc. destruct (E1 e He) as [H| ->].
      - apply (Hfloor e c H). right. exact Hc.
      - simpl. rewrite <- Ew. rewrite Forall_forall in Hhead.
        apply (Hhead c Hc). }
    split; [exact FT|].
    split; [eapply incl_tran; eauto|]. split.
    + intros e He. destruct (ET e He) as [H|[c [Hc ->]]].
      * destruct (E1 e H) as [H1| ->]; auto.
        right. exists (u, v, w). split; [left|]; reflexivity.
      * right. exists c. split; [right|]; auto.
    + intros c [<-|Hc]; [|apply CT; exact Hc].
      simpl. eapply conn_incl; [|exact C1].
      intros x y. apply heavier_incl. exact IT.
Qed.

Lemma joins_sym (u v : node) (e : edge) : joins u v e = joins v u e.
Proof.
  destruct e as [[a b] w]. simpl. apply orb_comm.
Qed.

Lemma edge_attr_sym (g : Graph) (u v : node) :
  edge_attr g u v = edge_attr g v u.
Proof.
  unfold edge_attr.
  replace (find (joins u v) (g_edges g)) with (find (joins v u) (g_edges g));
    auto.
  induction (g_edges g) as [|e es IH]; simpl; auto.
  rewrite (joins_sym v u e), IH. reflexivity.
Qed.

(** The maximum spanning tree of a graph: a forest on the same nodes with
    edges of the graph, in which the ends of every edge of the graph are
    joined by edges at least as heavy. *)
Lemma maximum_spanning_tree_heavy (g : Graph) :
  well_formed g ->
  forest (maximum_spanning_tree g)
  /\ (forall u v a, In (u, v, a) (g_edges (maximum_spanning_tree g)) ->
                    In v (adj g u) /\ a = edge_attr g u v)
  /\ (forall u v, In v (adj g u) ->
        conn (adj_of (heavier (weight_of (edge_attr g u v))
                              (g_edges (maximum_spanning_tree g)))) u v).
Proof.
  intros Hwf. unfold maximum_spanning_tree.
  set (weigh := fun e : node * node =>
                  (fst e, snd e, weight_of (edge_attr g (fst e) (snd e)))).
  set (es := sort_desc (map weigh (edges_view g))).
  assert (Hes : forall c, In c es <->
                          exists u v, In (u, v) (edges_view g)
                                      /\ c = weigh (u, v)).
  { intros c. split.
    - intros H. apply (Permutation_in _ (sort_desc_perm _)) in H.
      apply in_map_iff in H. destruct H as [[u v] [E H]]. eauto.
    - intros [u [v [H ->]]].
      apply (Permutation_in _ (Permutation_sym (sort_desc_perm _))).
      apply in_map. exact H. }
  assert (Hends : Forall (endpoints_in (g_nodes (mkGraph (g_nodes g) []))) es).
  { apply Forall_forall. intros c Hc. apply Hes in Hc.
    destruct Hc as [u [v [H ->]]]. simpl. apply edges_view_nodes; auto. }
  assert (F0 : forest (mkGraph (g_nodes g) []))
    by (apply no_edges_forest; apply Hwf).
  destruct (kruskal_heavy g es _ F0 Hends) as [FT [_ [ET CT]]].
  - apply sort_desc_sorted.
  - intros c Hc. apply Hes in Hc. destruct Hc as [u [v [_ ->]]]. reflexivity.
  - intros e c [].
  - split; [exact FT|]. split.
    + intros u v a H. destruct (ET _ H) as [[]|[c [Hc E]]].
      apply Hes in Hc. destruct Hc as [u' [v' [Hv ->]]]. simpl in E.
      injection E as -> -> ->. split; auto.
      apply (edges_from_nodes g _ _ u' v' Hv).
    + intros u v Hadj.
      destruct (edges_view_complete g u v Hwf Hadj) as [H|H].
      * apply (CT (weigh (u, v))). apply Hes. eauto.
      * pose proof (CT (weigh (v, u)) (proj2 (Hes _) (ex_intro _ v
                      (ex_intro _ u (conj H eq_refl))))) as Hc.
        simpl in Hc. rewrite (edge_attr_sym g u v).
        apply (conn_sym_next _ (fun x y => adj_of_sym _ x y)). exact Hc.
Qed.

(** ** The tree of a breadth-first search in a tree *)

(** A tree grown along the edges of a forest that reaches every node uses
    every edge of the forest. *)
Lemma tree_covers_forest (T : Graph) (r : node) (tree : list (node * node)) :
  forest T -> grown r tree ->
  (forall p c, In (p, c) tree -> In c (adj T p)) ->
  (forall x, In x (g_nodes T) -> In x (r :: map snd tree)) ->
  forall x y, In y (adj T x) -> linked tree x y.
Proof.
  intros Hf Hg Harcs Hall x y Hxy.
  pose proof Hf as [Hwf _].
  assert (Hdec : forall p q : node * node, {p = q} + {p <> q})
    by (decide equality; apply node_dec).
  destruct (in_dec Hdec (x, y) tree) as [H1|H1]; [left; exact H1|].
  destruct (in_dec Hdec (y, x) tree) as [H2|H2]; [right; exact H2|].
  exfalso.
  apply has_edge_adj in Hxy.
  destruct (remove_edge T x y) as [T'|e|] eqn:E;
    try (unfold remove_edge in E; rewrite Hxy in E; discriminate).
  destruct (forest_bridge T T' x y Hf E) as [[Hwf' _] [Hcut _]].
  destruct (remove_edge_wf T T' x y Hwf E) as [_ N'].
  assert (Hnodes : In x (g_nodes T) /\ In y (g_nodes T)).
  { apply (adj_in_nodes T x y Hwf). apply has_edge_adj. exact Hxy. }
  assert (Hreach : forall z, In z (g_nodes T) -> conn (adj T') r z).
  { intros z Hz. apply conn_incl with (next := arcs_next tree).
    - intros p c Hpc. apply arcs_next_In in Hpc.
      apply has_edge_adj.
      apply (remove_edge_other T T' x y p c E).
      + intros Eq. apply H1. rewrite <- Eq. exact Hpc.
      + intros Eq. apply H2. rewrite <- Eq. exact Hpc.
      + apply has_edge_adj. apply Harcs. exact Hpc.
    - apply grown_reach; auto. }
  assert (Hcon : conn (adj T') x y).
  { apply conn_trans with r.
    - apply conn_sym. apply Hreach. tauto.
    - apply Hreach. tauto. }
  apply (connected_conn T' x y Hwf') in Hcon. congruence.
Qed.

(** ** The complete graph of the tree search *)

Section CompleteGraphEdges.

Variable mutual_info_score : column -> column -> Q.

Local Abbreviation join_later :=
  (TreeAugmentedNaiveBayesSearch.join_later mutual_info_score).
Local Abbreviation join_all :=
  (TreeAugmentedNaiveBayesSearch.join_all mutual_info_score).

(** The edge the double loop adds for a pair of columns. *)
Let pair_edge (p : (node * column) * (node * column)) : edge :=
  (fst (fst p), fst (snd p),
   Some (mutual_info_score (snd (fst p)) (snd (snd p)))).

Lemma join_later_edges (later : frame) :
  forall g a xi,
    NoDup (frame_columns later) -> ~ In a (frame_columns later) ->
    (forall b, In b (frame_columns later) -> has_edge g a b = false) ->
    g_edges (join_later g a xi later)
    = g_edges g ++ map pair_edge (map (pair (a, xi)) later).
Proof.
  induction later as [|[b xb] later IH]; intros g a xi Hnd Ha Hno; simpl.
  - rewrite app_nil_r. reflexivity.
  - inversion Hnd as [|? ? Hb Hnd']; subst.
    assert (Hab : a <> b) by (intros ->; apply Ha; left; reflexivity).
    assert (Enew : g_edges (add_edge (add_node g b) a b
                              (Some (mutual_info_score xi xb)))
                   = g_edges g ++ [(a, b, Some (mutual_info_score xi xb))]).
    { unfold add_edge. rewrite !add_node_edges.
      replace (has_edge (add_node (add_node (add_node g b) a) b) a b)
        with false; [reflexivity|].
      symmetry. unfold has_edge. rewrite !add_node_edges.
      apply (Hno b). left. reflexivity. }
    rewrite IH; auto.
    + rewrite Enew, <- app_assoc. reflexivity.
    + intros H. apply Ha. right. exact H.
    + intros c Hc. unfold has_edge. rewrite Enew, existsb_app. simpl.
      rewrite orb_false_r.
      replace (existsb (joins a c) (g_edges g)) with false
        by (symmetry; apply (Hno c); right; exact Hc).
      simpl. rewrite node_eqb_refl. simpl.
      replace (node_eqb b c) with false
        by (symmetry; apply node_eqb_neq; intros ->; contradiction).
      replace (node_eqb a c) with false; auto.
      symmetry. apply node_eqb_neq. intros ->. apply Ha. right. exact Hc.
Qed.

(** For columns with distinct names the double loop adds one edge for
    every pair of columns, in the order of the pairs. *)
Lemma join_all_edges (df : frame) :
  forall g,
    NoDup (frame_columns df) ->
    (forall a b, In a (frame_columns df) -> In b (frame_columns df) ->
                 has_edge g a b = false) ->
    g_edges (join_all g df) = g_edges g ++ map pair_edge (all_pairs df).
Proof.
  induction df as [|[a xi] df IH]; intros g Hnd Hno; simpl.
  - rewrite app_nil_r. reflexivity.
  - inversion Hnd as [|? ? Ha Hnd']; subst.
    assert (E1 : g_edges (join_later (add_node g a) a xi df)
                 = g_edges g ++ map pair_edge (map (pair (a, xi)) df)).
    { rewrite join_later_edges; auto.
      - rewrite add_node_edges. reflexivity.
      - intros b Hb. unfold has_edge. rewrite add_node_edges.
        apply (Hno a b); [left; reflexivity|right; exact Hb]. }
    rewrite IH; auto.
    + rewrite E1, map_app, <- app_assoc. reflexivity.
    + intros b c Hb Hc. unfold has_edge. rewrite E1, existsb_app.
      replace (existsb (joins b c) (g_edges g)) with false
        by (symmetry; apply (Hno b c); right; auto).
      simpl. apply not_true_is_false. intros H.
      apply existsb_exists in H. destruct H as [e [He Hj]].
      apply in_map_iff in He. destruct He as [p [<- Hp]].
      apply in_map_iff in Hp. destruct Hp as [[d xd] [<- Hd]].
      apply joins_spec in Hj. simpl in Hj.
      destruct Hj as [[-> _]|[-> _]]; contradiction.
Qed.

(** The weight of a pair of columns is their mutual information, the
    column that comes first in the table first. *)
Lemma pair_weight_spec (df : frame) (a b : node) (xa xb : column) :
  NoDup (frame_columns df) ->
  In ((a, xa), (b, xb)) (all_pairs df) ->
  pair_weight mutual_info_score df a b = mutual_info_score xa xb
  /\ pair_weight mutual_info_score df b a = mutual_info_score xa xb.
Proof.
  intros Hnd Hin.
  assert (E : pair_weight mutual_info_score df a b = mutual_info_score xa xb).
  { unfold pair_weight, edge_attr.
    rewrite (join_all_edges df empty_graph Hnd) by (intros; reflexivity).
    simpl.
    destruct (find (joins a b) (map pair_edge (all_pairs df))) as [e|] eqn:Ef.
    - apply find_some in Ef. destruct Ef as [He Hj].
      apply in_map_iff in He. destruct He as [[[c xc] [d xd]] [<- Hp]].
      apply joins_spec in Hj. simpl in Hj. simpl.
      assert (Hnames : In (c, d) (all_pairs (frame_columns df))).
      { unfold frame_columns. rewrite all_pairs_map.
        apply in_map_iff. exists ((c, xc), (d, xd)). auto. }
      assert (Hab : In (a, b) (all_pairs (frame_columns df))).
      { unfold frame_columns. rewrite all_pairs_map.
        apply in_map_iff. exists ((a, xa), (b, xb)). auto. }
      destruct Hj as [[-> ->]|[-> ->]].
      + apply all_pairs_In in Hp, Hin.
        destruct Hp as [Hc Hd]. destruct Hin as [Ha Hb].
        pose proof (get_column_In df a xc Hnd Hc) as E1.
        rewrite (get_column_In df a xa Hnd Ha) in E1.
        pose proof (get_column_In df b xd Hnd Hd) as E2.
        rewrite (get_column_In df b xb Hnd Hb) in E2.
        injection E1 as ->. injection E2 as ->. reflexivity.
      + exfalso. destruct (all_pairs_apart _ a b Hnd Hab) as [_ H].
        contradiction.
    - exfalso.
      pose proof (find_none _ _ Ef (pair_edge ((a, xa), (b, xb)))
                    (in_map pair_edge _ _ Hin)) as H.
      simpl in H. rewrite !node_eqb_refl in H. discriminate. }
  split; auto. unfold pair_weight in *. rewrite edge_attr_sym. exact E.
Qed.

End CompleteGraphEdges.

(** ** The tree the tree search returns *)

Section TreeSearchTree.

Variable mutual_info_score : column -> column -> Q.
Variable data : frame.
Variable class_node : node.
Hypothesis distinct_names : NoDup (frame_columns data).

Let cols := frame_columns (features data class_node).

Local Abbreviation tan_estimate :=
  (TreeAugmentedNaiveBayesSearch.estimate mutual_info_score data class_node).

Let complete_graph :=
  TreeAugmentedNaiveBayesSearch.join_all mutual_info_score empty_graph
    (features data class_node).

Let tree_graph := maximum_spanning_tree complete_graph.

Local Abbreviation weight :=
  (pair_weight mutual_info_score (features data class_node)).

Lemma complete_graph_spec :
  well_formed complete_graph
  /\ forall a b, In a cols -> In b cols -> a <> b ->
                 In b (adj complete_graph a).
Proof.
  assert (W0 : well_formed empty_graph).
  { split; simpl; [constructor|]. intros a b w []. }
  destruct (join_all_spec mutual_info_score (features data class_node)
              empty_graph W0) as [WG [_ [_ JG]]].
  fold complete_graph in WG, JG. fold cols in JG.
  split; auto. intros a b Ha Hb Hne. apply has_edge_adj.
  destruct (all_pairs_total cols a b Ha Hb Hne) as [H|H].
  - apply JG. exact H.
  - rewrite has_edge_sym. apply JG. exact H.
Qed.

(** The graph returned, in terms of the breadth-first tree. *)
Lemma tree_search_shape (root_node : option node) (dag : DiGraph) :
  tan_estimate root_node = Ret dag ->
  exists r tree,
    In r cols /\ grown r tree
    /\ (forall p c, In (p, c) tree -> In c (adj tree_graph p))
    /\ (forall x, In x cols -> In x (r :: map snd tree))
    /\ feature_edges dag class_node = tree.
Proof.
  unfold TreeAugmentedNaiveBayesSearch.estimate.
  destruct (negb (mem class_node (frame_columns data))); [discriminate|].
  destruct (match root_node with
            | Some r => negb (mem r (frame_columns data))
            | None => false
            end); [discriminate|].
  fold complete_graph. fold tree_graph. fold cols.
  destruct (tree_graph_spec mutual_info_score data class_node distinct_names)
    as [WT [NT CT]].
  fold complete_graph in WT, NT, CT. fold tree_graph in WT, NT, CT.
  fold cols in NT, CT.
  assert (Hrooted :
            forall r,
              (digraph <- bfs_tree tree_graph r ;;
               DAG (attach_class digraph class_node cols)) = Ret dag ->
              exists tree,
                In r cols /\ grown r tree
                /\ (forall p c, In (p, c) tree -> In c (adj tree_graph p))
                /\ (forall x, In x cols -> In x (r :: map snd tree))
                /\ feature_edges dag class_node = tree).
  { intros r H.
    assert (Hr : In r (g_nodes tree_graph)).
    { unfold bfs_tree, search_tree in H.
      destruct (mem r (g_nodes tree_graph)) eqn:Em; [|discriminate].
      apply mem_In. exact Em. }
    destruct (search_tree_spec false tree_graph r WT Hr)
      as [tree [E [Hg [Ht Hc]]]].
    fold bfs_tree in E. rewrite E in H. simpl in H.
    pose proof (frame_columns_features data class_node distinct_names) as Hnd.
    pose proof (class_not_feature data class_node) as Hcl.
    fold cols in Hnd, Hcl.
    assert (Hin : forall p c, In (p, c) tree -> In p cols /\ In c cols).
    { intros p c Hpc. rewrite <- NT.
      apply (adj_in_nodes tree_graph p c WT). apply Ht. exact Hpc. }
    rewrite (attached_is_dag class_node cols r tree Hnd Hcl Hg Hin) in H.
    injection H as <-.
    exists tree. rewrite NT in Hr. split; auto. split; auto. split; auto.
    split.
    - intros x Hx. apply Hc. apply connected_conn; auto.
    - apply attached_feature_edges; auto. }
  destruct (truthy root_node).
  - destruct root_node as [r|]; [|discriminate].
    intros H. exists r. apply Hrooted. exact H.
  - destruct (first_column (features data class_node)) as [r0|e|];
      simpl; try discriminate.
    intros H. exists r0. apply Hrooted. exact H.
Qed.

(** The arcs between feature columns are the edges of the maximum
    spanning tree, each in one direction. *)
Lemma tree_search_skeleton (root_node : option node) (dag : DiGraph) :
  tan_estimate root_node = Ret dag ->
  forall u v, linked (feature_edges dag class_node) u v
              <-> In v (adj tree_graph u).
Proof.
  intros H. destruct (tree_search_shape root_node dag H)
    as [r [tree [Hr [Hg [Ht [Hall ->]]]]]].
  destruct complete_graph_spec as [WG _].
  destruct (maximum_spanning_tree_heavy complete_graph WG) as [FT _].
  fold tree_graph in FT.
  destruct (tree_graph_spec mutual_info_score data class_node distinct_names)
    as [_ [NT _]].
  fold complete_graph in NT. fold tree_graph in NT. fold cols in NT.
  intros u v. split.
  - intros [Huv|Hvu]; [apply Ht; exact Huv|].
    apply adj_of_sym. apply Ht. exact Hvu.
  - apply (tree_covers_forest tree_graph r tree FT Hg Ht).
    intros x Hx. apply Hall. rewrite <- NT. exact Hx.
Qed.

(** X18. The root only orients the tree: two tree searches on the same
    table, whatever their roots, return graphs that join the same pairs
    of feature columns. *)
Theorem tree_search_root_only_orients
  (root1 root2 : option node) (dag1 dag2 : DiGraph) :
  tan_estimate root1 = Ret dag1 ->
  tan_estimate root2 = Ret dag2 ->
  forall u v, linked (feature_edges dag1 class_node) u v
              <-> linked (feature_edges dag2 class_node) u v.
Proof.
  intros H1 H2 u v.
  rewrite (tree_search_skeleton root1 dag1 H1 u v).
  rewrite (tree_search_skeleton root2 dag2 H2 u v).
  reflexivity.
Qed.

(** X19. The tree returned is a heaviest one.  The weight of a pair of
    feature columns is their mutual information, the column that comes
    first in the table first; and any two feature columns are joined in
    the returned graph by arcs between feature columns that each weigh
    at least as much as the pair itself, so that exchanging an arc of the
    tree for any other pair cannot make the tree heavier. *)
Theorem tree_search_is_heaviest :
  (forall a xa b xb,
      In ((a, xa), (b, xb)) (all_pairs (features data class_node)) ->
      weight a b = mutual_info_score xa xb
      /\ weight b a = mutual_info_score xa xb)
  /\ forall root_node dag,
      tan_estimate root_node = Ret dag ->
      forall a b, In a cols -> In b cols ->
        conn (either_way
                (filter (fun arc => Qle_bool (weight a b)
                                             (weight (fst arc) (snd arc)))
                        (feature_edges dag class_node)))
             a b.
Proof.
  split.
  { intros a xa b xb H. apply pair_weight_spec; auto.
    apply frame_columns_features. exact distinct_names. }
  intros root_node dag H a b Ha Hb.
  destruct (node_dec a b) as [->|Hne]; [apply conn_refl|].
  destruct complete_graph_spec as [WG Hcomplete].
  destruct (maximum_spanning_tree_heavy complete_graph WG)
    as [_ [Hedges Hheavy]].
  fold tree_graph in Hedges, Hheavy.
  pose proof (tree_search_skeleton root_node dag H) as Hskel.
  specialize (Hheavy a b (Hcomplete a b Ha Hb Hne)).
  change (weight_of (edge_attr complete_graph a b)) with (weight a b)
    in Hheavy.
  eapply conn_incl; [|exact Hheavy].
  intros x y Hxy. apply either_way_linked.
  apply adj_of_In in Hxy. destruct Hxy as [wt Hxy].
  assert (Hone : forall p c, In (p, c, wt)
                               (heavier (weight a b) (g_edges tree_graph)) ->
                 linked (filter (fun arc => Qle_bool (weight a b)
                                              (weight (fst arc) (snd arc)))
                                (feature_edges dag class_node)) p c).
  { intros p c Hpc. unfold heavier in Hpc. apply filter_In in Hpc.
    destruct Hpc as [Hin Hw]. simpl in Hw.
    destruct (Hedges p c wt Hin) as [_ ->].
    assert (Hadj : In c (adj tree_graph p)).
    { apply adj_of_In. exists (edge_attr complete_graph p c). auto. }
    apply Hskel in Hadj. destruct Hadj as [Harc|Harc].
    - left. apply filter_In. split; [exact Harc|exact Hw].
    - right. apply filter_In. split; [exact Harc|].
      simpl. unfold pair_weight. fold complete_graph.
      rewrite (edge_attr_sym complete_graph c p). exact Hw. }
  destruct Hxy as [Hxy|Hxy].
  - apply Hone. exact Hxy.
  - apply linked_sym. apply Hone. exact Hxy.
Qed.

End TreeSearchTree.

(** ** Worked instances of the tree search *)

Lemma tree_search_root_instance :
  (exists dag1 dag2,
      TreeAugmentedNaiveBayesSearch.estimate sample_score four_table
        "Class" None = Ret dag1
      /\ TreeAugmentedNaiveBayesSearch.estimate sample_score four_table
           "Class" (Some "D") = Ret dag2
      /\ forall u v, linked (feature_edges dag1 "Class") u v
                     <-> linked (feature_edges dag2 "Class") u v)%string.
Proof.
  destruct (TreeAugmentedNaiveBayesSearch.estimate sample_score four_table
              "Class"%string None) as [dag1|e|] eqn:E1;
    [|vm_compute in E1; discriminate|vm_compute in E1; discriminate].
  destruct (TreeAugmentedNaiveBayesSearch.estimate sample_score four_table
              "Class"%string (Some "D"%string)) as [dag2|e|] eqn:E2;
    [|vm_compute in E2; discriminate|vm_compute in E2; discriminate].
  exists dag1, dag2. split; [reflexivity|]. split; [reflexivity|].
  exact (tree_search_root_only_orients sample_score four_table "Class"%string
           four_table_names None (Some "D"%string) dag1 dag2 E1 E2).
Defined.

Lemma tree_search_is_heaviest_instance :
  (exists dag,
      TreeAugmentedNaiveBayesSearch.estimate sample_score four_table
        "Class" None = Ret dag
      /\ conn (either_way
                 (filter
                    (fun arc =>
                       Qle_bool
                         (pair_weight sample_score
                            (features four_table "Class") "B" "D")
                         (pair_weight sample_score
                            (features four_table "Class")
                            (fst arc) (snd arc)))
                    (feature_edges dag "Class")))
              "B" "D")%string.
Proof.
  destruct (TreeAugmentedNaiveBayesSearch.estimate sample_score four_table
              "Class"%string None) as [dag|e|] eqn:E;
    [|vm_compute in E; discriminate|vm_compute in E; discriminate].
  destruct (tree_search_is_heaviest sample_score four_table "Class"%string
              four_table_names) as [_ H].
  exists dag. split; [reflexivity|].
  apply (H None dag E); simpl; auto 10.
Defined.

(** ** How long the first separation test can run *)

Lemma filter_drops_member {A : Type} (f : A -> bool) (l : list A) (x : A) :
  In x l -> f x = false -> (List.length (filter f l) < List.length l)%nat.
Proof.
  induction l as [|y l IH]; simpl; [tauto|].
  intros [->|Hin] Hf.
  - rewrite Hf. pose proof (filter_length_le f l). lia.
  - specialize (IH Hin Hf). destruct (f y); simpl; lia.
Qed.

Section SeparateABound.

Variable mutual_info_score : column -> column -> Q.
Variable data : frame.
Variable epsilon : Q.

Local Abbreviation step := (separate_a_step mutual_info_score data epsilon).

Lemma separate_a_step_ends (graph : Graph) (node1 node2 : node)
                           (n2 : list node) (s : separate_a_state) :
  step graph node1 node2 n2 s <> Timeout.
Proof.
  destruct s as [[[c v] skip] used]. unfold separate_a_step.
  apply bind_ends.
  - destruct (negb skip); [|discriminate].
    apply bind_ends; [apply score_given_ends|]. discriminate.
  - intros [v1 sep]. destruct sep; [discriminate|].
    destruct (_ =? _)%nat.
    { destruct (negb used); discriminate. }
    apply bind_ends.
    { generalize (g_nodes graph). intros nodes.
      induction nodes as [|nd nodes IH]; simpl; [discriminate|].
      apply bind_ends; [apply score_given_ends|]. intros vi.
      apply bind_ends; [exact IH|]. intros [vs cs]. discriminate. }
    intros [values conditions].
    apply bind_ends; [apply argmin_ends|]. intros k.
    destruct (Qltb _ epsilon); [discriminate|].
    destruct (Qltb v1 _); [destruct (negb used)|]; discriminate.
Qed.

(** A pass that reaches the loop head again has switched to [n2] for the
    first time, or has kept [c], or has taken nodes out of [c]. *)
Lemma separate_a_step_next (graph : Graph) (node1 node2 : node)
                           (n2 c c' : list node) (v v' : Q)
                           (skip skip' used used' : bool) :
  step graph node1 node2 n2 (c, v, skip, used)
  = Ret (inr (c', v', skip', used')) ->
  (used = false /\ used' = true /\ c' = n2)
  \/ (skip' = true /\ used' = used
      /\ (c' = c \/ (List.length c' < List.length c)%nat)).
Proof.
  unfold separate_a_step.
  destruct (if negb skip then _ else _) as [[v1 sep]|e|]; simpl;
    try discriminate.
  destruct sep; [discriminate|].
  destruct (List.length c =? 1)%nat.
  { destruct used; simpl; [discriminate|].
    intros H. injection H as <- _ _ <-. auto. }
  destruct (shrink_candidates mutual_info_score data node1 node2 c
              (g_nodes graph)) as [[values conditions]|e|] eqn:Es;
    simpl; try discriminate.
  destruct (argmin values) as [k|e|] eqn:Ek; simpl; try discriminate.
  destruct (Qltb _ epsilon); [discriminate|].
  destruct (Qltb v1 _).
  { destruct used; simpl; [discriminate|].
    intros H. injection H as <- _ _ <-. auto. }
  intros H. injection H as <- _ <- <-. right. split; auto. split; auto.
  destruct (shrink_candidates_spec mutual_info_score data node1 node2 c
              (g_nodes graph) values conditions Es) as [H1 [H2 H3]].
  destruct (argmin_spec values k Ek) as [Hk _].
  destruct (H3 k ltac:(lia)) as [-> _].
  set (nd := nth k (g_nodes graph) EmptyString).
  destruct (in_dec node_dec nd c) as [Hin|Hout].
  - right. unfold without.
    apply (filter_drops_member (fun m => negb (node_eqb m nd)) c nd Hin).
    rewrite node_eqb_refl. reflexivity.
  - left. apply without_absent. exact Hout.
Qed.

(** X20. [try_to_separate_a] returns within [len(n1) + len(n2) + 2]
    passes of its loop or not at all: when it has not returned by then
    it is caught in the pass that keeps [c] unchanged, and it never
    returns. *)
Theorem try_to_separate_a_bound
  (graph : Graph) (node1 node2 : node) (n1 n2 : list node) :
  separate_a_start graph node1 node2 = Ret (n1, n2) ->
  try_to_separate_a mutual_info_score data epsilon
                    (List.length n1 + List.length n2 + 2)
                    graph node1 node2 = Timeout ->
  forall fuel,
    try_to_separate_a mutual_info_score data epsilon fuel graph node1 node2
    = Timeout.
Proof.
  intros Es. unfold try_to_separate_a. rewrite Es. cbn [bind].
  set (measure := fun s : separate_a_state =>
                    let '(c, _, _, used) := s in
                    (List.length c
                     + (if used then 0 else S (List.length n2)))%nat).
  assert (Hrun : forall fuel s,
             (measure s < fuel)%nat ->
             while_true (step graph node1 node2 n2) fuel s = Timeout ->
             forall fuel',
               while_true (step graph node1 node2 n2) fuel' s = Timeout).
  { induction fuel as [|fuel IH]; intros s Hm Ht fuel'; [lia|].
    cbn [while_true] in Ht.
    pose proof (separate_a_step_ends graph node1 node2 n2 s) as Hends.
    destruct (step graph node1 node2 n2 s) as [[r|s']|e|] eqn:E;
      simpl in Ht; try discriminate; try congruence.
    destruct s as [[[c v] skip] used]. destruct s' as [[[c' v'] skip'] used'].
    destruct (separate_a_step_next graph node1 node2 n2 c c' v v'
                skip skip' used used' E)
      as [[-> [-> ->]]|[-> [-> [->|Hlt]]]].
    - destruct fuel' as [|fuel']; [reflexivity|].
      cbn [while_true]. rewrite E. cbn [bind].
      apply IH; auto. simpl in *. lia.
    - apply (separate_a_stuck mutual_info_score data epsilon graph
               node1 node2 n2 c v v' skip used used E).
    - destruct fuel' as [|fuel']; [reflexivity|].
      cbn [while_true]. rewrite E. cbn [bind].
      apply IH; auto. simpl in *. lia. }
  apply Hrun. simpl. lia.
Qed.

End SeparateABound.

(** ** The [break] of the drafting scan *)

Section DraftBreak.

Variable mutual_info_score : column -> column -> Q.
Variable data : frame.
Variable class_node : node.
Variable epsilon : Q.
Hypothesis distinct_names : NoDup (frame_columns data).

Variables a1 b1 a2 b2 : node.
Variables m1 m2 : Q.
Variable L : list candidate.
Hypothesis sorted_candidates :
  sort_desc (candidate_pairs mutual_info_score epsilon
               (features data class_node))
  = (a1, b1, m1) :: (a2, b2, m2) :: L.

(** X21. The drafting scan never leaves through its [break]: at every
    loop head it reaches, [len(graph.edges) - 1] differs from
    [len(graph.nodes)], since the graph is a forest and has fewer edges
    than nodes. *)
Theorem scan_never_breaks (s : scan_state) :
  scan_reaches
    (add_edge (add_edge (add_nodes_from empty_graph
                           (frame_columns (features data class_node)))
                        a1 b1 (Some m1)) a2 b2 (Some m2),
     L, 0%Z, Z.of_nat (List.length L)) s ->
  scan_break (scan_graph s) = false
  /\ (number_of_edges (scan_graph s) < number_of_nodes (scan_graph s))%nat.
Proof.
  intros Hreach.
  pose proof (start_invariant mutual_info_score data class_node epsilon
                distinct_names a1 b1 a2 b2 m1 m2 L sorted_candidates)
    as Hstart.
  pose proof (scan_reaches_invariant _ _ Hstart Hreach) as Hinv.
  destruct s as [[[g L'] i] n]. destruct Hinv as [Hf [Hne _]].
  unfold scan_graph. cbn [fst].
  pose proof (forest_edges_lt g Hf Hne) as Hlt.
  split; [|exact Hlt].
  unfold scan_break. apply Z.eqb_neq. lia.
Qed.

End DraftBreak.

(** ** The nodes of the graphs returned *)

Lemma d_add_node_nodes (d : DiGraph) (n : node) :
  NoDup (d_nodes d) ->
  NoDup (d_nodes (d_add_node d n))
  /\ forall x, In x (d_nodes (d_add_node d n)) <-> In x (d_nodes d) \/ x = n.
Proof.
  intros Hnd. unfold d_add_node.
  destruct (mem n (d_nodes d)) eqn:E.
  - apply mem_In in E. split; auto. intros x. split; auto.
    intros [H| ->]; auto.
  - apply mem_not_In in E. simpl. split.
    + apply NoDup_app; auto.
      * constructor; [tauto|constructor].
      * intros x Hx [<-|[]]. tauto.
    + intros x. rewrite in_app_iff. simpl. intuition.
Qed.

Lemma d_add_edge_nodes (d : DiGraph) (u v : node) :
  NoDup (d_nodes d) ->
  NoDup (d_nodes (d_add_edge d u v))
  /\ forall x, In x (d_nodes (d_add_edge d u v))
               <-> In x (d_nodes d) \/ x = u \/ x = v.
Proof.
  intros Hnd.
  destruct (d_add_node_nodes d u Hnd) as [N1 H1].
  destruct (d_add_node_nodes (d_add_node d u) v N1) as [N2 H2].
  assert (E : d_nodes (d_add_edge d u v)
              = d_nodes (d_add_node (d_add_node d u) v)).
  { unfold d_add_edge. cbv zeta.
    destruct (existsb _ _); reflexivity. }
  rewrite E. split; auto.
  intros x. rewrite H2, H1. tauto.
Qed.

Lemma attach_class_nodes (class_node : node) (cols : list node) :
  forall d, NoDup (d_nodes d) ->
    NoDup (d_nodes (attach_class d class_node cols))
    /\ forall x, In x (d_nodes (attach_class d class_node cols))
                 <-> In x (d_nodes d)
                     \/ (cols <> [] /\ x = class_node) \/ In x cols.
Proof.
  unfold attach_class.
  induction cols as [|n cols IH]; intros d Hnd; simpl.
  - split; auto. intros x. intuition.
  - destruct (d_add_edge_nodes d class_node n Hnd) as [N1 H1].
    destruct (IH _ N1) as [N2 H2]. split; auto.
    intros x. rewrite H2, H1. split.
    + intros [[H|[H|H]]|[[_ H]|H]]; auto.
      * right. left. split; [discriminate|auto].
      * right. left. split; [discriminate|auto].
    + intros [H|[[_ H]|[H|H]]]; auto.
Qed.

Section ResultNodes.

Variable mutual_info_score : column -> column -> Q.
Variable data : frame.
Variable class_node : node.
Hypothesis distinct_names : NoDup (frame_columns data).

Let cols := frame_columns (features data class_node).

(** The nodes of a traversal tree over feature columns with the class
    node attached. *)
Lemma attached_nodes (r : node) (tree : list (node * node)) :
  In class_node (frame_columns data) ->
  In r cols -> grown r tree ->
  (forall p c, In (p, c) tree -> In p cols /\ In c cols) ->
  let dag := attach_class (mkDiGraph (r :: map snd tree) tree)
                          class_node cols in
  NoDup (d_nodes dag)
  /\ forall x, In x (d_nodes dag) <-> In x (frame_columns data).
Proof.
  intros Hc Hr Hg Hin dag.
  destruct (attach_class_nodes class_node cols
              (mkDiGraph (r :: map snd tree) tree)
              (grown_NoDup r tree Hg)) as [N H].
  split; [exact N|].
  intros x. unfold dag. rewrite H. cbn [d_nodes].
  pose proof (feature_columns data class_node x) as Hx. fold cols in Hx.
  split.
  - intros [[<-|Hs]|[[_ ->]|Hf]]; auto.
    + apply (feature_columns data class_node). exact Hr.
    + apply in_map_iff in Hs. destruct Hs as [[p c] [E Hpc]].
      simpl in E. subst c. destruct (Hin p x Hpc) as [_ Hxc].
      apply Hx. exact Hxc.
    + apply Hx. exact Hf.
  - intros Hd. destruct (node_dec x class_node) as [->|Hne].
    + right. left. split; auto. intros E. rewrite E in Hr. destruct Hr.
    + right. right. apply Hx. auto.
Qed.

(** X22. The nodes of the graph the constraint-based search returns are
    the columns of the table, each once: also a feature column that no
    tree arc reaches is a node, as a child of the class node. *)
Theorem constraint_search_nodes (epsilon : Q) (fuel : nat) (dag : DiGraph) :
  estimate mutual_info_score data class_node epsilon fuel = Ret dag ->
  NoDup (d_nodes dag)
  /\ forall x, In x (d_nodes dag) <-> In x (frame_columns data).
Proof.
  unfold estimate.
  destruct (mem class_node (frame_columns data)) eqn:Ec; simpl;
    [|discriminate].
  apply mem_In in Ec.
  destruct (skeleton mutual_info_score data class_node epsilon fuel)
    as [g|e|] eqn:Es; simpl; try discriminate.
  destruct (skeleton_wf mutual_info_score data class_node epsilon
              distinct_names fuel g Es) as [Hwf Hnodes].
  intros Ho.
  destruct (first_column (features data class_node)) as [root|e|] eqn:Er;
    [|unfold orient in Ho; rewrite Er in Ho; discriminate
     |unfold orient in Ho; rewrite Er in Ho; discriminate].
  destruct (orient_spec data class_node distinct_names g root Hwf Hnodes Er)
    as [tree [Eo [_ [Hg [Ht _]]]]].
  rewrite Eo in Ho. injection Ho as <-.
  assert (Hroot : In root cols).
  { pose proof (first_column_spec (features data class_node)) as H.
    rewrite Er in H. apply H. }
  apply attached_nodes; auto.
  intros p c Hpc. fold cols in Hnodes. rewrite <- Hnodes.
  apply (adj_in_nodes g p c Hwf). apply Ht. exact Hpc.
Qed.

(** X23. The nodes of the graph the tree search returns are the columns
    of the table, each once. *)
Theorem tree_search_nodes (root_node : option node) (dag : DiGraph) :
  TreeAugmentedNaiveBayesSearch.estimate mutual_info_score data class_node
    root_node = Ret dag ->
  NoDup (d_nodes dag)
  /\ forall x, In x (d_nodes dag) <-> In x (frame_columns data).
Proof.
  unfold TreeAugmentedNaiveBayesSearch.estimate.
  destruct (mem class_node (frame_columns data)) eqn:Ec; simpl;
    [|discriminate].
  apply mem_In in Ec.
  destruct (match root_node with
            | Some r => negb (mem r (frame_columns data))
            | None => false
            end); [discriminate|].
  set (tree_graph :=
         maximum_spanning_tree
           (TreeAugmentedNaiveBayesSearch.join_all mutual_info_score
              empty_graph (features data class_node))).
  fold cols.
  assert (Hrooted :
            forall r,
              (digraph <- bfs_tree tree_graph r ;;
               DAG (attach_class digraph class_node cols)) = Ret dag ->
              NoDup (d_nodes dag)
              /\ forall x, In x (d_nodes dag) <-> In x (frame_columns data)).
  { intros r H.
    assert (Hr : In r cols).
    { destruct (tree_graph_spec mutual_info_score data class_node
                  distinct_names) as [_ [N _]].
      fold tree_graph in N. fold cols in N. rewrite <- N.
      unfold bfs_tree, search_tree in H.
      destruct (mem r (g_nodes tree_graph)) eqn:Em; [|discriminate].
      apply mem_In. exact Em. }
    destruct (rooted_search mutual_info_score data class_node
                distinct_names r Hr) as [tree [E [Hg [Hin _]]]].
    fold tree_graph in E. fold cols in E.
    rewrite E in H. injection H as <-.
    apply attached_nodes; auto. }
  destruct (truthy root_node).
  - destruct root_node as [r|]; [|discriminate]. apply Hrooted.
  - destruct (first_column (features data class_node)) as [r0|e|];
      simpl; try discriminate.
    apply Hrooted.
Qed.

End ResultNodes.

(** ** Worked instances: the bound of the first test, the scan, the nodes *)

Lemma try_to_separate_a_bound_instance :
  (try_to_separate_a sample_score four_table default_epsilon 1000
     (mkGraph ["A"; "B"; "C"; "D"]
        [("A", "B", None); ("C", "D", None); ("A", "C", None);
         ("B", "C", None)])
     "B" "D" = Timeout)%string.
Proof.
  apply (try_to_separate_a_bound sample_score four_table default_epsilon
           (mkGraph ["A"; "B"; "C"; "D"]%string
              [("A", "B", None); ("C", "D", None); ("A", "C", None);
               ("B", "C", None)]%string)
           "B"%string "D"%string ["C"; "C"]%string ["A"; "C"; "C"]%string);
    vm_compute; reflexivity.
Defined.

Lemma scan_never_breaks_instance :
  (exists a1 b1 a2 b2 m1 m2 L,
      sort_desc (candidate_pairs sample_score default_epsilon
                   (features four_table "Class"))
      = (a1, b1, m1) :: (a2, b2, m2) :: L
      /\ let g := add_edge
                    (add_edge (add_nodes_from empty_graph
                                 (frame_columns (features four_table "Class")))
                              a1 b1 (Some m1)) a2 b2 (Some m2) in
         scan_break g = false
         /\ (number_of_edges g < number_of_nodes g)%nat)%string.
Proof.
  destruct (sort_desc (candidate_pairs sample_score default_epsilon
                         (features four_table "Class"%string)))
    as [|[[a1 b1] m1] [|[[a2 b2] m2] L]] eqn:E;
    [vm_compute in E; discriminate|vm_compute in E; discriminate|].
  exists a1, b1, a2, b2, m1, m2, L. split; [reflexivity|].
  exact (scan_never_breaks sample_score four_table "Class"%string
           default_epsilon four_table_names a1 b1 a2 b2 m1 m2 L E _
           (reaches_here _)).
Defined.

Lemma constraint_search_nodes_instance :
  (exists dag,
      estimate sample_score three_table "Class" default_epsilon 10 = Ret dag
      /\ NoDup (d_nodes dag)
      /\ forall x, In x (d_nodes dag) <-> In x (frame_columns three_table))%string.
Proof.
  destruct (estimate sample_score three_table "Class"%string default_epsilon 10)
    as [dag|e|] eqn:E;
    [|vm_compute in E; discriminate|vm_compute in E; discriminate].
  exists dag. split; [reflexivity|].
  exact (constraint_search_nodes sample_score three_table "Class"%string
           three_table_names default_epsilon 10 dag E).
Defined.

Lemma tree_search_nodes_instance :
  (exists dag,
      TreeAugmentedNaiveBayesSearch.estimate sample_score four_table
        "Class" None = Ret dag
      /\ NoDup (d_nodes dag)
      /\ forall x, In x (d_nodes dag) <-> In x (frame_columns four_table))%string.
Proof.
  destruct (TreeAugmentedNaiveBayesSearch.estimate sample_score four_table
              "Class"%string None) as [dag|e|] eqn:E;
    [|vm_compute in E; discriminate|vm_compute in E; discriminate].
  exists dag. split; [reflexivity|].
  exact (tree_search_nodes sample_score four_table "Class"%string
           four_table_names None dag E).
Defined.
